(** * Deployment dashboard: a shallow embedding of the deploy pipeline

  The development follows the layout of the JavaScript sources:
  - [Js], [Path]        strings, truthiness, thrown errors and Node's POSIX
                        [path] functions as the code uses them;
  - [Validator]         [resolveDeployPath] of the project validator;
  - [Guards]            [ensureWithinBase], [ensureDeployPathWithinRoot];
  - [Command], [Runner] [redactText] and [runCommand] of [command.js];
  - [Store], [Sys]      the records kept on disk, and the host (file
                        system, log streams, subprocesses, clock) behind a
                        state-and-exception monad;
  - [Config], [ProjectStore], [DeploymentStore], [EnvBuilder],
    [CommandTemplates], [NginxManager]   the modules of the same names;
  - [Engine]            [queueDeployment], [processQueue], [runDeployment]
                        and [rollbackProject] of the deploy engine, the
                        queue as a step relation between [await]s;
  - [LegacyEngine]      the release step of [api/lib/deployEngine.js];
  - [Storage], [Server] [formatEnvForStorage] and [saveProject] of the
                        project store, [slugifyProjectId] of [server.js];
  - [Bytes], [Base64], [Utf8], [Secrets]   [secrets.js] and the encodings
                        it goes through.
  Definitions come first, the theorems about them afterwards. *)

From Stdlib Require Import ZArith Ascii String List Bool Lia.
From stdpp Require Import base option list strings gmap pretty.

Local Open Scope string_scope.

(* ===================================================================== *)
(** ** JavaScript values as the sources use them *)
(* ===================================================================== *)

Module Js.

(** A call either returns or throws [new Error(msg)]. *)
Inductive result (A : Type) : Type :=
| Ok (a : A)
| Throw (msg : string).
Arguments Ok {A} a.
Arguments Throw {A} msg.

Definition is_ok {A} (r : result A) : bool :=
  match r with Ok _ => true | Throw _ => false end.

(** Strings are sequences of code units; the model keeps the code units
    U+0000..U+00FF, one [ascii] each. *)
Definition code (c : ascii) : nat := nat_of_ascii c.

(** White space as [String.prototype.trim] and the regular expression
    class [\s] see it, restricted to the modelled code units. *)
Definition is_space (c : ascii) : bool :=
  let n := code c in
  (Nat.leb 9 n && Nat.leb n 13) || Nat.eqb n 32 || Nat.eqb n 160.

Fixpoint trimStart (s : string) : string :=
  match s with
  | String c s' => if is_space c then trimStart s' else s
  | EmptyString => EmptyString
  end.

Fixpoint trimEnd (s : string) : string :=
  match s with
  | String c s' =>
      match trimEnd s' with
      | EmptyString => if is_space c then EmptyString else String c EmptyString
      | t => String c t
      end
  | EmptyString => EmptyString
  end.

Definition trim (s : string) : string := trimEnd (trimStart s).

(** [s.startsWith(p)] *)
Definition startsWith (s p : string) : bool := String.prefix p s.

Fixpoint endsWith_slash (s : string) : bool :=
  match s with
  | EmptyString => false
  | String c EmptyString => Ascii.eqb c "/"
  | String _ s' => endsWith_slash s'
  end.

(** [s.split(sep)] for a one-character separator. *)
Fixpoint split (sep : ascii) (s : string) : list string :=
  match s with
  | EmptyString => [EmptyString]
  | String c s' =>
      if Ascii.eqb c sep then EmptyString :: split sep s'
      else match split sep s' with
           | seg :: rest => String c seg :: rest
           | [] => [String c EmptyString]
           end
  end.

(** [segs.join(sep)] *)
Fixpoint join (sep : string) (segs : list string) : string :=
  match segs with
  | [] => EmptyString
  | [x] => x
  | x :: rest => x ++ sep ++ join sep rest
  end.

(** [s.endsWith(suffix)] *)
Definition endsWith (s suffix : string) : bool :=
  String.prefix (string_of_list_ascii (rev (list_ascii_of_string suffix)))
                (string_of_list_ascii (rev (list_ascii_of_string s))).

(** Truthiness of a string: only [''] is falsy. *)
Definition truthy_str (s : string) : bool :=
  match s with EmptyString => false | _ => true end.

End Js.
Export Js.

(* ===================================================================== *)
(** ** Node's [path] module (POSIX flavour) *)
(* ===================================================================== *)

Module Path.

Definition sep : string := "/".

Definition isAbsolute (p : string) : bool := startsWith p "/".

(** [normalizeString]: resolves [.] and [..] segment by segment.  [acc]
    holds the segments kept so far, last one first. *)
Fixpoint normalizeSegs (allowAboveRoot : bool) (acc : list string)
         (segs : list string) : list string :=
  match segs with
  | [] => rev acc
  | seg :: rest =>
      if String.eqb seg "" || String.eqb seg "." then
        normalizeSegs allowAboveRoot acc rest
      else if String.eqb seg ".." then
        match acc with
        | last :: acc' =>
            if String.eqb last ".."
            then normalizeSegs allowAboveRoot (".." :: acc) rest
            else normalizeSegs allowAboveRoot acc' rest
        | [] =>
            if allowAboveRoot
            then normalizeSegs allowAboveRoot [".."] rest
            else normalizeSegs allowAboveRoot [] rest
        end
      else normalizeSegs allowAboveRoot (seg :: acc) rest
  end.

Definition normalizeString (p : string) (allowAboveRoot : bool) : string :=
  join "/" (normalizeSegs allowAboveRoot [] (split "/" p)).

(** [path.normalize] *)
Definition normalize (p : string) : string :=
  match p with
  | EmptyString => "."
  | _ =>
      let abs := isAbsolute p in
      let trailing := endsWith_slash p in
      let body := normalizeString p (negb abs) in
      match body with
      | EmptyString =>
          if abs then "/" else if trailing then "./" else "."
      | _ =>
          let body' := if trailing then body ++ "/" else body in
          if abs then "/" ++ body' else body'
      end
  end.

(** [path.join]: the non-empty arguments joined by [/], then normalized. *)
Definition pjoin (args : list string) : string :=
  match filter (fun a => truthy_str a = true) args with
  | [] => "."
  | parts => normalize (join "/" parts)
  end.

(** The loop of [path.resolve]: arguments are taken from the right until
    an absolute one has been seen. *)
Fixpoint resolveLoop (revArgs : list string) (resolved : string)
  : string * bool :=
  match revArgs with
  | [] => (resolved, false)
  | p :: rest =>
      match p with
      | EmptyString => resolveLoop rest resolved
      | _ =>
          let resolved' := p ++ "/" ++ resolved in
          if isAbsolute p then (resolved', true)
          else resolveLoop rest resolved'
      end
  end.

(** [path.resolve(...args)] in a process whose working directory is [cwd]. *)
Definition resolve (cwd : string) (args : list string) : string :=
  let '(joined, abs) := resolveLoop (rev args ++ [cwd])%list "" in
  let body := normalizeString joined (negb abs) in
  if abs then "/" ++ body
  else match body with EmptyString => "." | _ => body end.

Fixpoint dropWhile (f : ascii -> bool) (l : list ascii) : list ascii :=
  match l with
  | c :: l' => if f c then dropWhile f l' else l
  | [] => []
  end.

(** [path.dirname]: the text before the last separator, trailing
    separators aside; the first character is never dropped. *)
Definition dirname (p : string) : string :=
  match p with
  | EmptyString => "."
  | String c0 rest =>
      let isSlash := fun c : ascii => Ascii.eqb c "/" in
      let r := rev (list_ascii_of_string rest) in
      let r1 := dropWhile isSlash r in
      let r2 := dropWhile (fun c => negb (isSlash c)) r1 in
      match r2 with
      | [] => if isSlash c0 then "/" else "."
      | _ :: r3 =>
          match r3 with
          | [] => if isSlash c0 then "//" else String c0 EmptyString
          | _ => String c0 (string_of_list_ascii (rev r3))
          end
      end
  end.

(** Directory containment, read off the path segments: [p] is [base]
    itself or a descendant of it. *)
Definition segments (p : string) : list string :=
  filter (fun s => truthy_str s = true) (split "/" p).

Definition within (base p : string) : Prop :=
  exists more, segments p = (segments base ++ more)%list.

Fixpoint list_prefixb (l1 l2 : list string) : bool :=
  match l1, l2 with
  | [], _ => true
  | x :: l1', y :: l2' => String.eqb x y && list_prefixb l1' l2'
  | _, [] => false
  end.

Definition withinb (base p : string) : bool :=
  list_prefixb (segments base) (segments p).

End Path.

(* ===================================================================== *)
(** ** The project validator: [resolveDeployPath] *)
(* ===================================================================== *)

Module Validator.
Section WithConfig.

(** [config.NGINX_ROOT] and the working directory of the API process. *)
Variable NGINX_ROOT : string.
Variable cwd : string.

(** [requestedPath] is [None] when the payload value is not a string;
    [projectId] is [None] when it is [undefined]. *)
Definition resolveDeployPath (requestedPath : option string)
           (projectId : option string) : result string :=
  let fallback :=
    match projectId with
    | Some pid => if truthy_str pid then Path.pjoin [NGINX_ROOT; pid]
                  else NGINX_ROOT
    | None => NGINX_ROOT
    end in
  let source :=
    match requestedPath with
    | Some r => if truthy_str (trim r) then trim r else fallback
    | None => fallback
    end in
  let candidate :=
    if startsWith source "/" then source
    else Path.pjoin [NGINX_ROOT; source] in
  let resolved := Path.resolve cwd [candidate] in
  if negb (startsWith resolved NGINX_ROOT)
  then Throw "Deploy path must be inside the server root"
  else Ok resolved.

End WithConfig.
End Validator.

(* ===================================================================== *)
(** ** Path guards of the deploy engine *)
(* ===================================================================== *)

Module Guards.
Section WithConfig.

Variable NGINX_ROOT : string.
Variable cwd : string.

(** [candidate || '.'] *)
Definition orDot (candidate : string) : string :=
  if truthy_str candidate then candidate else ".".

Definition ensureWithinBase (baseDir candidate fieldName : string)
  : result string :=
  let normalizedBase := Path.resolve cwd [baseDir] in
  let resolved := Path.resolve cwd [normalizedBase; orDot candidate] in
  if String.eqb resolved normalizedBase then Ok resolved
  else if negb (startsWith resolved (normalizedBase ++ Path.sep))
  then Throw (fieldName ++ " must stay within the project repository")
  else Ok resolved.

Definition ensureDeployPathWithinRoot (deployPath : string)
  : result string :=
  let root := Path.resolve cwd [NGINX_ROOT] in
  let resolved := Path.resolve cwd [deployPath] in
  if String.eqb resolved root then Ok resolved
  else if negb (startsWith resolved (root ++ Path.sep))
  then Throw "Deploy path must be inside the nginx root"
  else Ok resolved.

(** The release step of the engine variant without guards resolves the
    build output as [path.isAbsolute(outputDir) ? outputDir :
    path.join(repoPath, outputDir)]. *)
Definition unguardedOutput (repoPath outputDir : string) : string :=
  if Path.isAbsolute outputDir then outputDir
  else Path.pjoin [repoPath; outputDir].

End WithConfig.
End Guards.

(* ===================================================================== *)
(** ** The process runner: [command.js] *)
(* ===================================================================== *)

Module Command.

(** Canonical form of a code unit under the [i] flag of a regular
    expression without the [u] flag: the upper-case form when that is a
    single code unit (and not an ASCII one for a non-ASCII input). *)
Definition canon (c : ascii) : ascii :=
  let n := code c in
  if Nat.leb 97 n && Nat.leb n 122 then ascii_of_nat (n - 32)
  else if Nat.leb 224 n && Nat.leb n 254 && negb (Nat.eqb n 247)
       then ascii_of_nat (n - 32)
  else c.

Definition ci_eqb (a b : ascii) : bool := Ascii.eqb (canon a) (canon b).

(** [escapeRegExp(key)] makes the key a literal of the pattern: it is
    matched code unit by code unit, ignoring case.  Returns the matched
    text and what follows it. *)
Fixpoint matchLiteral (key text : string) : option (string * string) :=
  match key with
  | EmptyString => Some (EmptyString, text)
  | String k key' =>
      match text with
      | String t text' =>
          if ci_eqb k t then
            match matchLiteral key' text' with
            | Some (m, rest) => Some (String t m, rest)
            | None => None
            end
          else None
      | EmptyString => None
      end
  end.

(** [[^\s]+] is greedy: the longest run of non-space code units. *)
Fixpoint takeToken (text : string) : string * string :=
  match text with
  | String c text' =>
      if is_space c then (EmptyString, text)
      else let '(tok, rest) := takeToken text' in (String c tok, rest)
  | EmptyString => (EmptyString, EmptyString)
  end.

(** The pattern [new RegExp(`${escapeRegExp(key)}=([^\\s]+)`, 'gi')]
    tried at the head of [text]: the matched text, capture group 1 and
    the rest of the input. *)
Definition matchAt (key text : string)
  : option (string * string * string) :=
  match matchLiteral key text with
  | Some (m, String c after) =>
      if Ascii.eqb c "=" then
        match takeToken after with
        | (EmptyString, _) => None
        | (tok, rest) => Some (m ++ "=" ++ tok, tok, rest)
        end
      else None
  | _ => None
  end.

Definition is_digit (c : ascii) : bool :=
  Nat.leb 48 (code c) && Nat.leb (code c) 57.

(** [GetSubstitution] for a pattern with one capture group and no named
    groups: the replacement string is a template in which [$$], [$&],
    [$`], [$'], [$1] and [$01] are expanded. *)
Fixpoint expand (tpl before matched after cap : string) : string :=
  match tpl with
  | EmptyString => EmptyString
  | String c tpl1 =>
      if negb (Ascii.eqb c "$") then
        String c (expand tpl1 before matched after cap)
      else
        match tpl1 with
        | String d r =>
            if Ascii.eqb d "$" then
              String "$" (expand r before matched after cap)
            else if Ascii.eqb d "&" then
              matched ++ expand r before matched after cap
            else if Ascii.eqb d "`" then
              before ++ expand r before matched after cap
            else if Ascii.eqb d "'" then
              after ++ expand r before matched after cap
            else if Ascii.eqb d "0" then
              match r with
              | String e r2 =>
                  if Ascii.eqb e "1"
                  then cap ++ expand r2 before matched after cap
                  else String "$" (expand tpl1 before matched after cap)
              | EmptyString =>
                  String "$" (expand tpl1 before matched after cap)
              end
            else if Ascii.eqb d "1" then
              cap ++ expand r before matched after cap
            else String "$" (expand tpl1 before matched after cap)
        | EmptyString => "$"
        end
  end.

(** [text.replace(pattern, template)] with the [g] flag: matches are
    looked for from left to right in the original text and do not
    overlap.  [before] is the input already passed, [skip] the number of
    code units left of the match being replaced. *)
Fixpoint replaceScan (key tpl before : string) (skip : nat)
         (text : string) : string :=
  match text with
  | EmptyString => EmptyString
  | String c text' =>
      match skip with
      | S k => replaceScan key tpl (before ++ String c "") k text'
      | O =>
          match matchAt key text with
          | Some (matched, cap, rest) =>
              expand tpl before matched rest cap
              ++ replaceScan key tpl (before ++ String c "")
                             (String.length matched - 1) text'
          | None =>
              String c (replaceScan key tpl (before ++ String c "") 0 text')
          end
      end
  end.

Definition redactOne (key text : string) : string :=
  replaceScan key (key ++ "=[redacted]") "" 0 text.

(** [redactText(text, keys)]; an empty key is skipped. *)
Definition redactText (text : string) (keys : list string) : string :=
  fold_left
    (fun result key => if truthy_str key then redactOne key result
                       else result)
    keys text.

(** The [write] helper of [runCommand]: what reaches [logStream.write]
    for one chunk of subprocess output. *)
Definition write (data : string) (redactKeys : list string) : string :=
  redactText data redactKeys.

(** [haystack.includes(needle)] *)
Fixpoint includes (haystack needle : string) : bool :=
  String.prefix needle haystack ||
  match haystack with
  | String _ h' => includes h' needle
  | EmptyString => false
  end.

End Command.

(* ===================================================================== *)
(** ** Records kept on disk: projects and deployments *)
(* ===================================================================== *)

Module Store.

(** A property of a JSON object: missing, [null], or a value. *)
Inductive field (A : Type) : Type :=
| Absent
| Null
| Val (a : A).
Arguments Absent {A}.
Arguments Null {A}.
Arguments Val {A} a.

Definition truthyS (f : field string) : bool :=
  match f with Val s => truthy_str s | _ => false end.

Definition truthyZ (f : field Z) : bool :=
  match f with Val n => negb (Z.eqb n 0) | _ => false end.

(** [a || b] on properties. *)
Definition orS (a b : field string) : field string :=
  if truthyS a then a else b.
Definition orZ (a b : field Z) : field Z :=
  if truthyZ a then a else b.

(** [{...old, ...upd}] for one property. *)
Definition spread {A} (old upd : field A) : field A :=
  match upd with Absent => old | _ => upd end.

(** One entry of a project's [env] array. *)
Record EnvEntry : Type := mkEnv {
  e_key : field string;
  e_isSecret : bool;
  e_value : field string;
  e_encryptedValue : field string
}.

(** The [env] property as stored: missing or falsy, an array whose
    entries may be [null], the legacy object form, or something else. *)
Inductive RawEnv : Type :=
| EnvFalsy
| EnvArray (entries : list (option EnvEntry))
| EnvObject (pairs : list (string * field string))
| EnvOther.

Record Project : Type := mkProject {
  p_id : field string;
  repo : field string;
  branch : field string;
  buildCommand : field string;
  installCommand : field string;
  testCommand : field string;
  startCommand : field string;
  buildOutput : field string;
  buildOutputDir : field string;
  deployPath : field string;
  runtime : field string;
  domain : field string;
  port : field Z;
  runtimePort : field Z;
  ownerId : field string;
  templateId : field string;
  env : RawEnv;
  lastDeploy : field nat;
  lastCommit : field string
}.

Definition emptyProject : Project :=
  mkProject Absent Absent Absent Absent Absent Absent Absent Absent Absent
            Absent Absent Absent Absent Absent Absent Absent EnvFalsy
            Absent Absent.

(** What [deploy-config.json] holds.  A missing file is a missing key
    of the store. *)
Inductive ConfigFile : Type :=
| Unparseable
| JsonNull
| JsonPrimitive
| JsonObject (data : Project).

Inductive DStatus : Type := Queued | Running | Success | Failed.
Inductive SStatus : Type := StepRunning | StepSuccess | StepFailed.

(** One entry of a deployment's [steps] object. *)
Record StepRec : Type := mkStep {
  s_status : field SStatus;
  s_startedAt : field nat;
  s_finishedAt : field nat;
  s_error : field string
}.

Definition emptyStep : StepRec := mkStep Absent Absent Absent Absent.

(** [{...existing, ...data}] *)
Definition mergeStep (existing data : StepRec) : StepRec :=
  mkStep (spread (s_status existing) (s_status data))
         (spread (s_startedAt existing) (s_startedAt data))
         (spread (s_finishedAt existing) (s_finishedAt data))
         (spread (s_error existing) (s_error data)).

Record Deployment : Type := mkDeployment {
  deploymentId : string;
  d_projectId : string;
  status : DStatus;
  createdAt : nat;
  startedAt : field nat;
  finishedAt : field nat;
  steps : gmap string StepRec;
  commit : field string;
  logPath : string;
  dryRun : bool;
  error : field string
}.

(** The [updates] argument of [updateDeployment]: the properties the
    engine ever passes. *)
Record DeploymentUpdate : Type := mkUpdate {
  u_status : option DStatus;
  u_startedAt : field nat;
  u_finishedAt : field nat;
  u_steps : option (gmap string StepRec);
  u_commit : field string;
  u_error : field string
}.

Definition noUpdate : DeploymentUpdate :=
  mkUpdate None Absent Absent None Absent Absent.

End Store.
Export Store.

(* ===================================================================== *)
(** ** The host: file system, log streams, subprocesses, clock *)
(* ===================================================================== *)

Module Sys.

Inductive FsNode : Type :=
| Dir
| File (content : string)
| Link (target : string).

(** Calls that change the host. *)
Inductive Effect : Type :=
| EMkdir (p : string)
| ERemove (p : string)
| ESymlink (target p : string)
| ECopy (src dst : string)
| EWriteFile (p : string)
| ESpawn (cmd : string) (args : list string).

(** What is outside the two JSON stores.  The files of the stores
    themselves ([deploy-config.json] of each project, the records
    [deployments/<id>.json] and their index) are not nodes of [fs] and
    writing them leaves no event in [trace]: they are the [projects] and
    [deployments] maps of [World].  Nor are the log files: [logs] has,
    for each path, the texts written to the stream opened on it.  A
    statement about what is written has to speak of those three maps as
    well as of [fs] and [trace]. *)
Record Ext : Type := mkExt {
  fs : gmap string FsNode;
  logs : gmap string (list string);
  trace : list Effect;
  clock : nat
}.

Record World : Type := mkWorld {
  projects : gmap string ConfigFile;
  deployments : gmap string Deployment;
  ext : Ext
}.

(** A computation over state [S] that returns or throws. *)
Definition SE (S A : Type) : Type := S -> result A * S.

Definition ret {S A} (a : A) : SE S A := fun s => (Ok a, s).
Definition throw {S A} (msg : string) : SE S A := fun s => (Throw msg, s).
Definition bind {S A B} (m : SE S A) (k : A -> SE S B) : SE S B :=
  fun s => match m s with
           | (Ok a, s') => k a s'
           | (Throw msg, s') => (Throw msg, s')
           end.
(** [try { m } catch (error) { h(error.message) }] *)
Definition tryCatch {S A} (m : SE S A) (h : string -> SE S A) : SE S A :=
  fun s => match m s with
           | (Ok a, s') => (Ok a, s')
           | (Throw msg, s') => h msg s'
           end.
(** [promise.catch(() => {})] *)
Definition swallow {S} (m : SE S unit) : SE S unit :=
  tryCatch m (fun _ => ret tt).
Definition gets {S A} (f : S -> A) : SE S A := fun s => (Ok (f s), s).
Definition modify {S} (f : S -> S) : SE S unit := fun s => (Ok tt, f s).
Definition liftR {S A} (r : result A) : SE S A := fun s => (r, s).

#[global] Instance se_ret {S} : MRet (SE S) := fun A => @ret S A.
#[global] Instance se_bind {S} : MBind (SE S) :=
  fun A B k m => bind m k.

Abbreviation M := (SE World).
Abbreviation ExtM := (SE Ext).

(** Host calls run inside the world without touching the stores. *)
Definition liftExt {A} (m : ExtM A) : M A :=
  fun w => let '(r, e) := m (ext w) in
           (r, mkWorld (projects w) (deployments w) e).

Definition setFs (f : gmap string FsNode -> gmap string FsNode)
           (ev : list Effect) : ExtM unit :=
  modify (fun e => mkExt (f (fs e)) (logs e) (trace e ++ ev) (clock e)).

(** [new Date()] / [Date.now()]: the clock is read and moves on. *)
Definition now : ExtM nat :=
  fun e => (Ok (clock e), mkExt (fs e) (logs e) (trace e) (S (clock e))).

(** [logStream.write(text)]; the stream may be [null]. *)
Definition logWrite (stream : option string) (text : string) : ExtM unit :=
  match stream with
  | None => ret tt
  | Some path =>
      modify (fun e =>
        mkExt (fs e)
              (<[path := (default [] (logs e !! path) ++ [text])%list]> (logs e))
              (trace e) (clock e))
  end.

(** [fsp.access]: the path exists; a link is followed once. *)
Definition existsPath (m : gmap string FsNode) (p : string) : bool :=
  match m !! p with
  | Some (Link t) => bool_decide (is_Some (m !! t))
  | Some _ => true
  | None => false
  end.

Definition pathExists (p : string) : ExtM bool :=
  gets (fun e => existsPath (fs e) p).

Definition readlink (p : string) : ExtM string :=
  fun e => match fs e !! p with
           | Some (Link t) => (Ok t, e)
           | Some _ => (Throw ("EINVAL: invalid argument, readlink '" ++ p ++ "'"), e)
           | None => (Throw ("ENOENT: no such file or directory, readlink '" ++ p ++ "'"), e)
           end.

(** [fsp.rm(p, { force: true })] *)
Definition rmForce (p : string) : ExtM unit :=
  fun e => match fs e !! p with
           | Some Dir => (Throw ("Path is a directory: rm returned EISDIR " ++ p), e)
           | Some _ => setFs (delete p) [ERemove p] e
           | None => (Ok tt, e)
           end.

Definition unlink (p : string) : ExtM unit :=
  fun e => match fs e !! p with
           | Some Dir => (Throw ("EISDIR: illegal operation on a directory, unlink '" ++ p ++ "'"), e)
           | Some _ => setFs (delete p) [ERemove p] e
           | None => (Throw ("ENOENT: no such file or directory, unlink '" ++ p ++ "'"), e)
           end.

(** [fsp.rm(p, { recursive: true, force: true })] *)
Definition rmRecursive (p : string) : ExtM unit :=
  setFs (filter (fun kv => negb (String.eqb kv.1 p)
                           && negb (startsWith kv.1 (p ++ "/")) = true))
        [ERemove p].

Definition symlink (target p : string) : ExtM unit :=
  fun e => match fs e !! p with
           | Some _ => (Throw ("EEXIST: file already exists, symlink '" ++ target ++ "' -> '" ++ p ++ "'"), e)
           | None => setFs (<[p := Link target]>) [ESymlink target p] e
           end.

(** [fsp.mkdir(p, { recursive: true })] *)
Definition mkdirp (p : string) : ExtM unit :=
  fun e => match fs e !! p with
           | Some (File _) => (Throw ("EEXIST: file already exists, mkdir '" ++ p ++ "'"), e)
           | Some _ => setFs (fun m => m) [EMkdir p] e
           | None => setFs (<[p := Dir]>) [EMkdir p] e
           end.

Definition writeFile (p content : string) : ExtM unit :=
  fun e => match fs e !! p with
           | Some Dir => (Throw ("EISDIR: illegal operation on a directory, open '" ++ p ++ "'"), e)
           | _ => setFs (<[p := File content]>) [EWriteFile p] e
           end.

(** [fsp.cp(src, dst, { recursive: true })]: the copy is recorded; the
    copied tree itself is not tracked. *)
Definition cpRecursive (src dst : string) : ExtM unit :=
  fun e => if existsPath (fs e) src
           then setFs (fun m => m) [ECopy src dst] e
           else (Throw ("ENOENT: no such file or directory, cp '" ++ src ++ "'"), e).

End Sys.
Export Sys.


(* ===================================================================== *)
(** ** [config.js] *)
(* ===================================================================== *)

Module Config.

(** The exported configuration.  [MAX_QUEUE_SIZE] and
    [MAX_CONCURRENT_DEPLOYS] come from [Number.parseInt]; [None] is [NaN]. *)
Record t : Type := mk {
  PROJECTS_DIR : string;
  LOGS_DIR : string;
  NGINX_ROOT : string;
  NGINX_SITES_AVAILABLE : string;
  NGINX_SITES_ENABLED : string;
  PM2_BIN : string;
  RELEASES_DIR_NAME : string;
  DEFAULT_BUILD_OUTPUT : string;
  MAX_CONCURRENT_DEPLOYS : option Z;
  MAX_QUEUE_SIZE : option Z;
  cwd : string
}.

(** [Math.max(1, n || fallback)] *)
Definition atLeastOne (n : option Z) (fallback : Z) : Z :=
  Z.max 1 (match n with
           | Some v => if Z.eqb v 0 then fallback else v
           | None => fallback
           end).

End Config.

(* ===================================================================== *)
(** ** [projectStore.js] *)
(* ===================================================================== *)

Module ProjectStore.
Section WithConfig.

Variable cfg : Config.t.

Definition projectRoot (projectId : string) : string :=
  Path.pjoin [Config.PROJECTS_DIR cfg; projectId].
Definition repoDir (projectId : string) : string :=
  Path.pjoin [projectRoot projectId; "repo"].
Definition deploymentsDir (projectId : string) : string :=
  Path.pjoin [projectRoot projectId; "deployments"].
Definition releasesDir (projectId : string) : string :=
  Path.pjoin [projectRoot projectId; Config.RELEASES_DIR_NAME cfg].
Definition currentSymlink (projectId : string) : string :=
  Path.pjoin [projectRoot projectId; "current"].
Definition previousSymlink (projectId : string) : string :=
  Path.pjoin [projectRoot projectId; "previous"].

(** [value != null ? String(value) : ''] *)
Definition stringOrEmpty (v : field string) : field string :=
  match v with Val x => Val x | _ => Val "" end.

Definition normalizeEntry (entry : option EnvEntry) : option EnvEntry :=
  match entry with
  | None => None
  | Some e =>
      if negb (truthyS (e_key e)) then None
      else if e_isSecret e then
        Some (mkEnv (e_key e) true Absent
                    (orS (e_encryptedValue e) Null))
      else
        Some (mkEnv (e_key e) false (stringOrEmpty (e_value e)) Absent)
  end.

Definition normalizeStoredEnv (rawEnv : RawEnv) : list EnvEntry :=
  match rawEnv with
  | EnvFalsy => []
  | EnvArray entries => omap normalizeEntry entries
  | EnvObject pairs =>
      map (fun kv => mkEnv (Val kv.1) false (stringOrEmpty kv.2) Absent) pairs
  | EnvOther => []
  end.

Definition asArray (entries : list EnvEntry) : RawEnv :=
  EnvArray (map Some entries).

(** [fs.readFile] followed by [JSON.parse]; either may throw. *)
Definition readConfig (projectId : string) : M ConfigFile :=
  fun w =>
    match projects w !! projectId with
    | None => (Throw "ENOENT: no such file or directory", w)
    | Some Unparseable => (Throw "SyntaxError: Unexpected token in JSON", w)
    | Some f => (Ok f, w)
    end.

(** The assignments [data.env = ...; data.ownerId = ...;
    data.templateId = ...] on an object. *)
Definition withDefaults (projectId : string) (data : Project) : Project :=
  mkProject (spread (Val projectId) (p_id data))
            (repo data) (branch data) (buildCommand data)
            (installCommand data) (testCommand data) (startCommand data)
            (buildOutput data) (buildOutputDir data) (deployPath data)
            (runtime data) (domain data) (port data) (runtimePort data)
            (orS (ownerId data) (Val "admin"))
            (match templateId data with Absent => Null | t => t end)
            (asArray (normalizeStoredEnv (env data)))
            (lastDeploy data) (lastCommit data).

Definition getProject (projectId : string) : M (option Project) :=
  tryCatch
    (data ← readConfig projectId;
     match data with
     | JsonObject d => mret (Some (withDefaults projectId d))
     | JsonPrimitive =>
         (* assignments to a primitive are dropped; the spread copies nothing *)
         mret (Some (mkProject (Val projectId) Absent Absent Absent Absent
                               Absent Absent Absent Absent Absent Absent
                               Absent Absent Absent Absent Absent EnvFalsy
                               Absent Absent))
     | _ => throw "TypeError: Cannot set properties of null (setting 'env')"
     end)
    (fun _ => mret None).

(** The update object the engine passes: [{ lastDeploy, lastCommit }]
    and, when set, [runtimePort]. *)
Record ProjectUpdate : Type := mkPU {
  up_lastDeploy : field nat;
  up_lastCommit : field string;
  up_runtimePort : field Z
}.

(** [formatEnvForStorage(existingEnv, undefined)]: a copy. *)
Definition copyEnv (existing : RawEnv) : RawEnv :=
  match existing with
  | EnvArray entries => EnvArray entries
  | _ => EnvArray []
  end.

(** [writeProject]: the [id] property is dropped, the rest is written.
    The write of [deploy-config.json] is the change of [projects]; [fs]
    and [trace] do not show it. *)
Definition writeProject (projectId : string) (payload : Project) : M unit :=
  modify (fun w =>
    mkWorld
      (<[projectId := JsonObject
           (mkProject Absent
              (repo payload) (branch payload) (buildCommand payload)
              (installCommand payload) (testCommand payload)
              (startCommand payload) (buildOutput payload)
              (buildOutputDir payload) (deployPath payload)
              (runtime payload) (domain payload) (port payload)
              (runtimePort payload) (ownerId payload) (templateId payload)
              (env payload) (lastDeploy payload) (lastCommit payload))]>
         (projects w))
      (deployments w) (ext w)).

Definition updateProject (projectId : string) (updates : ProjectUpdate)
  : M Project :=
  existing ← getProject projectId;
  match existing with
  | None => throw "Project not found"
  | Some ex =>
      let next :=
        mkProject (p_id ex)
          (repo ex) (branch ex) (buildCommand ex) (installCommand ex)
          (testCommand ex) (startCommand ex) (buildOutput ex)
          (buildOutputDir ex) (deployPath ex) (runtime ex) (domain ex)
          (port ex)
          (spread (runtimePort ex) (up_runtimePort updates))
          (orS (ownerId ex) (Val "admin"))
          (match templateId ex with Absent => Null | t => t end)
          (copyEnv (env ex))
          (spread (lastDeploy ex) (up_lastDeploy updates))
          (spread (lastCommit ex) (up_lastCommit updates)) in
      writeProject projectId next;;
      mret next
  end.

End WithConfig.
End ProjectStore.

(* ===================================================================== *)
(** ** [deploymentStore.js] *)
(* ===================================================================== *)

Module DeploymentStore.
Section WithConfig.

Variable cfg : Config.t.
(** [crypto.randomUUID()], drawn at a given clock reading. *)
Variable uuid : nat -> string.

Definition getLogPath (projectId deploymentId : string) : string :=
  Path.pjoin [Config.LOGS_DIR cfg; projectId; deploymentId ++ ".log"].

(** The index file and the per-deployment file are kept as one map: a
    deployment is found when both exist. *)
Definition getDeployment (deploymentId : string) : M (option Deployment) :=
  gets (fun w => deployments w !! deploymentId).

(** [fs.writeFile(getMetaPath(projectId, deploymentId), ...)]: the
    write is the change of [deployments]; [fs] and [trace] do not show
    it. *)
Definition putDeployment (deploymentId : string) (d : Deployment) : M unit :=
  modify (fun w => mkWorld (projects w)
                           (<[deploymentId := d]> (deployments w))
                           (ext w)).

Definition createDeployment (projectId : string) (isDryRun : bool)
  : M Deployment :=
  t ← liftExt now;
  let deploymentId := uuid t in
  created ← liftExt now;
  let baseRecord :=
    mkDeployment deploymentId projectId Queued created Null Null ∅ Null
                 (getLogPath projectId deploymentId) isDryRun Absent in
  putDeployment deploymentId baseRecord;;
  mret baseRecord.

(** [{ ...record, ...updates }], with [steps] merged key by key. *)
Definition applyUpdate (record : Deployment) (updates : DeploymentUpdate)
  : Deployment :=
  mkDeployment (deploymentId record) (d_projectId record)
    (default (status record) (u_status updates))
    (createdAt record)
    (spread (startedAt record) (u_startedAt updates))
    (spread (finishedAt record) (u_finishedAt updates))
    (match u_steps updates with
     | Some st => st ∪ steps record
     | None => steps record
     end)
    (spread (commit record) (u_commit updates))
    (logPath record) (dryRun record)
    (spread (error record) (u_error updates)).

Definition updateDeployment (deploymentId : string)
           (updates : DeploymentUpdate) : M (option Deployment) :=
  record ← getDeployment deploymentId;
  match record with
  | None => mret None
  | Some rec =>
      let updated := applyUpdate rec updates in
      putDeployment deploymentId updated;;
      mret (Some updated)
  end.

Definition appendStep (deploymentId stepName : string) (data : StepRec)
  : M (option Deployment) :=
  record ← getDeployment deploymentId;
  match record with
  | None => mret None
  | Some rec =>
      let existing := default emptyStep (steps rec !! stepName) in
      let nextSteps := <[stepName := mergeStep existing data]> (steps rec) in
      updateDeployment deploymentId
        (mkUpdate None Absent Absent (Some nextSteps) Absent Absent)
  end.

End WithConfig.
End DeploymentStore.

(* ===================================================================== *)
(** ** [envBuilder.js] and [commandTemplates.js] *)
(* ===================================================================== *)

Module EnvBuilder.
Section WithSecrets.

(** [decryptSecret] of [secrets.js]. *)
Variable decryptSecret : string -> result string.

Record Maps : Type := mkMaps {
  plainEnv : gmap string string;
  secretEnv : gmap string string;
  secretKeys : list string
}.

Definition keyOf (e : EnvEntry) : string :=
  match e_key e with Val k => k | _ => "" end.

(** [obj[key] = value] on an object written as [{}].  The name
    [__proto__] is not a property of such an object but the accessor it
    inherits from [Object.prototype]: assigning a string through it
    changes nothing, and assigning [null] takes the prototype away,
    after which the name is a property like any other.  [bare] tells
    that the prototype is gone. *)
Definition isProto (key : string) : bool := String.eqb key "__proto__".

Definition assign (bare : bool) (obj : gmap string string)
           (key value : string) : gmap string string :=
  if isProto key && negb bare then obj else <[key := value]> obj.

(** The loop over the entries; [bare] is about [plainEnv], the only one
    of the two objects that is ever assigned [null]. *)
Fixpoint buildLoop (entries : list (option EnvEntry)) (acc : Maps)
         (bare : bool) : result Maps :=
  match entries with
  | [] => Ok acc
  | None :: rest => buildLoop rest acc bare
  | Some e :: rest =>
      if negb (truthyS (e_key e)) then buildLoop rest acc bare
      else if e_isSecret e then
        let keys := (secretKeys acc ++ [keyOf e])%list in
        if truthyS (e_encryptedValue e) then
          match e_encryptedValue e with
          | Val blob =>
              match decryptSecret blob with
              | Ok v => buildLoop rest
                          (mkMaps (plainEnv acc)
                                  (assign false (secretEnv acc) (keyOf e) v)
                                  keys)
                          bare
              | Throw msg => Throw msg
              end
          | _ => buildLoop rest acc bare
          end
        else if truthyS (e_value e) then
          match e_value e with
          | Val v => buildLoop rest
                       (mkMaps (plainEnv acc)
                               (assign false (secretEnv acc) (keyOf e) v)
                               keys)
                       bare
          | _ => buildLoop rest acc bare
          end
        else Throw ("Secret env " ++ keyOf e
                    ++ " does not have an encrypted value")
      else
        match e_value e with
        | Val v => buildLoop rest
                     (mkMaps (assign bare (plainEnv acc) (keyOf e) v)
                             (secretEnv acc) (secretKeys acc))
                     bare
        | Null =>
            if isProto (keyOf e) && negb bare then buildLoop rest acc true
            else buildLoop rest
                   (mkMaps (<[keyOf e := "null"]> (plainEnv acc))
                           (secretEnv acc) (secretKeys acc))
                   bare
        | Absent => buildLoop rest acc bare
        end
  end.

Definition buildEnvMaps (envEntries : list (option EnvEntry)) : result Maps :=
  buildLoop envEntries (mkMaps ∅ ∅ []) false.

End WithSecrets.
End EnvBuilder.

Module CommandTemplates.

Record Template : Type := mkTemplate {
  t_installCommand : field string;
  t_buildCommand : field string;
  t_testCommand : field string;
  t_startCommand : field string
}.

(** Names every object inherits; looking one up in the catalogue yields a
    truthy value that has none of the command properties. *)
Definition inherited : list string :=
  ["constructor"; "__proto__"; "hasOwnProperty"; "isPrototypeOf";
   "propertyIsEnumerable"; "toLocaleString"; "toString"; "valueOf";
   "__defineGetter__"; "__defineSetter__"; "__lookupGetter__";
   "__lookupSetter__"].

Definition getTemplate (tid : field string) : option Template :=
  match tid with
  | Val name =>
      if String.eqb name "" then None
      else if String.eqb name "node-app" then
        Some (mkTemplate (Val "npm ci") (Val "npm run build") Null
                         (Val "npm start"))
      else if String.eqb name "static-spa" then
        Some (mkTemplate (Val "npm ci") (Val "npm run build") Null Null)
      else if existsb (String.eqb name) inherited then
        Some (mkTemplate Absent Absent Absent Absent)
      else None
  | _ => None
  end.

End CommandTemplates.

(* ===================================================================== *)
(** ** Running subprocesses: [runCommand], [runShellCommand] *)
(* ===================================================================== *)

Module Runner.

Definition nl : string := String (ascii_of_nat 10) EmptyString.
Definition dq : string := String (ascii_of_nat 34) EmptyString.

(** How a spawned child ends: the [close] event with an exit code, or the
    [error] event. *)
Inductive ProcEnd : Type :=
| Exited (code : Z)
| SpawnError (message : string).

(** What a child does: its output chunks in order ([true] marks stderr),
    its end, and its effect on the file system. *)
Record ProcOutcome : Type := mkProc {
  chunks : list (bool * string);
  procEnd : ProcEnd;
  fsEffect : gmap string FsNode -> gmap string FsNode
}.

Record SpawnOpts : Type := mkOpts {
  o_cwd : option string;
  o_env : option (gmap string string);
  o_redactKeys : list string
}.

Definition noOpts : SpawnOpts := mkOpts None None [].

Record CmdResult : Type := mkResult {
  r_code : Z;
  r_stdout : string;
  r_stderr : string
}.

Section WithHost.

(** The behaviour of the programs on the host: the [n]-th host effect of
    the run spawns [cmd args] with the given options. *)
Variable spawn : nat -> string -> list string -> SpawnOpts -> ProcOutcome.

Fixpoint writeChunks (logStream : option string) (keys : list string)
         (cs : list (bool * string)) : ExtM unit :=
  match cs with
  | [] => mret tt
  | (_, data) :: rest =>
      logWrite logStream (Command.write data keys);;
      writeChunks logStream keys rest
  end.

Definition collect (stderr : bool) (cs : list (bool * string)) : string :=
  fold_right (fun c acc => if Bool.eqb c.1 stderr then c.2 ++ acc else acc)
             EmptyString cs.

Definition runCommand (cmd : string) (args : list string)
           (options : SpawnOpts) (logStream : option string)
           (isDryRun : bool) : ExtM CmdResult :=
  let redactKeys := o_redactKeys options in
  let commandString := join " " (cmd :: args) in
  let safeCommand := Command.redactText commandString redactKeys in
  if isDryRun then
    logWrite logStream ("[dry-run] " ++ safeCommand ++ nl);;
    mret (mkResult 0 "" "")
  else
    n ← gets (fun e => length (trace e));
    let child := spawn n cmd args options in
    setFs (fsEffect child) [ESpawn cmd args];;
    writeChunks logStream redactKeys (chunks child);;
    match procEnd child with
    | SpawnError message =>
        logWrite logStream
          ("Command failed: " ++ safeCommand ++ nl ++ message ++ nl);;
        throw message
    | Exited code =>
        if negb (Z.eqb code 0) then
          throw ("Command " ++ dq ++ safeCommand ++ dq
                 ++ " exited with code " ++ pretty code)
        else
          mret (mkResult code (collect false (chunks child))
                              (collect true (chunks child)))
    end.

Definition runShellCommand (script : string) (options : SpawnOpts)
           (logStream : option string) (isDryRun : bool) : ExtM CmdResult :=
  runCommand "bash" ["-lc"; script] options logStream isDryRun.

End WithHost.
End Runner.
Export Runner.

(* ===================================================================== *)
(** ** [nginxManager.js] *)
(* ===================================================================== *)

Module NginxManager.
Section WithHost.

Variable cfg : Config.t.
Variable spawn : nat -> string -> list string -> SpawnOpts -> ProcOutcome.

Record Options : Type := mkOptions {
  n_runtime : string;
  n_domain : field string;
  n_deployPath : string;
  n_runtimePort : field Z
}.

Definition serverName (d : field string) : string :=
  match orS d (Val "_") with Val x => x | _ => "_" end.

Definition portText (p : field Z) : string :=
  match p with Val n => pretty n | Null => "null" | Absent => "undefined" end.

Definition renderStaticConfig (o : Options) : string :=
  "server {" ++ nl ++ "    listen 80;" ++ nl
  ++ "    server_name " ++ serverName (n_domain o) ++ ";" ++ nl ++ nl
  ++ "    root " ++ n_deployPath o ++ ";" ++ nl
  ++ "    index index.html;" ++ nl ++ nl
  ++ "    location / {" ++ nl
  ++ "        try_files $uri /index.html;" ++ nl
  ++ "    }" ++ nl ++ "}".

Definition renderProxyConfig (o : Options) : string :=
  "server {" ++ nl ++ "    listen 80;" ++ nl
  ++ "    server_name " ++ serverName (n_domain o) ++ ";" ++ nl ++ nl
  ++ "    location / {" ++ nl
  ++ "        proxy_pass http://127.0.0.1:" ++ portText (n_runtimePort o)
  ++ ";" ++ nl
  ++ "        proxy_http_version 1.1;" ++ nl
  ++ "        proxy_set_header Upgrade $http_upgrade;" ++ nl
  ++ "        proxy_set_header Connection 'upgrade';" ++ nl
  ++ "        proxy_set_header Host $host;" ++ nl
  ++ "        proxy_cache_bypass $http_upgrade;" ++ nl
  ++ "    }" ++ nl ++ "}".

Definition writeConfig (projectId : string) (options : Options)
           (logStream : option string) (isDryRun : bool) : ExtM unit :=
  if String.eqb (n_runtime options) "node"
     && negb (truthyZ (n_runtimePort options))
  then throw "runtimePort is required for node runtime"
  else
    let file := "deployer-" ++ projectId ++ ".conf" in
    let availablePath := Path.pjoin [Config.NGINX_SITES_AVAILABLE cfg; file] in
    let enabledPath := Path.pjoin [Config.NGINX_SITES_ENABLED cfg; file] in
    let content := if String.eqb (n_runtime options) "node"
                   then renderProxyConfig options
                   else renderStaticConfig options in
    logWrite logStream ("Writing nginx config " ++ availablePath ++ nl);;
    (if isDryRun then mret tt
     else
       mkdirp (Config.NGINX_SITES_AVAILABLE cfg);;
       mkdirp (Config.NGINX_SITES_ENABLED cfg);;
       writeFile availablePath content;;
       tryCatch (symlink availablePath enabledPath)
         (fun _ =>
            target ← tryCatch (t ← readlink enabledPath; mret (Some t))
                              (fun _ => mret None);
            if bool_decide (target = Some availablePath) then mret tt
            else unlink enabledPath;; symlink availablePath enabledPath));;
    runCommand spawn "nginx" ["-t"] noOpts logStream isDryRun;;
    runCommand spawn "systemctl" ["reload"; "nginx"] noOpts logStream isDryRun;;
    mret tt.

End WithHost.
End NginxManager.

(* ===================================================================== *)
(** ** The deploy engine: [deployEngine.js] (guarded variant) *)
(* ===================================================================== *)

Module Engine.

Definition ADMIN_OWNER_ID : string := "admin".

Record Job : Type := mkJob {
  j_deploymentId : string;
  j_projectId : string;
  j_dryRun : bool
}.

(** The variables the step closures share and assign. *)
Record Locals : Type := mkLocals {
  commitHash : field string;
  releaseInfo : option string
}.

(** What [runDeployment] has computed when it enters its [try] block. *)
Record Ctx : Type := mkCtx {
  c_job : Job;
  c_project : Project;
  c_logStream : option string;
  c_repoPath : string;
  c_releasesDir : string;
  c_safeDeployPath : string;
  c_isAdminProject : bool;
  c_templateCommands : option CommandTemplates.Template;
  c_env : gmap string string;
  c_secretKeys : list string;
  c_runtimeType : string;
  c_runtimePort : field Z
}.

Section WithHost.

Variable cfg : Config.t.
Variable uuid : nat -> string.
Variable decryptSecret : string -> result string.
Variable spawn : nat -> string -> list string -> SpawnOpts -> ProcOutcome.
(** [process.env], [Math.floor(Math.random() * 1000)] and [Number(text)]. *)
Variable processEnv : gmap string string.
Variable random1000 : Z.
Variable toNumber : string -> field Z.

Definition MAX_CONCURRENT : Z :=
  Config.atLeastOne (Config.MAX_CONCURRENT_DEPLOYS cfg) 1.
Definition MAX_QUEUE_SIZE : Z :=
  Config.atLeastOne (Config.MAX_QUEUE_SIZE cfg) 50.

Definition ensureWithinBase :=
  Guards.ensureWithinBase (Config.cwd cfg).
Definition ensureDeployPathWithinRoot :=
  Guards.ensureDeployPathWithinRoot (Config.NGINX_ROOT cfg) (Config.cwd cfg).

(** [(project.ownerId || ADMIN_OWNER_ID) === ADMIN_OWNER_ID] *)
Definition ownerIsAdmin (project : Project) : bool :=
  match orS (ownerId project) (Val ADMIN_OWNER_ID) with
  | Val o => String.eqb o ADMIN_OWNER_ID
  | _ => false
  end.

Definition removePath (target : string) : ExtM unit :=
  node ← gets (fun e => fs e !! target);
  match node with
  | Some (Link _) => unlink target
  | Some Dir => rmRecursive target
  | Some (File _) => unlink target
  | None => mret tt
  end.

Definition writeLog (projectId deploymentId : string) : ExtM (option string) :=
  let logPath := DeploymentStore.getLogPath cfg projectId deploymentId in
  mkdirp (Path.dirname logPath);;
  mret (Some logPath).

(** The part of [queueDeployment] before its first write: project checks
    and the admission bound.  [queued] and [active] are [queue.length] and
    the [active] counter at that moment. *)
Definition admissionCheck (project : option Project) (queued active : nat)
  : result unit :=
  match project with
  | None => Throw "Project missing deployPath"
  | Some pr =>
      if negb (truthyS (deployPath pr)) then
        Throw "Project missing deployPath"
      else if negb (truthyS (repo pr)) || negb (truthyS (branch pr)) then
        Throw "Project configuration incomplete (repo and branch required)"
      else if ownerIsAdmin pr && negb (truthyS (buildCommand pr)) then
        Throw "Project configuration incomplete (buildCommand required)"
      else if negb (ownerIsAdmin pr) && negb (truthyS (templateId pr)) then
        Throw "Project missing command template"
      else
        match deployPath pr with
        | Val dp =>
            match ensureDeployPathWithinRoot dp with
            | Throw msg => Throw msg
            | Ok _ =>
                if (Z.of_nat queued + Z.of_nat active >=? MAX_QUEUE_SIZE)%Z
                then Throw "Deployment queue is full. Try again later."
                else Ok tt
            end
        | _ => Throw "Project missing deployPath"
        end
  end.

(** ** [runDeployment]: everything before the [try] block *)

Definition setRuntimePort (pr : Project) (rp : field Z) : Project :=
  mkProject (p_id pr) (repo pr) (branch pr) (buildCommand pr)
            (installCommand pr) (testCommand pr) (startCommand pr)
            (buildOutput pr) (buildOutputDir pr) (deployPath pr)
            (runtime pr) (domain pr) (port pr) rp (ownerId pr)
            (templateId pr) (env pr) (lastDeploy pr) (lastCommit pr).

Definition runtimeOf (pr : Project) : string :=
  match orS (runtime pr) (Val "static") with Val r => r | _ => "static" end.

Definition portString (p : field Z) : string := NginxManager.portText p.

(** The block that settles [runtimePort], [project.runtimePort] and
    [env.PORT]. *)
Definition settlePort (pr : Project) (isDryRun : bool)
           (env0 : gmap string string)
  : Project * gmap string string * field Z :=
  let '(pr1, env1, rp1) :=
    if String.eqb (runtimeOf pr) "node" then
      let rp := orZ (runtimePort pr)
                    (orZ (port pr) (Val (4000 + random1000)%Z)) in
      let pr' := if negb (truthyZ (runtimePort pr)) && negb isDryRun
                 then setRuntimePort pr rp else pr in
      (pr', <["PORT" := portString rp]> env0, rp)
    else if truthyZ (runtimePort pr) || truthyZ (port pr) then
      (pr, env0, orZ (runtimePort pr) (port pr))
    else (pr, env0, Null) in
  let rp2 :=
    match env1 !! "PORT" with
    | Some v => if negb (truthyZ rp1) && truthy_str v then toNumber v else rp1
    | None => rp1
    end in
  let env2 :=
    if truthyZ (runtimePort pr1)
    then <["PORT" := portString (runtimePort pr1)]> env1
    else if truthyZ (port pr1)
         then <["PORT" := portString (port pr1)]> env1
         else env1 in
  (pr1, env2, rp2).

Definition envEntriesOf (pr : Project) : list (option EnvEntry) :=
  match env pr with EnvArray entries => entries | _ => [] end.

Definition prelude (job : Job) : M Ctx :=
  let deploymentId := j_deploymentId job in
  let projectId := j_projectId job in
  logStream ← liftExt (writeLog projectId deploymentId);
  startTime ← liftExt now;
  DeploymentStore.updateDeployment deploymentId
    (mkUpdate (Some Running) (Val startTime) Absent None Absent Absent);;
  project ← ProjectStore.getProject projectId;
  match project with
  | None =>
      throw "TypeError: Cannot read properties of null (reading 'deployPath')"
  | Some pr =>
      let repoPath :=
        Path.resolve (Config.cwd cfg) [ProjectStore.repoDir cfg projectId] in
      let releasesDir :=
        Path.resolve (Config.cwd cfg) [ProjectStore.releasesDir cfg projectId] in
      match deployPath pr with
      | Val dp =>
          safeDeployPath ← liftR (ensureDeployPathWithinRoot dp);
          let isAdminProject := ownerIsAdmin pr in
          let templateCommands :=
            if negb isAdminProject && truthyS (templateId pr)
            then CommandTemplates.getTemplate (templateId pr) else None in
          if negb isAdminProject && negb (bool_decide (is_Some templateCommands))
          then throw "Command template missing or invalid for this project"
          else
            match EnvBuilder.buildEnvMaps decryptSecret (envEntriesOf pr) with
            | Throw msg => throw ("Failed to decrypt secrets: " ++ msg)
            | Ok maps =>
                let env0 := EnvBuilder.secretEnv maps
                            ∪ EnvBuilder.plainEnv maps ∪ processEnv in
                let '(pr1, env2, rp) := settlePort pr (j_dryRun job) env0 in
                mret (mkCtx job pr1 logStream repoPath releasesDir
                            safeDeployPath isAdminProject templateCommands
                            env2 (EnvBuilder.secretKeys maps)
                            (runtimeOf pr) rp)
            end
      | _ =>
          throw "TypeError [ERR_INVALID_ARG_TYPE]: The path argument must be of type string"
      end
  end.

(** ** [runStep] and the seven steps *)

Definition runStep {A} (deploymentId name : string) (fn : M A) : M A :=
  stepStart ← liftExt now;
  DeploymentStore.appendStep deploymentId name
    (mkStep (Val StepRunning) (Val stepStart) Absent Absent);;
  tryCatch
    (result ← fn;
     t ← liftExt now;
     DeploymentStore.appendStep deploymentId name
       (mkStep (Val StepSuccess) Absent (Val t) Absent);;
     mret result)
    (fun message =>
       t ← liftExt now;
       DeploymentStore.appendStep deploymentId name
         (mkStep (Val StepFailed) Absent (Val t) (Val message));;
       throw message).

(** [withRedaction(opts)] *)
Definition withRedaction (c : Ctx) (cwd : option string)
           (env1 : option (gmap string string)) : SpawnOpts :=
  mkOpts cwd env1 (c_secretKeys c).

Definition syncStep (c : Ctx) (l : Locals) : M Locals :=
  let dry := j_dryRun (c_job c) in
  let repoPath := c_repoPath c in
  let inRepo := withRedaction c (Some repoPath) None in
  let git := fun args opts =>
               runCommand spawn "git" args opts (c_logStream c) dry in
  repoExists ← liftExt (pathExists (Path.pjoin [repoPath; ".git"]));
  match repo (c_project c) with
  | Val r =>
      let repoUrl := if endsWith r ".git" then r else r ++ ".git" in
      liftExt
        (if negb repoExists then
           (if dry then mret tt else mkdirp (Path.dirname repoPath));;
           match branch (c_project c) with
           | Val b =>
               git ["clone"; "--branch"; b; repoUrl; repoPath]
                   (withRedaction c None None);; mret tt
           | _ =>
               if dry then
                 git ["clone"; "--branch"; ""; repoUrl; repoPath]
                     (withRedaction c None None);; mret tt
               else throw "TypeError [ERR_INVALID_ARG_TYPE]: The args[2] argument must be of type string"
           end
         else
           git ["fetch"; "--all"; "--prune"] inRepo;;
           match branch (c_project c) with
           | Val b => git ["checkout"; b] inRepo;; mret tt
           | _ =>
               if dry then git ["checkout"; ""] inRepo;; mret tt
               else throw "TypeError [ERR_INVALID_ARG_TYPE]: The args[1] argument must be of type string"
           end;;
           git ["pull"; "--ff-only"] inRepo;; mret tt);;
      result ← liftExt (git ["rev-parse"; "HEAD"] inRepo);
      let hash := trim (r_stdout result) in
      DeploymentStore.updateDeployment (j_deploymentId (c_job c))
        (mkUpdate None Absent Absent None (Val hash) Absent);;
      mret (mkLocals (Val hash) (releaseInfo l))
  | _ =>
      throw "TypeError: Cannot read properties of undefined (reading 'endsWith')"
  end.

Definition shell (c : Ctx) (script : string) : ExtM CmdResult :=
  runShellCommand spawn script
    (withRedaction c (Some (c_repoPath c)) (Some (c_env c)))
    (c_logStream c) (j_dryRun (c_job c)).

Definition textOf (f : field string) : string :=
  match f with Val x => x | _ => "" end.

Definition installStep (c : Ctx) (l : Locals) : M Locals :=
  liftExt
    (installCmd ←
       ((if c_isAdminProject c then
          if truthyS (installCommand (c_project c))
          then mret (installCommand (c_project c))
          else
            lockExists ← pathExists (Path.pjoin [c_repoPath c; "package-lock.json"]);
            pkgExists ← pathExists (Path.pjoin [c_repoPath c; "package.json"]);
            mret (if (lockExists : bool) then Val "npm ci"
                  else if (pkgExists : bool) then Val "npm install --production"
                  else installCommand (c_project c))
        else
          match c_templateCommands c with
          | Some t => mret (orS (CommandTemplates.t_installCommand t) Null)
          | None => mret Null
          end) : ExtM (field string));
     (if truthyS installCmd then shell c (textOf installCmd);; mret tt
      else logWrite (c_logStream c)
                    ("No install command defined, skipping" ++ nl));;
     mret l).

(** The command each step runs: the project's own for an administrator's
    project, the template's otherwise. *)
Definition testCmdOf (c : Ctx) : field string :=
  if c_isAdminProject c then testCommand (c_project c)
  else match c_templateCommands c with
       | Some t => CommandTemplates.t_testCommand t
       | None => Null
       end.

Definition buildCmdOf (c : Ctx) : field string :=
  if c_isAdminProject c
  then orS (buildCommand (c_project c)) (Val "npm run build")
  else match c_templateCommands c with
       | Some t => CommandTemplates.t_buildCommand t
       | None => Null
       end.

Definition startCmdOf (c : Ctx) : field string :=
  if c_isAdminProject c then startCommand (c_project c)
  else match c_templateCommands c with
       | Some t => CommandTemplates.t_startCommand t
       | None => Null
       end.

Definition testStep (c : Ctx) (l : Locals) : M Locals :=
  liftExt
    (let testCmd := testCmdOf c in
     (if negb (truthyS testCmd)
      then logWrite (c_logStream c) ("No test command, skipping" ++ nl)
      else shell c (textOf testCmd);; mret tt);;
     mret l).

Definition buildStep (c : Ctx) (l : Locals) : M Locals :=
  liftExt
    (let buildCmd := buildCmdOf c in
     (if negb (truthyS buildCmd)
      then throw "Build command is not configured for this project/template"
      else shell c (textOf buildCmd);; mret tt);;
     mret l).

(** [project.buildOutputDir || project.buildOutput ||
    config.DEFAULT_BUILD_OUTPUT] *)
Definition outputDirOf (pr : Project) : string :=
  textOf (orS (buildOutputDir pr)
              (orS (buildOutput pr) (Val (Config.DEFAULT_BUILD_OUTPUT cfg)))).

Definition releaseName (stamp : nat) (l : Locals) : string :=
  pretty stamp ++ "-"
  ++ String.substring 0 7 (textOf (orS (commitHash l) (Val "latest"))).

Definition releaseStep (c : Ctx) (l : Locals) : M Locals :=
  let dry := j_dryRun (c_job c) in
  let projectId := j_projectId (c_job c) in
  liftExt
    (absOutput ← liftR (ensureWithinBase (c_repoPath c)
                          (outputDirOf (c_project c)) "Build output path");
     (if dry then mret tt
      else
        found ← pathExists absOutput;
        if (found : bool) then mret tt
        else throw ("Build output directory not found: " ++ absOutput));;
     stamp ← now;
     let releasePath := Path.pjoin [c_releasesDir c; releaseName stamp l] in
     (if dry then mret tt
      else mkdirp releasePath;; cpRecursive absOutput releasePath);;
     let currentLink := ProjectStore.currentSymlink cfg projectId in
     let previousLink := ProjectStore.previousSymlink cfg projectId in
     previousTarget ← tryCatch (t ← readlink currentLink; mret (Some t))
                               (fun _ => mret None);
     (if dry then mret tt
      else
        match previousTarget with
        | Some t =>
            if truthy_str t then
              swallow (rmForce previousLink);;
              swallow (symlink t previousLink)
            else mret tt
        | None => mret tt
        end;;
        swallow (rmForce currentLink);;
        symlink releasePath currentLink;;
        mkdirp (Path.dirname (c_safeDeployPath c));;
        removePath (c_safeDeployPath c);;
        symlink releasePath (c_safeDeployPath c));;
     mret (mkLocals (commitHash l) (Some releasePath))).

Definition nginxStep (c : Ctx) (l : Locals) : M Locals :=
  liftExt
    (NginxManager.writeConfig cfg spawn (j_projectId (c_job c))
       (NginxManager.mkOptions (c_runtimeType c) (domain (c_project c))
                               (c_safeDeployPath c) (c_runtimePort c))
       (c_logStream c) (j_dryRun (c_job c));;
     mret l).

Definition runtimeStep (c : Ctx) (l : Locals) : M Locals :=
  let dry := j_dryRun (c_job c) in
  let projectId := j_projectId (c_job c) in
  liftExt
    (if negb (String.eqb (c_runtimeType c) "node") then
       logWrite (c_logStream c) ("Runtime not node, skipping pm2" ++ nl);;
       mret l
     else
       let startCmd := startCmdOf c in
       if negb (truthyS startCmd)
       then throw "startCommand required for node runtime"
       else
         currentRelease ←
           (if dry then
              match releaseInfo l with
              | Some rel => mret rel
              | None => throw "TypeError: Cannot read properties of null (reading 'releasePath')"
              end
            else readlink (ProjectStore.currentSymlink cfg projectId));
         let runtimeEnvVars :=
           <["PORT" := portString (c_runtimePort c)]> (c_env c) in
         runCommand spawn (Config.PM2_BIN cfg)
           ["start"; "bash"; "--name"; projectId; "--cwd"; currentRelease;
            "--update-env"; "--"; "-lc"; textOf startCmd]
           (withRedaction c None (Some runtimeEnvVars))
           (c_logStream c) dry;;
         mret l).

(** The seven [await runStep(name, ...)] calls, in order. *)
Definition stepList (c : Ctx) : list (string * (Locals -> M Locals)) :=
  [("sync", syncStep c); ("install", installStep c); ("test", testStep c);
   ("build", buildStep c); ("release", releaseStep c);
   ("nginx", nginxStep c); ("runtime", runtimeStep c)].

Fixpoint runSteps (deploymentId : string)
         (todo : list (string * (Locals -> M Locals))) (l : Locals)
  : M Locals :=
  match todo with
  | [] => mret l
  | (name, fn) :: rest =>
      l' ← runStep deploymentId name (fn l);
      runSteps deploymentId rest l'
  end.

(** The end of the [try] block. *)
Definition finalize (c : Ctx) (l : Locals) : M unit :=
  finishTime ← liftExt now;
  DeploymentStore.updateDeployment (j_deploymentId (c_job c))
    (mkUpdate (Some Success) Absent (Val finishTime) None Absent Absent);;
  let projectUpdate :=
    ProjectStore.mkPU (Val finishTime)
      (match commitHash l with Absent => Null | h => h end)
      (if truthyZ (runtimePort (c_project c))
       then runtimePort (c_project c) else Absent) in
  ProjectStore.updateProject (j_projectId (c_job c)) projectUpdate;;
  mret tt.

(** The [catch] block.  Of [error.stack || error.message] the log gets
    the message line. *)
Definition onFailure (c : Ctx) (message : string) : M unit :=
  t ← liftExt now;
  DeploymentStore.updateDeployment (j_deploymentId (c_job c))
    (mkUpdate (Some Failed) Absent (Val t) None Absent (Val message));;
  liftExt (logWrite (c_logStream c)
             ("Deployment failed: " ++ message ++ nl)).

Definition initialLocals : Locals := mkLocals Null None.

Definition tryBlock (c : Ctx) : M unit :=
  tryCatch
    (l ← runSteps (j_deploymentId (c_job c)) (stepList c) initialLocals;
     finalize c l)
    (onFailure c).

Definition runDeployment (job : Job) : M unit :=
  c ← prelude job;
  tryBlock c.

(** ** [rollbackProject] *)

Definition rollbackProject (projectId : string) : M unit :=
  let currentLink := ProjectStore.currentSymlink cfg projectId in
  let previousLink := ProjectStore.previousSymlink cfg projectId in
  previousTarget ← tryCatch (liftExt (readlink previousLink))
                     (fun _ => throw "No previous release to roll back to");
  liftExt (swallow (rmForce currentLink);;
           symlink previousTarget currentLink);;
  project ← ProjectStore.getProject projectId;
  match project with
  | None => throw "Project not found"
  | Some pr =>
      match deployPath pr with
      | Val dp =>
          if negb (truthy_str dp) then throw "Project missing deployPath"
          else
            safeDeployPath ← liftR (ensureDeployPathWithinRoot dp);
            liftExt
              (removePath safeDeployPath;;
               symlink previousTarget safeDeployPath;;
               NginxManager.writeConfig cfg spawn projectId
                 (NginxManager.mkOptions (runtimeOf pr) (domain pr)
                    safeDeployPath (orZ (runtimePort pr) (port pr)))
                 None false;;
               if String.eqb (runtimeOf pr) "node"
                  && truthyS (startCommand pr)
               then runCommand spawn (Config.PM2_BIN cfg)
                      ["restart"; projectId] noOpts None false;; mret tt
               else mret tt)
      | _ => throw "Project missing deployPath"
      end
  end.

(** ** The queue: [queueDeployment] and [processQueue]

    Both are [async] functions: between two [await]s a call runs alone,
    at an [await] other calls may run.  [queueDeployment] awaits
    [createDeployment] between its admission check and [queue.push]. *)

Record Queue : Type := mkQueue {
  queue : list Job;
  active : nat
}.

(** [processQueue] up to its [await runDeployment(job)]. *)
Definition dispatch (q : Queue) : Queue * option Job :=
  if (Z.of_nat (active q) >=? MAX_CONCURRENT)%Z then (q, None)
  else match queue q with
       | [] => (q, None)
       | job :: rest => (mkQueue rest (S (active q)), Some job)
       end.

(** The engine between two [await]s: the stores and host, the queue, the
    calls of [queueDeployment] that passed the admission check and are
    waiting for [createDeployment], and the jobs being run. *)
Record State : Type := mkState {
  world : World;
  q : Queue;
  admitted : list (string * bool);
  running : list Job
}.

Definition startJob (started : option Job) (jobs : list Job) : list Job :=
  match started with Some j => (jobs ++ [j])%list | None => jobs end.

(** [queueDeployment], first part: from the call to the [await] of
    [createDeployment].  Nothing is written. *)
Definition enter (projectId : string) (isDryRun : bool) (st : State)
  : result unit * State :=
  let '(found, w) := ProjectStore.getProject projectId (world st) in
  let project := match found with Ok pr => pr | Throw _ => None end in
  match admissionCheck project (length (queue (q st))) (active (q st)) with
  | Throw msg => (Throw msg, mkState w (q st) (admitted st) (running st))
  | Ok _ =>
      (Ok tt, mkState w (q st)
                      (admitted st ++ [(projectId, isDryRun)])%list
                      (running st))
  end.

(** [queueDeployment], second part: the record is persisted, the job is
    pushed and [processQueue()] is called. *)
Definition commit (call : string * bool) (st : State)
  : result Job * State :=
  let '(r, w) := DeploymentStore.createDeployment cfg uuid call.1 call.2
                   (world st) in
  match r with
  | Throw msg => (Throw msg, mkState w (q st) (admitted st) (running st))
  | Ok deployment =>
      let job := mkJob (Store.deploymentId deployment) call.1 call.2 in
      let '(q', started) :=
        dispatch (mkQueue (queue (q st) ++ [job])%list (active (q st))) in
      (Ok job, mkState w q' (admitted st) (startJob started (running st)))
  end.

(** The [finally] block of [processQueue], after [runDeployment(job)]. *)
Definition finish (job : Job) (st : State) : State :=
  let w := (runDeployment job (world st)).2 in
  let q1 := mkQueue (queue (q st)) (active (q st) - 1) in
  let '(q2, started) :=
    match queue q1 with
    | [] => (q1, None)
    | _ => dispatch q1
    end in
  mkState w q2 (admitted st) (startJob started (running st)).

(** One uninterrupted stretch of the engine. *)
Inductive step : State -> State -> Prop :=
| step_enter projectId isDryRun st r st' :
    enter projectId isDryRun st = (r, st') ->
    step st st'
| step_commit before call after st r st' :
    admitted st = (before ++ call :: after)%list ->
    commit call (mkState (world st) (q st) (before ++ after)%list (running st))
      = (r, st') ->
    step st st'
| step_finish before job after st :
    running st = (before ++ job :: after)%list ->
    step st (finish job (mkState (world st) (q st) (admitted st)
                                 (before ++ after)%list)).

Inductive reachable (init : State) : State -> Prop :=
| reach_init : reachable init init
| reach_step st st' : reachable init st -> step st st' -> reachable init st'.

(** A call of [queueDeployment] that no other call overlaps. *)
Definition queueDeployment (projectId : string) (isDryRun : bool)
           (st : State) : result Job * State :=
  match enter projectId isDryRun st with
  | (Throw msg, st') => (Throw msg, st')
  | (Ok _, st') =>
      commit (projectId, isDryRun)
             (mkState (world st') (q st') (admitted st) (running st'))
  end.

(** What the bound is about: waiting plus active jobs. *)
Definition load (st : State) : Z :=
  (Z.of_nat (length (queue (q st))) + Z.of_nat (active (q st)))%Z.

End WithHost.
End Engine.

(* ===================================================================== *)
(** ** Buffers, base64 and UTF-8 as [secrets.js] uses them *)
(* ===================================================================== *)

Module Bytes.

(** A [Buffer] is a list of bytes; a byte is an [ascii]. *)
Abbreviation Buffer := (list ascii).

Definition byteOf (n : Z) : ascii := ascii_of_N (Z.to_N n).
Definition valOf (b : ascii) : Z := Z.of_N (N_of_ascii b).

Definition xorByte (a b : ascii) : ascii :=
  match a, b with
  | Ascii a0 a1 a2 a3 a4 a5 a6 a7, Ascii b0 b1 b2 b3 b4 b5 b6 b7 =>
      Ascii (xorb a0 b0) (xorb a1 b1) (xorb a2 b2) (xorb a3 b3)
            (xorb a4 b4) (xorb a5 b5) (xorb a6 b6) (xorb a7 b7)
  end.

(** Byte-wise xor of a text with a key stream at least as long. *)
Fixpoint xorWith (text stream : Buffer) : Buffer :=
  match text, stream with
  | t :: text', k :: stream' => xorByte t k :: xorWith text' stream'
  | _, _ => text
  end.

End Bytes.
Export Bytes.

Module Base64.

(** Six bits, most significant first. *)
Record Sextet : Type := mkSextet {
  x5 : bool; x4 : bool; x3 : bool; x2 : bool; x1 : bool; x0 : bool
}.

Definition alphabet : string :=
  "ABCDEFGHIJKLMNOPQRSTUVWXYZabcdefghijklmnopqrstuvwxyz0123456789+/".

Definition bit (b : bool) (w : nat) : nat := if b then w else 0.

Definition index (s : Sextet) : nat :=
  bit (x5 s) 32 + bit (x4 s) 16 + bit (x3 s) 8 + bit (x2 s) 4
  + bit (x1 s) 2 + bit (x0 s) 1.

Definition ofIndex (n : nat) : Sextet :=
  mkSextet (Nat.testbit n 5) (Nat.testbit n 4) (Nat.testbit n 3)
           (Nat.testbit n 2) (Nat.testbit n 1) (Nat.testbit n 0).

Definition charOf (s : Sextet) : ascii :=
  match String.get (index s) alphabet with
  | Some c => c
  | None => "="%char
  end.

Fixpoint position (c : ascii) (table : string) (n : nat) : option nat :=
  match table with
  | EmptyString => None
  | String d table' =>
      if Ascii.eqb c d then Some n else position c table' (S n)
  end.

(** The decoder's table: the standard alphabet, and [-] and [_] of the
    URL-safe one. *)
Definition unbase64 (c : ascii) : option Sextet :=
  if Ascii.eqb c "-" then Some (ofIndex 62)
  else if Ascii.eqb c "_" then Some (ofIndex 63)
  else option_map ofIndex (position c alphabet 0).

Definition first6 (a : ascii) (b : ascii) : Sextet * Sextet :=
  match a, b with
  | Ascii a0 a1 a2 a3 a4 a5 a6 a7, Ascii b0 b1 b2 b3 b4 b5 b6 b7 =>
      (mkSextet a7 a6 a5 a4 a3 a2, mkSextet a1 a0 b7 b6 b5 b4)
  end.

Definition last6 (b : ascii) (c : ascii) : Sextet * Sextet :=
  match b, c with
  | Ascii b0 b1 b2 b3 b4 b5 b6 b7, Ascii c0 c1 c2 c3 c4 c5 c6 c7 =>
      (mkSextet b3 b2 b1 b0 c7 c6, mkSextet c5 c4 c3 c2 c1 c0)
  end.

Definition zeroByte : ascii := Ascii.zero.

(** [buffer.toString('base64')] *)
Fixpoint encode (bs : Buffer) : string :=
  match bs with
  | [] => EmptyString
  | [a] =>
      let '(s1, s2) := first6 a zeroByte in
      String (charOf s1) (String (charOf s2) "==")
  | [a; b] =>
      let '(s1, s2) := first6 a b in
      let '(s3, _) := last6 b zeroByte in
      String (charOf s1) (String (charOf s2) (String (charOf s3) "="))
  | a :: b :: c :: rest =>
      let '(s1, s2) := first6 a b in
      let '(s3, s4) := last6 b c in
      String (charOf s1) (String (charOf s2)
        (String (charOf s3) (String (charOf s4) (encode rest))))
  end.

(** The decoder skips code units outside its table and stops at [=]. *)
Fixpoint sextets (s : string) : list Sextet :=
  match s with
  | EmptyString => []
  | String c rest =>
      if Ascii.eqb c "=" then []
      else match unbase64 c with
           | Some x => x :: sextets rest
           | None => sextets rest
           end
  end.

Definition byte1 (s1 s2 : Sextet) : ascii :=
  Ascii (x4 s2) (x5 s2) (x0 s1) (x1 s1) (x2 s1) (x3 s1) (x4 s1) (x5 s1).
Definition byte2 (s2 s3 : Sextet) : ascii :=
  Ascii (x2 s3) (x3 s3) (x4 s3) (x5 s3) (x0 s2) (x1 s2) (x2 s2) (x3 s2).
Definition byte3 (s3 s4 : Sextet) : ascii :=
  Ascii (x0 s4) (x1 s4) (x2 s4) (x3 s4) (x4 s4) (x5 s4) (x0 s3) (x1 s3).

Fixpoint pack (xs : list Sextet) : Buffer :=
  match xs with
  | s1 :: s2 :: s3 :: s4 :: rest =>
      byte1 s1 s2 :: byte2 s2 s3 :: byte3 s3 s4 :: pack rest
  | [s1; s2; s3] => [byte1 s1 s2; byte2 s2 s3]
  | [s1; s2] => [byte1 s1 s2]
  | _ => []
  end.

(** [Buffer.from(text, 'base64')] *)
Definition decode (text : string) : Buffer := pack (sextets text).

End Base64.

Module Utf8.

Local Open Scope Z_scope.

(** A JavaScript string as the sequence of its code points.  A lone
    surrogate is a code point in [0xD800, 0xDFFF]. *)
Abbreviation Text := (list Z).

Definition isSurrogate (cp : Z) : bool := (0xD800 <=? cp) && (cp <=? 0xDFFF).

(** Well-formed text: Unicode scalar values only. *)
Definition scalar (cp : Z) : Prop :=
  (0 <= cp < 0xD800) \/ (0xE000 <= cp < 0x110000).

Definition wellFormed (t : Text) : Prop := Forall scalar t.

Definition replacement : Z := 0xFFFD.

Definition encode3 (cp : Z) : Buffer :=
  [byteOf (0xE0 + cp / 4096); byteOf (0x80 + (cp / 64) mod 64);
   byteOf (0x80 + cp mod 64)].

(** One code point to UTF-8; a lone surrogate is written as U+FFFD. *)
Definition encodePoint (cp : Z) : Buffer :=
  if cp <? 0x80 then [byteOf cp]
  else if cp <? 0x800 then
    [byteOf (0xC0 + cp / 64); byteOf (0x80 + cp mod 64)]
  else if cp <? 0x10000 then
    if isSurrogate cp then encode3 replacement else encode3 cp
  else
    [byteOf (0xF0 + cp / 262144); byteOf (0x80 + (cp / 4096) mod 64);
     byteOf (0x80 + (cp / 64) mod 64); byteOf (0x80 + cp mod 64)].

(** [Buffer.from(text, 'utf8')] *)
Definition encode (t : Text) : Buffer := concat (map encodePoint t).

(** The decoder's state between two bytes. *)
Record DecState : Type := mkDec {
  codePoint : Z;
  needed : nat;
  lower : Z;
  upper : Z
}.

Definition idle : DecState := mkDec 0 0 0x80 0xBF.

(** A byte read with no sequence open: a code point, or a new state. *)
Definition lead (b : Z) : option Z * DecState :=
  if b <=? 0x7F then (Some b, idle)
  else if (0xC2 <=? b) && (b <=? 0xDF) then
    (None, mkDec (b mod 32) 1 0x80 0xBF)
  else if (0xE0 <=? b) && (b <=? 0xEF) then
    (None, mkDec (b mod 16) 2
                 (if b =? 0xE0 then 0xA0 else 0x80)
                 (if b =? 0xED then 0x9F else 0xBF))
  else if (0xF0 <=? b) && (b <=? 0xF4) then
    (None, mkDec (b mod 8) 3
                 (if b =? 0xF0 then 0x90 else 0x80)
                 (if b =? 0xF4 then 0x8F else 0xBF))
  else (Some replacement, idle).

Definition emit (o : option Z) (rest : Text) : Text :=
  match o with Some cp => cp :: rest | None => rest end.

(** [buffer.toString('utf8')]: ill-formed input decodes to U+FFFD, the
    offending byte being read again as the start of a sequence. *)
Fixpoint decodeFrom (st : DecState) (bs : Buffer) : Text :=
  match bs with
  | [] => match needed st with O => [] | S _ => [replacement] end
  | byte :: rest =>
      let b := valOf byte in
      match needed st with
      | O => let '(o, st') := lead b in emit o (decodeFrom st' rest)
      | S k =>
          if (lower st <=? b) && (b <=? upper st) then
            let cp := codePoint st * 64 + b mod 64 in
            match k with
            | O => cp :: decodeFrom idle rest
            | S _ => decodeFrom (mkDec cp k 0x80 0xBF) rest
            end
          else
            let '(o, st') := lead b in
            replacement :: emit o (decodeFrom st' rest)
      end
  end.

Definition decode (bs : Buffer) : Text := decodeFrom idle bs.

End Utf8.

(* ===================================================================== *)
(** ** [secrets.js] *)
(* ===================================================================== *)

Module Secrets.
Section WithCrypto.

(** [config.SECRETS_MASTER_KEY] *)
Variable MASTER_KEY : string.

(** The primitives of Node's [crypto] module.  [sha256] is the digest;
    AES-256-GCM is a counter mode: [keystream key iv n] are the [n] bytes
    the plaintext is xor-ed with, [mac key iv ciphertext] the 16-byte
    authentication tag. *)
Variable sha256 : Buffer -> Buffer.
Variable keystream : Buffer -> Buffer -> nat -> Buffer.
Variable mac : Buffer -> Buffer -> Buffer -> Buffer.

Definition deriveKey : Buffer :=
  sha256 (Utf8.encode (map (fun c => Z.of_nat (nat_of_ascii c))
                           (list_ascii_of_string MASTER_KEY))).

(** [cipher.update(plaintext, 'utf8')], [cipher.final()] and
    [cipher.getAuthTag()] *)
Definition gcmEncrypt (key iv plain : Buffer) : Buffer * Buffer :=
  let encrypted := xorWith plain (keystream key iv (length plain)) in
  (encrypted, mac key iv encrypted).

(** Tag lengths [setAuthTag] accepts. *)
Definition tagLengthOk (n : nat) : bool :=
  existsb (Nat.eqb n) [4; 8; 12; 13; 14; 15; 16].

(** [decipher.update(encrypted)] and [decipher.final()], which throws
    when the tag does not authenticate the ciphertext. *)
Definition gcmDecrypt (key iv tag encrypted : Buffer) : result Buffer :=
  match iv with
  | [] => Throw "Invalid initialization vector"
  | _ =>
      if negb (tagLengthOk (length tag))
      then Throw "Invalid authentication tag length"
      else if bool_decide (take (length tag) (mac key iv encrypted) = tag)
      then Ok (xorWith encrypted (keystream key iv (length encrypted)))
      else Throw "Unsupported state or unable to authenticate data"
  end.

(** [encryptSecret], with the bytes [crypto.randomBytes(12)] returned
    given as [iv]. *)
Definition encryptSecret (iv : Buffer) (plaintext : Utf8.Text)
  : result string :=
  if negb (truthy_str MASTER_KEY) then
    Throw "Secret encryption is not configured (missing SECRETS_MASTER_KEY)"
  else
    let key := deriveKey in
    let '(encrypted, tag) := gcmEncrypt key iv (Utf8.encode plaintext) in
    let payload := (iv ++ tag ++ encrypted)%list in
    Ok (Base64.encode payload).

(** [decryptSecret] up to its [decrypted] buffer. *)
Definition decryptBuffer (ciphertext : string) : result Buffer :=
  if negb (truthy_str MASTER_KEY) then
    Throw "Secret decryption is not configured (missing SECRETS_MASTER_KEY)"
  else
    let raw := Base64.decode ciphertext in
    let iv := take 12 raw in
    let tag := take 16 (drop 12 raw) in
    let encrypted := drop 28 raw in
    let key := deriveKey in
    gcmDecrypt key iv tag encrypted.

(** [decryptSecret]: the buffer is returned as [toString('utf8')]. *)
Definition decryptSecret (ciphertext : string) : result Utf8.Text :=
  match decryptBuffer ciphertext with
  | Ok decrypted => Ok (Utf8.decode decrypted)
  | Throw msg => Throw msg
  end.

End WithCrypto.
End Secrets.

(* ===================================================================== *)
(** ** The deploy engine without guards: [api/lib/deployEngine.js] *)
(* ===================================================================== *)

Module LegacyEngine.
Section WithHost.

Variable cfg : Config.t.

(** The body of the [release] step of that file.  [repoPath] and
    [releasesDir] are [projectStore.repoDir(projectId)] and
    [projectStore.releasesDir(projectId)], [deployPath] is
    [project.deployPath] as stored. *)
Definition releaseStep (projectId : string) (project : Project)
           (deployPath : string) (isDryRun : bool)
           (l : Engine.Locals) : ExtM string :=
  let repoPath := ProjectStore.repoDir cfg projectId in
  let releasesDir := ProjectStore.releasesDir cfg projectId in
  let outputDir := Engine.outputDirOf cfg project in
  let absOutput := Guards.unguardedOutput repoPath outputDir in
  (if isDryRun then mret tt
   else
     found ← pathExists absOutput;
     if (found : bool) then mret tt
     else throw ("Build output directory not found: " ++ absOutput));;
  stamp ← now;
  let releasePath := Path.pjoin [releasesDir; Engine.releaseName stamp l] in
  (if isDryRun then mret tt
   else mkdirp releasePath;; cpRecursive absOutput releasePath);;
  let currentLink := ProjectStore.currentSymlink cfg projectId in
  let previousLink := ProjectStore.previousSymlink cfg projectId in
  previousTarget ← tryCatch (t ← readlink currentLink; mret (Some t))
                            (fun _ => mret None);
  (if isDryRun then mret tt
   else
     match previousTarget with
     | Some t =>
         if truthy_str t then
           swallow (rmForce previousLink);;
           swallow (symlink t previousLink)
         else mret tt
     | None => mret tt
     end;;
     swallow (rmForce currentLink);;
     symlink releasePath currentLink;;
     mkdirp (Path.dirname deployPath);;
     Engine.removePath deployPath;;
     symlink releasePath deployPath);;
  mret releasePath.

End WithHost.
End LegacyEngine.

(* ===================================================================== *)
(** ** [projectStore.js]: storing the environment of a project *)
(* ===================================================================== *)

Module Storage.
Import EnvBuilder.
Section WithSecrets.

(** [encryptSecret] of [secrets.js], applied to [entry.value] as it
    is.  Every call draws an IV of its own, so the calls of one run are
    told apart by their number. *)
Variable encryptSecret : nat -> field string -> result string.

(** [new Map(existingEnv.map((entry) => [entry.key, entry]))], read at
    the keys that are non-empty strings: no other key is looked up. *)
Definition existingMap (existingEnv : list EnvEntry) : gmap string EnvEntry :=
  fold_left (fun m e => match e_key e with
                        | Val k => <[k := e]> m
                        | _ => m
                        end) existingEnv ∅.

(** [entry.value ?? ''] *)
Definition valueOrEmpty (v : field string) : field string :=
  match v with Val x => Val x | _ => Val "" end.

(** The loop over [updates]; [n] counts the calls of [encryptSecret]. *)
Fixpoint formatLoop (updates : list (option EnvEntry))
         (existing : gmap string EnvEntry) (n : nat)
  : result (list EnvEntry) :=
  match updates with
  | [] => Ok []
  | None :: rest => formatLoop rest existing n
  | Some entry :: rest =>
      if negb (truthyS (e_key entry)) then formatLoop rest existing n
      else
        let key := keyOf entry in
        let prev := existing !! key in
        if e_isSecret entry then
          let kept := match prev with
                      | Some p => orS (e_encryptedValue p) Null
                      | None => Null
                      end in
          let encrypted :=
            match e_value entry with
            | Absent => Ok (kept, n)
            | v => match encryptSecret n v with
                   | Ok blob => Ok (Val blob, S n)
                   | Throw msg => Throw msg
                   end
            end in
          match encrypted with
          | Throw msg => Throw msg
          | Ok (encryptedValue, n') =>
              if negb (truthyS encryptedValue)
              then Throw ("Secret env " ++ key ++ " requires a value")
              else
                match formatLoop rest (delete key existing) n' with
                | Ok next => Ok (mkEnv (e_key entry) true Absent encryptedValue
                                 :: next)
                | Throw msg => Throw msg
                end
          end
        else
          match formatLoop rest (delete key existing) n with
          | Ok next => Ok (mkEnv (e_key entry) false
                                 (valueOrEmpty (e_value entry)) Absent :: next)
          | Throw msg => Throw msg
          end
  end.

(** [formatEnvForStorage(existingEnv, updates)]; [None] is [undefined]. *)
Definition formatEnvForStorage (existingEnv : list EnvEntry)
           (updates : option (list (option EnvEntry)))
  : result (list EnvEntry) :=
  match updates with
  | None => Ok existingEnv
  | Some us => formatLoop us (existingMap existingEnv) 0
  end.

(** [Array.isArray(data?.env) ? data.env : []] *)
Definition envUpdatesOf (data : Project) : list (option EnvEntry) :=
  match env data with EnvArray entries => entries | _ => [] end.

Definition saveProject (projectId : string) (data : Project) : M unit :=
  storedEnv ← liftR (formatEnvForStorage [] (Some (envUpdatesOf data)));
  ProjectStore.writeProject projectId
    (mkProject (p_id data) (repo data) (branch data) (buildCommand data)
       (installCommand data) (testCommand data) (startCommand data)
       (buildOutput data) (buildOutputDir data) (deployPath data)
       (runtime data) (domain data) (port data) (runtimePort data)
       (orS (ownerId data) (Val "admin"))
       (match templateId data with Absent => Null | t => t end)
       (ProjectStore.asArray storedEnv)
       (lastDeploy data) (lastCommit data)).

End WithSecrets.
End Storage.

(* ===================================================================== *)
(** ** [server.js]: project ids *)
(* ===================================================================== *)

Module Server.

(** The class [[a-z0-9-]]. *)
Definition slugChar (c : ascii) : bool :=
  let n := nat_of_ascii c in
  ((97 <=? n) && (n <=? 122) || (48 <=? n) && (n <=? 57) || (n =? 45))%nat.

Definition isDash (c : ascii) : bool := Ascii.eqb c "-".

(** [.replace(/[^a-z0-9-]/g, '-')] *)
Fixpoint dashOthers (s : string) : string :=
  match s with
  | EmptyString => EmptyString
  | String c s' => String (if slugChar c then c else "-"%char) (dashOthers s')
  end.

(** [.replace(/-+/g, '-')]: every run of dashes becomes one dash. *)
Fixpoint squeeze (s : string) : string :=
  match s with
  | EmptyString => EmptyString
  | String c s' =>
      if isDash c && Js.startsWith s' "-" then squeeze s'
      else String c (squeeze s')
  end.

(** [.replace(/^-|-$/g, '')]: a dash at the start goes, and so does a
    dash at the end of what follows it. *)
Definition dropFirstDash (s : string) : string :=
  match s with
  | String c s' => if isDash c then s' else s
  | EmptyString => EmptyString
  end.

Fixpoint dropLastDash (s : string) : string :=
  match s with
  | EmptyString => EmptyString
  | String c EmptyString => if isDash c then EmptyString else s
  | String c s' => String c (dropLastDash s')
  end.

Section WithHost.

(** [String.prototype.toLowerCase], which is not reproduced here. *)
Variable toLowerCase : string -> string.

(** [now] is the reading of [Date.now()]. *)
Definition slugifyProjectId (owner repoName : string) (now : nat) : string :=
  let slug := dropLastDash (dropFirstDash (squeeze (dashOthers
                (toLowerCase (owner ++ "-" ++ repoName))))) in
  if truthy_str slug then slug else "project-" ++ pretty now.

End WithHost.
End Server.

(* ===================================================================== *)
(** ** A small installation used in examples *)
(* ===================================================================== *)

Module Examples.

Definition cfg : Config.t :=
  Config.mk "/var/deploy/projects" "/var/deploy/logs" "/var/www"
            "/etc/nginx/sites-available" "/etc/nginx/sites-enabled" "pm2"
            "releases" "build" (Some 1%Z) (Some 1%Z) "/srv/api".

Definition uuid (n : nat) : string := "d" ++ pretty n.

(** No master key is configured on this installation. *)
Definition decryptSecret (blob : string) : result string :=
  Throw "Secret decryption is not configured (missing SECRETS_MASTER_KEY)".

(** Every program prints one line and exits with 0; a build leaves the
    [build] directory behind. *)
Definition spawn (n : nat) (cmd : string) (args : list string)
           (o : SpawnOpts) : ProcOutcome :=
  mkProc [(false, "0123456789abcdef0123456789abcdef01234567" ++ nl)]
         (Exited 0)
         (fun m => <["/var/deploy/projects/p1/repo/build" := Dir]> m).

Definition toNumber (text : string) : field Z := Null.

(** A static site owned by the administrator. *)
Definition p1 : Project :=
  mkProject Absent (Val "https://github.com/o/r") (Val "main")
            (Val "npm run build") Absent Absent Absent (Val "build") Absent
            (Val "/var/www/p1") (Val "static") Absent Absent Absent Absent
            Absent EnvFalsy Absent Absent.

Definition withBuildOutput (pr : Project) (out : string) : Project :=
  mkProject (p_id pr) (repo pr) (branch pr) (buildCommand pr)
            (installCommand pr) (testCommand pr) (startCommand pr)
            (Val out) (buildOutputDir pr) (deployPath pr)
            (runtime pr) (domain pr) (port pr) (runtimePort pr) (ownerId pr)
            (templateId pr) (env pr) (lastDeploy pr) (lastCommit pr).

Definition host0 : Ext := mkExt ∅ ∅ [] 0.

Definition world0 : World :=
  mkWorld {[ "p1" := JsonObject p1 ]} ∅ host0.

Definition state0 : Engine.State :=
  Engine.mkState world0 (Engine.mkQueue [] 0) [] [].

(** A queued dry-run deployment of [p1], as [createDeployment] writes it. *)
Definition queuedDryRun : Deployment :=
  mkDeployment "d0" "p1" Queued 1 Null Null ∅ Null
               "/var/deploy/logs/p1/d0.log" true Absent.

Definition dryRunJob : Engine.Job := Engine.mkJob "d0" "p1" true.

Definition world1 : World :=
  mkWorld {[ "p1" := JsonObject p1 ]} {[ "d0" := queuedDryRun ]} host0.

(** The same, for a project whose build output points outside its
    repository. *)
Definition world2 : World :=
  mkWorld {[ "p1" := JsonObject (withBuildOutput p1 "/etc") ]}
          {[ "d0" := queuedDryRun ]} host0.

Definition runDeployment :=
  Engine.runDeployment cfg decryptSecret spawn ∅ 7%Z toNumber.

(** Stand-ins for the primitives of [crypto], for examples only: a fixed
    key stream and a tag that ignores its input. *)
Definition MASTER_KEY : string := "correct horse battery staple".
Definition sha256 (data : Buffer) : Buffer := data.
Definition keystream (key iv : Buffer) (n : nat) : Buffer :=
  repeat (byteOf 0x5A) n.
Definition mac (key iv data : Buffer) : Buffer := repeat Base64.zeroByte 16.
Definition iv0 : Buffer := repeat (byteOf 1) 12.
Definition iv1 : Buffer := repeat (byteOf 2) 12.
Definition encryptSecret := Secrets.encryptSecret MASTER_KEY sha256 keystream mac.
Definition decryptSecretText := Secrets.decryptSecret MASTER_KEY sha256 keystream mac.
Definition decryptBuffer := Secrets.decryptBuffer MASTER_KEY sha256 keystream mac.

(** The states the engine of this installation can be in, started idle. *)
Definition reachable : Engine.State -> Prop :=
  Engine.reachable cfg uuid decryptSecret spawn ∅ 7%Z toNumber state0.

(** A program that prints the variables of its environment that it is
    asked for, one per line, and the options of a step that runs with
    one secret. *)
Definition printenv (n : nat) (cmd : string) (args : list string)
           (o : SpawnOpts) : ProcOutcome :=
  mkProc (map (fun k => (false, default "" (o_env o ≫= (.!! k)) ++ nl)) args)
         (Exited 0) id.

Definition secretOpts : SpawnOpts :=
  mkOpts None (Some {[ "API_TOKEN" := "hunter2" ]}) ["API_TOKEN"].

End Examples.

(* ===================================================================== *)
(** ** Vocabulary of the statements *)
(* ===================================================================== *)

Module Vocabulary.

(** What [getProject] finds for a store content. *)
Definition found (projectId : string) (ps : gmap string ConfigFile)
  : option Project :=
  match ps !! projectId with
  | Some (JsonObject d) => Some (ProjectStore.withDefaults projectId d)
  | Some JsonPrimitive =>
      Some (mkProject (Val projectId) Absent Absent Absent Absent
                      Absent Absent Absent Absent Absent Absent
                      Absent Absent Absent Absent Absent EnvFalsy
                      Absent Absent)
  | _ => None
  end.

(** [m] only appends effects that satisfy [P] to the trace. *)
Definition onlyAdds {A} (P : Effect -> Prop) (m : ExtM A) : Prop :=
  forall e r e', m e = (r, e') ->
    exists new, trace e' = (trace e ++ new)%list /\ Forall P new.

(** An effect is harmless for [base] unless it copies from outside it. *)
Definition copiesFrom (base : string) (ev : Effect) : Prop :=
  match ev with
  | ECopy src _ => Path.within base src
  | _ => True
  end.

(** [m] keeps the record [id] in place, with the same [steps]. *)
Definition keepsSteps {A} (id : string) (m : M A) : Prop :=
  forall w r w' d, m w = (r, w') -> deployments w !! id = Some d ->
    exists d', deployments w' !! id = Some d' /\ steps d' = steps d.

(** The record after [appendStep]. *)
Definition withStep (d : Deployment) (name : string) (data : StepRec)
  : Deployment :=
  mkDeployment (deploymentId d) (d_projectId d) (status d) (createdAt d)
    (startedAt d) (finishedAt d)
    (<[name := mergeStep (default emptyStep (steps d !! name)) data]> (steps d))
    (Store.commit d) (logPath d) (dryRun d) (error d).

(** What one [runStep] leaves in the record. *)
Definition stepOutcome {A} (r : result A) (st : StepRec) : Prop :=
  match r with
  | Ok _ => s_status st = Val StepSuccess
  | Throw msg => s_status st = Val StepFailed /\ s_error st = Val msg
  end.

Definition statusOf (d : Deployment) (name : string) : option (field SStatus) :=
  s_status <$> steps d !! name.

Definition stepNames : list string :=
  ["sync"; "install"; "test"; "build"; "release"; "nginx"; "runtime"].

(** The project record as stored in [deploy-config.json]. *)
Definition storedProject (w : World) (projectId : string) : option Project :=
  match projects w !! projectId with
  | Some (JsonObject d) => Some d
  | _ => None
  end.

(** Bytes that are the UTF-8 form of a well-formed text. *)
Definition validUtf8 (bs : Buffer) : Prop :=
  exists t, Utf8.wellFormed t /\ Utf8.encode t = bs.

(** Waiting plus active jobs of a queue. *)
Definition loadQ (x : Engine.Queue) : Z :=
  (Z.of_nat (length (Engine.queue x)) + Z.of_nat (Engine.active x))%Z.

End Vocabulary.
Export Vocabulary.

(* ===================================================================== *)
(** ** Vocabulary of the redaction statements *)
(* ===================================================================== *)

Module Redaction.

(** No white space in [s]. *)
Fixpoint noSpace (s : string) : bool :=
  match s with
  | EmptyString => true
  | String c s' => negb (is_space c) && noSpace s'
  end.

(** [c] does not occur in [s]. *)
Fixpoint lacks (c : ascii) (s : string) : bool :=
  match s with
  | EmptyString => true
  | String d s' => negb (Ascii.eqb d c) && lacks c s'
  end.

(** A key the redactor handles as meant: not empty, and free of white
    space, [=] and [$]. *)
Definition plainKey (k : string) : bool :=
  truthy_str k && noSpace k && lacks "=" k && lacks "$" k.

(** [s] is empty or starts with white space. *)
Definition atBoundary (s : string) : bool :=
  match s with
  | EmptyString => true
  | String c _ => is_space c
  end.

(** Equality of strings up to the case of their code units. *)
Fixpoint ciEq (a b : string) : bool :=
  match a, b with
  | EmptyString, EmptyString => true
  | String x a', String y b' => Command.ci_eqb x y && ciEq a' b'
  | _, _ => false
  end.

Definition mask (key : string) : string := key ++ "=[redacted]".

(** [w] reads [KEY=tok], the key in any case and [tok] not empty. *)
Definition assigns (key w tok : string) : Prop :=
  exists k', ciEq key k' = true /\ w = k' ++ String "=" tok /\ tok <> "".

(** Every [KEY=<token>] left in the text carries the mask. *)
Definition clean (key text : string) : Prop :=
  forall a b m tok rest, text = a ++ b ->
    Command.matchAt key b = Some (m, tok, rest) -> tok = "[redacted]".

Definition cleanWord (key w : string) : Prop :=
  forall p s tok, w = p ++ s -> assigns key s tok -> tok = "[redacted]".

End Redaction.

(* ===================================================================== *)
(** ** Vocabulary of the further statements *)
(* ===================================================================== *)

Module Normal.
(** A path component that [path.resolve] leaves in its result: not
    empty, not [.] or [..], and free of the separator. *)
Definition component (s : string) : Prop :=
  s <> "" /\ s <> "." /\ s <> ".." /\ Redaction.lacks "/" s = true.
End Normal.

Module Workers.
Import Engine.
(** Every worker slot in use is a running job, no more than
    [MAX_CONCURRENT] are in use, and a job waits only while all are. *)
Definition balanced (cfg : Config.t) (st : State) : Prop :=
  active (q st) = length (running st)
  /\ (Z.of_nat (active (q st)) <= MAX_CONCURRENT cfg)%Z
  /\ (queue (q st) <> [] -> Z.of_nat (active (q st)) = MAX_CONCURRENT cfg).

Definition idle (w : World) : State := mkState w (mkQueue [] 0) [] [].
End Workers.

Module StoreVocabulary.
(** [next] is [existing] with the three properties the engine updates. *)
Definition updatedFrom (existing : Project) (u : ProjectStore.ProjectUpdate)
           (next : Project) : Prop :=
  lastDeploy next = spread (lastDeploy existing) (ProjectStore.up_lastDeploy u)
  /\ lastCommit next = spread (lastCommit existing) (ProjectStore.up_lastCommit u)
  /\ runtimePort next
     = spread (runtimePort existing) (ProjectStore.up_runtimePort u)
  /\ repo next = repo existing /\ branch next = branch existing
  /\ buildCommand next = buildCommand existing
  /\ installCommand next = installCommand existing
  /\ testCommand next = testCommand existing
  /\ startCommand next = startCommand existing
  /\ buildOutput next = buildOutput existing
  /\ buildOutputDir next = buildOutputDir existing
  /\ deployPath next = deployPath existing
  /\ runtime next = runtime existing /\ domain next = domain existing
  /\ port next = port existing
  /\ ownerId next = orS (ownerId existing) (Val "admin")
  /\ templateId next
     = match templateId existing with Absent => Null | t => t end
  /\ ProjectStore.normalizeStoredEnv (env next)
     = ProjectStore.normalizeStoredEnv (env existing).
End StoreVocabulary.

Module EnvVocabulary.
Import EnvBuilder.
(** Every variable of the secret environment is named among the keys
    to redact. *)
Definition covered (m : Maps) : Prop :=
  forall k, is_Some (secretEnv m !! k) -> In k (secretKeys m).
End EnvVocabulary.

Module Frames.
(** A host computation that leaves the file system and the record of
    host effects as they are (it may write to a log and read the
    clock). *)
Definition quiet {A} (m : ExtM A) : Prop :=
  forall e r e', m e = (r, e') -> fs e' = fs e /\ trace e' = trace e.

(** The same for a computation over the whole world. *)
Definition quietW {A} (m : M A) : Prop :=
  forall w r w', m w = (r, w') ->
    fs (ext w') = fs (ext w) /\ trace (ext w') = trace (ext w).

(** A host computation that writes to no log but [stream]. *)
Definition logsTo {A} (stream : option string) (m : ExtM A) : Prop :=
  forall e r e', m e = (r, e') ->
    forall p, stream <> Some p -> logs e' !! p = logs e !! p.

(** A computation that writes to no log but [stream], to no project
    record but that of [projectId], and to no deployment record but
    [deploymentId]. *)
Definition ownRecords {A} (stream : option string)
           (projectId deploymentId : string) (m : M A) : Prop :=
  forall w r w', m w = (r, w') ->
    (forall p, stream <> Some p -> logs (ext w') !! p = logs (ext w) !! p)
    /\ (forall other, other <> projectId ->
          projects w' !! other = projects w !! other)
    /\ (forall other, other <> deploymentId ->
          deployments w' !! other = deployments w !! other).
End Frames.

Module Spawns.
Import Frames.
(** The same as [onlyAdds], for a computation over the whole world. *)
Definition hostAdds {A} (P : Effect -> Prop) (m : M A) : Prop :=
  forall w r w', m w = (r, w') ->
    exists new, trace (ext w') = (trace (ext w) ++ new)%list /\ Forall P new.

(** The scripts of the command templates. *)
Definition catalogueScripts : list string :=
  ["npm ci"; "npm run build"; "npm start"].

(** What a deployment may spawn when its commands come from a template:
    [git], [nginx] and [systemctl], and a shell, directly or under the
    process manager, for a script of the catalogue. *)
Definition templateSpawn (cfg : Config.t) (ev : Effect) : Prop :=
  match ev with
  | ESpawn cmd args =>
      In cmd ["git"; "nginx"; "systemctl"]
      \/ (cmd = "bash"
          /\ exists script, args = ["-lc"; script]
                            /\ In script catalogueScripts)
      \/ (cmd = Config.PM2_BIN cfg
          /\ exists name release script,
               args = ["start"; "bash"; "--name"; name; "--cwd"; release;
                       "--update-env"; "--"; "-lc"; script]
               /\ In script catalogueScripts)
  | _ => True
  end.
End Spawns.

Module Host.
(** What has been written to a log stream so far. *)
Definition logOf (e : Ext) (path : string) : list string :=
  default [] (logs e !! path).

(** Programs that leave the file system as it is. *)
Definition readOnly
    (spawn : nat -> string -> list string -> SpawnOpts -> ProcOutcome) : Prop :=
  forall n cmd args o m, fsEffect (spawn n cmd args o) m = m.
End Host.


Module Slugs.
Import Server.

(** Every character of [s] passes [f]. *)
Fixpoint allOf (f : ascii -> bool) (s : string) : bool :=
  match s with
  | EmptyString => true
  | String c s' => f c && allOf f s'
  end.

(** The last character of [s] is a dash. *)
Fixpoint endsInDash (s : string) : bool :=
  match s with
  | EmptyString => false
  | String c EmptyString => isDash c
  | String _ s' => endsInDash s'
  end.

(** No two dashes in a row. *)
Fixpoint noDouble (s : string) : bool :=
  match s with
  | EmptyString => true
  | String c s' => negb (isDash c && Js.startsWith s' "-") && noDouble s'
  end.

Definition isDigit (c : ascii) : bool :=
  let n := nat_of_ascii c in ((48 <=? n) && (n <=? 57))%nat.

(** A name made of [a-z], [0-9] and single dashes, which begins and
    ends with a letter or digit. *)
Definition slug (s : string) : Prop :=
  s <> "" /\ allOf slugChar s = true /\ noDouble s = true
  /\ Js.startsWith s "-" = false /\ endsInDash s = false.

End Slugs.

Module StoredEnv.
Import EnvBuilder Storage.

(** Where the encrypted value [blob] stored under [key] can come from:
    a call of [encryptSecret], or the entry stored before under the
    same key. *)
Definition origin (encryptSecret : nat -> field string -> result string)
           (existingEnv : list EnvEntry) (key : field string) (blob : string)
  : Prop :=
  (exists n v, v <> Absent /\ encryptSecret n v = Ok blob)
  \/ (exists prev, In prev existingEnv /\ e_key prev = key
                   /\ e_encryptedValue prev = Val blob).

(** An entry as [formatEnvForStorage] writes it: a secret carries a
    non-empty encrypted value and no [value]; any other entry carries a
    [value] and nothing encrypted. *)
Definition sealed (encryptSecret : nat -> field string -> result string)
           (existingEnv : list EnvEntry) (e : EnvEntry) : Prop :=
  truthyS (e_key e) = true
  /\ if e_isSecret e
     then e_value e = Absent
          /\ exists blob, e_encryptedValue e = Val blob /\ blob <> ""
                          /\ origin encryptSecret existingEnv (e_key e) blob
     else e_encryptedValue e = Absent /\ exists v, e_value e = Val v.

(** The variable of the update [u] has reached the maps. *)
Definition loaded (maps : Maps) (u : EnvEntry) : Prop :=
  if e_isSecret u
  then In (keyOf u) (secretKeys maps) /\ is_Some (secretEnv maps !! keyOf u)
  else is_Some (plainEnv maps !! keyOf u).

(** Neither environment has a variable named [__proto__]. *)
Definition protoFree (m : Maps) : Prop :=
  plainEnv m !! "__proto__" = None /\ secretEnv m !! "__proto__" = None.

(** What the maps [a] hold is in [b] as well. *)
Definition below (a b : Maps) : Prop :=
  (forall k, In k (secretKeys a) -> In k (secretKeys b))
  /\ (forall k, is_Some (secretEnv a !! k) -> is_Some (secretEnv b !! k))
  /\ (forall k, is_Some (plainEnv a !! k) -> is_Some (plainEnv b !! k)).

End StoredEnv.

Module Kept.
(** A host computation that leaves the node at path [p] as it is. *)
Definition keeps {A} (p : string) (m : ExtM A) : Prop :=
  forall e r e', m e = (r, e') -> fs e' !! p = fs e !! p.

(** [p] is none of the paths [nginxManager.writeConfig] writes to. *)
Definition clearOf (cfg : Config.t) (projectId p : string) : Prop :=
  p <> Config.NGINX_SITES_AVAILABLE cfg
  /\ p <> Config.NGINX_SITES_ENABLED cfg
  /\ p <> Path.pjoin [Config.NGINX_SITES_AVAILABLE cfg;
                      "deployer-" ++ projectId ++ ".conf"]
  /\ p <> Path.pjoin [Config.NGINX_SITES_ENABLED cfg;
                      "deployer-" ++ projectId ++ ".conf"].
End Kept.

(* ===================================================================== *)
(** ** A second sample installation *)
(* ===================================================================== *)

Module Samples.
Import Examples.

(** A Node application owned by a dashboard user, built from the
    [node-app] template, with one secret. *)
Definition p2 : Project :=
  mkProject Absent (Val "https://github.com/o/app") (Val "main")
            Absent Absent Absent Absent Absent Absent
            (Val "/var/www/p2") (Val "node") Absent Absent Absent
            (Val "alice") (Val "node-app")
            (EnvArray [Some (mkEnv (Val "API_TOKEN") true Absent (Val "sealed:hunter2"))])
            Absent Absent.

Definition queuedLive : Deployment :=
  mkDeployment "d1" "p2" Queued 1 Null Null ∅ Null
               "/var/deploy/logs/p2/d1.log" false Absent.

Definition liveJob : Engine.Job := Engine.mkJob "d1" "p2" false.

Definition world3 : World :=
  mkWorld {[ "p2" := JsonObject p2 ]} {[ "d1" := queuedLive ]} host0.

(** A deployment whose project has been deleted. *)
Definition world4 : World := mkWorld ∅ {[ "d0" := queuedDryRun ]} host0.

(** Stand-ins for [encryptSecret] and [decryptSecret], for examples
    only. *)
Definition seal (n : nat) (v : field string) : result string :=
  match v with
  | Val text => Ok ("sealed:" ++ text)
  | _ => Throw "TypeError [ERR_INVALID_ARG_TYPE]: The data argument must be of type string"
  end.

Definition unseal (blob : string) : result string :=
  match blob with
  | String "s" (String "e" (String "a" (String "l" (String "e"
      (String "d" (String ":" text)))))) => Ok text
  | _ => Throw "Unsupported state or unable to authenticate data"
  end.

Definition prelude :=
  Engine.prelude cfg unseal ∅ 7%Z toNumber.

(** One deployment is running and one is waiting. *)
Definition busy : Engine.State :=
  Engine.mkState world1 (Engine.mkQueue [dryRunJob] 1) [] [dryRunJob].

Definition staticSite : NginxManager.Options :=
  NginxManager.mkOptions "static" Absent "/var/www/p1" Null.

Definition releaseCtx : Engine.Ctx :=
  Engine.mkCtx (Engine.mkJob "d0" "p1" false) p1 None
               "/var/deploy/projects/p1/repo" "/var/deploy/projects/p1/releases"
               "/var/www/p1" true None ∅ [] "static" Null.

(** The same release step for a build output outside the repository,
    and a host on which [p1] has been built. *)
Definition escapeCtx : Engine.Ctx :=
  Engine.mkCtx (Engine.mkJob "d0" "p1" false) (withBuildOutput p1 "/etc") None
               "/var/deploy/projects/p1/repo" "/var/deploy/projects/p1/releases"
               "/var/www/p1" true None ∅ [] "static" Null.

Definition built : World :=
  mkWorld {[ "p1" := JsonObject p1 ]} ∅
    (mkExt {[ "/var/deploy/projects/p1/repo/build" := Dir; "/etc" := Dir ]}
           ∅ [] 3).

(** What a client sends for a new project: a plain variable, a secret,
    and an entry that names an encrypted value of its own. *)
Definition submitted : list (option EnvEntry) :=
  [Some (mkEnv (Val "NODE_ENV") false (Val "production") Absent);
   Some (mkEnv (Val "API_TOKEN") true (Val "hunter2") (Val "forged"))].

Definition newProject : Project :=
  mkProject Absent (Val "https://github.com/o/app") (Val "main")
            Absent Absent Absent Absent Absent Absent
            (Val "/var/www/p3") (Val "static") Absent Absent Absent
            (Val "alice") (Val "static-spa")
            (EnvArray (submitted
                       ++ [Some (mkEnv (Val "__proto__") false (Val "x")
                                       Absent)]))
            Absent Absent.

(** The host after two releases of [p1]. *)
Definition released : World :=
  mkWorld {[ "p1" := JsonObject p1 ]} ∅
    (mkExt {[ "/var/deploy/projects/p1/previous"
                := Link "/var/deploy/projects/p1/releases/1-0123456";
              "/var/deploy/projects/p1/current"
                := Link "/var/deploy/projects/p1/releases/2-89abcde";
              "/var/www/p1"
                := Link "/var/deploy/projects/p1/releases/2-89abcde" ]}
           ∅ [] 5).

(** [config.js] with [PROJECTS_DIR=../deploy/projects], started in
    [/srv/api]. *)
Definition cfgRelative : Config.t :=
  Config.mk "/srv/deploy/projects" "/var/deploy/logs" "/var/www"
            "/etc/nginx/sites-available" "/etc/nginx/sites-enabled" "pm2"
            "releases" "build" (Some 1%Z) (Some 1%Z) "/srv/api".

(** [toLowerCase] on the letters [A] to [Z]. *)
Definition lower (c : ascii) : ascii :=
  let n := nat_of_ascii c in
  if ((65 <=? n) && (n <=? 90))%nat then ascii_of_nat (n + 32) else c.

Fixpoint toLowerCase (s : string) : string :=
  match s with
  | EmptyString => EmptyString
  | String c s' => String (lower c) (toLowerCase s')
  end.

(** A project of a dashboard user that names a template the catalogue
    does not have, and a deployment queued for it. *)
Definition p4 : Project :=
  mkProject Absent (Val "https://github.com/o/blog") (Val "main")
            Absent Absent Absent Absent Absent Absent
            (Val "/var/www/p4") (Val "static") Absent Absent Absent
            (Val "alice") (Val "rails-app") EnvFalsy Absent Absent.

Definition world5 : World :=
  mkWorld {[ "p4" := JsonObject p4 ]}
          {[ "d4" := mkDeployment "d4" "p4" Queued 1 Null Null ∅ Null
                       "/var/deploy/logs/p4/d4.log" false Absent ]}
          host0.

(** A site whose stored record names neither an owner nor a template
    and has test and build commands of its own, and a deployment queued
    for it. *)
Definition p5 : Project :=
  mkProject Absent (Val "https://github.com/o/site") (Val "main")
            (Val "make site") Absent (Val "make check") Absent Absent Absent
            (Val "/var/www/p5") (Val "static") Absent Absent Absent
            Absent Absent EnvFalsy Absent Absent.

Definition ownerlessJob : Engine.Job := Engine.mkJob "d5" "p5" false.

Definition world6 : World :=
  mkWorld {[ "p5" := JsonObject p5 ]}
          {[ "d5" := mkDeployment "d5" "p5" Queued 1 Null Null ∅ Null
                       "/var/deploy/logs/p5/d5.log" false Absent ]}
          host0.

End Samples.

(* ===================================================================== *)
(** * Theorems *)
(* ===================================================================== *)

(** ** Strings and paths *)

Module StrFacts.

Lemma sapp_nil_l (s : string) : "" ++ s = s.
Proof. reflexivity. Qed.

Lemma sapp_cons (c : ascii) (s t : string) :
  String c s ++ t = String c (s ++ t).
Proof. reflexivity. Qed.

Lemma sapp_nil_r (s : string) : s ++ "" = s.
Proof. induction s as [|c s IH]; [reflexivity|]. now rewrite sapp_cons, IH. Qed.

Lemma sapp_assoc (a b c : string) : (a ++ b) ++ c = a ++ (b ++ c).
Proof.
  induction a as [|x a IH]; [reflexivity|].
  now rewrite !sapp_cons, IH.
Qed.

Lemma slength_app (a b : string) :
  String.length (a ++ b) = String.length a + String.length b.
Proof.
  induction a as [|x a IH]; [reflexivity|].
  rewrite sapp_cons. simpl. now rewrite IH.
Qed.

End StrFacts.
Import StrFacts.

Module PathFacts.

Lemma prefix_app (p s : string) :
  String.prefix p s = true -> exists rest, s = p ++ rest.
Proof.
  revert s; induction p as [|c p IH]; intros s H.
  - exists s; reflexivity.
  - destruct s as [|d s]; simpl in H; [discriminate|].
    destruct (Ascii.ascii_dec c d) as [->|]; [|discriminate].
    destruct (IH _ H) as [rest ->]. exists rest; reflexivity.
Qed.

Lemma split_nonempty (c : ascii) (s : string) : Js.split c s <> [].
Proof.
  destruct s as [|d s]; simpl; [discriminate|].
  destruct (Ascii.eqb d c); [discriminate|].
  destruct (Js.split c s); discriminate.
Qed.

(** Splitting distributes over a separator placed between two strings. *)
Lemma split_app_sep (c : ascii) (a b : string) :
  Js.split c (a ++ String c b) = (Js.split c a ++ Js.split c b)%list.
Proof.
  induction a as [|d a IH]; simpl.
  - rewrite Ascii.eqb_refl. reflexivity.
  - destruct (Ascii.eqb d c); [now rewrite IH|].
    rewrite IH. pose proof (split_nonempty c a) as Hne.
    destruct (Js.split c a) as [|seg rest]; [congruence|reflexivity].
Qed.

Lemma segments_app_sep (a b : string) :
  Path.segments (a ++ "/" ++ b)
  = (Path.segments a ++ Path.segments b)%list.
Proof.
  unfold Path.segments.
  change (a ++ "/" ++ b) with (a ++ String "/" b).
  rewrite split_app_sep. apply filter_app.
Qed.

Lemma within_refl (p : string) : Path.within p p.
Proof. exists []. now rewrite app_nil_r. Qed.

Lemma startsWith_sep_within (base p : string) :
  startsWith p (base ++ Path.sep) = true -> Path.within base p.
Proof.
  intros H. apply prefix_app in H as [rest ->].
  exists (Path.segments rest).
  rewrite <- segments_app_sep. unfold Path.sep.
  now rewrite sapp_assoc.
Qed.

End PathFacts.






(** ** The host: which effects a computation can add *)

Module SysFacts.

Lemma onlyAdds_ret {A} P (a : A) : onlyAdds P (mret a).
Proof.
  intros e r e' H. inversion H; subst. exists []. now rewrite app_nil_r.
Qed.

Lemma onlyAdds_throw {A} P msg : onlyAdds P (@throw Ext A msg).
Proof.
  intros e r e' H. inversion H; subst. exists []. now rewrite app_nil_r.
Qed.

Lemma onlyAdds_liftR {A} P (x : result A) : onlyAdds P (liftR x).
Proof.
  intros e r e' H. inversion H; subst. exists []. now rewrite app_nil_r.
Qed.

Lemma onlyAdds_gets {A} P (f : Ext -> A) : onlyAdds P (gets f).
Proof.
  intros e r e' H. inversion H; subst. exists []. now rewrite app_nil_r.
Qed.

Lemma onlyAdds_bind {A B} P (m : ExtM A) (k : A -> ExtM B) :
  onlyAdds P m -> (forall a, onlyAdds P (k a)) -> onlyAdds P (m ≫= k).
Proof.
  intros Hm Hk e r e' H. unfold mbind, se_bind, bind in H.
  destruct (m e) as [[a|msg] e1] eqn:E.
  - destruct (Hm _ _ _ E) as (n1 & E1 & F1).
    destruct (Hk a _ _ _ H) as (n2 & E2 & F2).
    exists (n1 ++ n2)%list. split; [now rewrite E2, E1, app_assoc|].
    apply Forall_app; auto.
  - inversion H; subst. eauto.
Qed.

Lemma onlyAdds_bind_ok {A B} P (a : A) (k : A -> ExtM B) :
  onlyAdds P (k a) -> onlyAdds P (liftR (Ok a) ≫= k).
Proof. intros Hk e r e' H. exact (Hk e r e' H). Qed.

Lemma onlyAdds_tryCatch {A} P (m : ExtM A) (h : string -> ExtM A) :
  onlyAdds P m -> (forall msg, onlyAdds P (h msg)) -> onlyAdds P (tryCatch m h).
Proof.
  intros Hm Hh e r e' H. unfold tryCatch in H.
  destruct (m e) as [[a|msg] e1] eqn:E.
  - inversion H; subst. eauto.
  - destruct (Hm _ _ _ E) as (n1 & E1 & F1).
    destruct (Hh msg _ _ _ H) as (n2 & E2 & F2).
    exists (n1 ++ n2)%list. split; [now rewrite E2, E1, app_assoc|].
    apply Forall_app; auto.
Qed.

Lemma onlyAdds_swallow P (m : ExtM unit) : onlyAdds P m -> onlyAdds P (swallow m).
Proof.
  intros Hm. apply onlyAdds_tryCatch; [assumption|].
  intros msg. apply (onlyAdds_ret P tt).
Qed.

Lemma onlyAdds_setFs P f ev : Forall P ev -> onlyAdds P (setFs f ev).
Proof. intros F e r e' H. inversion H; subst. simpl. eauto. Qed.

Lemma onlyAdds_now P : onlyAdds P now.
Proof.
  intros e r e' H. inversion H; subst. exists []. simpl. now rewrite app_nil_r.
Qed.

Lemma onlyAdds_logWrite P stream text : onlyAdds P (logWrite stream text).
Proof.
  destruct stream; [|apply (onlyAdds_ret P tt)].
  intros e r e' H. inversion H; subst. exists []. simpl. now rewrite app_nil_r.
Qed.

Lemma onlyAdds_pathExists P p : onlyAdds P (pathExists p).
Proof. apply onlyAdds_gets. Qed.

Lemma onlyAdds_readlink P p : onlyAdds P (readlink p).
Proof.
  intros e r e' H. unfold readlink in H.
  destruct (fs e !! p) as [[| |]|]; inversion H; subst;
    exists []; now rewrite app_nil_r.
Qed.

Lemma onlyAdds_rmForce P p : P (ERemove p) -> onlyAdds P (rmForce p).
Proof.
  intros HP e r e' H. unfold rmForce in H.
  destruct (fs e !! p) as [[| |]|]; inversion H; subst; simpl; eauto;
    exists []; now rewrite app_nil_r.
Qed.

Lemma onlyAdds_unlink P p : P (ERemove p) -> onlyAdds P (unlink p).
Proof.
  intros HP e r e' H. unfold unlink in H.
  destruct (fs e !! p) as [[| |]|]; inversion H; subst; simpl; eauto;
    exists []; now rewrite app_nil_r.
Qed.

Lemma onlyAdds_rmRecursive P p : P (ERemove p) -> onlyAdds P (rmRecursive p).
Proof. intros HP. apply onlyAdds_setFs. auto. Qed.

Lemma onlyAdds_symlink P t p : P (ESymlink t p) -> onlyAdds P (symlink t p).
Proof.
  intros HP e r e' H. unfold symlink in H.
  destruct (fs e !! p); inversion H; subst; simpl; eauto.
  exists []; now rewrite app_nil_r.
Qed.

Lemma onlyAdds_mkdirp P p : P (EMkdir p) -> onlyAdds P (mkdirp p).
Proof.
  intros HP e r e' H. unfold mkdirp in H.
  destruct (fs e !! p) as [[| |]|]; inversion H; subst; simpl; eauto.
  exists []; now rewrite app_nil_r.
Qed.

Lemma onlyAdds_writeFile P p c : P (EWriteFile p) -> onlyAdds P (writeFile p c).
Proof.
  intros HP e r e' H. unfold writeFile in H.
  destruct (fs e !! p) as [[| |]|]; inversion H; subst; simpl; eauto.
  exists []; now rewrite app_nil_r.
Qed.

Lemma onlyAdds_cpRecursive P src dst :
  P (ECopy src dst) -> onlyAdds P (cpRecursive src dst).
Proof.
  intros HP e r e' H. unfold cpRecursive in H.
  destruct (existsPath (fs e) src); inversion H; subst; simpl; eauto.
  exists []; now rewrite app_nil_r.
Qed.

Lemma onlyAdds_removePath P p : P (ERemove p) -> onlyAdds P (Engine.removePath p).
Proof.
  intros HP. unfold Engine.removePath.
  apply onlyAdds_bind; [apply onlyAdds_gets|].
  intros [[| |]|]; auto using onlyAdds_unlink, onlyAdds_rmRecursive.
  apply (onlyAdds_ret P tt).
Qed.

Ltac adds :=
  repeat first
    [ apply onlyAdds_ret | apply onlyAdds_throw | apply onlyAdds_liftR
    | apply onlyAdds_gets | apply onlyAdds_now | apply onlyAdds_logWrite
    | apply onlyAdds_pathExists | apply onlyAdds_readlink
    | apply onlyAdds_swallow
    | apply onlyAdds_rmForce | apply onlyAdds_unlink
    | apply onlyAdds_rmRecursive | apply onlyAdds_symlink
    | apply onlyAdds_mkdirp | apply onlyAdds_writeFile
    | apply onlyAdds_removePath
    | apply onlyAdds_bind; [|intros ?]
    | apply onlyAdds_tryCatch; [|intros ?]
    | exact I
    | match goal with
      | |- onlyAdds _ (if ?b then _ else _) => destruct b
      | |- onlyAdds _ (match ?x with _ => _ end) => destruct x
      end ].

End SysFacts.

(** ** Path guards *)

Module GuardFacts.
Import PathFacts SysFacts.

(** What [ensureWithinBase] returns is the resolved base directory or a
    descendant of it. *)
Lemma ensureWithinBase_sound cwd baseDir candidate fieldName resolved :
  Guards.ensureWithinBase cwd baseDir candidate fieldName = Ok resolved ->
  Path.within (Path.resolve cwd [baseDir]) resolved.
Proof.
  unfold Guards.ensureWithinBase. intros H.
  destruct (String.eqb_spec
              (Path.resolve cwd [Path.resolve cwd [baseDir];
                                 Guards.orDot candidate])
              (Path.resolve cwd [baseDir])) as [E|_].
  - inversion H; subst. rewrite E. apply within_refl.
  - destruct (startsWith _ _) eqn:S; simpl in H; [|discriminate].
    inversion H; subst. now apply startsWith_sep_within.
Qed.

Lemma ensureDeployPathWithinRoot_sound root cwd deployPath resolved :
  Guards.ensureDeployPathWithinRoot root cwd deployPath = Ok resolved ->
  Path.within (Path.resolve cwd [root]) resolved.
Proof.
  unfold Guards.ensureDeployPathWithinRoot. intros H.
  destruct (String.eqb_spec (Path.resolve cwd [deployPath])
                            (Path.resolve cwd [root])) as [E|_].
  - inversion H; subst. rewrite E. apply within_refl.
  - destruct (startsWith _ _) eqn:S; simpl in H; [|discriminate].
    inversion H; subst. now apply startsWith_sep_within.
Qed.

End GuardFacts.

(** ** C9: the validator's deploy-path check *)

Module ValidatorFacts.

(** C9.  [resolveDeployPath] compares the resolved path with
    [NGINX_ROOT] by string prefix only.  With the web root [/var/www] it
    accepts [/var/www-evil/site], which is a sibling of the web root and
    not inside it; the same holds for the relative request
    [../www-evil/site].  The engine's own guard,
    [ensureDeployPathWithinRoot], rejects both. *)
Theorem resolveDeployPath_accepts_sibling_of_root :
  Validator.resolveDeployPath "/var/www" "/srv/api"
    (Some "/var/www-evil/site") (Some "p1") = Ok "/var/www-evil/site"
  /\ Validator.resolveDeployPath "/var/www" "/srv/api"
       (Some "../www-evil/site") (Some "p1") = Ok "/var/www-evil/site"
  /\ Path.withinb "/var/www" "/var/www-evil/site" = false
  /\ Guards.ensureDeployPathWithinRoot "/var/www" "/srv/api"
       "/var/www-evil/site"
     = Throw "Deploy path must be inside the nginx root".
Proof. repeat split; vm_compute; reflexivity. Qed.

End ValidatorFacts.

(** ** C8: where the release step copies from *)

Module ReleaseFacts.
Import PathFacts SysFacts GuardFacts.

(** The release step of the guarded engine: a rejected build output
    leaves the host untouched, and every copy the step performs reads
    from the repository directory or below it. *)
Lemma releaseStep_copies_within_repo cfg c l w r w' :
  Engine.releaseStep cfg c l w = (r, w') ->
  (forall msg,
      Engine.ensureWithinBase cfg (Engine.c_repoPath c)
        (Engine.outputDirOf cfg (Engine.c_project c)) "Build output path"
      = Throw msg -> r = Throw msg /\ w' = w)
  /\ exists new,
      trace (ext w') = (trace (ext w) ++ new)%list
      /\ Forall (copiesFrom (Path.resolve (Config.cwd cfg)
                               [Engine.c_repoPath c])) new.
Proof.
  unfold Engine.releaseStep, liftExt. intros H.
  destruct (Engine.ensureWithinBase cfg (Engine.c_repoPath c)
              (Engine.outputDirOf cfg (Engine.c_project c))
              "Build output path") as [absOutput|msg0] eqn:G.
  - split; [intros msg; discriminate|].
    match type of H with
    | (let '(_, _) := ?m (ext w) in _) = _ =>
        assert (A : onlyAdds (copiesFrom (Path.resolve (Config.cwd cfg)
                                            [Engine.c_repoPath c])) m)
    end.
    { apply ensureWithinBase_sound in G. apply onlyAdds_bind_ok. adds.
      apply onlyAdds_cpRecursive. exact G. }
    match type of H with
    | (let '(_, _) := ?m (ext w) in _) = _ =>
        destruct (m (ext w)) as [r0 e0] eqn:E
    end.
    inversion H; subst. simpl. exact (A _ _ _ E).
  - unfold mbind, se_bind, bind, liftR in H. simpl in H.
    inversion H; subst. split.
    + intros msg Hm. inversion Hm; subst. split; [reflexivity|].
      now destruct w.
    + exists []. simpl. split; [now rewrite app_nil_r | constructor].
Qed.

(** C8.  The release step of [api/lib/deployEngine.js] takes an absolute
    [buildOutput] as it is and joins a relative one to the repository
    without a check: with [buildOutput = "/etc"], and likewise with
    ["../../../../../etc"], it copies [/etc] into the new release, a
    directory outside the repository.  [ensureWithinBase], used by
    the guarded engine, rejects both values. *)
Theorem legacy_release_copies_from_outside_repo :
  (exists host',
      LegacyEngine.releaseStep Examples.cfg "p1"
        (Examples.withBuildOutput Examples.p1 "/etc") "/var/www/p1" false
        (Engine.mkLocals (Val "0123456789abcdef") None)
        (mkExt {[ "/etc" := Dir ]} ∅ [] 0)
      = (Ok "/var/deploy/projects/p1/releases/0-0123456", host')
      /\ In (ECopy "/etc" "/var/deploy/projects/p1/releases/0-0123456")
            (trace host'))
  /\ (exists host',
      LegacyEngine.releaseStep Examples.cfg "p1"
        (Examples.withBuildOutput Examples.p1 "../../../../../etc")
        "/var/www/p1" false
        (Engine.mkLocals (Val "0123456789abcdef") None)
        (mkExt {[ "/etc" := Dir ]} ∅ [] 0)
      = (Ok "/var/deploy/projects/p1/releases/0-0123456", host')
      /\ In (ECopy "/etc" "/var/deploy/projects/p1/releases/0-0123456")
            (trace host'))
  /\ Path.withinb (ProjectStore.repoDir Examples.cfg "p1") "/etc" = false
  /\ Engine.ensureWithinBase Examples.cfg
       (ProjectStore.repoDir Examples.cfg "p1") "/etc" "Build output path"
     = Throw "Build output path must stay within the project repository"
  /\ Engine.ensureWithinBase Examples.cfg
       (ProjectStore.repoDir Examples.cfg "p1") "../../../../../etc"
       "Build output path"
     = Throw "Build output path must stay within the project repository".
Proof.
  repeat split.
  - eexists. split; [vm_compute; reflexivity|]. vm_compute. tauto.
  - eexists. split; [vm_compute; reflexivity|]. vm_compute. tauto.
Qed.

End ReleaseFacts.

(** ** C7: rollback without a previous release *)

Module RollbackFacts.

(** C7.  When the [previous] symlink of a project cannot be read,
    [rollbackProject] throws "No previous release to roll back to" and
    leaves the whole world as it was: the [current] link and the deploy
    path are untouched, no web-server configuration is written and no
    process is spawned (the file system and the trace of host effects are
    part of the unchanged world). *)
Theorem rollback_without_previous_changes_nothing
        (cfg : Config.t)
        (spawn : nat -> string -> list string -> SpawnOpts -> ProcOutcome)
        (projectId : string) (w : World) :
  (forall target,
      fs (ext w) !! ProjectStore.previousSymlink cfg projectId
      <> Some (Link target)) ->
  Engine.rollbackProject cfg spawn projectId w
  = (Throw "No previous release to roll back to", w).
Proof.
  intros Hprev. unfold Engine.rollbackProject.
  unfold mbind, se_bind, bind, tryCatch, liftExt, readlink, throw.
  destruct (fs (ext w) !! ProjectStore.previousSymlink cfg projectId)
    as [[| |target]|] eqn:E; simpl; try (now destruct w as [? ? []]).
  now destruct (Hprev target).
Qed.

Lemma rollback_without_previous_witness :
  Engine.rollbackProject Examples.cfg Examples.spawn "p1" Examples.world0
  = (Throw "No previous release to roll back to", Examples.world0).
Proof.
  apply rollback_without_previous_changes_nothing.
  intros target. vm_compute. discriminate.
Defined.

End RollbackFacts.

(** ** The stores, and what [runDeployment] knows when its steps start *)

Module StoreFacts.

Lemma getProject_spec projectId w :
  ProjectStore.getProject projectId w = (Ok (found projectId (projects w)), w).
Proof.
  unfold ProjectStore.getProject, found, tryCatch, ProjectStore.readConfig.
  unfold mbind, se_bind, bind.
  destruct (projects w !! projectId) as [[| | |d]|]; reflexivity.
Qed.

End StoreFacts.

Module PreludeFacts.
Import StoreFacts Engine.

Section S.
Variable cfg : Config.t.
Variable decryptSecret : string -> result string.
Variable processEnv : gmap string string.
Variable random1000 : Z.
Variable toNumber : string -> field Z.

Lemma settlePort_project pr dry env0 pr1 env2 rp :
  settlePort random1000 toNumber pr dry env0 = (pr1, env2, rp) ->
  exists port', pr1 = setRuntimePort pr port'.
Proof.
  unfold settlePort. intros H.
  destruct (String.eqb (runtimeOf pr) "node").
  - destruct (negb (truthyZ (runtimePort pr)) && negb dry);
      injection H as <- _ _.
    + eauto.
    + exists (runtimePort pr). now destruct pr.
  - destruct (truthyZ (runtimePort pr) || truthyZ (port pr));
      injection H as <- _ _; exists (runtimePort pr); now destruct pr.
Qed.

Lemma prelude_ok job w c w' :
  prelude cfg decryptSecret processEnv random1000 toNumber job w = (Ok c, w') ->
  exists pr port',
    found (j_projectId job) (projects w) = Some pr
    /\ c_job c = job
    /\ c_project c = setRuntimePort pr port'
    /\ c_isAdminProject c = ownerIsAdmin pr
    /\ c_templateCommands c
       = (if negb (ownerIsAdmin pr) && truthyS (templateId pr)
          then CommandTemplates.getTemplate (templateId pr) else None)
    /\ projects w' = projects w.
Proof.
  unfold prelude. unfold mbind, se_bind, bind.
  destruct (liftExt _ w) as [[logStream|?] w1] eqn:E1; [|discriminate].
  assert (P1 : projects w1 = projects w).
  { unfold liftExt in E1. destruct (writeLog _ _ _ _) in E1. now inversion E1. }
  destruct (liftExt now w1) as [[t|?] w2] eqn:E2; [|discriminate].
  assert (P2 : projects w2 = projects w1).
  { unfold liftExt in E2. destruct (now _) in E2. now inversion E2. }
  destruct (DeploymentStore.updateDeployment _ _ w2) as [[u|?] w3] eqn:E3; [|discriminate].
  assert (P3 : projects w3 = projects w2).
  { unfold DeploymentStore.updateDeployment, DeploymentStore.getDeployment,
      DeploymentStore.putDeployment in E3.
    unfold mbind, se_bind, bind, gets, modify in E3. simpl in E3.
    destruct (deployments w2 !! j_deploymentId job); inversion E3; reflexivity. }
  rewrite getProject_spec. rewrite P3, P2, P1.
  destruct (found (j_projectId job) (projects w)) as [pr|]; [|discriminate].
  destruct (deployPath pr) as [| |dp] eqn:D; try discriminate.
  unfold liftR.
  destruct (ensureDeployPathWithinRoot cfg dp) as [safe|?]; [|discriminate].
  destruct (negb (ownerIsAdmin pr) && negb _) eqn:T; [discriminate|].
  destruct (EnvBuilder.buildEnvMaps _ _) as [maps|?]; [|discriminate].
  destruct (settlePort _ _ _ _ _) as [[pr1 env2] rp] eqn:SP.
  intros H. inversion H; subst. simpl.
  destruct (settlePort_project _ _ _ _ _ _ SP) as [port' ->].
  exists pr, port'. repeat split; auto. congruence.
Qed.
End S.
End PreludeFacts.

(** ** C10: reading a project never throws, and a missing owner means admin *)

Module ProjectFacts.
Import StoreFacts PreludeFacts.

Lemma admin_default_owner projectId data :
  truthyS (ownerId data) = false ->
  ownerId (ProjectStore.withDefaults projectId data) = Val "admin"
  /\ Engine.ownerIsAdmin (ProjectStore.withDefaults projectId data) = true.
Proof.
  intros H. unfold Engine.ownerIsAdmin. simpl. unfold orS. rewrite H.
  simpl. auto.
Qed.

Lemma deployPath_error cfg dp msg :
  Engine.ensureDeployPathWithinRoot cfg dp = Throw msg ->
  msg = "Deploy path must be inside the nginx root".
Proof.
  unfold Engine.ensureDeployPathWithinRoot, Guards.ensureDeployPathWithinRoot.
  destruct (String.eqb _ _); [discriminate|].
  destruct (negb _); [|discriminate]. now intros [= <-].
Qed.

Lemma logWrite_trace stream text e :
  trace (logWrite stream text e).2 = trace e.
Proof. now destruct stream. Qed.

Lemma writeChunks_trace stream keys cs : forall e,
  trace (writeChunks stream keys cs e).2 = trace e.
Proof.
  induction cs as [|[b data] rest IH]; intros e; [reflexivity|].
  cbn [writeChunks]. unfold mbind, se_bind, bind.
  destruct (logWrite stream (Command.write data keys) e) as [[[]|msg] e1] eqn:E.
  - rewrite IH. now rewrite <- (logWrite_trace stream (Command.write data keys) e), E.
  - now rewrite <- (logWrite_trace stream (Command.write data keys) e), E.
Qed.

(** A live [runCommand] spawns its command, once, whatever comes of it. *)
Lemma runCommand_spawns spawn cmd args options stream e r e' :
  runCommand spawn cmd args options stream false e = (r, e') ->
  trace e' = (trace e ++ [ESpawn cmd args])%list.
Proof.
  unfold runCommand. unfold mbind at 1, se_bind at 1, bind at 1, gets.
  unfold mbind at 1, se_bind at 1, bind at 1, setFs, modify.
  set (child := spawn (length (trace e)) cmd args options).
  set (e1 := mkExt _ _ _ _).
  unfold mbind at 1, se_bind at 1, bind at 1.
  pose proof (writeChunks_trace stream (o_redactKeys options) (chunks child) e1)
    as W.
  destruct (writeChunks stream (o_redactKeys options) (chunks child) e1)
    as [[[]|msg] e2]; cbn [snd] in W.
  - destruct (procEnd child) as [code|message].
    + destruct (negb (code =? 0)%Z); intros [= _ <-]; exact W.
    + unfold mbind, se_bind, bind.
      pose proof (logWrite_trace stream
                    ("Command failed: "
                     ++ Command.redactText (join " " (cmd :: args))
                          (o_redactKeys options) ++ nl ++ message ++ nl) e2) as L.
      destruct (logWrite _ _ e2) as [[[]|?] e3]; cbn [snd] in L;
        intros [= _ <-]; rewrite L; exact W.
  - intros [= _ <-]. exact W.
Qed.

Lemma shell_spawns spawn c script e r e' :
  Engine.j_dryRun (Engine.c_job c) = false ->
  Engine.shell spawn c script e = (r, e') ->
  trace e' = (trace e ++ [ESpawn "bash" ["-lc"; script]])%list.
Proof.
  intros D. unfold Engine.shell, runShellCommand. rewrite D.
  apply runCommand_spawns.
Qed.

(** The build step of a live run spawns the build command. *)
Lemma buildStep_spawns spawn c l w r w' :
  Engine.j_dryRun (Engine.c_job c) = false ->
  truthyS (Engine.buildCmdOf c) = true ->
  Engine.buildStep spawn c l w = (r, w') ->
  trace (ext w')
  = (trace (ext w)
     ++ [ESpawn "bash" ["-lc"; Engine.textOf (Engine.buildCmdOf c)]])%list.
Proof.
  intros D T. unfold Engine.buildStep, liftExt. rewrite T. cbn [negb].
  unfold mbind, se_bind, bind.
  destruct (Engine.shell spawn c _ (ext w)) as [[res|msg] e1] eqn:E;
    intros [= _ <-]; cbn [ext]; exact (shell_spawns _ _ _ _ _ _ D E).
Qed.

(** The test step of a live run spawns the test command, when there is
    one. *)
Lemma testStep_spawns spawn c l w r w' :
  Engine.j_dryRun (Engine.c_job c) = false ->
  truthyS (Engine.testCmdOf c) = true ->
  Engine.testStep spawn c l w = (r, w') ->
  trace (ext w')
  = (trace (ext w)
     ++ [ESpawn "bash" ["-lc"; Engine.textOf (Engine.testCmdOf c)]])%list.
Proof.
  intros D T. unfold Engine.testStep, liftExt. rewrite T. cbn [negb].
  unfold mbind, se_bind, bind.
  destruct (Engine.shell spawn c _ (ext w)) as [[res|msg] e1] eqn:E;
    intros [= _ <-]; cbn [ext]; exact (shell_spawns _ _ _ _ _ _ D E).
Qed.

Section S.
Variable cfg : Config.t.
Variable decryptSecret : string -> result string.
Variable processEnv : gmap string string.
Variable random1000 : Z.
Variable toNumber : string -> field Z.

(** [runDeployment] reaches its [try] block when the directory of the
    log can be made, the project is stored with a deploy path below the
    nginx root, its owner is the administrator and its environment can
    be built. *)
Lemma prelude_returns job w data dp safe maps :
  projects w !! Engine.j_projectId job = Some (JsonObject data) ->
  (forall content,
     fs (ext w) !! Path.dirname (DeploymentStore.getLogPath cfg
                                   (Engine.j_projectId job)
                                   (Engine.j_deploymentId job))
     <> Some (File content)) ->
  deployPath data = Val dp ->
  Engine.ensureDeployPathWithinRoot cfg dp = Ok safe ->
  truthyS (ownerId data) = false ->
  EnvBuilder.buildEnvMaps decryptSecret
    (map Some (ProjectStore.normalizeStoredEnv (env data))) = Ok maps ->
  exists c w',
    Engine.prelude cfg decryptSecret processEnv random1000 toNumber job w
    = (Ok c, w').
Proof.
  intros Hd Hlog Hdp Hsafe Hown Henv.
  unfold Engine.prelude. unfold mbind, se_bind, bind.
  destruct (liftExt _ w) as [[s|msg] w1] eqn:E1.
  2:{ exfalso. revert E1. unfold liftExt, Engine.writeLog, mbind, se_bind, bind, mkdirp.
      destruct (fs (ext w) !! _) as [[|content|]|] eqn:F; try discriminate.
      now destruct (Hlog content). }
  assert (P1 : projects w1 = projects w).
  { unfold liftExt in E1. destruct (Engine.writeLog _ _ _ _) in E1. now inversion E1. }
  destruct (liftExt now w1) as [[t|?] w2] eqn:E2; [|discriminate].
  assert (P2 : projects w2 = projects w1).
  { unfold liftExt in E2. destruct (now _) in E2. now inversion E2. }
  destruct (DeploymentStore.updateDeployment _ _ w2) as [[u|msg] w3] eqn:E3.
  2:{ exfalso. revert E3.
      unfold DeploymentStore.updateDeployment, DeploymentStore.getDeployment,
        DeploymentStore.putDeployment, mbind, se_bind, bind, gets, modify.
      destruct (deployments w2 !! _); discriminate. }
  assert (P3 : projects w3 = projects w2).
  { unfold DeploymentStore.updateDeployment, DeploymentStore.getDeployment,
      DeploymentStore.putDeployment in E3.
    unfold mbind, se_bind, bind, gets, modify in E3. simpl in E3.
    destruct (deployments w2 !! Engine.j_deploymentId job); inversion E3; reflexivity. }
  rewrite getProject_spec. rewrite P3, P2, P1. unfold found. rewrite Hd.
  cbn [deployPath ProjectStore.withDefaults]. rewrite Hdp.
  unfold liftR. rewrite Hsafe.
  destruct (admin_default_owner (Engine.j_projectId job) data Hown) as [_ ->].
  cbn [negb andb].
  unfold Engine.envEntriesOf. cbn [env ProjectStore.withDefaults].
  unfold ProjectStore.asArray. rewrite Henv.
  destruct (Engine.settlePort _ _ _ _ _) as [[pr1 env2] rp].
  eauto.
Qed.
End S.

(** C10.  [getProject] always returns and changes nothing; for a missing
    or unparseable configuration file it returns [null]; for a stored
    object it returns the stored repository, branch, deploy path and
    commands, sets a missing (or otherwise falsy) [ownerId] to ["admin"]
    and a missing [templateId] to [null], and keeps an owner or a
    template that is stored.  A project stored without an owner is then
    admin-owned for the engine: admission never asks for a template and
    lets the project in when it is complete and the queue has room;
    [runDeployment] reaches its steps whenever the log directory can be
    made, the deploy path is below the nginx root and the environment
    can be built, with no template commands and with the project's own
    test, build and start commands; and the build and test steps of a
    live run spawn [bash -lc] with the stored build and test
    commands. *)
Theorem getProject_total_and_admin_default (projectId : string) (w : World) :
  (exists result, ProjectStore.getProject projectId w = (Ok result, w))
  /\ (projects w !! projectId = None
      \/ projects w !! projectId = Some Unparseable ->
      ProjectStore.getProject projectId w = (Ok None, w))
  /\ (forall data, projects w !! projectId = Some (JsonObject data) ->
      exists pr,
        ProjectStore.getProject projectId w = (Ok (Some pr), w)
        /\ (truthyS (ownerId data) = false -> ownerId pr = Val "admin")
        /\ (templateId data = Absent -> templateId pr = Null)
        /\ (truthyS (ownerId data) = true -> ownerId pr = ownerId data)
        /\ (templateId data <> Absent -> templateId pr = templateId data)
        /\ repo pr = repo data /\ branch pr = branch data
        /\ deployPath pr = deployPath data
        /\ installCommand pr = installCommand data
        /\ testCommand pr = testCommand data
        /\ buildCommand pr = buildCommand data
        /\ startCommand pr = startCommand data
        /\ (truthyS (ownerId data) = false ->
            Engine.ownerIsAdmin pr = true
            /\ (forall cfg queued active,
                   Engine.admissionCheck cfg (Some pr) queued active
                   <> Throw "Project missing command template")
            /\ (forall cfg queued active dp safe,
                   deployPath data = Val dp ->
                   truthyS (deployPath data) = true ->
                   truthyS (repo data) = true ->
                   truthyS (branch data) = true ->
                   truthyS (buildCommand data) = true ->
                   Engine.ensureDeployPathWithinRoot cfg dp = Ok safe ->
                   (Z.of_nat queued + Z.of_nat active
                    < Engine.MAX_QUEUE_SIZE cfg)%Z ->
                   Engine.admissionCheck cfg (Some pr) queued active = Ok tt)
            /\ (forall cfg decryptSecret processEnv random1000 toNumber
                       job w0 c w1,
                   Engine.j_projectId job = projectId ->
                   projects w0 = projects w ->
                   Engine.prelude cfg decryptSecret processEnv random1000
                                  toNumber job w0 = (Ok c, w1) ->
                   Engine.c_isAdminProject c = true
                   /\ Engine.c_templateCommands c = None
                   /\ Engine.testCmdOf c = testCommand data
                   /\ Engine.buildCmdOf c
                      = orS (buildCommand data) (Val "npm run build")
                   /\ Engine.startCmdOf c = startCommand data)
            /\ (forall cfg decryptSecret spawn processEnv random1000 toNumber
                       job w0 dp safe maps,
                   Engine.j_projectId job = projectId ->
                   projects w0 = projects w ->
                   (forall content,
                      fs (ext w0)
                      !! Path.dirname (DeploymentStore.getLogPath cfg projectId
                                         (Engine.j_deploymentId job))
                      <> Some (File content)) ->
                   deployPath data = Val dp ->
                   Engine.ensureDeployPathWithinRoot cfg dp = Ok safe ->
                   EnvBuilder.buildEnvMaps decryptSecret
                     (map Some (ProjectStore.normalizeStoredEnv (env data)))
                   = Ok maps ->
                   exists c w1,
                     Engine.prelude cfg decryptSecret processEnv random1000
                                    toNumber job w0 = (Ok c, w1)
                     /\ Engine.c_job c = job
                     /\ Engine.c_isAdminProject c = true
                     /\ Engine.c_templateCommands c = None
                     /\ (Engine.j_dryRun job = false ->
                         forall l w2 r w3,
                           Engine.buildStep spawn c l w2 = (r, w3) ->
                           trace (ext w3)
                           = (trace (ext w2)
                              ++ [ESpawn "bash"
                                    ["-lc";
                                     Engine.textOf
                                       (orS (buildCommand data)
                                            (Val "npm run build"))]])%list)
                     /\ (Engine.j_dryRun job = false ->
                         truthyS (testCommand data) = true ->
                         forall l w2 r w3,
                           Engine.testStep spawn c l w2 = (r, w3) ->
                           trace (ext w3)
                           = (trace (ext w2)
                              ++ [ESpawn "bash"
                                    ["-lc"; Engine.textOf (testCommand data)]])%list)))).
Proof.
  split; [|split].
  - rewrite getProject_spec. eauto.
  - rewrite getProject_spec. unfold found. now intros [-> | ->].
  - intros data Hd. exists (ProjectStore.withDefaults projectId data).
    split; [rewrite getProject_spec; unfold found; now rewrite Hd|].
    split; [intros H; now apply admin_default_owner|].
    split; [intros H; simpl; now rewrite H|].
    split; [intros H; simpl; unfold orS; now rewrite H|].
    split; [intros H; simpl; now destruct (templateId data)|].
    do 7 (split; [reflexivity|]).
    intros Hown. destruct (admin_default_owner projectId data Hown) as [_ Hadm].
    assert (Cmds : forall cfg dec penv rnd toN job w0 c w1,
               Engine.j_projectId job = projectId ->
               projects w0 = projects w ->
               Engine.prelude cfg dec penv rnd toN job w0 = (Ok c, w1) ->
               Engine.c_job c = job
               /\ Engine.c_isAdminProject c = true
               /\ Engine.c_templateCommands c = None
               /\ Engine.testCmdOf c = testCommand data
               /\ Engine.buildCmdOf c
                  = orS (buildCommand data) (Val "npm run build")
               /\ Engine.startCmdOf c = startCommand data).
    { intros cfg dec penv rnd toN job w0 c w1 Hj Hw Hp.
      destruct (prelude_ok _ _ _ _ _ _ _ _ _ Hp) as (pr & port' & F & J & P & A & T & _).
      rewrite Hj, Hw in F. unfold found in F. rewrite Hd in F.
      inversion F; subst pr; clear F.
      unfold Engine.testCmdOf, Engine.buildCmdOf, Engine.startCmdOf.
      rewrite A, T, P, Hadm. simpl. repeat split; auto. }
    split; [exact Hadm|]. split; [|split; [|split]].
    + intros cfg queued active. unfold Engine.admissionCheck.
      rewrite Hadm. simpl.
      repeat match goal with
             | |- context [if ?b then _ else _] => destruct b
             | |- context [match ?x with _ => _ end] => destruct x eqn:?
             end; try discriminate.
      all: match goal with
           | H : Engine.ensureDeployPathWithinRoot _ _ = Throw _ |- _ =>
               apply deployPath_error in H; subst; discriminate
           end.
    + intros cfg queued active dp safe Hdp Tdp Trepo Tbranch Tbuild Hsafe Hroom.
      unfold Engine.admissionCheck. rewrite Hadm.
      cbn [deployPath repo branch buildCommand ProjectStore.withDefaults].
      rewrite Tdp, Trepo, Tbranch, Tbuild. cbn [negb orb andb].
      rewrite Hdp, Hsafe.
      destruct (Z.geb_spec (Z.of_nat queued + Z.of_nat active)
                  (Engine.MAX_QUEUE_SIZE cfg)) as [G|G]; [lia|reflexivity].
    + intros cfg dec penv rnd toN job w0 c w1 Hj Hw Hp.
      now destruct (Cmds _ _ _ _ _ _ _ _ _ Hj Hw Hp) as (_ & H).
    + intros cfg dec spawn penv rnd toN job w0 dp safe maps
             Hj Hw Hlog Hdp Hsafe Henv.
      assert (Hd0 : projects w0 !! Engine.j_projectId job
                    = Some (JsonObject data)) by now rewrite Hj, Hw.
      rewrite <- Hj in Hlog.
      destruct (prelude_returns cfg dec penv rnd toN job w0 data dp safe maps
                  Hd0 Hlog Hdp Hsafe Hown Henv) as (c & w1 & Hp).
      exists c, w1. split; [exact Hp|].
      destruct (Cmds _ _ _ _ _ _ _ _ _ Hj Hw Hp) as (J & A & T & Ct & Cb & _).
      split; [exact J|]. split; [exact A|]. split; [exact T|]. split.
      * intros Dry l w2 r w3 Hb. rewrite <- Cb.
        apply (buildStep_spawns spawn c l w2 r w3); [now rewrite J| |exact Hb].
        rewrite Cb. unfold orS.
        destruct (truthyS (buildCommand data)) eqn:Tb; [exact Tb|reflexivity].
      * intros Dry Tt l w2 r w3 Hb. rewrite <- Ct.
        apply (testStep_spawns spawn c l w2 r w3); [now rewrite J| |exact Hb].
        now rewrite Ct.
Qed.
End ProjectFacts.

(** ** C6: a failing step stops the pipeline *)

Module StepFacts.
Import Engine StoreFacts.

Lemma keepsSteps_ret {A} id (a : A) : keepsSteps id (mret a).
Proof. intros w r w' d H Hd. inversion H; subst. eauto. Qed.

Lemma keepsSteps_throw {A} id msg : keepsSteps id (@throw World A msg).
Proof. intros w r w' d H Hd. inversion H; subst. eauto. Qed.

Lemma keepsSteps_liftExt {A} id (m : ExtM A) : keepsSteps id (liftExt m).
Proof.
  intros w r w' d H Hd. unfold liftExt in H.
  destruct (m (ext w)). inversion H; subst. simpl. eauto.
Qed.

Lemma keepsSteps_bind {A B} id (m : M A) (k : A -> M B) :
  keepsSteps id m -> (forall a, keepsSteps id (k a)) -> keepsSteps id (m ≫= k).
Proof.
  intros Hm Hk w r w' d H Hd. unfold mbind, se_bind, bind in H.
  destruct (m w) as [[a|msg] w1] eqn:E.
  - destruct (Hm _ _ _ _ E Hd) as (d1 & Hd1 & S1).
    destruct (Hk a _ _ _ _ H Hd1) as (d2 & Hd2 & S2).
    exists d2. split; [assumption | congruence].
  - inversion H; subst. eauto.
Qed.

Lemma keepsSteps_update id id' upd :
  u_steps upd = None ->
  keepsSteps id (DeploymentStore.updateDeployment id' upd).
Proof.
  intros Hu w r w' d H Hd.
  unfold DeploymentStore.updateDeployment, DeploymentStore.getDeployment,
    DeploymentStore.putDeployment in H.
  unfold mbind, se_bind, bind, gets, modify in H. simpl in H.
  destruct (deployments w !! id') as [rec|] eqn:E; inversion H; subst; simpl.
  - destruct (decide (id' = id)) as [->|Hne].
    + rewrite lookup_insert_eq. eexists; split; [reflexivity|].
      simpl. rewrite Hu. congruence.
    + rewrite lookup_insert_ne by assumption. eauto.
  - eauto.
Qed.


Section S.
Variable cfg : Config.t.
Variable spawn : nat -> string -> list string -> SpawnOpts -> ProcOutcome.

Lemma keepsSteps_stepList id c name fn l :
  In (name, fn) (stepList cfg spawn c) -> keepsSteps id (fn l).
Proof.
  unfold stepList. simpl.
  intros [E|[E|[E|[E|[E|[E|[E|[]]]]]]]]; inversion E; subst;
    try apply keepsSteps_liftExt.
  unfold syncStep.
  apply keepsSteps_bind; [apply keepsSteps_liftExt|]. intros repoExists.
  destruct (repo (c_project c)); try apply keepsSteps_throw.
  apply keepsSteps_bind; [apply keepsSteps_liftExt|]. intros _.
  apply keepsSteps_bind; [apply keepsSteps_liftExt|]. intros result.
  apply keepsSteps_bind; [now apply keepsSteps_update|]. intros _.
  apply keepsSteps_ret.
Qed.

End S.

Lemma insert_union_self (m : gmap string StepRec) k v :
  <[k := v]> m ∪ m = <[k := v]> m.
Proof.
  apply map_eq. intros i. rewrite lookup_union.
  destruct (decide (k = i)) as [->|Hne].
  - rewrite lookup_insert_eq. now destruct (m !! i).
  - rewrite lookup_insert_ne by assumption. now destruct (m !! i).
Qed.

Lemma appendStep_spec id name data w d :
  deployments w !! id = Some d ->
  DeploymentStore.appendStep id name data w
  = (Ok (Some (withStep d name data)),
     mkWorld (projects w) (<[id := withStep d name data]> (deployments w))
             (ext w)).
Proof.
  intros Hd.
  unfold DeploymentStore.appendStep, DeploymentStore.updateDeployment,
    DeploymentStore.getDeployment, DeploymentStore.putDeployment.
  unfold mbind, se_bind, bind, gets, modify, mret, se_ret, ret. simpl.
  rewrite Hd. simpl. rewrite Hd. simpl.
  unfold DeploymentStore.applyUpdate, withStep. simpl.
  rewrite insert_union_self. unfold spread.
  destruct d; simpl. reflexivity.
Qed.


Lemma liftExt_deployments {A} (m : ExtM A) w r w' :
  liftExt m w = (r, w') -> deployments w' = deployments w.
Proof.
  unfold liftExt. destruct (m (ext w)). intros H. now inversion H.
Qed.

Lemma runStep_spec {A} id name (fn : M A) w d r w' :
  keepsSteps id fn ->
  deployments w !! id = Some d ->
  runStep id name fn w = (r, w') ->
  exists d' st,
    deployments w' !! id = Some d'
    /\ steps d' = <[name := st]> (steps d)
    /\ stepOutcome r st.
Proof.
  intros Hfn Hd. unfold runStep.
  unfold mbind at 1, se_bind at 1, bind at 1.
  destruct (liftExt now w) as [[t0|?] wa] eqn:Ea;
    [|unfold liftExt, now in Ea; discriminate].
  pose proof (liftExt_deployments _ _ _ _ Ea) as Da.
  unfold mbind at 1, se_bind at 1, bind at 1.
  assert (Hda : deployments wa !! id = Some d) by now rewrite Da.
  rewrite (appendStep_spec _ _ _ _ _ Hda).
  set (wb := mkWorld _ _ _).
  set (d1 := withStep d name _) in *.
  assert (Hdb : deployments wb !! id = Some d1).
  { unfold wb. simpl. apply lookup_insert_eq. }
  unfold tryCatch.
  unfold mbind at 1, se_bind at 1, bind at 1.
  destruct (fn wb) as [[a|msg] wc] eqn:Ec.
  - destruct (Hfn _ _ _ _ Ec Hdb) as (dc & Hdc & Sc).
    unfold mbind at 1, se_bind at 1, bind at 1.
    destruct (liftExt now wc) as [[t1|?] wd] eqn:Ed;
      [|unfold liftExt, now in Ed; discriminate].
    pose proof (liftExt_deployments _ _ _ _ Ed) as Dd.
    assert (Hdd : deployments wd !! id = Some dc) by now rewrite Dd.
    unfold mbind at 1, se_bind at 1, bind at 1.
    rewrite (appendStep_spec _ _ _ _ _ Hdd).
    intros H. inversion H; subst. simpl.
    eexists _, _. split; [apply lookup_insert_eq|]. split.
    + simpl. rewrite Sc. unfold d1. simpl. apply insert_insert_eq.
    + simpl. reflexivity.
  - destruct (Hfn _ _ _ _ Ec Hdb) as (dc & Hdc & Sc).
    unfold mbind at 1, se_bind at 1, bind at 1.
    destruct (liftExt now wc) as [[t1|?] wd] eqn:Ed;
      [|unfold liftExt, now in Ed; discriminate].
    pose proof (liftExt_deployments _ _ _ _ Ed) as Dd.
    assert (Hdd : deployments wd !! id = Some dc) by now rewrite Dd.
    unfold mbind at 1, se_bind at 1, bind at 1.
    rewrite (appendStep_spec _ _ _ _ _ Hdd).
    intros H. inversion H; subst. simpl.
    eexists _, _. split; [apply lookup_insert_eq|]. split.
    + simpl. rewrite Sc. unfold d1. simpl. apply insert_insert_eq.
    + simpl. split; reflexivity.
Qed.


(** The steps of [todo] before the first one that throws succeed, that
    one is recorded as failed with the thrown message, and no other
    entry of the record changes. *)
Lemma runSteps_spec id todo : forall l w d r w',
  (forall name fn l0, In (name, fn) todo -> keepsSteps id (fn l0)) ->
  NoDup (map fst todo) ->
  deployments w !! id = Some d ->
  runSteps id todo l w = (r, w') ->
  exists d',
    deployments w' !! id = Some d'
    /\ match r with
       | Ok _ =>
           (forall n, In n (map fst todo) ->
                      statusOf d' n = Some (Val StepSuccess))
           /\ (forall n, ~ In n (map fst todo) ->
                         steps d' !! n = steps d !! n)
       | Throw msg =>
           exists pre name fn post st,
             todo = (pre ++ (name, fn) :: post)%list
             /\ (forall n, In n (map fst pre) ->
                           statusOf d' n = Some (Val StepSuccess))
             /\ steps d' !! name = Some st
             /\ s_status st = Val StepFailed /\ s_error st = Val msg
             /\ (forall n, ~ In n (map fst pre) -> n <> name ->
                           steps d' !! n = steps d !! n)
       end.
Proof.
  induction todo as [|[name fn] rest IH]; intros l w d r w' Hk Hnd Hd H.
  - simpl in H. inversion H; subst. exists d. split; [assumption|].
    split; [intros n []|reflexivity].
  - simpl in H. unfold mbind at 1, se_bind at 1, bind at 1 in H.
    destruct (runStep id name (fn l) w) as [[l1|msg] w1] eqn:E1.
    + destruct (runStep_spec _ _ _ _ _ _ _ (Hk name fn l (or_introl eq_refl))
                  Hd E1) as (d1 & st & Hd1 & S1 & O1).
      simpl in O1. inversion Hnd as [|? ? Hnotin Hnd']; subst.
      rewrite list_elem_of_In in Hnotin.
      destruct (IH l1 w1 d1 r w'
                  (fun n f l0 Hin => Hk n f l0 (or_intror Hin)) Hnd' Hd1 H)
        as (d' & Hd' & R).
      exists d'. split; [assumption|].
      assert (Hname : forall d2, (forall n, ~ In n (map fst rest) ->
                 steps d2 !! n = steps d1 !! n) ->
                 statusOf d2 name = Some (Val StepSuccess)).
      { intros d2 Hsame. unfold statusOf.
        rewrite (Hsame name Hnotin), S1, lookup_insert_eq. simpl.
        now rewrite O1. }
      destruct r as [lf|msg].
      * destruct R as [Rs Ro]. split.
        -- intros n Hn. simpl in Hn.
           destruct Hn as [E|Hin]; [subst n; now apply Hname | now apply Rs].
        -- intros n Hn. simpl in Hn.
           rewrite Ro by tauto. rewrite S1.
           apply lookup_insert_ne. tauto.
      * destruct R as (pre & nm & f & post & st' & -> & Rpre & Rst & Rf & Re & Ro).
        exists ((name, fn) :: pre), nm, f, post, st'.
        assert (Hnm : nm <> name /\ ~ In name (map fst pre)).
        { rewrite map_app, in_app_iff in Hnotin. simpl in Hnotin.
          split; [intros ->|]; tauto. }
        split; [reflexivity|]. split; [|split; [assumption|]].
        -- intros n Hn. simpl in Hn.
           destruct Hn as [E|Hin]; [subst n|now apply Rpre].
           unfold statusOf. rewrite (Ro name) by intuition congruence.
           rewrite S1, lookup_insert_eq. simpl. now rewrite O1.
        -- split; [assumption|]. split; [assumption|].
           intros n Hn Hne. simpl in Hn. rewrite Ro by tauto.
           rewrite S1. apply lookup_insert_ne. tauto.
    + inversion H; subst.
      destruct (runStep_spec _ _ _ _ _ _ _ (Hk name fn l (or_introl eq_refl))
                  Hd E1) as (d1 & st & Hd1 & S1 & O1 & O2).
      exists d1. split; [assumption|].
      exists [], name, fn, rest, st. split; [reflexivity|].
      split; [intros n []|]. split; [rewrite S1; apply lookup_insert_eq|].
      split; [assumption|]. split; [assumption|].
      intros n _ Hne. rewrite S1. now apply lookup_insert_ne.
Qed.


Lemma keepsSteps_getProject id projectId :
  keepsSteps id (ProjectStore.getProject projectId).
Proof.
  intros w r w' d H Hd. rewrite getProject_spec in H.
  inversion H; subst. eauto.
Qed.

Lemma keepsSteps_liftR {A} id (x : result A) : keepsSteps id (liftR x).
Proof. intros w r w' d H Hd. inversion H; subst. eauto. Qed.

Section T.
Variable cfg : Config.t.
Variable decryptSecret : string -> result string.
Variable spawn : nat -> string -> list string -> SpawnOpts -> ProcOutcome.
Variable processEnv : gmap string string.
Variable random1000 : Z.
Variable toNumber : string -> field Z.

Lemma keepsSteps_prelude id job :
  keepsSteps id (prelude cfg decryptSecret processEnv random1000 toNumber job).
Proof.
  unfold prelude.
  apply keepsSteps_bind; [apply keepsSteps_liftExt|]. intros logStream.
  apply keepsSteps_bind; [apply keepsSteps_liftExt|]. intros startTime.
  apply keepsSteps_bind; [now apply keepsSteps_update|]. intros _.
  apply keepsSteps_bind; [apply keepsSteps_getProject|]. intros [pr|];
    [|apply keepsSteps_throw].
  destruct (deployPath pr); try apply keepsSteps_throw.
  apply keepsSteps_bind; [apply keepsSteps_liftR|]. intros safe.
  destruct (negb _ && negb _); [apply keepsSteps_throw|].
  destruct (EnvBuilder.buildEnvMaps _ _); [|apply keepsSteps_throw].
  destruct (settlePort _ _ _ _ _) as [[pr1 env2] rp].
  apply keepsSteps_ret.
Qed.

Lemma stepList_names c : map fst (stepList cfg spawn c) = stepNames.
Proof. reflexivity. Qed.

Lemma stepNames_NoDup : NoDup stepNames.
Proof. apply (bool_decide_unpack _). vm_compute. exact I. Qed.

(** C6.  When a step of a deployment throws, [runDeployment] returns
    with the record in status [failed] and its [error] equal to the
    thrown message; the failing step is recorded as [failed] with that
    message, the steps before it as [success], and the steps after it
    have no entry in [steps]: they were never started. *)
Theorem failed_step_fails_deployment job w d c w0 msg w1 :
  deployments w !! j_deploymentId job = Some d ->
  steps d = ∅ ->
  prelude cfg decryptSecret processEnv random1000 toNumber job w = (Ok c, w0) ->
  runSteps (j_deploymentId job) (stepList cfg spawn c) initialLocals w0
  = (Throw msg, w1) ->
  exists w2 d2 pre name post st,
    runDeployment cfg decryptSecret spawn processEnv random1000 toNumber job w
    = (Ok tt, w2)
    /\ deployments w2 !! j_deploymentId job = Some d2
    /\ status d2 = Failed
    /\ error d2 = Val msg
    /\ stepNames = (pre ++ name :: post)%list
    /\ steps d2 !! name = Some st
    /\ s_status st = Val StepFailed
    /\ s_error st = Val msg
    /\ (forall n, In n pre -> statusOf d2 n = Some (Val StepSuccess))
    /\ (forall n, In n post -> steps d2 !! n = None).
Proof.
  intros Hd Hfresh Hp Hs.
  destruct (keepsSteps_prelude _ _ _ _ _ _ Hp Hd) as (d0 & Hd0 & S0).
  destruct (PreludeFacts.prelude_ok _ _ _ _ _ _ _ _ _ Hp)
    as (pr & port' & _ & Hjob & _).
  pose proof (runSteps_spec (j_deploymentId job) (stepList cfg spawn c)
                initialLocals w0 d0 (Throw msg) w1
                (fun n f l0 Hin => keepsSteps_stepList cfg spawn _ c n f l0 Hin)
                ltac:(rewrite stepList_names; apply stepNames_NoDup)
                Hd0 Hs) as (d1 & Hd1 & pre & name & fn & post & st & Hsplit
                            & Hpre & Hst & Hf & He & Ho).
  unfold runDeployment, tryBlock.
  unfold mbind at 1, se_bind at 1, bind at 1. rewrite Hp.
  unfold tryCatch. rewrite Hjob.
  unfold mbind at 1, se_bind at 1, bind at 1. rewrite Hs.
  unfold onFailure. rewrite Hjob.
  unfold mbind at 1, se_bind at 1, bind at 1.
  destruct (liftExt now w1) as [[t|?] wa] eqn:Ea;
    [|unfold liftExt, now in Ea; discriminate].
  pose proof (liftExt_deployments _ _ _ _ Ea) as Da.
  unfold mbind at 1, se_bind at 1, bind at 1.
  unfold DeploymentStore.updateDeployment, DeploymentStore.getDeployment,
    DeploymentStore.putDeployment.
  unfold mbind at 1, se_bind at 1, bind at 1. unfold gets at 1.
  rewrite Da, Hd1.
  unfold mbind at 1, se_bind at 1, bind at 1. unfold modify at 1.
  set (d2 := DeploymentStore.applyUpdate d1 _).
  unfold mret, se_ret, ret.
  match goal with
  | |- context [liftExt ?m ?w] =>
      destruct (liftExt m w) as [[[]|?] wb] eqn:Eb;
        [|unfold liftExt, logWrite in Eb; destruct (c_logStream c);
          simpl in Eb; discriminate]
  end.
  pose proof (liftExt_deployments _ _ _ _ Eb) as Db. simpl in Db.
  assert (Hmap : (map fst pre ++ name :: map fst post)%list = stepNames).
  { rewrite <- (stepList_names c), Hsplit, map_app. reflexivity. }
  exists wb, d2, (map fst pre), name, (map fst post), st.
  split; [reflexivity|].
  split; [rewrite Db; apply lookup_insert_eq|].
  split; [reflexivity|]. split; [reflexivity|].
  split; [now rewrite Hmap|].
  split; [exact Hst|]. split; [exact Hf|]. split; [exact He|].
  split; [exact Hpre|].
  intros n Hn. simpl.
  pose proof stepNames_NoDup as ND. rewrite <- Hmap in ND.
  apply NoDup_app in ND as (_ & Hdisj & ND2).
  inversion ND2 as [|? ? Hnot _]; subst.
  rewrite Ho.
  - rewrite S0, Hfresh. apply lookup_empty.
  - intros Hin. apply (Hdisj n); [now apply list_elem_of_In|].
    apply list_elem_of_In. now right.
  - intros ->. apply Hnot. now apply list_elem_of_In.
Qed.

End T.
End StepFacts.

Lemma failed_step_witness :
  exists w2 d2 pre name post st,
    Examples.runDeployment Examples.dryRunJob Examples.world2 = (Ok tt, w2)
    /\ deployments w2 !! "d0" = Some d2
    /\ status d2 = Failed
    /\ error d2
       = Val "Build output path must stay within the project repository"
    /\ stepNames = (pre ++ name :: post)%list
    /\ steps d2 !! name = Some st
    /\ s_status st = Val StepFailed
    /\ s_error st
       = Val "Build output path must stay within the project repository"
    /\ (forall n, In n pre -> statusOf d2 n = Some (Val StepSuccess))
    /\ (forall n, In n post -> steps d2 !! n = None).
Proof.
  eapply (StepFacts.failed_step_fails_deployment
            Examples.cfg Examples.decryptSecret Examples.spawn ∅ 7%Z
            Examples.toNumber Examples.dryRunJob Examples.world2
            Examples.queuedDryRun).
  - vm_compute. reflexivity.
  - reflexivity.
  - vm_compute. reflexivity.
  - vm_compute. reflexivity.
Defined.

(** ** C5: what a dry run persists *)

Module DryRunFacts.

(** C5.  A dry run of the example project runs all seven steps, spawns
    nothing and ends in status [success]; but the end of the [try] block
    calls [updateProject] whatever [dryRun] is, so the stored project
    record changes: [lastDeploy] becomes the finish time and [lastCommit]
    the empty string (no commit was read), where both were absent
    before.  [runtimePort] is left as it was. *)
Theorem dry_run_persists_project_changes :
  exists w',
    Examples.runDeployment Examples.dryRunJob Examples.world1 = (Ok tt, w')
    /\ (status <$> deployments w' !! "d0") = Some Success
    /\ Forall (fun ev => match ev with ESpawn _ _ => False | _ => True end)
              (trace (ext w'))
    /\ (lastDeploy <$> storedProject Examples.world1 "p1") = Some Absent
    /\ (lastCommit <$> storedProject Examples.world1 "p1") = Some Absent
    /\ (lastDeploy <$> storedProject w' "p1") = Some (Val 16)
    /\ (lastCommit <$> storedProject w' "p1") = Some (Val "")
    /\ (runtimePort <$> storedProject w' "p1")
       = (runtimePort <$> storedProject Examples.world1 "p1").
Proof.
  eexists. split; [vm_compute; reflexivity|].
  repeat match goal with |- _ /\ _ => split end;
    try (vm_compute; reflexivity).
  vm_compute. constructor; [exact I | constructor].
Qed.

End DryRunFacts.

(** ** C1: the admission bound *)

Module QueueFacts.
Import Engine StoreFacts.

(** C1.  [queueDeployment] checks the bound, then awaits
    [createDeployment], then pushes the job.  With [MAX_QUEUE_SIZE = 1]
    two calls that overlap both pass the check while the queue is empty;
    once both have pushed, one job is active and one is waiting: two
    admitted jobs and two persisted records where the bound is one. *)
Theorem queue_bound_exceeded_by_overlapping_calls :
  MAX_QUEUE_SIZE Examples.cfg = 1%Z
  /\ exists st,
      Examples.reachable st
      /\ length (queue (q st)) = 1
      /\ active (q st) = 1
      /\ (load st > MAX_QUEUE_SIZE Examples.cfg)%Z
      /\ size (deployments (world st)) = 2.
Proof.
  split; [reflexivity|].
  eexists. split.
  - unfold Examples.reachable.
    eapply reach_step.
    { eapply reach_step.
      { eapply reach_step.
        { eapply reach_step; [apply reach_init|].
          eapply (step_enter _ _ _ _ _ _ _ "p1" false).
          vm_compute. reflexivity. }
        eapply (step_enter _ _ _ _ _ _ _ "p1" false).
        vm_compute. reflexivity. }
      eapply (step_commit _ _ _ _ _ _ _ [] ("p1", false) [("p1", false)]).
      - vm_compute. reflexivity.
      - vm_compute. reflexivity. }
    eapply (step_commit _ _ _ _ _ _ _ [] ("p1", false) []).
    + vm_compute. reflexivity.
    + vm_compute. reflexivity.
  - vm_compute. auto.
Qed.

Section Q.
Variable cfg : Config.t.
Variable uuid : nat -> string.
Variable decryptSecret : string -> result string.
Variable spawn : nat -> string -> list string -> SpawnOpts -> ProcOutcome.
Variable processEnv : gmap string string.
Variable random1000 : Z.
Variable toNumber : string -> field Z.

Lemma dispatch_load x x' started :
  dispatch cfg x = (x', started) -> loadQ x' = loadQ x.
Proof.
  unfold dispatch, loadQ.
  destruct (_ >=? _)%Z; [now intros [= <- _]|].
  destruct (queue x) as [|j rest] eqn:E; intros [= <- _]; simpl.
  - now rewrite E.
  - lia.
Qed.

Lemma enter_world projectId isDryRun st r st' :
  enter cfg projectId isDryRun st = (r, st') ->
  world st' = world st /\ q st' = q st /\ running st' = running st
  /\ match r with
     | Ok _ => (load st < MAX_QUEUE_SIZE cfg)%Z
               /\ admitted st' = (admitted st ++ [(projectId, isDryRun)])%list
     | Throw _ => admitted st' = admitted st
     end.
Proof.
  unfold enter. rewrite getProject_spec.
  destruct (admissionCheck _ _ _ _) as [[]|msg] eqn:A; intros [= <- <-]; simpl;
    repeat split; try reflexivity.
  unfold admissionCheck in A. unfold load.
  repeat match type of A with
         | (if ?b then _ else _) = _ => destruct b eqn:?; try discriminate
         | match ?x with _ => _ end = _ => destruct x eqn:?; try discriminate
         end.
  lia.
Qed.

(** When the queue is full, a call is refused before anything is written,
    and for a project that passes the other checks the error is the
    queue-full one. *)
Lemma enter_full projectId isDryRun st :
  (load st >= MAX_QUEUE_SIZE cfg)%Z ->
  exists msg st',
    enter cfg projectId isDryRun st = (Throw msg, st')
    /\ world st' = world st /\ q st' = q st
    /\ (admissionCheck cfg (found projectId (projects (world st)))
                       0 0 = Ok tt ->
        msg = "Deployment queue is full. Try again later.").
Proof.
  intros Hfull.
  destruct (enter cfg projectId isDryRun st) as [r st'] eqn:E.
  destruct (enter_world _ _ _ _ _ E) as (Hw & Hq & _ & Hr).
  destruct r as [[]|msg]; [lia|].
  exists msg, st'. repeat split; try assumption.
  unfold enter in E. rewrite getProject_spec in E.
  unfold admissionCheck in *.
  destruct (found projectId (projects (world st))) as [pr|];
    [|discriminate].
  repeat match goal with
         | |- (if ?b then _ else _) = _ -> _ => destruct b eqn:?; try discriminate
         | |- match ?x with _ => _ end = _ -> _ => destruct x eqn:?; try discriminate
         end.
  intros _.
  destruct (_ >=? _)%Z eqn:G in E; [now inversion E|].
  unfold load in Hfull. lia.
Qed.


Lemma commit_spec call st r st' :
  commit cfg uuid call st = (r, st') ->
  exists job, r = Ok job /\
  load st' = (load st + 1)%Z
  /\ admitted st' = admitted st
  /\ j_projectId job = call.1 /\ j_dryRun job = call.2
  /\ (status <$> deployments (world st') !! j_deploymentId job) = Some Queued
  /\ (steps <$> deployments (world st') !! j_deploymentId job) = Some ∅.
Proof.
  unfold commit, DeploymentStore.createDeployment, DeploymentStore.putDeployment.
  unfold mbind, se_bind, bind, liftExt, now, modify, mret, se_ret, ret. simpl.
  destruct (dispatch cfg _) as [q' started] eqn:D.
  intros [= <- <-]. eexists. split; [reflexivity|]. simpl.
  apply dispatch_load in D. unfold load. simpl.
  unfold loadQ in D. simpl in D. rewrite length_app in D. simpl in D.
  rewrite lookup_insert_eq. simpl.
  repeat split; try reflexivity. lia.
Qed.

(** Calls that do not overlap keep the bound. *)
Theorem sequential_call_keeps_bound projectId isDryRun st r st' :
  admitted st = [] ->
  (load st <= MAX_QUEUE_SIZE cfg)%Z ->
  queueDeployment cfg uuid projectId isDryRun st = (r, st') ->
  (load st' <= MAX_QUEUE_SIZE cfg)%Z
  /\ admitted st' = []
  /\ match r with
     | Throw _ => world st' = world st /\ q st' = q st
     | Ok job =>
         load st' = (load st + 1)%Z
         /\ (status <$> deployments (world st') !! j_deploymentId job)
            = Some Queued
     end.
Proof.
  intros Hadm Hload. unfold queueDeployment.
  destruct (enter cfg projectId isDryRun st) as [[[]|msg] st1] eqn:E.
  - destruct (enter_world _ _ _ _ _ E) as (Hw & Hq & Hr & Hlt & _).
    destruct (commit cfg uuid _ _) as [r2 st2] eqn:C.
    intros [= <- <-].
    destruct (commit_spec _ _ _ _ C) as (job & -> & L & A & _ & _ & S & _).
    unfold load in L, Hlt |- *. simpl in L, A. rewrite Hq in L.
    repeat split; try assumption; try lia. congruence.
  - destruct (enter_world _ _ _ _ _ E) as (Hw & Hq & Hr & Ha).
    intros [= <- <-]. unfold load in *. rewrite Hq.
    repeat split; try assumption; try lia. congruence.
Qed.

Lemma finish_load job st :
  (load (finish cfg decryptSecret spawn processEnv random1000 toNumber job st)
   <= load st)%Z.
Proof.
  unfold finish. simpl.
  destruct (queue (q st)) as [|j rest] eqn:E; simpl.
  - unfold load. simpl. rewrite E. simpl. lia.
  - destruct (dispatch cfg _) as [q2 started] eqn:D.
    apply dispatch_load in D. unfold load, loadQ in *. simpl in *.
    try rewrite E in *. simpl in *. lia.
Qed.

End Q.
End QueueFacts.

(** ** Base64 and UTF-8 round trips *)

Module Base64Facts.
Import Base64.

Lemma unbase64_charOf (s : Sextet) :
  unbase64 (charOf s) = Some s /\ Ascii.eqb (charOf s) "=" = false.
Proof.
  destruct s as [[] [] [] [] [] []]; vm_compute; split; reflexivity.
Qed.

Lemma byte1_first6 a b : byte1 (first6 a b).1 (first6 a b).2 = a.
Proof. destruct a, b. reflexivity. Qed.

Lemma byte2_mid a b c : byte2 (first6 a b).2 (last6 b c).1 = b.
Proof. destruct a, b, c. reflexivity. Qed.

Lemma byte3_last6 b c : byte3 (last6 b c).1 (last6 b c).2 = c.
Proof. destruct b, c. reflexivity. Qed.

Lemma sextets_cons s rest :
  sextets (String (charOf s) rest) = s :: sextets rest.
Proof.
  destruct (unbase64_charOf s) as [U E]. simpl. now rewrite E, U.
Qed.

Lemma list_ind3 {A} (P : list A -> Prop) :
  P [] -> (forall a, P [a]) -> (forall a b, P [a; b]) ->
  (forall a b c rest, P rest -> P (a :: b :: c :: rest)) ->
  forall l, P l.
Proof.
  intros H0 H1 H2 H3.
  fix IH 1. intros [|a [|b [|c rest]]];
    [apply H0 | apply H1 | apply H2 | apply H3, IH].
Qed.

(** Decoding what [encode] wrote gives the bytes back. *)
Lemma base64_decode_encode (bs : Buffer) : decode (encode bs) = bs.
Proof.
  unfold decode. induction bs as [|a|a b|a b c rest IH] using list_ind3.
  - reflexivity.
  - simpl. destruct (first6 a zeroByte) as [s1 s2] eqn:E.
    rewrite !sextets_cons. simpl.
    pose proof (byte1_first6 a zeroByte) as B. rewrite E in B. simpl in B.
    now rewrite B.
  - simpl. destruct (first6 a b) as [s1 s2] eqn:E.
    destruct (last6 b zeroByte) as [s3 s4] eqn:E2.
    rewrite !sextets_cons. simpl.
    pose proof (byte1_first6 a b) as B1. rewrite E in B1. simpl in B1.
    pose proof (byte2_mid a b zeroByte) as B2. rewrite E, E2 in B2. simpl in B2.
    now rewrite B1, B2.
  - simpl. destruct (first6 a b) as [s1 s2] eqn:E.
    destruct (last6 b c) as [s3 s4] eqn:E2.
    rewrite !sextets_cons. simpl.
    pose proof (byte1_first6 a b) as B1. rewrite E in B1. simpl in B1.
    pose proof (byte2_mid a b c) as B2. rewrite E, E2 in B2. simpl in B2.
    pose proof (byte3_last6 b c) as B3. rewrite E2 in B3. simpl in B3.
    now rewrite B1, B2, B3, IH.
Qed.

Lemma encode_inj (a b : Buffer) : encode a = encode b -> a = b.
Proof.
  intros H. rewrite <- (base64_decode_encode a), <- (base64_decode_encode b). now rewrite H.
Qed.

End Base64Facts.


Module Utf8Facts.
Import Utf8.
Local Open Scope Z_scope.

Lemma valOf_byteOf n : 0 <= n < 256 -> valOf (byteOf n) = n.
Proof.
  intros H. unfold valOf, byteOf.
  rewrite N_ascii_embedding by lia. lia.
Qed.

Ltac cases :=
  repeat match goal with
         | |- context [(?a <=? ?b)] => destruct (Z.leb_spec a b); try lia
         | |- context [(?a <? ?b)] => destruct (Z.ltb_spec a b); try lia
         | |- context [(?a =? ?b)] => destruct (Z.eqb_spec a b); try lia
         end; simpl.

Lemma lead_ascii v : 0 <= v <= 0x7F -> lead v = (Some v, idle).
Proof. intros H. unfold lead. cases. reflexivity. Qed.

Lemma lead_two v :
  0xC2 <= v <= 0xDF -> lead v = (None, mkDec (v mod 32) 1 0x80 0xBF).
Proof. intros H. unfold lead. cases. reflexivity. Qed.

Lemma lead_three v :
  0xE0 <= v <= 0xEF ->
  lead v = (None, mkDec (v mod 16) 2
                        (if v =? 0xE0 then 0xA0 else 0x80)
                        (if v =? 0xED then 0x9F else 0xBF)).
Proof. intros H. unfold lead. cases; reflexivity. Qed.

Lemma lead_four v :
  0xF0 <= v <= 0xF4 ->
  lead v = (None, mkDec (v mod 8) 3
                        (if v =? 0xF0 then 0x90 else 0x80)
                        (if v =? 0xF4 then 0x8F else 0xBF)).
Proof. intros H. unfold lead. cases; reflexivity. Qed.

Lemma decode_lead b rest :
  decodeFrom idle (b :: rest)
  = emit (lead (valOf b)).1 (decodeFrom (lead (valOf b)).2 rest).
Proof. simpl. now destruct (lead (valOf b)). Qed.

Lemma decode_last cp lo hi b rest :
  lo <= valOf b <= hi ->
  decodeFrom (mkDec cp 1 lo hi) (b :: rest)
  = (cp * 64 + valOf b mod 64) :: decodeFrom idle rest.
Proof. intros H. simpl. cases. reflexivity. Qed.

Lemma decode_more cp k lo hi b rest :
  lo <= valOf b <= hi ->
  decodeFrom (mkDec cp (S (S k)) lo hi) (b :: rest)
  = decodeFrom (mkDec (cp * 64 + valOf b mod 64) (S k) 0x80 0xBF) rest.
Proof. intros H. simpl. cases. reflexivity. Qed.


Ltac arith := try (simpl; lia); Z.div_mod_to_equations; lia.

Lemma decode_encodePoint cp rest :
  scalar cp ->
  decodeFrom idle (encodePoint cp ++ rest)%list = cp :: decodeFrom idle rest.
Proof.
  intros Hs. unfold scalar in Hs. unfold encodePoint, isSurrogate, encode3.
  destruct (Z.ltb_spec cp 0x80) as [H1|H1].
  - simpl app. rewrite decode_lead, valOf_byteOf by lia.
    rewrite lead_ascii by lia. reflexivity.
  - destruct (Z.ltb_spec cp 0x800) as [H2|H2].
    + simpl app. rewrite decode_lead, valOf_byteOf by arith.
      rewrite lead_two by arith. cbn [fst snd emit].
      rewrite decode_last by (rewrite valOf_byteOf; arith).
      rewrite valOf_byteOf by arith. f_equal. arith.
    + destruct (Z.ltb_spec cp 0x10000) as [H3|H3].
      * assert (Hns : (0xD800 <=? cp) && (cp <=? 0xDFFF) = false).
        { destruct (Z.leb_spec 0xD800 cp), (Z.leb_spec cp 0xDFFF);
            simpl; try reflexivity; lia. }
        rewrite Hns. simpl app.
        rewrite decode_lead, valOf_byteOf by arith.
        rewrite lead_three by arith. cbn [fst snd emit].
        rewrite decode_more.
        2:{ rewrite valOf_byteOf by arith.
            destruct (Z.eqb_spec (0xE0 + cp / 4096) 0xE0),
                     (Z.eqb_spec (0xE0 + cp / 4096) 0xED); arith. }
        rewrite decode_last by (rewrite valOf_byteOf; arith).
        rewrite !valOf_byteOf by arith. f_equal. arith.
      * simpl app.
        rewrite decode_lead, valOf_byteOf by arith.
        rewrite lead_four by arith. cbn [fst snd emit].
        rewrite decode_more.
        2:{ rewrite valOf_byteOf by arith.
            destruct (Z.eqb_spec (0xF0 + cp / 262144) 0xF0),
                     (Z.eqb_spec (0xF0 + cp / 262144) 0xF4); arith. }
        rewrite decode_more by (rewrite valOf_byteOf; arith).
        rewrite decode_last by (rewrite valOf_byteOf; arith).
        rewrite !valOf_byteOf by arith. f_equal. arith.
Qed.

(** Well-formed text survives encoding and decoding. *)
Lemma utf8_decode_encode (t : Text) : wellFormed t -> decode (encode t) = t.
Proof.
  unfold decode, encode, wellFormed. induction 1 as [|cp t Hcp Ht IH].
  - reflexivity.
  - simpl. rewrite decode_encodePoint by assumption. now rewrite IH.
Qed.

End Utf8Facts.

(** ** C2 and C3: the secrets codec *)

Module SecretsFacts.
Import Secrets.

Lemma xorByte_involutive a k : xorByte (xorByte a k) k = a.
Proof. destruct a, k. simpl. now rewrite !xorb_assoc, !xorb_nilpotent, !xorb_false_r. Qed.

Lemma xorWith_involutive text stream :
  xorWith (xorWith text stream) stream = text.
Proof.
  revert stream. induction text as [|t text IH]; intros [|k stream];
    simpl; try reflexivity.
  now rewrite xorByte_involutive, IH.
Qed.

Lemma xorWith_length text stream :
  length (xorWith text stream) = length text.
Proof.
  revert stream. induction text as [|t text IH]; intros [|k stream];
    simpl; try reflexivity.
  now rewrite IH.
Qed.

Section WithCrypto.

Variable MASTER_KEY : string.
Variable sha256 : Buffer -> Buffer.
Variable keystream : Buffer -> Buffer -> nat -> Buffer.
Variable mac : Buffer -> Buffer -> Buffer -> Buffer.

(** The master secret is configured, and tags are 16 bytes long. *)
Hypothesis key_configured : MASTER_KEY <> "".
Hypothesis mac_length : forall key iv data, length (mac key iv data) = 16.

Lemma key_truthy : truthy_str MASTER_KEY = true.
Proof. destruct MASTER_KEY; [congruence|reflexivity]. Qed.

Lemma payload_parts (iv tag encrypted : Buffer) :
  length iv = 12 -> length tag = 16 ->
  take 12 (iv ++ tag ++ encrypted) = iv
  /\ take 16 (drop 12 (iv ++ tag ++ encrypted)) = tag
  /\ drop 28 (iv ++ tag ++ encrypted) = encrypted.
Proof.
  intros Hiv Htag. repeat split.
  - rewrite take_app_length' by (symmetry; assumption). reflexivity.
  - rewrite drop_app_length' by (symmetry; assumption).
    rewrite take_app_length' by (symmetry; assumption). reflexivity.
  - change 28 with (12 + 16). rewrite <- drop_drop.
    rewrite drop_app_length' by (symmetry; assumption).
    rewrite drop_app_length' by (symmetry; assumption). reflexivity.
Qed.

Lemma payload_split (raw : Buffer) :
  raw = (take 12 raw ++ take 16 (drop 12 raw) ++ drop 28 raw)%list.
Proof.
  change 28 with (12 + 16). rewrite <- drop_drop.
  now rewrite !take_drop.
Qed.

(** C2.  With the master secret configured, for every well-formed text
    [s] and every 12-byte IV, [encryptSecret] returns a blob and
    [decryptSecret] of that blob returns [s]. *)
Theorem decrypt_encrypt (iv : Buffer) (s : Utf8.Text) :
  length iv = 12 ->
  Utf8.wellFormed s ->
  exists blob,
    encryptSecret MASTER_KEY sha256 keystream mac iv s = Ok blob
    /\ decryptSecret MASTER_KEY sha256 keystream mac blob = Ok s.
Proof.
  intros Hiv Hs. unfold encryptSecret, decryptSecret, decryptBuffer, gcmEncrypt.
  rewrite key_truthy. simpl negb. cbv iota.
  eexists. split; [reflexivity|].
  rewrite Base64Facts.base64_decode_encode.
  destruct (payload_parts iv (mac (deriveKey MASTER_KEY sha256) iv
              (xorWith (Utf8.encode s)
                 (keystream (deriveKey MASTER_KEY sha256) iv
                            (length (Utf8.encode s)))))
              (xorWith (Utf8.encode s)
                 (keystream (deriveKey MASTER_KEY sha256) iv
                            (length (Utf8.encode s)))) Hiv (mac_length _ _ _))
    as (-> & -> & ->).
  unfold gcmDecrypt. destruct iv as [|b iv']; [discriminate|].
  rewrite mac_length. simpl tagLengthOk. simpl negb. cbv iota.
  rewrite take_ge by (rewrite mac_length; lia).
  rewrite bool_decide_eq_true_2 by reflexivity.
  rewrite xorWith_length, xorWith_involutive.
  now rewrite Utf8Facts.utf8_decode_encode.
Qed.


(** Two encryptions under different IVs never give the same blob. *)
Lemma fresh_iv_changes_blob (iv iv' : Buffer) (s : Utf8.Text) x x' :
  length iv = 12 -> length iv' = 12 -> iv <> iv' ->
  encryptSecret MASTER_KEY sha256 keystream mac iv s = Ok x ->
  encryptSecret MASTER_KEY sha256 keystream mac iv' s = Ok x' ->
  x <> x'.
Proof.
  intros Hiv Hiv' Hne. unfold encryptSecret, gcmEncrypt.
  rewrite key_truthy. simpl negb. cbv iota.
  intros [= <-] [= <-] E. apply Base64Facts.encode_inj in E.
  apply Hne. apply (f_equal (take 12)) in E.
  now rewrite !take_app_length' in E by (symmetry; assumption).
Qed.

(** C3, amended.  Let [x] be the base64 form of [raw = iv || tag ||
    ciphertext] (at least 28 bytes) that [decryptSecret] accepts, with a
    plaintext that is valid UTF-8.  Then [decryptSecret x] is the decoded
    plaintext, and [encryptSecret] run on it with the IV stored in [x],
    the first 12 bytes of [raw], returns [x] itself. *)
Theorem reencrypt_with_stored_iv (x : string) (raw decrypted : Buffer) :
  x = Base64.encode raw ->
  28 <= length raw ->
  decryptBuffer MASTER_KEY sha256 keystream mac x = Ok decrypted ->
  validUtf8 decrypted ->
  decryptSecret MASTER_KEY sha256 keystream mac x = Ok (Utf8.decode decrypted)
  /\ encryptSecret MASTER_KEY sha256 keystream mac (take 12 raw)
       (Utf8.decode decrypted) = Ok x.
Proof.
  intros -> Hlen Hdec (t & Ht & <-).
  split; [unfold decryptSecret; now rewrite Hdec|].
  rewrite Utf8Facts.utf8_decode_encode by assumption.
  unfold decryptBuffer in Hdec. rewrite key_truthy in Hdec.
  simpl negb in Hdec. cbv iota in Hdec.
  rewrite Base64Facts.base64_decode_encode in Hdec.
  unfold gcmDecrypt in Hdec.
  set (key := deriveKey MASTER_KEY sha256) in *.
  set (iv := take 12 raw) in *.
  set (tag := take 16 (drop 12 raw)) in *.
  set (encrypted := drop 28 raw) in *.
  assert (Htag : length tag = 16).
  { unfold tag. rewrite length_take, length_drop. lia. }
  destruct iv as [|b iv'] eqn:Eiv.
  { exfalso. assert (L : length iv = 12).
    { unfold iv. rewrite length_take. lia. }
    rewrite Eiv in L. discriminate. }
  rewrite <- Eiv in *. rewrite Htag in Hdec.
  simpl tagLengthOk in Hdec. simpl negb in Hdec. cbv iota in Hdec.
  rewrite take_ge in Hdec by (rewrite mac_length; lia).
  destruct (bool_decide (mac key iv encrypted = tag)) eqn:Emac; [|discriminate].
  apply bool_decide_eq_true_1 in Emac. injection Hdec as Hpt.
  unfold encryptSecret, gcmEncrypt. rewrite key_truthy.
  simpl negb. cbv iota. fold key. f_equal. f_equal.
  rewrite <- Hpt, xorWith_length, xorWith_involutive, Emac.
  unfold iv, tag, encrypted. symmetry. apply payload_split.
Qed.

End WithCrypto.

Lemma decrypt_encrypt_witness :
  exists blob,
    Examples.encryptSecret Examples.iv0 [0x68; 0xE9; 0x20AC; 0x1F511]%Z
    = Ok blob
    /\ Examples.decryptSecretText blob = Ok [0x68; 0xE9; 0x20AC; 0x1F511]%Z.
Proof.
  apply (decrypt_encrypt Examples.MASTER_KEY Examples.sha256
           Examples.keystream Examples.mac).
  - discriminate.
  - reflexivity.
  - reflexivity.
  - repeat constructor; unfold Utf8.scalar; lia.
Defined.

(** C3 as stated fails: [encryptSecret] draws a fresh IV.  The blob [x]
    below was produced by [encryptSecret] under one IV and is accepted by
    [decryptSecret]; encrypting the decrypted text under another 12-byte
    IV gives a different blob. *)
Lemma reencryption_with_fresh_iv_differs :
  exists x s,
    Examples.encryptSecret Examples.iv0 [0x68; 0x69]%Z = Ok x
    /\ x = Base64.encode (Base64.decode x)
    /\ length (Base64.decode x) = 30
    /\ Examples.decryptSecretText x = Ok s
    /\ length Examples.iv1 = 12
    /\ Examples.encryptSecret Examples.iv1 s <> Ok x.
Proof.
  eexists. eexists.
  split; [vm_compute; reflexivity|].
  split; [vm_compute; reflexivity|].
  split; [vm_compute; reflexivity|].
  split; [vm_compute; reflexivity|].
  split; [reflexivity|].
  vm_compute. discriminate.
Qed.

Lemma reencrypt_with_stored_iv_witness :
  Examples.decryptSecretText "AQEBAQEBAQEBAQEBAAAAAAAAAAAAAAAAAAAAADIz"
  = Ok (Utf8.decode (map byteOf [0x68; 0x69]%Z))
  /\ Examples.encryptSecret
       (take 12 (Base64.decode "AQEBAQEBAQEBAQEBAAAAAAAAAAAAAAAAAAAAADIz"))
       (Utf8.decode (map byteOf [0x68; 0x69]%Z))
     = Ok "AQEBAQEBAQEBAQEBAAAAAAAAAAAAAAAAAAAAADIz".
Proof.
  apply (reencrypt_with_stored_iv Examples.MASTER_KEY Examples.sha256
           Examples.keystream Examples.mac ltac:(discriminate)
           ltac:(reflexivity)
           "AQEBAQEBAQEBAQEBAAAAAAAAAAAAAAAAAAAAADIz"
           (Base64.decode "AQEBAQEBAQEBAQEBAAAAAAAAAAAAAAAAAAAAADIz")).
  - vm_compute. reflexivity.
  - vm_compute. lia.
  - vm_compute. reflexivity.
  - exists [0x68; 0x69]%Z. split; [|vm_compute; reflexivity].
    repeat constructor; unfold Utf8.scalar; lia.
Defined.

End SecretsFacts.

(** ** Redaction of the subprocess output *)

Module RedactFacts.
Import Command Redaction.

Lemma canon_space c : is_space (canon c) = is_space c.
Proof. destruct c as [[] [] [] [] [] [] [] []]; vm_compute; reflexivity. Qed.

Lemma canon_eq c : Ascii.eqb (canon c) "=" = Ascii.eqb c "=".
Proof. destruct c as [[] [] [] [] [] [] [] []]; vm_compute; reflexivity. Qed.

Lemma ci_space k t : ci_eqb k t = true -> is_space t = is_space k.
Proof.
  unfold ci_eqb. intros H. apply Ascii.eqb_eq in H.
  now rewrite <- (canon_space t), <- H, canon_space.
Qed.

Lemma ci_equals k t :
  ci_eqb k t = true -> Ascii.eqb t "=" = Ascii.eqb k "=".
Proof.
  unfold ci_eqb. intros H. apply Ascii.eqb_eq in H.
  now rewrite <- (canon_eq t), <- H, canon_eq.
Qed.

Lemma ciEq_noSpace k t : ciEq k t = true -> noSpace t = noSpace k.
Proof.
  revert t. induction k as [|x k IH]; intros [|y t] H; simpl in *;
    try discriminate; [reflexivity|].
  apply andb_true_iff in H as [H1 H2].
  now rewrite (ci_space _ _ H1), (IH _ H2).
Qed.

Lemma ciEq_lacks k t : ciEq k t = true -> lacks "=" t = lacks "=" k.
Proof.
  revert t. induction k as [|x k IH]; intros [|y t] H; simpl in *;
    try discriminate; [reflexivity|].
  apply andb_true_iff in H as [H1 H2].
  now rewrite (ci_equals _ _ H1), (IH _ H2).
Qed.

Lemma ciEq_length k t : ciEq k t = true -> String.length t = String.length k.
Proof.
  revert t. induction k as [|x k IH]; intros [|y t] H; simpl in *;
    try discriminate; [reflexivity|].
  apply andb_true_iff in H as [H1 H2]. now rewrite (IH _ H2).
Qed.

(** [matchLiteral] finds exactly the prefixes equal to the key up to case. *)
Lemma matchLiteral_spec key text m rest :
  matchLiteral key text = Some (m, rest) <->
  text = m ++ rest /\ ciEq key m = true.
Proof.
  revert text m rest. induction key as [|k key IH]; intros text m rest; simpl.
  - split.
    + intros [= <- <-]. split; reflexivity.
    + intros [-> H]. destruct m; [reflexivity|discriminate].
  - destruct text as [|t text].
    + split; [discriminate|]. intros [E H].
      destruct m; [discriminate|]. discriminate.
    + destruct (ci_eqb k t) eqn:C.
      * destruct (matchLiteral key text) as [[m' rest']|] eqn:M.
        -- apply IH in M as [-> Hm]. split.
           ++ intros [= <- <-]. split; [reflexivity|]. simpl. now rewrite C.
           ++ intros [E H]. destruct m as [|y m]; [discriminate|].
              rewrite sapp_cons in E. injection E as <- E.
              apply andb_true_iff in H as [_ H].
              assert (M' : matchLiteral key (m' ++ rest') = Some (m, rest))
                by (apply IH; auto).
              assert (M0 : matchLiteral key (m' ++ rest') = Some (m', rest'))
                by (apply IH; auto).
              congruence.
        -- split; [discriminate|]. intros [E H].
           destruct m as [|y m]; [discriminate|].
           rewrite sapp_cons in E. injection E as <- E.
           apply andb_true_iff in H as [_ H].
           assert (M' : matchLiteral key text = Some (m, rest))
             by (apply IH; auto).
           congruence.
      * split; [discriminate|]. intros [E H].
        destruct m as [|y m]; [discriminate|].
        rewrite sapp_cons in E. injection E as <- E.
        apply andb_true_iff in H as [H _]. congruence.
Qed.


(** *** Strings *)

Lemma sapp_eq_app a b c d :
  a ++ b = c ++ d ->
  (exists p, c = a ++ p /\ b = p ++ d) \/ (exists q, a = c ++ q /\ d = q ++ b).
Proof.
  revert c. induction a as [|x a IH]; intros c H.
  - left. exists c. split; [reflexivity|exact H].
  - destruct c as [|y c].
    + right. exists (String x a). split; [reflexivity|]. symmetry. exact H.
    + rewrite !sapp_cons in H. injection H as <- H.
      destruct (IH _ H) as [(p & -> & ->)|(q & -> & ->)].
      * left. exists p. split; reflexivity.
      * right. exists q. split; reflexivity.
Qed.

Lemma sapp_eq_nil a b : a ++ b = "" -> a = "" /\ b = "".
Proof. destruct a; [intros H; split; [reflexivity|exact H]|discriminate]. Qed.

Lemma noSpace_app a b : noSpace (a ++ b) = noSpace a && noSpace b.
Proof.
  induction a as [|x a IH]; [reflexivity|].
  rewrite sapp_cons. simpl. now rewrite IH, andb_assoc.
Qed.

Lemma lacks_app c a b : lacks c (a ++ b) = lacks c a && lacks c b.
Proof.
  induction a as [|x a IH]; [reflexivity|].
  rewrite sapp_cons. simpl. now rewrite IH, andb_assoc.
Qed.

(** A text splits in one way only into a word and what follows it. *)
Lemma word_split_unique a b a' b' :
  noSpace a = true -> noSpace a' = true ->
  atBoundary b = true -> atBoundary b' = true ->
  a ++ b = a' ++ b' -> a = a' /\ b = b'.
Proof.
  revert a'. induction a as [|x a IH]; intros [|y a'] Ha Ha' Hb Hb' E.
  - split; [reflexivity|exact E].
  - rewrite sapp_cons in E. change ("" ++ b) with b in E. subst b.
    simpl in Ha', Hb. rewrite Hb in Ha'. discriminate.
  - rewrite sapp_cons in E. change ("" ++ b') with b' in E. subst b'.
    simpl in Ha, Hb'. rewrite Hb' in Ha. discriminate.
  - rewrite !sapp_cons in E. injection E as <- E.
    simpl in Ha, Ha'. apply andb_true_iff in Ha as [_ Ha].
    apply andb_true_iff in Ha' as [_ Ha'].
    destruct (IH _ Ha Ha' Hb Hb' E) as [-> ->]. split; reflexivity.
Qed.

(** The first [=] of a text is where it is. *)
Lemma first_equals_unique x y x' y' :
  lacks "=" x = true -> lacks "=" x' = true ->
  x ++ String "=" y = x' ++ String "=" y' -> x = x' /\ y = y'.
Proof.
  revert x'. induction x as [|c x IH]; intros [|c' x'] Hx Hx' E.
  - injection E as ->. split; reflexivity.
  - rewrite sapp_cons in E. injection E as <- _.
    simpl in Hx'. discriminate.
  - rewrite sapp_cons in E. injection E as -> _.
    simpl in Hx. discriminate.
  - rewrite !sapp_cons in E. injection E as <- E.
    simpl in Hx, Hx'. apply andb_true_iff in Hx as [_ Hx].
    apply andb_true_iff in Hx' as [_ Hx'].
    destruct (IH _ Hx Hx' E) as [-> ->]. split; reflexivity.
Qed.

Lemma first_equals p :
  lacks "=" p = true \/
  exists x y, p = x ++ String "=" y /\ lacks "=" x = true.
Proof.
  induction p as [|c p IH]; [left; reflexivity|].
  destruct (Ascii.eqb c "=") eqn:C.
  - apply Ascii.eqb_eq in C as ->. right. exists "", p. split; reflexivity.
  - destruct IH as [H|(x & y & -> & H)].
    + left. simpl. now rewrite C, H.
    + right. exists (String c x), y. split; [reflexivity|].
      simpl. now rewrite C, H.
Qed.

(** *** The pattern *)

Lemma takeToken_spec s tok rest :
  takeToken s = (tok, rest) ->
  s = tok ++ rest /\ noSpace tok = true /\ atBoundary rest = true.
Proof.
  revert tok rest. induction s as [|c s IH]; intros tok rest; simpl.
  - intros [= <- <-]. repeat split.
  - destruct (is_space c) eqn:C.
    + intros [= <- <-]. repeat split. simpl. exact C.
    + destruct (takeToken s) as [tok' rest'].
      intros [= <- <-]. destruct (IH _ _ eq_refl) as (-> & H1 & H2).
      repeat split; [|exact H2]. simpl. now rewrite C, H1.
Qed.

Lemma takeToken_app tok rest :
  noSpace tok = true -> atBoundary rest = true ->
  takeToken (tok ++ rest) = (tok, rest).
Proof.
  intros H1 H2. destruct (takeToken (tok ++ rest)) as [t r] eqn:E.
  apply takeToken_spec in E as (E & Ht & Hr).
  destruct (word_split_unique _ _ _ _ H1 Ht H2 Hr E) as [-> ->]. reflexivity.
Qed.

Lemma matchAt_spec key s m tok rest :
  matchAt key s = Some (m, tok, rest) <->
  exists k', ciEq key k' = true /\ m = k' ++ String "=" tok /\ s = m ++ rest
             /\ tok <> "" /\ noSpace tok = true /\ atBoundary rest = true.
Proof.
  unfold matchAt. split.
  - destruct (matchLiteral key s) as [[k' after]|] eqn:M; [|discriminate].
    apply matchLiteral_spec in M as [-> Hk].
    destruct after as [|c after]; [discriminate|].
    destruct (Ascii.eqb c "=") eqn:C; [|discriminate].
    apply Ascii.eqb_eq in C as ->.
    destruct (takeToken after) as [t r] eqn:T.
    apply takeToken_spec in T as (-> & Ht & Hr).
    destruct t as [|t0 t]; [discriminate|].
    intros [= <- <- <-]. exists k'.
    repeat split; try assumption; try discriminate.
    rewrite sapp_assoc. reflexivity.
  - intros (k' & Hk & -> & -> & Ht & Hn & Hr).
    rewrite sapp_assoc, sapp_cons.
    assert (M : matchLiteral key (k' ++ String "=" (tok ++ rest))
                = Some (k', String "=" (tok ++ rest)))
      by (apply matchLiteral_spec; split; [reflexivity|exact Hk]).
    rewrite M. simpl Ascii.eqb. cbv iota.
    rewrite (takeToken_app _ _ Hn Hr).
    destruct tok; [contradiction|reflexivity].
Qed.


(** *** One pass of [replace] *)

Section OnePass.
Variable key : string.
Hypothesis plain : plainKey key = true.

Lemma plain_parts :
  key <> "" /\ noSpace key = true /\ lacks "=" key = true
  /\ lacks "$" key = true.
Proof.
  unfold plainKey in plain.
  apply andb_true_iff in plain as [H H4].
  apply andb_true_iff in H as [H H3].
  apply andb_true_iff in H as [H1 H2].
  repeat split; try assumption.
  intros ->. discriminate.
Qed.

Lemma mask_lacks_dollar : lacks "$" (mask key) = true.
Proof.
  destruct plain_parts as (_ & _ & _ & H).
  unfold mask. rewrite lacks_app, H. reflexivity.
Qed.

Lemma mask_noSpace : noSpace (mask key) = true.
Proof.
  destruct plain_parts as (_ & H & _ & _).
  unfold mask. rewrite noSpace_app, H. reflexivity.
Qed.

Lemma expand_literal tpl before matched after cap :
  lacks "$" tpl = true -> expand tpl before matched after cap = tpl.
Proof.
  induction tpl as [|c tpl IH]; [reflexivity|]. simpl. intros H.
  apply andb_true_iff in H as [H1 H2]. rewrite H1.
  now rewrite (IH H2).
Qed.

Lemma replaceScan_before tpl b1 b2 n t :
  lacks "$" tpl = true ->
  replaceScan key tpl b1 n t = replaceScan key tpl b2 n t.
Proof.
  intros Ht. revert b1 b2 n.
  induction t as [|c t IH]; intros b1 b2 n; [reflexivity|].
  simpl. destruct n as [|n]; [|apply IH].
  destruct (matchAt key (String c t)) as [[[m cap] rest]|].
  - rewrite !(expand_literal _ _ _ _ _ Ht). f_equal. apply IH.
  - f_equal. apply IH.
Qed.

Lemma replaceScan_skip tpl b b' pre rest :
  lacks "$" tpl = true ->
  replaceScan key tpl b (String.length pre) (pre ++ rest)
  = replaceScan key tpl b' 0 rest.
Proof.
  intros Ht. revert b. induction pre as [|c pre IH]; intros b.
  - apply replaceScan_before, Ht.
  - rewrite sapp_cons. simpl. apply IH.
Qed.

Lemma redactOne_nil : redactOne key "" = "".
Proof. reflexivity. Qed.

Lemma redactOne_miss c t :
  matchAt key (String c t) = None ->
  redactOne key (String c t) = String c (redactOne key t).
Proof.
  intros H. unfold redactOne. simpl. rewrite H. f_equal.
  apply replaceScan_before, mask_lacks_dollar.
Qed.

Lemma redactOne_hit s m tok rest :
  matchAt key s = Some (m, tok, rest) ->
  redactOne key s = mask key ++ redactOne key rest.
Proof.
  intros H. pose proof H as H0.
  apply matchAt_spec in H0 as (k' & _ & Hm & -> & _).
  destruct m as [|c m].
  { destruct k'; discriminate. }
  unfold redactOne. rewrite sapp_cons in *. simpl. rewrite H.
  rewrite (expand_literal _ _ _ _ _ mask_lacks_dollar). f_equal.
  replace (String.length (String c m) - 1) with (String.length m)
    by (simpl; lia).
  apply replaceScan_skip, mask_lacks_dollar.
Qed.

(** No match starts on white space. *)
Lemma matchAt_space c t :
  is_space c = true -> matchAt key (String c t) = None.
Proof.
  intros Hc. destruct (matchAt key (String c t)) as [[[m tok] rest]|] eqn:E;
    [|reflexivity].
  apply matchAt_spec in E as (k' & Hk & -> & E & _).
  destruct plain_parts as (Hne & Hs & _).
  rewrite <- (ciEq_noSpace _ _ Hk) in Hs.
  destruct k' as [|x k'].
  - destruct key; [contradiction|discriminate].
  - rewrite !sapp_cons in E. injection E as -> _.
    simpl in Hs. rewrite Hc in Hs. discriminate.
Qed.

(** A match in front of a word is the word. *)
Lemma matchAt_word w r m tok rest :
  noSpace w = true -> atBoundary r = true ->
  (matchAt key (w ++ r) = Some (m, tok, rest)
   <-> m = w /\ rest = r /\ assigns key w tok).
Proof.
  intros Hw Hr. destruct plain_parts as (_ & Hs & _). split.
  - intros E. apply matchAt_spec in E as (k' & Hk & -> & E & Ht & Hn & Hb).
    assert (Hm : noSpace (k' ++ String "=" tok) = true).
    { rewrite noSpace_app, (ciEq_noSpace _ _ Hk), Hs. simpl. now rewrite Hn. }
    destruct (word_split_unique _ _ _ _ Hw Hm Hr Hb E) as [-> ->].
    repeat split. exists k'. repeat split; assumption.
  - intros (-> & -> & k' & Hk & -> & Ht).
    apply matchAt_spec. exists k'. repeat split; try assumption.
    rewrite noSpace_app in Hw. apply andb_true_iff in Hw as [_ Hw].
    simpl in Hw. exact Hw.
Qed.

Lemma matchAt_word_alone w tok :
  noSpace w = true ->
  (matchAt key w = Some (w, tok, "") <-> assigns key w tok).
Proof.
  intros Hw. pose proof (matchAt_word w "" w tok "" Hw eq_refl) as H.
  rewrite sapp_nil_r in H. rewrite H. tauto.
Qed.

Lemma matchAt_word_none w r :
  noSpace w = true -> atBoundary r = true ->
  (matchAt key (w ++ r) = None <-> forall tok, ~ assigns key w tok).
Proof.
  intros Hw Hr. split.
  - intros E tok A.
    assert (H : matchAt key (w ++ r) = Some (w, tok, r))
      by (apply matchAt_word; auto).
    congruence.
  - intros H. destruct (matchAt key (w ++ r)) as [[[m tok] rest]|] eqn:E;
      [|reflexivity].
    apply matchAt_word in E as (_ & _ & A); [|assumption..].
    destruct (H _ A).
Qed.

(** Replacing commutes with cutting the text after a word. *)
Lemma redactOne_app w r :
  noSpace w = true -> atBoundary r = true ->
  redactOne key (w ++ r) = redactOne key w ++ redactOne key r.
Proof.
  intros Hw Hr. induction w as [|c w IH]; [reflexivity|].
  destruct (matchAt key (String c w ++ r)) as [[[m tok] rest]|] eqn:E.
  - rewrite (redactOne_hit _ _ _ _ E).
    apply matchAt_word in E as (-> & -> & A); [|assumption..].
    apply matchAt_word_alone in A; [|assumption].
    rewrite (redactOne_hit _ _ _ _ A), redactOne_nil, sapp_nil_r. reflexivity.
  - pose proof (proj1 (matchAt_word_none _ _ Hw Hr) E) as E'.
    assert (E2 : matchAt key (String c w ++ "") = None)
      by (apply matchAt_word_none; auto).
    rewrite sapp_nil_r in E2. rewrite sapp_cons in E |- *.
    rewrite (redactOne_miss _ _ E), (redactOne_miss _ _ E2), sapp_cons.
    f_equal. apply IH. simpl in Hw. apply andb_true_iff in Hw as [_ Hw].
    exact Hw.
Qed.

Lemma redactOne_space c t :
  is_space c = true -> redactOne key (String c t) = String c (redactOne key t).
Proof. intros H. apply redactOne_miss, matchAt_space, H. Qed.

Lemma redactOne_boundary r :
  atBoundary r = true -> atBoundary (redactOne key r) = true.
Proof.
  destruct r as [|c r]; [reflexivity|]. simpl. intros H.
  rewrite (redactOne_space _ _ H). exact H.
Qed.

(** What one pass does to a word: nothing, or the first assignment of
    the key, which runs to the end of the word, becomes the mask. *)
Lemma redactOne_word w :
  noSpace w = true ->
  (redactOne key w = w /\
   forall p s tok, w = p ++ s -> ~ assigns key s tok)
  \/
  (exists p s tok, w = p ++ s /\ assigns key s tok /\
     redactOne key w = p ++ mask key /\
     forall p1 p2 tok', p = p1 ++ p2 -> p2 <> "" ->
       ~ assigns key (p2 ++ s) tok').
Proof.
  induction w as [|c w IH]; intros Hw.
  - left. split; [reflexivity|]. intros p s tok E (k' & _ & -> & _).
    symmetry in E. apply sapp_eq_nil in E as [_ E].
    destruct k'; discriminate.
  - pose proof Hw as Hw'. simpl in Hw'.
    apply andb_true_iff in Hw' as [_ Hw'].
    destruct (matchAt key (String c w)) as [[[m tok] rest]|] eqn:E.
    + right. rewrite (redactOne_hit _ _ _ _ E).
      rewrite <- (sapp_nil_r (String c w)) in E.
      apply matchAt_word in E as (-> & -> & A); [|auto..].
      exists "", (String c w), tok.
      split; [reflexivity|]. split; [exact A|].
      split; [rewrite redactOne_nil, sapp_nil_r; reflexivity|].
      intros p1 p2 tok' E2. symmetry in E2.
      apply sapp_eq_nil in E2 as [_ ->]. congruence.
    + rewrite (redactOne_miss _ _ E).
      rewrite <- (sapp_nil_r (String c w)) in E.
      pose proof (proj1 (matchAt_word_none _ "" Hw eq_refl) E) as N0.
      clear E. rename N0 into E.
      destruct (IH Hw') as [[E1 N]|(p & s & tok & -> & A & E1 & N)].
      * left. rewrite E1. split; [reflexivity|].
        intros [|x p] s tok E2.
        -- change ("" ++ s) with s in E2. subst s. apply E.
        -- rewrite sapp_cons in E2. injection E2 as <- E2.
           apply (N _ _ _ E2).
      * right. exists (String c p), s, tok. rewrite E1.
        split; [reflexivity|]. split; [exact A|]. split; [reflexivity|].
        intros [|x p1] p2 tok' E2 Hp2.
        -- change ("" ++ p2) with p2 in E2. subst p2. apply E.
        -- rewrite sapp_cons in E2. injection E2 as <- E2.
           apply (N _ _ _ E2 Hp2).
Qed.

Lemma redactOne_noSpace w :
  noSpace w = true -> noSpace (redactOne key w) = true.
Proof.
  intros Hw.
  destruct (redactOne_word w Hw) as [[-> _]|(p & s & tok & -> & _ & -> & _)];
    [exact Hw|].
  rewrite noSpace_app in Hw |- *. apply andb_true_iff in Hw as [-> _].
  apply mask_noSpace.
Qed.

End OnePass.

(** *** Words that carry no assignment but masked ones *)

Lemma assigns_equals key s tok :
  assigns key s tok -> lacks "=" s = false.
Proof.
  intros (k' & _ & -> & _). rewrite lacks_app. simpl.
  now rewrite andb_false_r.
Qed.

Lemma assigns_nonempty key s tok : assigns key s tok -> s <> "".
Proof. intros A ->. apply assigns_equals in A. discriminate. Qed.

(** Where a pass of [k2] has put its mask behind [p], an assignment of
    [k1] in the result is masked, or it was an assignment in the word
    before the pass, starting in [p]. *)
Lemma mask_suffix k1 k2 p s0 a s tok :
  plainKey k1 = true -> plainKey k2 = true -> s0 <> "" ->
  p ++ mask k2 = a ++ s -> assigns k1 s tok ->
  tok = "[redacted]" \/
  exists p2 y, p = a ++ p2 /\ p2 <> "" /\ assigns k1 (p2 ++ s0) (y ++ s0).
Proof.
  intros P1 P2 Hs0 E (k' & Hk & -> & Ht).
  destruct (plain_parts _ P1) as (_ & _ & L1 & _).
  destruct (plain_parts _ P2) as (_ & _ & L2 & _).
  rewrite <- (ciEq_lacks _ _ Hk) in L1.
  symmetry in E. apply sapp_eq_app in E as [(p2 & -> & E)|(q & -> & E)].
  - (* the assignment starts in [p] *)
    unfold mask in E. rewrite <- sapp_assoc in E.
    change ((p2 ++ k2) ++ "=[redacted]")
      with ((p2 ++ k2) ++ String "=" "[redacted]") in E.
    destruct (first_equals p2) as [Lp|(x & y & -> & Lx)].
    + left. eapply first_equals_unique; [..|exact E]; [exact L1|].
      rewrite lacks_app, Lp, L2. reflexivity.
    + right. rewrite !sapp_assoc, sapp_cons in E.
      apply first_equals_unique in E as [-> ->]; [|assumption..].
      exists (x ++ String "=" y), y. split; [reflexivity|].
      split; [destruct x; discriminate|].
      exists x. split; [exact Hk|]. split.
      * rewrite sapp_assoc, sapp_cons. reflexivity.
      * intros H. apply sapp_eq_nil in H as [_ H]. contradiction.
  - (* the assignment starts in the mask *)
    left. unfold mask in E. symmetry in E.
    apply sapp_eq_app in E as [(z & E1 & E2)|(z & -> & E2)].
    + (* in the key *)
      subst k2. rewrite lacks_app in L2. apply andb_true_iff in L2 as [_ Lz].
      change (z ++ "=[redacted]") with (z ++ String "=" "[redacted]") in E2.
      eapply first_equals_unique; [..|exact E2]; assumption.
    + (* behind the key *)
      destruct z as [|c z].
      * change ("" ++ k' ++ String "=" tok) with (k' ++ String "=" tok) in E2.
        change "=[redacted]" with ("" ++ String "=" "[redacted]") in E2.
        symmetry in E2.
        eapply first_equals_unique; [..|exact E2]; [exact L1|reflexivity].
      * rewrite sapp_cons in E2. injection E2 as _ E2.
        assert (L : lacks "=" "[redacted]" = true) by reflexivity.
        rewrite E2, !lacks_app in L. simpl in L.
        rewrite !andb_false_r in L. discriminate.
Qed.

Lemma cleanWord_own key w :
  plainKey key = true -> noSpace w = true ->
  cleanWord key (redactOne key w).
Proof.
  intros P Hw a s tok E A.
  destruct (redactOne_word key P w Hw)
    as [[E1 N]|(p & s0 & tok0 & -> & A0 & E1 & N)].
  - rewrite E1 in E. destruct (N _ _ _ E A).
  - rewrite E1 in E.
    destruct (mask_suffix key key p s0 a s tok P P
                (assigns_nonempty _ _ _ A0) E A)
      as [H|(p2 & y & -> & Hp2 & A2)]; [exact H|].
    destruct (N _ _ _ eq_refl Hp2 A2).
Qed.

Lemma cleanWord_other k1 k2 w :
  plainKey k1 = true -> plainKey k2 = true -> noSpace w = true ->
  cleanWord k1 w -> cleanWord k1 (redactOne k2 w).
Proof.
  intros P1 P2 Hw C a s tok E A.
  destruct (redactOne_word k2 P2 w Hw)
    as [[E1 N]|(p & s0 & tok0 & -> & A0 & E1 & N)].
  - rewrite E1 in E. apply (C _ _ _ E A).
  - rewrite E1 in E.
    destruct (mask_suffix k1 k2 p s0 a s tok P1 P2
                (assigns_nonempty _ _ _ A0) E A)
      as [H|(p2 & y & -> & Hp2 & A2)]; [exact H|].
    exfalso.
    assert (H : y ++ s0 = "[redacted]").
    { apply (C a (p2 ++ s0)); [apply sapp_assoc|exact A2]. }
    apply assigns_equals in A0.
    assert (L : lacks "=" (y ++ s0) = true) by (rewrite H; reflexivity).
    rewrite lacks_app, A0, andb_false_r in L. discriminate.
Qed.

(** *** Texts *)

Lemma word_ind (P : string -> Prop) :
  P "" ->
  (forall c s, is_space c = true -> P s -> P (String c s)) ->
  (forall w r, w <> "" -> noSpace w = true -> atBoundary r = true ->
     P r -> P (w ++ r)) ->
  forall s, P s.
Proof.
  intros H0 H1 H2 s.
  assert (G : forall n s, String.length s <= n -> P s).
  { clear s. induction n as [|n IH]; intros s L.
    - destruct s; [exact H0|simpl in L; lia].
    - destruct s as [|c s]; [exact H0|].
      destruct (is_space c) eqn:C.
      + apply H1; [exact C|]. apply IH. simpl in L. lia.
      + destruct (takeToken s) as [tok rest] eqn:T.
        apply takeToken_spec in T as (-> & Ht & Hr).
        change (String c (tok ++ rest)) with (String c tok ++ rest).
        apply H2; [discriminate| |exact Hr|].
        * simpl. now rewrite C, Ht.
        * apply IH. simpl in L. rewrite slength_app in L. lia. }
  apply (G (String.length s)). lia.
Qed.

Section Texts.
Variable key : string.
Hypothesis plain : plainKey key = true.

Lemma clean_nil : clean key "".
Proof.
  intros a b m tok rest E M. symmetry in E.
  apply sapp_eq_nil in E as [_ ->].
  apply matchAt_spec in M as (k' & _ & -> & E & _).
  destruct k'; discriminate.
Qed.

Lemma clean_space c s :
  is_space c = true -> (clean key (String c s) <-> clean key s).
Proof.
  intros Hc. split; intros C a b m tok rest E M.
  - apply (C (String c a) b m tok rest); [now rewrite E|exact M].
  - destruct a as [|x a].
    + change ("" ++ b) with b in E. subst b.
      rewrite (matchAt_space key plain _ _ Hc) in M. discriminate.
    + rewrite sapp_cons in E. injection E as _ E.
      apply (C a b m tok rest E M).
Qed.

Lemma clean_word w r :
  noSpace w = true -> atBoundary r = true ->
  (clean key (w ++ r) <-> cleanWord key w /\ clean key r).
Proof.
  intros Hw Hr. split.
  - intros C. split.
    + intros p s tok -> A.
      rewrite noSpace_app in Hw. apply andb_true_iff in Hw as [_ Hs].
      apply (C p (s ++ r) s tok r); [apply sapp_assoc|].
      apply matchAt_word; auto.
    + intros a b m tok rest -> M.
      apply (C (w ++ a) b m tok rest); [now rewrite sapp_assoc|exact M].
  - intros [Cw Cr] a b m tok rest E M.
    symmetry in E. apply sapp_eq_app in E as [(p & -> & ->)|(q & -> & ->)].
    + rewrite noSpace_app in Hw. apply andb_true_iff in Hw as [_ Hp].
      apply matchAt_word in M as (_ & _ & A); [|assumption..].
      apply (Cw a p tok eq_refl A).
    + apply (Cr q b m tok rest eq_refl M).
Qed.

(** After its own pass no assignment of the key is left but masked
    ones. *)
Lemma clean_own text : clean key (redactOne key text).
Proof.
  induction text as [|c s Hc IH|w r _ Hw Hr IH] using word_ind.
  - apply clean_nil.
  - rewrite (redactOne_space key plain _ _ Hc).
    apply clean_space; assumption.
  - rewrite (redactOne_app key plain _ _ Hw Hr).
    apply clean_word.
    + apply redactOne_noSpace; assumption.
    + apply redactOne_boundary; assumption.
    + split; [apply cleanWord_own; assumption|exact IH].
Qed.

(** The pass of another key brings no assignment back. *)
Lemma clean_other k2 text :
  plainKey k2 = true -> clean key text -> clean key (redactOne k2 text).
Proof.
  intros P2.
  induction text as [|c s Hc IH|w r _ Hw Hr IH] using word_ind; intros C.
  - exact C.
  - rewrite (redactOne_space k2 P2 _ _ Hc).
    apply clean_space; [exact Hc|]. apply IH.
    apply (clean_space c s Hc), C.
  - rewrite (redactOne_app k2 P2 _ _ Hw Hr).
    apply clean_word in C as [Cw Cr]; [|assumption..].
    apply clean_word.
    + apply redactOne_noSpace; assumption.
    + apply redactOne_boundary; assumption.
    + split; [apply cleanWord_other; assumption|apply IH, Cr].
Qed.

End Texts.

Lemma plainKey_truthy k : plainKey k = true -> truthy_str k = true.
Proof.
  unfold plainKey. intros H.
  apply andb_true_iff in H as [H _]. apply andb_true_iff in H as [H _].
  apply andb_true_iff in H as [H _]. exact H.
Qed.

Lemma redactText_cons text k keys :
  plainKey k = true ->
  redactText text (k :: keys) = redactText (redactOne k text) keys.
Proof.
  intros P. unfold redactText. simpl. now rewrite (plainKey_truthy _ P).
Qed.

Lemma clean_later key keys text :
  plainKey key = true -> Forall (fun k => plainKey k = true) keys ->
  clean key text -> clean key (redactText text keys).
Proof.
  intros P F. revert text.
  induction F as [|k keys Pk F IH]; intros text C; [exact C|].
  rewrite (redactText_cons _ _ _ Pk). apply IH, clean_other; assumption.
Qed.

(** C4, amended.  With redact keys that are not empty and hold no white
    space, [=] or [$], whatever a subprocess prints: in the text that
    [write] passes to the log stream, every [KEY=<token>] for a redact
    key, the key in any case and the token running to the next white
    space, has the token [[redacted]]. *)
Theorem assignments_are_masked (chunk : string) (keys : list string)
    (key before after matched token rest : string) :
  Forall (fun k => plainKey k = true) keys ->
  In key keys ->
  write chunk keys = before ++ after ->
  matchAt key after = Some (matched, token, rest) ->
  token = "[redacted]".
Proof.
  unfold write. intros F I E M.
  assert (G : clean key (redactText chunk keys)).
  { clear E M. revert chunk.
    induction F as [|k keys Pk F IH]; intros chunk; [destruct I|].
    rewrite (redactText_cons _ _ _ Pk). destruct I as [->|I].
    - apply clean_later; [assumption..|]. apply clean_own, Pk.
    - apply IH, I. }
  apply (G _ _ _ _ _ E M).
Qed.

Lemma assignments_are_masked_witness :
  Forall (fun k => plainKey k = true) ["DB_URL"; "API_TOKEN"] /\
  In "API_TOKEN" ["DB_URL"; "API_TOKEN"] /\
  write "using api_token=hunter2 for deploy" ["DB_URL"; "API_TOKEN"]
  = "using " ++ "API_TOKEN=[redacted] for deploy" /\
  matchAt "API_TOKEN" "API_TOKEN=[redacted] for deploy"
  = Some ("API_TOKEN=[redacted]", "[redacted]", " for deploy") /\
  "[redacted]" = "[redacted]".
Proof.
  assert (F : Forall (fun k => plainKey k = true) ["DB_URL"; "API_TOKEN"])
    by (repeat constructor).
  assert (I : In "API_TOKEN" ["DB_URL"; "API_TOKEN"])
    by (right; left; reflexivity).
  assert (E : write "using api_token=hunter2 for deploy"
                    ["DB_URL"; "API_TOKEN"]
              = "using " ++ "API_TOKEN=[redacted] for deploy")
    by (vm_compute; reflexivity).
  assert (M : matchAt "API_TOKEN" "API_TOKEN=[redacted] for deploy"
              = Some ("API_TOKEN=[redacted]", "[redacted]", " for deploy"))
    by (vm_compute; reflexivity).
  repeat match goal with |- _ /\ _ => split end; try assumption.
  exact (assignments_are_masked _ _ _ _ _ _ _ _ F I E M).
Defined.

(** C4 as stated fails: a step runs with the secret [API_TOKEN] in its
    environment and [API_TOKEN] among its redact keys; the program
    prints the value of the variable, and the value is written to the
    log as it is. *)
Lemma printed_secret_value_is_logged :
  (o_env Examples.secretOpts ≫= (.!! "API_TOKEN")) = Some "hunter2" /\
  In "API_TOKEN" (o_redactKeys Examples.secretOpts) /\
  write ("hunter2" ++ nl) (o_redactKeys Examples.secretOpts)
  = "hunter2" ++ nl /\
  logs (runCommand Examples.printenv "printenv" ["API_TOKEN"]
          Examples.secretOpts (Some "/var/deploy/logs/d0.log") false
          Examples.host0).2
    !! "/var/deploy/logs/d0.log" = Some ["hunter2" ++ nl] /\
  includes ("hunter2" ++ nl) "hunter2" = true.
Proof.
  repeat match goal with |- _ /\ _ => split end;
    try (vm_compute; reflexivity).
  left. reflexivity.
Qed.

End RedactFacts.

(* --------------------------------------------------------------------- *)
(** ** Paths that pass the guards *)

Module ResolveFacts.
Import PathFacts Normal.

Import Redaction.

Lemma split_lacks c s : Forall (fun seg => lacks c seg = true) (Js.split c s).
Proof.
  induction s as [|d s IH]; simpl.
  - repeat constructor.
  - destruct (Ascii.eqb d c) eqn:E.
    + constructor; [reflexivity|exact IH].
    + destruct (Js.split c s) as [|seg rest].
      * repeat constructor. simpl. now rewrite E.
      * inversion IH; subst. constructor; [|assumption].
        simpl. rewrite E. assumption.
Qed.

Lemma normalizeSegs_components acc segs :
  Forall (fun seg => lacks "/" seg = true) segs ->
  Forall component acc ->
  Forall component (Path.normalizeSegs false acc segs).
Proof.
  revert acc. induction segs as [|seg segs IH]; intros acc Hs Ha; simpl.
  - apply Forall_rev. exact Ha.
  - inversion Hs as [|? ? Hseg Hs']; subst.
    destruct (String.eqb_spec seg "") as [->|N1]; simpl; [now apply IH|].
    destruct (String.eqb_spec seg ".") as [->|N2]; simpl; [now apply IH|].
    destruct (String.eqb_spec seg "..") as [->|N3].
    + destruct acc as [|last acc']; [now apply IH|].
      inversion Ha as [|? ? Hl Ha']; subst.
      destruct (String.eqb_spec last "..") as [->|_].
      * destruct Hl as (_ & _ & Hl & _). congruence.
      * now apply IH.
    + apply IH; [assumption|]. constructor; [|assumption].
      repeat split; assumption.
Qed.

Lemma resolveLoop_absolute args cwd acc :
  Path.isAbsolute cwd = true ->
  exists joined, Path.resolveLoop (args ++ [cwd])%list acc = (joined, true).
Proof.
  intros Hc. revert acc. induction args as [|p args IH]; intros acc; simpl.
  - destruct cwd as [|c cwd]; [discriminate|]. rewrite Hc. eauto.
  - destruct p as [|c p]; [apply IH|].
    destruct (Path.isAbsolute (String c p)); [eauto|apply IH].
Qed.

Lemma join_cons x y l : join "/" (x :: y :: l) = x ++ "/" ++ join "/" (y :: l).
Proof. reflexivity. Qed.

Lemma split_lacks_id c s : lacks c s = true -> Js.split c s = [s].
Proof.
  induction s as [|d s IH]; [reflexivity|]. simpl. intros H.
  apply andb_true_iff in H as [H1 H2].
  apply negb_true_iff in H1. rewrite H1, (IH H2). reflexivity.
Qed.

Lemma split_join l :
  l <> [] -> Forall (fun seg => lacks "/" seg = true) l ->
  Js.split "/" (join "/" l) = l.
Proof.
  induction l as [|x l IH]; [congruence|]. intros _ F.
  inversion F as [|? ? Hx F']; subst.
  destruct l as [|y l].
  - simpl. apply split_lacks_id, Hx.
  - rewrite join_cons. change (x ++ "/" ++ join "/" (y :: l))
      with (x ++ String "/" (join "/" (y :: l))).
    rewrite split_app_sep, (split_lacks_id _ _ Hx), IH by (try discriminate; assumption).
    reflexivity.
Qed.

Lemma filter_all (l : list string) :
  Forall (fun seg => truthy_str seg = true) l ->
  filter (fun seg => truthy_str seg = true) l = l.
Proof.
  induction 1 as [|x l Hx _ IH]; [reflexivity|].
  rewrite filter_cons_True by assumption. now rewrite IH.
Qed.

Lemma component_truthy l :
  Forall component l -> Forall (fun seg => truthy_str seg = true) l.
Proof.
  intros F. eapply Forall_impl; [exact F|].
  intros seg (H & _). now destruct seg.
Qed.

Lemma component_lacks l :
  Forall component l -> Forall (fun seg => lacks "/" seg = true) l.
Proof.
  intros F. eapply Forall_impl; [exact F|].
  intros seg (_ & _ & _ & H). exact H.
Qed.

Lemma segments_root_join l :
  Forall component l -> Path.segments ("/" ++ join "/" l) = l.
Proof.
  intros F. unfold Path.segments.
  destruct l as [|x l]; [reflexivity|].
  change ("/" ++ join "/" (x :: l)) with ("" ++ String "/" (join "/" (x :: l))).
  rewrite split_app_sep.
  rewrite split_join; [|discriminate|now apply component_lacks].
  simpl Js.split. rewrite filter_app.
  rewrite (filter_all (x :: l)) by now apply component_truthy. reflexivity.
Qed.

(** [path.resolve] in a process with an absolute working directory
    returns [/] followed by components joined by [/]. *)
Lemma resolve_normal cwd args :
  Path.isAbsolute cwd = true ->
  exists segs, Path.resolve cwd args = "/" ++ join "/" segs
               /\ Forall component segs.
Proof.
  intros Hc. unfold Path.resolve.
  destruct (resolveLoop_absolute (rev args) cwd "" Hc) as [joined ->].
  eexists. split; [reflexivity|].
  apply normalizeSegs_components; [apply split_lacks|constructor].
Qed.

Lemma within_normal base p :
  Forall component base -> Forall component p ->
  Path.within ("/" ++ join "/" base) ("/" ++ join "/" p) ->
  exists more, p = (base ++ more)%list.
Proof.
  intros Fb Fp [more H].
  rewrite !segments_root_join in H by assumption. eauto.
Qed.

(** A path that [ensureWithinBase] lets through is normalised and lies
    at or below the base directory: it is [/] followed by the
    components of the resolved base and then, possibly, more, none of
    them empty, [.] or [..]. *)
Theorem ensureWithinBase_below_base cwd baseDir candidate fieldName resolved :
  Path.isAbsolute cwd = true ->
  Guards.ensureWithinBase cwd baseDir candidate fieldName = Ok resolved ->
  exists base more,
    Path.resolve cwd [baseDir] = "/" ++ join "/" base
    /\ resolved = "/" ++ join "/" (base ++ more)
    /\ Forall component (base ++ more).
Proof.
  intros Hc H.
  pose proof (GuardFacts.ensureWithinBase_sound _ _ _ _ _ H) as W.
  destruct (resolve_normal cwd [baseDir] Hc) as (base & Eb & Fb).
  assert (R : exists segs, resolved = "/" ++ join "/" segs
                           /\ Forall component segs).
  { unfold Guards.ensureWithinBase in H.
    destruct (String.eqb _ _); [|destruct (negb _); [discriminate|]];
      injection H as <-; apply resolve_normal, Hc. }
  destruct R as (segs & -> & Fs). rewrite Eb in W.
  destruct (within_normal _ _ Fb Fs W) as [more ->].
  exists base, more. auto.
Qed.

(** The same for [ensureDeployPathWithinRoot]: a deploy path it lets
    through is the resolved root followed by further components, with
    no [..] left. *)
Theorem ensureDeployPathWithinRoot_below_root root cwd deployPath resolved :
  Path.isAbsolute cwd = true ->
  Guards.ensureDeployPathWithinRoot root cwd deployPath = Ok resolved ->
  exists base more,
    Path.resolve cwd [root] = "/" ++ join "/" base
    /\ resolved = "/" ++ join "/" (base ++ more)
    /\ Forall component (base ++ more).
Proof.
  intros Hc H.
  pose proof (GuardFacts.ensureDeployPathWithinRoot_sound _ _ _ _ H) as W.
  destruct (resolve_normal cwd [root] Hc) as (base & Eb & Fb).
  assert (R : exists segs, resolved = "/" ++ join "/" segs
                           /\ Forall component segs).
  { unfold Guards.ensureDeployPathWithinRoot in H.
    destruct (String.eqb _ _); [|destruct (negb _); [discriminate|]];
      injection H as <-; apply resolve_normal, Hc. }
  destruct R as (segs & -> & Fs). rewrite Eb in W.
  destruct (within_normal _ _ Fb Fs W) as [more ->].
  exists base, more. auto.
Qed.

End ResolveFacts.

(* --------------------------------------------------------------------- *)
(** ** The worker limit *)

Module WorkerFacts.
Import Engine Workers.

Section Q.
Variable cfg : Config.t.
Variable uuid : nat -> string.
Variable decryptSecret : string -> result string.
Variable spawn : nat -> string -> list string -> SpawnOpts -> ProcOutcome.
Variable processEnv : gmap string string.
Variable random1000 : Z.
Variable toNumber : string -> field Z.

Lemma MAX_CONCURRENT_positive : (1 <= MAX_CONCURRENT cfg)%Z.
Proof. unfold MAX_CONCURRENT, Config.atLeastOne. lia. Qed.

Lemma balanced_push_dispatch w qu adm run job q' started :
  balanced cfg (mkState w qu adm run) ->
  dispatch cfg (mkQueue (queue qu ++ [job])%list (active qu)) = (q', started) ->
  forall w', balanced cfg (mkState w' q' adm (startJob started run)).
Proof.
  unfold balanced, dispatch. simpl. intros (Ha & Hm & Hq) D w'.
  destruct (Z.of_nat (active qu) >=? MAX_CONCURRENT cfg)%Z eqn:G.
  - injection D as <- <-. simpl. apply Z.geb_le in G.
    repeat split; try assumption. intros _. lia.
  - destruct (queue qu) as [|j rest] eqn:E.
    + simpl in D. injection D as <- <-. simpl.
      rewrite Z.geb_leb in G. apply Z.leb_gt in G.
      rewrite length_app. simpl. repeat split; try lia. congruence.
    + assert (Z.of_nat (active qu) = MAX_CONCURRENT cfg) by (apply Hq; discriminate).
      rewrite Z.geb_leb in G. apply Z.leb_gt in G. lia.
Qed.

Lemma balanced_finish w qu adm before job after :
  balanced cfg (mkState w qu adm (before ++ job :: after)%list) ->
  balanced cfg (finish cfg decryptSecret spawn processEnv random1000 toNumber
                  job (mkState w qu adm (before ++ after)%list)).
Proof.
  unfold balanced, finish. simpl. intros (Ha & Hm & Hq).
  rewrite length_app in Ha. simpl in Ha.
  destruct (queue qu) as [|j rest] eqn:E; simpl.
  - rewrite ?E, length_app. repeat split; try lia. congruence.
  - unfold dispatch. simpl. rewrite ?E.
    assert (Hfull : Z.of_nat (active qu) = MAX_CONCURRENT cfg)
      by (apply Hq; discriminate).
    destruct (Z.of_nat (active qu - 1) >=? MAX_CONCURRENT cfg)%Z eqn:G;
      [apply Z.geb_le in G; lia|].
    simpl. rewrite !length_app. simpl. repeat split; try lia.
Qed.

Lemma balanced_step st st' :
  step cfg uuid decryptSecret spawn processEnv random1000 toNumber st st' ->
  balanced cfg st -> balanced cfg st'.
Proof.
  intros S B. destruct S as [pid dry st r st' E|before call after st r st' A C|before job after st R].
  - unfold enter in E.
    destruct (ProjectStore.getProject pid (world st)) as [found w].
    destruct (admissionCheck _ _ _ _); injection E as _ <-; exact B.
  - unfold commit in C. cbn [world q admitted running] in C.
    destruct (DeploymentStore.createDeployment _ _ _ _ _) as [[d|msg] w].
    + destruct (dispatch cfg _) as [q' started] eqn:D.
      injection C as _ <-.
      eapply (balanced_push_dispatch (world st) (q st) (before ++ after)%list
                (running st)); [|exact D].
      exact B.
    + injection C as _ <-. exact B.
  - apply balanced_finish. destruct st as [w qu adm run]. simpl in *.
    subst run. exact B.
Qed.

(** The engine never runs more than [MAX_CONCURRENT] deployments at a
    time, and a job is only left waiting while all workers are busy. *)
Theorem workers_stay_within_limit w st :
  reachable cfg uuid decryptSecret spawn processEnv random1000 toNumber
            (idle w) st ->
  balanced cfg st.
Proof.
  induction 1 as [|st st' _ IH S].
  - unfold balanced, idle. simpl. pose proof MAX_CONCURRENT_positive.
    repeat split; [lia|congruence].
  - exact (balanced_step _ _ S IH).
Qed.

End Q.
End WorkerFacts.

(* --------------------------------------------------------------------- *)
(** ** More on redaction *)

Module RedactMore.
Import Command Redaction RedactFacts.

(** *** Text without [=] *)

Lemma matchAt_needs_equals key s :
  lacks "=" s = true -> matchAt key s = None.
Proof.
  intros L. destruct (matchAt key s) as [[[m tok] rest]|] eqn:E; [|reflexivity].
  apply matchAt_spec in E as (k' & _ & -> & -> & _).
  rewrite !lacks_app in L. simpl in L.
  rewrite andb_false_r in L. discriminate.
Qed.

Lemma replaceScan_without_equals key tpl before text :
  lacks "=" text = true -> replaceScan key tpl before 0 text = text.
Proof.
  revert before. induction text as [|c text IH]; intros before L;
    [reflexivity|].
  simpl. rewrite (matchAt_needs_equals key _ L).
  simpl in L. apply andb_true_iff in L as [_ L]. now rewrite IH.
Qed.

(** Whatever the keys, a text that holds no [=] is written as it is. *)
Theorem text_without_equals_is_unchanged (text : string) (keys : list string) :
  lacks "=" text = true -> write text keys = text.
Proof.
  intros L. unfold write, redactText.
  induction keys as [|k keys IH]; [reflexivity|]. simpl.
  destruct (truthy_str k); [|exact IH].
  unfold redactOne. rewrite (replaceScan_without_equals _ _ _ _ L). exact IH.
Qed.

(** *** What a pass replaces *)

(** An assignment at the start of the text, its key written in any
    case and its value a token that ends at white space or at the end,
    comes out as the key as configured followed by the mask. *)
Theorem assignment_is_masked (key written value rest : string) :
  plainKey key = true -> ciEq key written = true ->
  value <> "" -> noSpace value = true -> atBoundary rest = true ->
  write (written ++ "=" ++ value ++ rest) [key]
  = key ++ "=[redacted]" ++ write rest [key].
Proof.
  intros P C V N B. unfold write, redactText. simpl.
  rewrite (plainKey_truthy _ P).
  assert (M : matchAt key (written ++ "=" ++ value ++ rest)
              = Some (written ++ String "=" value, value, rest)).
  { apply matchAt_spec. exists written. repeat split; try assumption.
    rewrite sapp_assoc. reflexivity. }
  rewrite (redactOne_hit key P _ _ _ _ M). unfold mask.
  now rewrite sapp_assoc.
Qed.

(** *** A second pass changes nothing *)

Section Again.
Variable key : string.
Hypothesis plain : plainKey key = true.

Lemma assigns_length w tok :
  assigns key w tok ->
  exists k', w = k' ++ String "=" tok
             /\ String.length k' = String.length key
             /\ lacks "=" k' = true.
Proof.
  intros (k' & C & -> & _). exists k'. split; [reflexivity|].
  split; [apply ciEq_length, C|].
  destruct (plain_parts key plain) as (_ & _ & L & _).
  now rewrite (ciEq_lacks _ _ C).
Qed.

Lemma mask_assigns : assigns key (mask key) "[redacted]".
Proof.
  exists key. split; [|split; [reflexivity|discriminate]].
  clear plain. induction key as [|c k IH]; [reflexivity|]. simpl.
  unfold ci_eqb. now rewrite Ascii.eqb_refl, IH.
Qed.

(** In front of the mask no assignment of the key starts, unless one
    started there before the pass. *)
Lemma masked_word_front p2 s0 tok :
  p2 <> "" -> s0 <> "" -> assigns key (p2 ++ mask key) tok ->
  exists y, assigns key (p2 ++ s0) (y ++ s0).
Proof.
  intros Hp Hs A.
  destruct (assigns_length _ _ A) as (k' & E & Hlen & Lk).
  destruct (plain_parts key plain) as (_ & _ & L & _).
  destruct (first_equals p2) as [Lp|(x & y & -> & Lx)].
  - exfalso. unfold mask in E. rewrite <- sapp_assoc in E.
    change ((p2 ++ key) ++ "=[redacted]")
      with ((p2 ++ key) ++ String "=" "[redacted]") in E.
    apply first_equals_unique in E as [E _];
      [|rewrite lacks_app, Lp, L; reflexivity|assumption].
    apply (f_equal String.length) in E. rewrite slength_app in E.
    destruct p2; [congruence|simpl in E; lia].
  - exists y. destruct A as (k1 & C & E1 & _).
    rewrite !sapp_assoc, sapp_cons in E1.
    apply first_equals_unique in E1 as [-> _];
      [|assumption|now rewrite (ciEq_lacks _ _ C)].
    exists k1. split; [exact C|]. split.
    + rewrite sapp_assoc, sapp_cons. reflexivity.
    + intros H. apply sapp_eq_nil in H as [_ H]. contradiction.
Qed.

Lemma redactOne_masked_word p s0 :
  noSpace p = true -> s0 <> "" ->
  (forall p1 p2 tok, p = p1 ++ p2 -> p2 <> "" -> ~ assigns key (p2 ++ s0) tok) ->
  redactOne key (p ++ mask key) = p ++ mask key.
Proof.
  intros Hp Hs N. induction p as [|c p IH].
  - change ("" ++ mask key) with (mask key).
    pose proof mask_assigns as A.
    apply matchAt_word_alone in A; [|assumption|apply mask_noSpace, plain].
    rewrite (redactOne_hit key plain _ _ _ _ A), redactOne_nil.
    apply sapp_nil_r.
  - simpl in Hp. apply andb_true_iff in Hp as [Hc Hp].
    assert (M : matchAt key (String c p ++ mask key) = None).
    { rewrite <- (sapp_nil_r (String c p ++ mask key)).
      apply matchAt_word_none; [assumption| |reflexivity|].
      - rewrite noSpace_app. simpl. rewrite Hc, Hp. apply mask_noSpace, plain.
      - intros tok A.
        destruct (masked_word_front (String c p) s0 tok) as [y A'];
          [discriminate|assumption|assumption|].
        apply (N "" (String c p) (y ++ s0) eq_refl); [discriminate|exact A']. }
    rewrite sapp_cons in M |- *. rewrite (redactOne_miss key plain _ _ M).
    f_equal. apply IH; [assumption|].
    intros p1 p2 tok -> Hp2. apply (N (String c p1) p2 tok); [reflexivity|assumption].
Qed.

Lemma redactOne_word_again w :
  noSpace w = true -> redactOne key (redactOne key w) = redactOne key w.
Proof.
  intros Hw.
  destruct (redactOne_word key plain w Hw)
    as [[E _]|(p & s0 & tok & -> & A & E & N)].
  - now rewrite E.
  - rewrite E. rewrite noSpace_app in Hw. apply andb_true_iff in Hw as [Hp _].
    apply (redactOne_masked_word p s0 Hp (assigns_nonempty _ _ _ A) N).
Qed.

Lemma redactOne_again text :
  redactOne key (redactOne key text) = redactOne key text.
Proof.
  induction text as [|c s Hc IH|w r _ Hw Hr IH] using word_ind.
  - reflexivity.
  - rewrite !(redactOne_space key plain _ _ Hc). now rewrite IH.
  - rewrite (redactOne_app key plain _ _ Hw Hr).
    rewrite (redactOne_app key plain);
      [|apply redactOne_noSpace; assumption
       |apply redactOne_boundary; assumption].
    now rewrite redactOne_word_again, IH.
Qed.

End Again.

(** Redacting a redacted text for the same key changes nothing. *)
Theorem redaction_is_idempotent (text key : string) :
  plainKey key = true ->
  write (write text [key]) [key] = write text [key].
Proof.
  intros P. unfold write, redactText. simpl.
  rewrite (plainKey_truthy _ P). apply redactOne_again, P.
Qed.

End RedactMore.

(* --------------------------------------------------------------------- *)
(** ** Environment maps and the project store *)

Module EnvFacts.
Import EnvBuilder EnvVocabulary.

Section S.
Variable decryptSecret : string -> result string.

Lemma covered_assign m k v :
  covered m ->
  covered (mkMaps (plainEnv m) (assign false (secretEnv m) k v)
                  (secretKeys m ++ [k])%list).
Proof.
  intros C k' H. simpl in *. apply in_app_iff. unfold assign in H.
  destruct (isProto k && negb false); [left; now apply C|].
  destruct (decide (k = k')) as [->|Hne]; [right; now left|].
  rewrite lookup_insert_ne in H by assumption. left. now apply C.
Qed.

Lemma buildLoop_covered entries : forall acc bare maps,
  buildLoop decryptSecret entries acc bare = Ok maps ->
  covered acc -> covered maps.
Proof.
  induction entries as [|[e|] rest IH]; intros acc bare maps H C; simpl in H.
  - now injection H as <-.
  - destruct (negb (truthyS (e_key e))); [now apply (IH acc bare)|].
    destruct (e_isSecret e).
    + destruct (truthyS (e_encryptedValue e)).
      * destruct (e_encryptedValue e) as [| |blob];
          try now apply (IH acc bare).
        destruct (decryptSecret blob) as [v|msg]; [|discriminate].
        eapply IH; [exact H|]. now apply covered_assign.
      * destruct (truthyS (e_value e)); [|discriminate].
        destruct (e_value e) as [| |v]; try now apply (IH acc bare).
        eapply IH; [exact H|]. now apply covered_assign.
    + destruct (e_value e) as [| |v].
      * now apply (IH acc bare).
      * destruct (isProto (keyOf e) && negb bare);
          (eapply IH; [exact H|]); exact C.
      * eapply IH; [exact H|]. exact C.
  - now apply (IH acc bare).
Qed.

(** Every variable [buildEnvMaps] puts into the secret environment has
    its name among the keys to redact. *)
Theorem secret_values_have_redact_keys entries maps k v :
  buildEnvMaps decryptSecret entries = Ok maps ->
  secretEnv maps !! k = Some v ->
  In k (secretKeys maps).
Proof.
  intros H Hk. eapply buildLoop_covered; [exact H| |now exists v].
  intros k' [x Hx]. simpl in Hx. rewrite lookup_empty in Hx. discriminate.
Qed.

End S.
End EnvFacts.

Module ProjectStoreFacts.
Import ProjectStore StoreVocabulary StoreFacts.

Lemma normalizeEntry_again entry e :
  normalizeEntry entry = Some e -> normalizeEntry (Some e) = Some e.
Proof.
  destruct entry as [x|]; [|discriminate]. simpl.
  destruct (truthyS (e_key x)) eqn:K; simpl; [|discriminate].
  destruct (e_isSecret x).
  - intros [= <-]. simpl. rewrite K. simpl. f_equal. f_equal.
    unfold orS. destruct (truthyS (e_encryptedValue x)) eqn:T;
      simpl; [now rewrite T|reflexivity].
  - intros [= <-]. simpl. rewrite K. simpl. f_equal. f_equal.
    now destruct (e_value x).
Qed.

Lemma omap_fixed (l : list EnvEntry) :
  Forall (fun e => normalizeEntry (Some e) = Some e) l ->
  omap normalizeEntry (map Some l) = l.
Proof.
  induction 1 as [|e l He _ IH]; [reflexivity|].
  cbn [map omap list_omap]. rewrite He. now rewrite IH.
Qed.

Lemma omap_normalized entries :
  Forall (fun e => normalizeEntry (Some e) = Some e)
         (omap normalizeEntry entries).
Proof.
  induction entries as [|x entries IH]; [constructor|].
  cbn [omap list_omap]. destruct (normalizeEntry x) as [e|] eqn:E; [|exact IH].
  constructor; [|exact IH]. exact (normalizeEntry_again _ _ E).
Qed.

(** An environment stored as an array reads back as it was read. *)
Lemma normalizeStoredEnv_again entries :
  normalizeStoredEnv (asArray (normalizeStoredEnv (EnvArray entries)))
  = normalizeStoredEnv (EnvArray entries).
Proof. apply omap_fixed, omap_normalized. Qed.

Lemma found_normal projectId ps ex :
  found projectId ps = Some ex ->
  normalizeStoredEnv (copyEnv (env ex)) = normalizeStoredEnv (env ex)
  /\ normalizeStoredEnv (asArray (normalizeStoredEnv (copyEnv (env ex))))
     = normalizeStoredEnv (env ex).
Proof.
  unfold found. destruct (ps !! projectId) as [[| | |d]|]; try discriminate;
    intros [= <-]; simpl.
  - split; reflexivity.
  - split; [reflexivity|].
    rewrite omap_fixed by apply omap_normalized. reflexivity.
Qed.

Lemma orS_again (o d : field string) : orS (orS o d) d = orS o d.
Proof.
  unfold orS. destruct (truthyS o) eqn:T; [now rewrite T|].
  now destruct (truthyS d).
Qed.

(** [updateProject] as the engine calls it: for a project that cannot be
    read it throws and writes nothing; otherwise it returns the project
    with the updates applied and everything else kept, touches no other
    project, no deployment and nothing on the host, and [getProject]
    then returns the same project again. *)
Theorem updateProject_round_trip projectId updates w :
  match found projectId (projects w) with
  | None => updateProject projectId updates w = (Throw "Project not found", w)
  | Some existing =>
      exists next w',
        updateProject projectId updates w = (Ok next, w')
        /\ updatedFrom existing updates next
        /\ deployments w' = deployments w /\ ext w' = ext w
        /\ (forall other, other <> projectId ->
              projects w' !! other = projects w !! other)
        /\ exists again,
             getProject projectId w' = (Ok (Some again), w')
             /\ p_id again = Val projectId
             /\ updatedFrom existing updates again
  end.
Proof.
  destruct (found projectId (projects w)) as [ex|] eqn:F.
  - destruct (found_normal _ _ _ F) as (He & He2).
    unfold updateProject, mbind, se_bind, bind.
    rewrite getProject_spec, F. cbn.
    eexists _, _. split; [reflexivity|]. split.
    { unfold updatedFrom. cbn. rewrite He. repeat split; reflexivity. }
    split; [reflexivity|]. split; [reflexivity|]. split.
    { intros other Hne. cbn. now rewrite lookup_insert_ne. }
    eexists. split.
    { rewrite getProject_spec. unfold found. cbn.
      rewrite lookup_insert_eq. reflexivity. }
    split; [reflexivity|].
    unfold updatedFrom. cbn. rewrite orS_again.
    repeat split; try reflexivity; [now destruct (templateId ex)|].
    exact He2.
  - unfold updateProject, mbind, se_bind, bind.
    rewrite getProject_spec, F. reflexivity.
Qed.

End ProjectStoreFacts.

(* --------------------------------------------------------------------- *)
(** ** A whole run *)

Module RunFacts.
Import Engine StoreFacts PreludeFacts StepFacts.

Section S.
Variable cfg : Config.t.
Variable uuid : nat -> string.
Variable decryptSecret : string -> result string.
Variable spawn : nat -> string -> list string -> SpawnOpts -> ProcOutcome.
Variable processEnv : gmap string string.
Variable random1000 : Z.
Variable toNumber : string -> field Z.


(** *** The port of a node project *)

Lemma settlePort_node pr dry env0 pr1 env2 rp :
  (0 <= random1000 < 1000)%Z ->
  runtimeOf pr = "node" ->
  settlePort random1000 toNumber pr dry env0 = (pr1, env2, rp) ->
  truthyZ rp = true
  /\ env2 !! "PORT" = Some (NginxManager.portText rp)
  /\ rp = orZ (runtimePort pr) (orZ (port pr) (Val (4000 + random1000)%Z)).
Proof.
  intros Hr Hn. unfold settlePort. rewrite Hn. simpl String.eqb. cbv iota.
  set (p := orZ (runtimePort pr) (orZ (port pr) (Val (4000 + random1000)%Z))).
  assert (Tp : truthyZ p = true).
  { unfold p, orZ. destruct (truthyZ (runtimePort pr)) eqn:T1; [exact T1|].
    destruct (truthyZ (port pr)) eqn:T2; [exact T2|].
    simpl. apply negb_true_iff, Z.eqb_neq. lia. }
  rewrite lookup_insert_eq, Tp. simpl negb. simpl andb. cbv iota.
  unfold portString.
  destruct (negb (truthyZ (runtimePort pr)) && negb dry) eqn:A.
  - simpl runtimePort. rewrite Tp. intros [= <- <- <-].
    rewrite lookup_insert_eq. auto.
  - destruct (truthyZ (runtimePort pr)) eqn:T1.
    + intros [= <- <- <-]. rewrite lookup_insert_eq.
      unfold p, orZ. rewrite T1. auto.
    + destruct (truthyZ (port pr)) eqn:T2.
      * intros [= <- <- <-]. rewrite lookup_insert_eq.
        unfold p, orZ. rewrite T1, T2. auto.
      * intros [= <- <- <-]. rewrite lookup_insert_eq. auto.
Qed.

(** For a project with the [node] runtime, [runDeployment] enters its
    steps with a port that is set, and the [PORT] its commands see is
    the port nginx will proxy to. *)
Theorem node_port_is_set_and_shared job w c w' :
  (0 <= random1000 < 1000)%Z ->
  prelude cfg decryptSecret processEnv random1000 toNumber job w = (Ok c, w') ->
  c_runtimeType c = "node" ->
  truthyZ (c_runtimePort c) = true
  /\ c_env c !! "PORT" = Some (NginxManager.portText (c_runtimePort c)).
Proof.
  intros Hr. unfold Engine.prelude. unfold mbind, se_bind, bind.
  destruct (liftExt _ w) as [[logStream|?] w1]; [|discriminate].
  destruct (liftExt now w1) as [[t|?] w2]; [|discriminate].
  destruct (DeploymentStore.updateDeployment _ _ w2) as [[u|?] w3]; [|discriminate].
  rewrite getProject_spec.
  destruct (found _ _) as [pr|]; [|discriminate].
  destruct (deployPath pr) as [| |dp]; try discriminate.
  unfold liftR.
  destruct (ensureDeployPathWithinRoot cfg dp) as [safe|?]; [|discriminate].
  destruct (negb (ownerIsAdmin pr) && negb _); [discriminate|].
  destruct (EnvBuilder.buildEnvMaps _ _) as [maps|?]; [|discriminate].
  destruct (settlePort _ _ _ _ _) as [[pr1 env2] rp] eqn:SP.
  intros [= <- <-]. simpl. intros Hn.
  destruct (settlePort_node _ _ _ _ _ _ Hr Hn SP) as (T & E & _). auto.
Qed.

(** *** How a run ends *)

Lemma updateDeployment_returns id upd w :
  exists r w', DeploymentStore.updateDeployment id upd w = (Ok r, w')
               /\ ext w' = ext w /\ projects w' = projects w.
Proof.
  unfold DeploymentStore.updateDeployment, DeploymentStore.getDeployment,
    DeploymentStore.putDeployment, mbind, se_bind, bind, gets, modify.
  destruct (deployments w !! id); simpl; eauto.
Qed.

Lemma onFailure_returns c msg w :
  exists w', onFailure c msg w = (Ok tt, w').
Proof.
  unfold onFailure, mbind, se_bind, bind.
  destruct (liftExt now w) as [[t|?] w1] eqn:E1;
    [|unfold liftExt, now in E1; discriminate].
  destruct (updateDeployment_returns (j_deploymentId (c_job c))
              (mkUpdate (Some Failed) Absent (Val t) None Absent (Val msg)) w1)
    as (r & w2 & -> & _).
  unfold liftExt, logWrite. destruct (c_logStream c); simpl; eauto.
Qed.

(** Whatever happens in the steps, the [try] block itself returns. *)
Lemma tryBlock_returns c w :
  exists w', tryBlock cfg spawn c w = (Ok tt, w').
Proof.
  unfold tryBlock, tryCatch.
  match goal with
  | |- context [match ?m w with _ => _ end] =>
      destruct (m w) as [[[]|msg] w1]
  end; [eauto|apply onFailure_returns].
Qed.


Lemma updateDeployment_spec id upd w d :
  deployments w !! id = Some d ->
  DeploymentStore.updateDeployment id upd w
  = (Ok (Some (DeploymentStore.applyUpdate d upd)),
     mkWorld (projects w)
             (<[id := DeploymentStore.applyUpdate d upd]> (deployments w))
             (ext w)).
Proof.
  intros Hd.
  unfold DeploymentStore.updateDeployment, DeploymentStore.getDeployment,
    DeploymentStore.putDeployment, mbind, se_bind, bind, gets, modify.
  now rewrite Hd.
Qed.

Lemma onFailure_spec c msg w d :
  deployments w !! j_deploymentId (c_job c) = Some d ->
  exists w' d',
    onFailure c msg w = (Ok tt, w')
    /\ deployments w' !! j_deploymentId (c_job c) = Some d'
    /\ status d' = Failed
    /\ finishedAt d' = Val (clock (ext w))
    /\ error d' = Val msg
    /\ steps d' = steps d.
Proof.
  intros Hd. unfold onFailure, mbind, se_bind, bind.
  unfold liftExt at 1, now at 1. cbn [ext projects deployments].
  rewrite (updateDeployment_spec _ _ _ d) by exact Hd.
  unfold liftExt, logWrite.
  destruct (c_logStream c); cbn; eexists _, _;
    (split; [reflexivity|]); cbn; rewrite lookup_insert_eq;
    (split; [reflexivity|]); auto.
Qed.

Lemma updateProject_deployments projectId upd w r w' :
  ProjectStore.updateProject projectId upd w = (r, w') ->
  deployments w' = deployments w.
Proof.
  unfold ProjectStore.updateProject, mbind, se_bind, bind.
  rewrite getProject_spec.
  destruct (found projectId (projects w)); intros [= _ <-]; reflexivity.
Qed.

Lemma finalize_spec c l w d r w' :
  deployments w !! j_deploymentId (c_job c) = Some d ->
  finalize c l w = (r, w') ->
  exists d',
    deployments w' !! j_deploymentId (c_job c) = Some d'
    /\ status d' = Success
    /\ finishedAt d' = Val (clock (ext w))
    /\ steps d' = steps d.
Proof.
  intros Hd. unfold finalize, mbind, se_bind, bind.
  unfold liftExt at 1, now at 1. cbn [ext projects deployments].
  rewrite (updateDeployment_spec _ _ _ d) by exact Hd.
  match goal with
  | |- context [ProjectStore.updateProject ?p ?u ?w0] =>
      destruct (ProjectStore.updateProject p u w0) as [[next|msg] w1] eqn:U
  end; apply updateProject_deployments in U; cbn in U;
    intros [= _ <-]; rewrite U, lookup_insert_eq;
    eexists; (split; [reflexivity|]); auto.
Qed.

(** Once [runDeployment] has entered its [try] block it returns
    normally, and it leaves the record finished: in status [success] or
    [failed], with [finishedAt] set. *)
Theorem run_ends_finished job w d c w0 :
  deployments w !! j_deploymentId job = Some d ->
  prelude cfg decryptSecret processEnv random1000 toNumber job w = (Ok c, w0) ->
  exists w' d' t,
    runDeployment cfg decryptSecret spawn processEnv random1000 toNumber job w
    = (Ok tt, w')
    /\ deployments w' !! j_deploymentId job = Some d'
    /\ (status d' = Success \/ status d' = Failed)
    /\ finishedAt d' = Val t.
Proof.
  intros Hd Hp.
  destruct (keepsSteps_prelude cfg decryptSecret processEnv random1000 toNumber
              (j_deploymentId job) job _ _ _ _ Hp Hd) as (d0 & Hd0 & _).
  destruct (prelude_ok _ _ _ _ _ _ _ _ _ Hp) as (pr & port' & _ & J & _).
  unfold runDeployment, mbind, se_bind, bind. rewrite Hp.
  unfold tryBlock, tryCatch, mbind, se_bind, bind. rewrite J.
  destruct (runSteps (j_deploymentId job) (stepList cfg spawn c)
                     initialLocals w0) as [[l|msg] w1] eqn:R.
  - destruct (runSteps_spec _ _ _ _ _ _ _
                (fun n f l0 Hin => keepsSteps_stepList cfg spawn _ c n f l0 Hin)
                stepNames_NoDup Hd0 R) as (d1 & Hd1 & _).
    rewrite <- J in Hd1.
    destruct (finalize c l w1) as [[[]|msg] w2] eqn:F.
    + destruct (finalize_spec _ _ _ _ _ _ Hd1 F) as (d2 & Hd2 & S2 & T2 & _).
      rewrite J in Hd2. eauto 10.
    + destruct (finalize_spec _ _ _ _ _ _ Hd1 F) as (d2 & Hd2 & _).
      destruct (onFailure_spec c msg w2 d2 Hd2)
        as (w3 & d3 & -> & Hd3 & S3 & T3 & _).
      rewrite J in Hd3. eauto 10.
  - destruct (runSteps_spec _ _ _ _ _ _ _
                (fun n f l0 Hin => keepsSteps_stepList cfg spawn _ c n f l0 Hin)
                stepNames_NoDup Hd0 R) as (d1 & Hd1 & _).
    rewrite <- J in Hd1.
    destruct (onFailure_spec c msg w1 d1 Hd1)
      as (w3 & d3 & -> & Hd3 & S3 & T3 & _).
    rewrite J in Hd3. eauto 10.
Qed.

(** When [runDeployment] rejects, it does so before its [try] block:
    the record has been set to [running] and is left there, with no
    step, finish time or error recorded. *)
Theorem rejected_run_stays_running job w d msg w' :
  deployments w !! j_deploymentId job = Some d ->
  (forall content,
      fs (ext w) !! Path.dirname (DeploymentStore.getLogPath cfg
                                    (j_projectId job) (j_deploymentId job))
      <> Some (File content)) ->
  runDeployment cfg decryptSecret spawn processEnv random1000 toNumber job w
  = (Throw msg, w') ->
  exists d',
    deployments w' !! j_deploymentId job = Some d'
    /\ status d' = Running
    /\ steps d' = steps d
    /\ finishedAt d' = finishedAt d
    /\ error d' = error d.
Proof.
  intros Hd Hlog. unfold runDeployment. unfold mbind at 1, se_bind at 1, bind at 1.
  destruct (prelude cfg decryptSecret processEnv random1000 toNumber job w)
    as [[c|msg0] w0] eqn:Hp.
  { destruct (tryBlock_returns c w0) as [w1 ->]. discriminate. }
  intros [= -> ->]. revert Hp.
  unfold prelude. unfold mbind at 1, se_bind at 1, bind at 1.
  unfold liftExt at 1, writeLog, mbind, se_bind, bind, mkdirp.
  destruct (fs (ext w) !! Path.dirname _) as [[|content|]|] eqn:E;
    try (now destruct (Hlog content)); cbn.
  all: rewrite (updateDeployment_spec _ _ _ d) by exact Hd.
  all: rewrite getProject_spec; cbn [projects].
  all: destruct (found (j_projectId job) (projects w)) as [pr|];
    [|intros [= <- <-]; cbn; rewrite lookup_insert_eq; eauto 10].
  all: destruct (deployPath pr) as [| |dp];
    try (intros [= <- <-]; cbn; rewrite lookup_insert_eq; eauto 10).
  all: unfold liftR;
    destruct (ensureDeployPathWithinRoot cfg dp) as [safe|?];
    [|intros [= <- <-]; cbn; rewrite lookup_insert_eq; eauto 10].
  all: destruct (negb (ownerIsAdmin pr) && negb _);
    [intros [= <- <-]; cbn; rewrite lookup_insert_eq; eauto 10|].
  all: destruct (EnvBuilder.buildEnvMaps _ _) as [maps|?];
    [|intros [= <- <-]; cbn; rewrite lookup_insert_eq; eauto 10].
  all: destruct (settlePort _ _ _ _ _) as [[pr1 env2] rp]; discriminate.
Qed.

End S.
End RunFacts.

(* --------------------------------------------------------------------- *)
(** ** What a dry run leaves alone *)

Module QuietFacts.
Import Frames Engine StoreFacts.

Lemma quiet_ret {A} (a : A) : quiet (mret a).
Proof. intros e r e' [= _ <-]. auto. Qed.

Lemma quiet_throw {A} msg : quiet (@throw Ext A msg).
Proof. intros e r e' [= _ <-]. auto. Qed.

Lemma quiet_liftR {A} (x : result A) : quiet (liftR x).
Proof. intros e r e' [= _ <-]. auto. Qed.

Lemma quiet_gets {A} (f : Ext -> A) : quiet (gets f).
Proof. intros e r e' [= _ <-]. auto. Qed.

Lemma quiet_now : quiet now.
Proof. intros e r e' [= _ <-]. auto. Qed.

Lemma quiet_logWrite stream text : quiet (logWrite stream text).
Proof. destruct stream; intros e r e' [= _ <-]; auto. Qed.

Lemma quiet_readlink p : quiet (readlink p).
Proof.
  intros e r e'. unfold readlink.
  destruct (fs e !! p) as [[| |]|]; intros [= _ <-]; auto.
Qed.

Lemma quiet_bind {A B} (m : ExtM A) (k : A -> ExtM B) :
  quiet m -> (forall a, quiet (k a)) -> quiet (m ≫= k).
Proof.
  intros Hm Hk e r e' H. unfold mbind, se_bind, bind in H.
  destruct (m e) as [[a|msg] e1] eqn:E.
  - destruct (Hm _ _ _ E) as [F1 T1]. destruct (Hk a _ _ _ H) as [F2 T2].
    split; congruence.
  - injection H as _ <-. exact (Hm _ _ _ E).
Qed.

Lemma quiet_tryCatch {A} (m : ExtM A) (h : string -> ExtM A) :
  quiet m -> (forall msg, quiet (h msg)) -> quiet (tryCatch m h).
Proof.
  intros Hm Hh e r e' H. unfold tryCatch in H.
  destruct (m e) as [[a|msg] e1] eqn:E.
  - injection H as _ <-. exact (Hm _ _ _ E).
  - destruct (Hm _ _ _ E) as [F1 T1]. destruct (Hh msg _ _ _ H) as [F2 T2].
    split; congruence.
Qed.

(** A dry [runCommand] only writes its line to the log. *)
Lemma quiet_runCommand_dry spawn cmd args options logStream :
  quiet (runCommand spawn cmd args options logStream true).
Proof.
  unfold runCommand. apply quiet_bind; [apply quiet_logWrite|].
  intros _. apply quiet_ret.
Qed.

Lemma quiet_runShellCommand_dry spawn script options logStream :
  quiet (runShellCommand spawn script options logStream true).
Proof. apply quiet_runCommand_dry. Qed.

Ltac quiet :=
  repeat first
    [ apply quiet_ret | apply quiet_throw | apply quiet_liftR
    | apply quiet_gets | apply quiet_now | apply quiet_logWrite
    | apply quiet_readlink | apply quiet_runCommand_dry
    | apply quiet_runShellCommand_dry
    | apply quiet_bind; [|intros ?]
    | apply quiet_tryCatch; [|intros ?]
    | match goal with
      | |- quiet (if ?b then _ else _) => destruct b
      | |- quiet (match ?x with _ => _ end) => destruct x
      end ].

Lemma quietW_liftExt {A} (m : ExtM A) : quiet m -> quietW (liftExt m).
Proof.
  intros Hm w r w' H. unfold liftExt in H.
  destruct (m (ext w)) as [r0 e0] eqn:E. injection H as _ <-.
  exact (Hm _ _ _ E).
Qed.

Lemma quietW_ret {A} (a : A) : quietW (mret a).
Proof. intros w r w' [= _ <-]. auto. Qed.

Lemma quietW_throw {A} msg : quietW (@throw World A msg).
Proof. intros w r w' [= _ <-]. auto. Qed.

Lemma quietW_liftR {A} (x : result A) : quietW (liftR x).
Proof. intros w r w' [= _ <-]. auto. Qed.

Lemma quietW_bind {A B} (m : M A) (k : A -> M B) :
  quietW m -> (forall a, quietW (k a)) -> quietW (m ≫= k).
Proof.
  intros Hm Hk w r w' H. unfold mbind, se_bind, bind in H.
  destruct (m w) as [[a|msg] w1] eqn:E.
  - destruct (Hm _ _ _ E) as [F1 T1]. destruct (Hk a _ _ _ H) as [F2 T2].
    split; congruence.
  - injection H as _ <-. exact (Hm _ _ _ E).
Qed.

Lemma quietW_tryCatch {A} (m : M A) (h : string -> M A) :
  quietW m -> (forall msg, quietW (h msg)) -> quietW (tryCatch m h).
Proof.
  intros Hm Hh w r w' H. unfold tryCatch in H.
  destruct (m w) as [[a|msg] w1] eqn:E.
  - injection H as _ <-. exact (Hm _ _ _ E).
  - destruct (Hm _ _ _ E) as [F1 T1]. destruct (Hh msg _ _ _ H) as [F2 T2].
    split; congruence.
Qed.

Lemma quietW_updateDeployment id upd :
  quietW (DeploymentStore.updateDeployment id upd).
Proof.
  intros w r w'.
  unfold DeploymentStore.updateDeployment, DeploymentStore.getDeployment,
    DeploymentStore.putDeployment, mbind, se_bind, bind, gets, modify.
  destruct (deployments w !! id); intros [= _ <-]; auto.
Qed.

Lemma quietW_appendStep id name data :
  quietW (DeploymentStore.appendStep id name data).
Proof.
  intros w r w'.
  unfold DeploymentStore.appendStep, DeploymentStore.getDeployment,
    mbind, se_bind, bind, gets.
  destruct (deployments w !! id); [apply quietW_updateDeployment|].
  intros [= _ <-]. auto.
Qed.

Lemma quietW_getProject projectId : quietW (ProjectStore.getProject projectId).
Proof. intros w r w'. rewrite getProject_spec. intros [= _ <-]. auto. Qed.

Lemma quietW_updateProject projectId upd :
  quietW (ProjectStore.updateProject projectId upd).
Proof.
  intros w r w'. unfold ProjectStore.updateProject, mbind, se_bind, bind.
  rewrite getProject_spec.
  destruct (found projectId (projects w)); intros [= _ <-]; auto.
Qed.

Lemma quietW_runStep {A} id name (fn : M A) :
  quietW fn -> quietW (runStep id name fn).
Proof.
  intros Hfn. unfold runStep.
  apply quietW_bind; [apply quietW_liftExt, quiet_now|]. intros t0.
  apply quietW_bind; [apply quietW_appendStep|]. intros _.
  apply quietW_tryCatch.
  - apply quietW_bind; [exact Hfn|]. intros a.
    apply quietW_bind; [apply quietW_liftExt, quiet_now|]. intros t1.
    apply quietW_bind; [apply quietW_appendStep|]. intros _.
    apply quietW_ret.
  - intros msg.
    apply quietW_bind; [apply quietW_liftExt, quiet_now|]. intros t1.
    apply quietW_bind; [apply quietW_appendStep|]. intros _.
    apply quietW_throw.
Qed.

Lemma quietW_runSteps id todo : forall l,
  (forall name fn l0, In (name, fn) todo -> quietW (fn l0)) ->
  quietW (runSteps id todo l).
Proof.
  induction todo as [|[name fn] rest IH]; intros l H; simpl.
  - apply quietW_ret.
  - apply quietW_bind.
    + apply quietW_runStep, (H name fn l). now left.
    + intros l1. apply IH. intros n f l0 Hin. apply (H n f l0). now right.
Qed.

Lemma logsTo_ret {A} s (a : A) : logsTo s (mret a).
Proof. intros e r e' [= _ <-]. auto. Qed.

Lemma logsTo_throw {A} s msg : logsTo s (@throw Ext A msg).
Proof. intros e r e' [= _ <-]. auto. Qed.

Lemma logsTo_liftR {A} s (x : result A) : logsTo s (liftR x).
Proof. intros e r e' [= _ <-]. auto. Qed.

Lemma logsTo_gets {A} s (f : Ext -> A) : logsTo s (gets f).
Proof. intros e r e' [= _ <-]. auto. Qed.

Lemma logsTo_now s : logsTo s now.
Proof. intros e r e' [= _ <-]. auto. Qed.

Lemma logsTo_readlink s p : logsTo s (readlink p).
Proof.
  intros e r e'. unfold readlink.
  destruct (fs e !! p) as [[| |]|]; intros [= _ <-]; auto.
Qed.

Lemma logsTo_logWrite s text : logsTo s (logWrite s text).
Proof.
  destruct s as [path|]; intros e r e' [= _ <-] p N; [|reflexivity].
  cbn. apply lookup_insert_ne. congruence.
Qed.

Lemma logsTo_mkdirp s p : logsTo s (mkdirp p).
Proof.
  intros e r e'. unfold mkdirp, setFs, modify.
  destruct (fs e !! p) as [[| |]|]; intros [= _ <-]; auto.
Qed.

Lemma logsTo_bind {A B} s (m : ExtM A) (k : A -> ExtM B) :
  logsTo s m -> (forall a, logsTo s (k a)) -> logsTo s (m ≫= k).
Proof.
  intros Hm Hk e r e' H p N. unfold mbind, se_bind, bind in H.
  destruct (m e) as [[a|msg] e1] eqn:E.
  - rewrite (Hk a _ _ _ H p N). exact (Hm _ _ _ E p N).
  - injection H as _ <-. exact (Hm _ _ _ E p N).
Qed.

Lemma logsTo_tryCatch {A} s (m : ExtM A) (h : string -> ExtM A) :
  logsTo s m -> (forall msg, logsTo s (h msg)) -> logsTo s (tryCatch m h).
Proof.
  intros Hm Hh e r e' H p N. unfold tryCatch in H.
  destruct (m e) as [[a|msg] e1] eqn:E.
  - injection H as _ <-. exact (Hm _ _ _ E p N).
  - rewrite (Hh msg _ _ _ H p N). exact (Hm _ _ _ E p N).
Qed.

Lemma logsTo_runCommand_dry spawn cmd args options s :
  logsTo s (runCommand spawn cmd args options s true).
Proof.
  unfold runCommand. apply logsTo_bind; [apply logsTo_logWrite|].
  intros _. apply logsTo_ret.
Qed.

Lemma logsTo_runShellCommand_dry spawn script options s :
  logsTo s (runShellCommand spawn script options s true).
Proof. apply logsTo_runCommand_dry. Qed.

Ltac logsTo :=
  repeat first
    [ apply logsTo_ret | apply logsTo_throw | apply logsTo_liftR
    | apply logsTo_gets | apply logsTo_now | apply logsTo_logWrite
    | apply logsTo_readlink | apply logsTo_mkdirp
    | apply logsTo_runCommand_dry | apply logsTo_runShellCommand_dry
    | apply logsTo_bind; [|intros ?]
    | apply logsTo_tryCatch; [|intros ?]
    | match goal with
      | |- logsTo _ (if ?b then _ else _) => destruct b
      | |- logsTo _ (match ?x with _ => _ end) => destruct x
      end ].

Lemma own_liftExt {A} s pid did (m : ExtM A) :
  logsTo s m -> ownRecords s pid did (liftExt m).
Proof.
  intros Hm w r w' H. unfold liftExt in H.
  destruct (m (ext w)) as [r0 e0] eqn:E. injection H as _ <-.
  split; [exact (Hm _ _ _ E)|]. auto.
Qed.

Lemma own_ret {A} s pid did (a : A) : ownRecords s pid did (mret a).
Proof. intros w r w' [= _ <-]. auto. Qed.

Lemma own_throw {A} s pid did msg : ownRecords s pid did (@throw World A msg).
Proof. intros w r w' [= _ <-]. auto. Qed.

Lemma own_liftR {A} s pid did (x : result A) : ownRecords s pid did (liftR x).
Proof. intros w r w' [= _ <-]. auto. Qed.

Lemma own_bind {A B} s pid did (m : M A) (k : A -> M B) :
  ownRecords s pid did m -> (forall a, ownRecords s pid did (k a)) ->
  ownRecords s pid did (m ≫= k).
Proof.
  intros Hm Hk w r w' H. unfold mbind, se_bind, bind in H.
  destruct (m w) as [[a|msg] w1] eqn:E.
  - destruct (Hm _ _ _ E) as (L1 & P1 & D1).
    destruct (Hk a _ _ _ H) as (L2 & P2 & D2).
    repeat split; intros x N;
      [rewrite (L2 x N)|rewrite (P2 x N)|rewrite (D2 x N)]; auto.
  - injection H as _ <-. exact (Hm _ _ _ E).
Qed.

Lemma own_tryCatch {A} s pid did (m : M A) (h : string -> M A) :
  ownRecords s pid did m -> (forall msg, ownRecords s pid did (h msg)) ->
  ownRecords s pid did (tryCatch m h).
Proof.
  intros Hm Hh w r w' H. unfold tryCatch in H.
  destruct (m w) as [[a|msg] w1] eqn:E.
  - injection H as _ <-. exact (Hm _ _ _ E).
  - destruct (Hm _ _ _ E) as (L1 & P1 & D1).
    destruct (Hh msg _ _ _ H) as (L2 & P2 & D2).
    repeat split; intros x N;
      [rewrite (L2 x N)|rewrite (P2 x N)|rewrite (D2 x N)]; auto.
Qed.

Lemma own_updateDeployment s pid did upd :
  ownRecords s pid did (DeploymentStore.updateDeployment did upd).
Proof.
  intros w r w'.
  unfold DeploymentStore.updateDeployment, DeploymentStore.getDeployment,
    DeploymentStore.putDeployment, mbind, se_bind, bind, gets, modify.
  destruct (deployments w !! did); intros [= _ <-]; cbn; repeat split; auto.
  intros other N. now apply lookup_insert_ne.
Qed.

Lemma own_appendStep s pid did name data :
  ownRecords s pid did (DeploymentStore.appendStep did name data).
Proof.
  intros w r w'.
  unfold DeploymentStore.appendStep, DeploymentStore.getDeployment,
    mbind, se_bind, bind, gets.
  destruct (deployments w !! did); [apply own_updateDeployment|].
  intros [= _ <-]. auto.
Qed.

Lemma own_getProject s pid did projectId :
  ownRecords s pid did (ProjectStore.getProject projectId).
Proof. intros w r w'. rewrite getProject_spec. intros [= _ <-]. auto. Qed.

Lemma own_updateProject s pid did upd :
  ownRecords s pid did (ProjectStore.updateProject pid upd).
Proof.
  intros w r w'. unfold ProjectStore.updateProject, mbind, se_bind, bind.
  rewrite getProject_spec.
  destruct (found pid (projects w)); intros [= _ <-]; cbn; repeat split; auto.
  intros other N. now apply lookup_insert_ne.
Qed.

Lemma own_runStep {A} s pid did name (fn : M A) :
  ownRecords s pid did fn -> ownRecords s pid did (runStep did name fn).
Proof.
  intros Hfn. unfold runStep.
  apply own_bind; [apply own_liftExt, logsTo_now|]. intros t0.
  apply own_bind; [apply own_appendStep|]. intros _.
  apply own_tryCatch.
  - apply own_bind; [exact Hfn|]. intros a.
    apply own_bind; [apply own_liftExt, logsTo_now|]. intros t1.
    apply own_bind; [apply own_appendStep|]. intros _.
    apply own_ret.
  - intros msg.
    apply own_bind; [apply own_liftExt, logsTo_now|]. intros t1.
    apply own_bind; [apply own_appendStep|]. intros _.
    apply own_throw.
Qed.

Lemma own_runSteps s pid did todo : forall l,
  (forall name fn l0, In (name, fn) todo -> ownRecords s pid did (fn l0)) ->
  ownRecords s pid did (runSteps did todo l).
Proof.
  induction todo as [|[name fn] rest IH]; intros l H; simpl.
  - apply own_ret.
  - apply own_bind.
    + apply own_runStep, (H name fn l). now left.
    + intros l1. apply IH. intros n f l0 Hin. apply (H n f l0). now right.
Qed.

Section S.
Variable cfg : Config.t.
Variable decryptSecret : string -> result string.
Variable spawn : nat -> string -> list string -> SpawnOpts -> ProcOutcome.
Variable processEnv : gmap string string.
Variable random1000 : Z.
Variable toNumber : string -> field Z.

Lemma quiet_writeConfig_dry projectId options logStream :
  quiet (NginxManager.writeConfig cfg spawn projectId options logStream true).
Proof. unfold NginxManager.writeConfig. quiet. Qed.

Lemma quietW_stepList_dry c name fn l :
  j_dryRun (c_job c) = true ->
  In (name, fn) (stepList cfg spawn c) -> quietW (fn l).
Proof.
  intros Hdry. unfold stepList. simpl.
  intros [E|[E|[E|[E|[E|[E|[E|[]]]]]]]]; injection E as _ <-.
  - unfold syncStep. rewrite Hdry.
    apply quietW_bind; [apply quietW_liftExt; quiet|]. intros repoExists.
    destruct (repo (c_project c)); try apply quietW_throw.
    apply quietW_bind; [apply quietW_liftExt; quiet|]. intros _.
    apply quietW_bind; [apply quietW_liftExt; quiet|]. intros result.
    apply quietW_bind; [apply quietW_updateDeployment|]. intros _.
    apply quietW_ret.
  - unfold installStep, shell. rewrite Hdry. apply quietW_liftExt. quiet.
  - unfold testStep, shell. rewrite Hdry. apply quietW_liftExt. quiet.
  - unfold buildStep, shell. rewrite Hdry. apply quietW_liftExt. quiet.
  - unfold releaseStep. rewrite Hdry. apply quietW_liftExt. quiet.
  - unfold nginxStep. rewrite Hdry. apply quietW_liftExt.
    apply quiet_bind; [apply quiet_writeConfig_dry|]. intros _. quiet.
  - unfold runtimeStep. rewrite Hdry. apply quietW_liftExt. quiet.
Qed.


Lemma quietW_tryBlock_dry c :
  j_dryRun (c_job c) = true -> quietW (tryBlock cfg spawn c).
Proof.
  intros Hdry. unfold tryBlock. apply quietW_tryCatch.
  - apply quietW_bind.
    + apply quietW_runSteps. intros name fn l0.
      now apply quietW_stepList_dry.
    + intros l. unfold finalize.
      apply quietW_bind; [apply quietW_liftExt, quiet_now|]. intros t.
      apply quietW_bind; [apply quietW_updateDeployment|]. intros _.
      apply quietW_bind; [apply quietW_updateProject|]. intros _.
      apply quietW_ret.
  - intros msg. unfold onFailure.
    apply quietW_bind; [apply quietW_liftExt, quiet_now|]. intros t.
    apply quietW_bind; [apply quietW_updateDeployment|]. intros _.
    apply quietW_liftExt, quiet_logWrite.
Qed.

(** What [runDeployment] does before its [try] block touches the host
    in one place only: [writeLog] creates the directory of the log. *)
Lemma prelude_host job w r w0 :
  prelude cfg decryptSecret processEnv random1000 toNumber job w = (r, w0) ->
  let made := (mkdirp (Path.dirname (DeploymentStore.getLogPath cfg
                         (j_projectId job) (j_deploymentId job))) (ext w)).2 in
  fs (ext w0) = fs made /\ trace (ext w0) = trace made.
Proof.
  unfold prelude. unfold mbind at 1, se_bind at 1, bind at 1.
  unfold liftExt at 1, writeLog. unfold mbind at 1, se_bind at 1, bind at 1.
  destruct (mkdirp _ (ext w)) as [[[]|msg] e1] eqn:E; cbn [snd].
  - unfold mret, se_ret, ret.
    match goal with
    | |- ?m ?w1 = _ -> _ => assert (Q : quietW m)
    end.
    { apply quietW_bind; [apply quietW_liftExt, quiet_now|]. intros t.
      apply quietW_bind; [apply quietW_updateDeployment|]. intros _.
      apply quietW_bind; [apply quietW_getProject|]. intros [pr|];
        [|apply quietW_throw].
      destruct (deployPath pr); try apply quietW_throw.
      apply quietW_bind; [apply quietW_liftR|]. intros safe.
      destruct (negb _ && negb _); [apply quietW_throw|].
      destruct (EnvBuilder.buildEnvMaps _ _); [|apply quietW_throw].
      destruct (settlePort _ _ _ _ _) as [[pr1 env2] rp].
      apply quietW_ret. }
    intros H. apply Q in H. exact H.
  - intros [= _ <-]. auto.
Qed.

Lemma logsTo_writeConfig_dry projectId options s :
  logsTo s (NginxManager.writeConfig cfg spawn projectId options s true).
Proof. unfold NginxManager.writeConfig. logsTo. Qed.

Lemma own_stepList_dry c name fn l :
  j_dryRun (c_job c) = true ->
  In (name, fn) (stepList cfg spawn c) ->
  ownRecords (c_logStream c) (j_projectId (c_job c))
             (j_deploymentId (c_job c)) (fn l).
Proof.
  intros Hdry. unfold stepList. simpl.
  intros [E|[E|[E|[E|[E|[E|[E|[]]]]]]]]; injection E as _ <-.
  - unfold syncStep. rewrite Hdry.
    apply own_bind; [apply own_liftExt; logsTo|]. intros repoExists.
    destruct (repo (c_project c)); try apply own_throw.
    apply own_bind; [apply own_liftExt; logsTo|]. intros _.
    apply own_bind; [apply own_liftExt; logsTo|]. intros result.
    apply own_bind; [apply own_updateDeployment|]. intros _.
    apply own_ret.
  - unfold installStep, shell. rewrite Hdry. apply own_liftExt. logsTo.
  - unfold testStep, shell. rewrite Hdry. apply own_liftExt. logsTo.
  - unfold buildStep, shell. rewrite Hdry. apply own_liftExt. logsTo.
  - unfold releaseStep. rewrite Hdry. apply own_liftExt. logsTo.
  - unfold nginxStep. rewrite Hdry. apply own_liftExt.
    apply logsTo_bind; [apply logsTo_writeConfig_dry|]. intros _. logsTo.
  - unfold runtimeStep. rewrite Hdry. apply own_liftExt. logsTo.
Qed.

Lemma own_tryBlock_dry c :
  j_dryRun (c_job c) = true ->
  ownRecords (c_logStream c) (j_projectId (c_job c))
             (j_deploymentId (c_job c)) (tryBlock cfg spawn c).
Proof.
  intros Hdry. unfold tryBlock. apply own_tryCatch.
  - apply own_bind.
    + apply own_runSteps. intros name fn l0.
      now apply own_stepList_dry.
    + intros l. unfold finalize.
      apply own_bind; [apply own_liftExt, logsTo_now|]. intros t.
      apply own_bind; [apply own_updateDeployment|]. intros _.
      apply own_bind; [apply own_updateProject|]. intros _.
      apply own_ret.
  - intros msg. unfold onFailure.
    apply own_bind; [apply own_liftExt, logsTo_now|]. intros t.
    apply own_bind; [apply own_updateDeployment|]. intros _.
    apply own_liftExt, logsTo_logWrite.
Qed.

(** Before its [try] block [runDeployment] writes to no log and to no
    record but that of its deployment; the stream it opens is the log
    of the deployment. *)
Lemma own_prelude job :
  ownRecords None (j_projectId job) (j_deploymentId job)
    (prelude cfg decryptSecret processEnv random1000 toNumber job).
Proof.
  unfold prelude.
  apply own_bind; [apply own_liftExt; unfold writeLog; logsTo|]. intros s.
  apply own_bind; [apply own_liftExt, logsTo_now|]. intros t.
  apply own_bind; [apply own_updateDeployment|]. intros _.
  apply own_bind; [apply own_getProject|]. intros [pr|];
    [|apply own_throw].
  destruct (deployPath pr); try apply own_throw.
  apply own_bind; [apply own_liftR|]. intros safe.
  destruct (negb _ && negb _); [apply own_throw|].
  destruct (EnvBuilder.buildEnvMaps _ _); [|apply own_throw].
  destruct (settlePort _ _ _ _ _) as [[pr1 env2] rp].
  apply own_ret.
Qed.

Lemma prelude_stream job w c w0 :
  prelude cfg decryptSecret processEnv random1000 toNumber job w = (Ok c, w0) ->
  c_job c = job
  /\ c_logStream c = Some (DeploymentStore.getLogPath cfg (j_projectId job)
                             (j_deploymentId job)).
Proof.
  unfold prelude. unfold mbind, se_bind, bind.
  destruct (liftExt _ w) as [[s|?] w1] eqn:E1; [|discriminate].
  assert (Hs : s = Some (DeploymentStore.getLogPath cfg (j_projectId job)
                           (j_deploymentId job))).
  { revert E1. unfold liftExt, writeLog, mbind, se_bind, bind.
    destruct (mkdirp _ (ext w)) as [[[]|?] e1]; [|discriminate].
    now intros [= <- _]. }
  destruct (liftExt now w1) as [[t|?] w2]; [|discriminate].
  destruct (DeploymentStore.updateDeployment _ _ w2) as [[u|?] w3];
    [|discriminate].
  destruct (ProjectStore.getProject _ w3) as [[[pr|]|?] w4]; try discriminate.
  destruct (deployPath pr); try discriminate.
  unfold liftR.
  destruct (ensureDeployPathWithinRoot cfg _); [|discriminate].
  destruct (negb _ && negb _); [discriminate|].
  destruct (EnvBuilder.buildEnvMaps _ _); [|discriminate].
  destruct (settlePort _ _ _ _ _) as [[pr1 env2] rp].
  intros [= <- _]. now split.
Qed.

(** A dry run is confined to the files of its own deployment and of
    its own project.  Outside the two stores and the logs the host is
    left as it is, apart from the directory of the run's log: nothing
    else is created, removed, linked, copied or written there, and
    nothing is spawned.  Of the logs only the run's own is written, of
    the deployment records only the run's own, and of the project
    records only that of the run's project.  The last two are written:
    the steps and the status of the run go to its deployment record,
    and a dry run that gets through rewrites [deploy-config.json] of
    its project as a live run does. *)
Theorem dry_run_is_confined job w r w' :
  j_dryRun job = true ->
  runDeployment cfg decryptSecret spawn processEnv random1000 toNumber job w
  = (r, w') ->
  fs (ext w')
  = fs (mkdirp (Path.dirname (DeploymentStore.getLogPath cfg
                  (j_projectId job) (j_deploymentId job))) (ext w)).2
  /\ trace (ext w')
     = trace (mkdirp (Path.dirname (DeploymentStore.getLogPath cfg
                        (j_projectId job) (j_deploymentId job))) (ext w)).2
  /\ (forall p,
        p <> DeploymentStore.getLogPath cfg (j_projectId job)
               (j_deploymentId job) ->
        logs (ext w') !! p = logs (ext w) !! p)
  /\ (forall other, other <> j_deploymentId job ->
        deployments w' !! other = deployments w !! other)
  /\ (forall other, other <> j_projectId job ->
        projects w' !! other = projects w !! other).
Proof.
  intros Hdry. unfold runDeployment, mbind, se_bind, bind.
  destruct (prelude cfg decryptSecret processEnv random1000 toNumber job w)
    as [[c|msg] w0] eqn:Hp.
  - pose proof (prelude_host _ _ _ _ Hp) as [F T].
    destruct (own_prelude _ _ _ _ Hp) as (L & P & D).
    destruct (prelude_stream _ _ _ _ Hp) as [J S].
    intros H.
    pose proof (quietW_tryBlock_dry c (eq_trans (f_equal j_dryRun J) Hdry)
                  _ _ _ H) as [F1 T1].
    pose proof (own_tryBlock_dry c (eq_trans (f_equal j_dryRun J) Hdry)
                  _ _ _ H) as (L1 & P1 & D1).
    rewrite J, S in *.
    split; [congruence|]. split; [congruence|].
    split; [|split].
    + intros p N. rewrite L1 by congruence. now apply L.
    + intros other N. rewrite D1 by exact N. now apply D.
    + intros other N. rewrite P1 by exact N. now apply P.
  - intros [= _ <-].
    destruct (own_prelude _ _ _ _ Hp) as (L & P & D).
    pose proof (prelude_host _ _ _ _ Hp) as [F T].
    split; [exact F|]. split; [exact T|].
    split; [|split]; auto.
Qed.

End S.
End QuietFacts.

(* --------------------------------------------------------------------- *)
(** ** What a template project can run *)

Module SpawnFacts.
Import Frames Spawns Engine StoreFacts SysFacts QuietFacts.

Lemma onlyAdds_writeChunks P logStream keys cs :
  onlyAdds P (writeChunks logStream keys cs).
Proof.
  induction cs as [|[b data] cs IH]; simpl; [apply onlyAdds_ret|].
  apply onlyAdds_bind; [apply onlyAdds_logWrite|]. intros _. exact IH.
Qed.

(** [runCommand] adds at most the spawn of its command. *)
Lemma onlyAdds_runCommand P spawn cmd args options logStream dry :
  P (ESpawn cmd args) ->
  onlyAdds P (runCommand spawn cmd args options logStream dry).
Proof.
  intros HP. unfold runCommand. destruct dry.
  - adds.
  - apply onlyAdds_bind; [apply onlyAdds_gets|]. intros n.
    apply onlyAdds_bind; [apply onlyAdds_setFs; now constructor|]. intros _.
    apply onlyAdds_bind; [apply onlyAdds_writeChunks|]. intros _.
    destruct (procEnd _) as [code|message]; adds.
Qed.

Lemma onlyAdds_bind_ret {A B} P (a : A) (k : A -> ExtM B) :
  onlyAdds P (k a) -> onlyAdds P (mret a ≫= k).
Proof. intros Hk e r e' H. exact (Hk e r e' H). Qed.

Lemma hostAdds_quiet {A} P (m : M A) : quietW m -> hostAdds P m.
Proof.
  intros Q w r w' H. destruct (Q _ _ _ H) as [_ T].
  exists []. rewrite T, app_nil_r. auto.
Qed.

Lemma hostAdds_liftExt {A} P (m : ExtM A) : onlyAdds P m -> hostAdds P (liftExt m).
Proof.
  intros Hm w r w' H. unfold liftExt in H.
  destruct (m (ext w)) as [r0 e0] eqn:E. injection H as _ <-.
  exact (Hm _ _ _ E).
Qed.

Lemma hostAdds_bind {A B} P (m : M A) (k : A -> M B) :
  hostAdds P m -> (forall a, hostAdds P (k a)) -> hostAdds P (m ≫= k).
Proof.
  intros Hm Hk w r w' H. unfold mbind, se_bind, bind in H.
  destruct (m w) as [[a|msg] w1] eqn:E.
  - destruct (Hm _ _ _ E) as (n1 & E1 & F1).
    destruct (Hk a _ _ _ H) as (n2 & E2 & F2).
    exists (n1 ++ n2)%list. split; [now rewrite E2, E1, app_assoc|].
    apply Forall_app; auto.
  - injection H as _ <-. exact (Hm _ _ _ E).
Qed.

Lemma hostAdds_tryCatch {A} P (m : M A) (h : string -> M A) :
  hostAdds P m -> (forall msg, hostAdds P (h msg)) -> hostAdds P (tryCatch m h).
Proof.
  intros Hm Hh w r w' H. unfold tryCatch in H.
  destruct (m w) as [[a|msg] w1] eqn:E.
  - injection H as _ <-. exact (Hm _ _ _ E).
  - destruct (Hm _ _ _ E) as (n1 & E1 & F1).
    destruct (Hh msg _ _ _ H) as (n2 & E2 & F2).
    exists (n1 ++ n2)%list. split; [now rewrite E2, E1, app_assoc|].
    apply Forall_app; auto.
Qed.

Lemma hostAdds_runStep {A} P id name (fn : M A) :
  hostAdds P fn -> hostAdds P (runStep id name fn).
Proof.
  intros Hfn. unfold runStep.
  apply hostAdds_bind; [apply hostAdds_quiet, quietW_liftExt, quiet_now|].
  intros t0.
  apply hostAdds_bind; [apply hostAdds_quiet, quietW_appendStep|]. intros _.
  apply hostAdds_tryCatch.
  - apply hostAdds_bind; [exact Hfn|]. intros a.
    apply hostAdds_quiet.
    apply quietW_bind; [apply quietW_liftExt, quiet_now|]. intros t1.
    apply quietW_bind; [apply quietW_appendStep|]. intros _.
    apply quietW_ret.
  - intros msg. apply hostAdds_quiet.
    apply quietW_bind; [apply quietW_liftExt, quiet_now|]. intros t1.
    apply quietW_bind; [apply quietW_appendStep|]. intros _.
    apply quietW_throw.
Qed.

Lemma hostAdds_runSteps P id todo : forall l,
  (forall name fn l0, In (name, fn) todo -> hostAdds P (fn l0)) ->
  hostAdds P (runSteps id todo l).
Proof.
  induction todo as [|[name fn] rest IH]; intros l H; simpl.
  - apply hostAdds_quiet, quietW_ret.
  - apply hostAdds_bind.
    + apply hostAdds_runStep, (H name fn l). now left.
    + intros l1. apply IH. intros n f l0 Hin. apply (H n f l0). now right.
Qed.

Lemma catalogue_commands tid t :
  CommandTemplates.getTemplate tid = Some t ->
  forall cmd, In cmd [CommandTemplates.t_installCommand t;
                      CommandTemplates.t_buildCommand t;
                      CommandTemplates.t_testCommand t;
                      CommandTemplates.t_startCommand t] ->
    truthyS cmd = true -> In (textOf cmd) catalogueScripts.
Proof.
  unfold CommandTemplates.getTemplate. destruct tid as [| |name]; try discriminate.
  destruct (String.eqb name ""); [discriminate|].
  destruct (String.eqb name "node-app").
  { intros [= <-] cmd. simpl. intros [<-|[<-|[<-|[<-|[]]]]]; simpl;
      try discriminate; tauto. }
  destruct (String.eqb name "static-spa").
  { intros [= <-] cmd. simpl. intros [<-|[<-|[<-|[<-|[]]]]]; simpl;
      try discriminate; tauto. }
  destruct (existsb _ _); [|discriminate].
  intros [= <-] cmd. simpl. intros [<-|[<-|[<-|[<-|[]]]]]; discriminate.
Qed.

Section S.
Variable cfg : Config.t.
Variable decryptSecret : string -> result string.
Variable spawn : nat -> string -> list string -> SpawnOpts -> ProcOutcome.
Variable processEnv : gmap string string.
Variable random1000 : Z.
Variable toNumber : string -> field Z.

Lemma templateSpawn_named cmd args :
  In cmd ["git"; "nginx"; "systemctl"] -> templateSpawn cfg (ESpawn cmd args).
Proof. intros H. left. exact H. Qed.

Lemma templateSpawn_shell script :
  In script catalogueScripts ->
  templateSpawn cfg (ESpawn "bash" ["-lc"; script]).
Proof. intros H. right. left. eauto. Qed.

Lemma onlyAdds_shell c script :
  In script catalogueScripts ->
  onlyAdds (templateSpawn cfg) (shell spawn c script).
Proof.
  intros H. unfold shell, runShellCommand.
  apply onlyAdds_runCommand, templateSpawn_shell, H.
Qed.

Lemma onlyAdds_git args opts logStream dry :
  onlyAdds (templateSpawn cfg)
    (runCommand spawn "git" args opts logStream dry).
Proof. apply onlyAdds_runCommand, templateSpawn_named. simpl. tauto. Qed.

Lemma onlyAdds_writeConfig projectId options logStream dry :
  onlyAdds (templateSpawn cfg)
    (NginxManager.writeConfig cfg spawn projectId options logStream dry).
Proof.
  unfold NginxManager.writeConfig.
  destruct (_ && _); [apply onlyAdds_throw|].
  apply onlyAdds_bind; [apply onlyAdds_logWrite|]. intros _.
  apply onlyAdds_bind.
  { destruct dry; adds. }
  intros _.
  apply onlyAdds_bind;
    [apply onlyAdds_runCommand, templateSpawn_named; simpl; tauto|]. intros _.
  apply onlyAdds_bind;
    [apply onlyAdds_runCommand, templateSpawn_named; simpl; tauto|]. intros _.
  apply onlyAdds_ret.
Qed.

Lemma hostAdds_stepList c t name fn l :
  c_isAdminProject c = false ->
  c_templateCommands c = Some t ->
  (forall cmd, In cmd [CommandTemplates.t_installCommand t;
                       CommandTemplates.t_buildCommand t;
                       CommandTemplates.t_testCommand t;
                       CommandTemplates.t_startCommand t] ->
     truthyS cmd = true -> In (textOf cmd) catalogueScripts) ->
  In (name, fn) (stepList cfg spawn c) ->
  hostAdds (templateSpawn cfg) (fn l).
Proof.
  intros Hadm Ht Hcat. unfold stepList. simpl.
  intros [E|[E|[E|[E|[E|[E|[E|[]]]]]]]]; injection E as _ <-.
  - unfold syncStep.
    apply hostAdds_bind; [apply hostAdds_liftExt; adds|]. intros repoExists.
    destruct (repo (c_project c)); try (apply hostAdds_quiet, quietW_throw).
    apply hostAdds_bind.
    { apply hostAdds_liftExt. destruct (negb repoExists).
      - apply onlyAdds_bind; [destruct (j_dryRun (c_job c)); adds|]. intros _.
        destruct (branch (c_project c));
          try (destruct (j_dryRun (c_job c)); [|apply onlyAdds_throw]);
          (apply onlyAdds_bind; [apply onlyAdds_git|]; intros _;
           apply onlyAdds_ret).
      - apply onlyAdds_bind; [apply onlyAdds_git|]. intros _.
        apply onlyAdds_bind.
        { destruct (branch (c_project c));
            try (destruct (j_dryRun (c_job c)); [|apply onlyAdds_throw]);
            (apply onlyAdds_bind; [apply onlyAdds_git|]; intros _;
             apply onlyAdds_ret). }
        intros _. apply onlyAdds_bind; [apply onlyAdds_git|]. intros _.
        apply onlyAdds_ret. }
    intros _.
    apply hostAdds_bind; [apply hostAdds_liftExt, onlyAdds_git|]. intros result.
    apply hostAdds_bind; [apply hostAdds_quiet, quietW_updateDeployment|].
    intros _. apply hostAdds_quiet, quietW_ret.
  - unfold installStep. rewrite Hadm, Ht. apply hostAdds_liftExt.
    apply onlyAdds_bind_ret.
    apply onlyAdds_bind; [|intros _; apply onlyAdds_ret].
    destruct (truthyS (orS _ _)) eqn:T; [|apply onlyAdds_logWrite].
    apply onlyAdds_bind; [|intros _; apply onlyAdds_ret].
    apply onlyAdds_shell. unfold orS in *.
    destruct (truthyS (CommandTemplates.t_installCommand t)) eqn:T1;
      [|discriminate].
    apply Hcat; [simpl; tauto|exact T1].
  - unfold testStep, testCmdOf. rewrite Hadm, Ht. apply hostAdds_liftExt.
    apply onlyAdds_bind; [|intros _; apply onlyAdds_ret].
    destruct (truthyS _) eqn:T; simpl; [|apply onlyAdds_logWrite].
    apply onlyAdds_bind; [|intros _; apply onlyAdds_ret].
    apply onlyAdds_shell, Hcat; [simpl; tauto|exact T].
  - unfold buildStep, buildCmdOf. rewrite Hadm, Ht. apply hostAdds_liftExt.
    apply onlyAdds_bind; [|intros _; apply onlyAdds_ret].
    destruct (truthyS _) eqn:T; simpl; [|apply onlyAdds_throw].
    apply onlyAdds_bind; [|intros _; apply onlyAdds_ret].
    apply onlyAdds_shell, Hcat; [simpl; tauto|exact T].
  - unfold releaseStep. apply hostAdds_liftExt.
    destruct (ensureWithinBase _ _ _ _) as [absOutput|msg];
      [apply onlyAdds_bind_ok|apply onlyAdds_bind; [apply onlyAdds_liftR|intros ?]];
      adds; apply onlyAdds_cpRecursive; exact I.
  - unfold nginxStep. apply hostAdds_liftExt.
    apply onlyAdds_bind; [apply onlyAdds_writeConfig|]. intros _.
    apply onlyAdds_ret.
  - unfold runtimeStep, startCmdOf. rewrite Hadm, Ht. apply hostAdds_liftExt.
    destruct (negb (String.eqb _ _)); [adds|].
    destruct (truthyS _) eqn:T; simpl; [|apply onlyAdds_throw].
    apply onlyAdds_bind.
    { destruct (j_dryRun (c_job c)); adds. }
    intros currentRelease.
    apply onlyAdds_bind; [|intros _; apply onlyAdds_ret].
    apply onlyAdds_runCommand. right. right. split; [reflexivity|].
    eexists _, _, _. split; [reflexivity|].
    apply Hcat; [simpl; tauto|exact T].
Qed.

(** A project that is not the administrator's runs with the commands
    of its template only: whatever its own record says, a deployment
    spawns nothing but [git], [nginx], [systemctl], and a shell for
    one of the scripts of the catalogue. *)
Theorem template_project_runs_catalogue_scripts job w pr r w' :
  found (j_projectId job) (projects w) = Some pr ->
  ownerIsAdmin pr = false ->
  runDeployment cfg decryptSecret spawn processEnv random1000 toNumber job w
  = (r, w') ->
  exists new,
    trace (ext w') = (trace (ext w) ++ new)%list
    /\ Forall (templateSpawn cfg) new.
Proof.
  intros Hf Hadm. unfold runDeployment, mbind, se_bind, bind.
  destruct (prelude cfg decryptSecret processEnv random1000 toNumber job w)
    as [[c|msg] w0] eqn:Hp.
  - pose proof (prelude_host _ _ _ _ _ _ _ _ _ Hp) as [_ T0].
    assert (T1 : exists n0, trace (ext w0) = (trace (ext w) ++ n0)%list
                            /\ Forall (templateSpawn cfg) n0).
    { rewrite T0. eapply (onlyAdds_mkdirp (templateSpawn cfg));
        [exact I|apply surjective_pairing]. }
    destruct T1 as (n0 & E0 & F0).
    destruct (PreludeFacts.prelude_ok _ _ _ _ _ _ _ _ _ Hp)
      as (pr' & port' & F & J & _ & A & Tc & _).
    rewrite Hf in F. injection F as <-.
    rewrite Hadm in A, Tc. simpl in Tc.
    intros H.
    assert (Q : hostAdds (templateSpawn cfg) (tryBlock cfg spawn c)).
    { destruct (c_templateCommands c) as [t|] eqn:Ht.
      - destruct (truthyS (templateId pr)); [|discriminate].
        symmetry in Tc.
        pose proof (catalogue_commands _ _ Tc) as Hcat.
        unfold tryBlock. apply hostAdds_tryCatch.
        + apply hostAdds_bind.
          * apply hostAdds_runSteps. intros name fn l0 Hin.
            now apply (hostAdds_stepList c t name fn l0).
          * intros l. apply hostAdds_quiet. unfold finalize.
            apply quietW_bind; [apply quietW_liftExt, quiet_now|]. intros ?.
            apply quietW_bind; [apply quietW_updateDeployment|]. intros _.
            apply quietW_bind; [apply quietW_updateProject|]. intros _.
            apply quietW_ret.
        + intros msg. apply hostAdds_quiet. unfold onFailure.
          apply quietW_bind; [apply quietW_liftExt, quiet_now|]. intros ?.
          apply quietW_bind; [apply quietW_updateDeployment|]. intros _.
          apply quietW_liftExt, quiet_logWrite.
      - exfalso. revert Hp. clear -Hf Hadm Ht.
        unfold prelude, mbind, se_bind, bind.
        destruct (liftExt _ w) as [[logStream|?] w1] eqn:E1; [|discriminate].
        destruct (liftExt now w1) as [[t|?] w2] eqn:E2; [|discriminate].
        destruct (DeploymentStore.updateDeployment _ _ w2) as [[u|?] w3] eqn:E3;
          [|discriminate].
        assert (P3 : projects w3 = projects w).
        { apply StepFacts.liftExt_deployments in E1 as D1.
          unfold liftExt in E1, E2.
          destruct (writeLog _ _ _ _) in E1. destruct (now _) in E2.
          injection E1 as _ <-. injection E2 as _ <-.
          unfold DeploymentStore.updateDeployment, DeploymentStore.getDeployment,
            DeploymentStore.putDeployment, mbind, se_bind, bind, gets, modify in E3.
          simpl in E3.
          destruct (deployments w !! j_deploymentId job);
            injection E3 as _ <-; reflexivity. }
        rewrite getProject_spec, P3, Hf.
        destruct (deployPath pr) as [| |dp]; try discriminate.
        unfold liftR.
        destruct (ensureDeployPathWithinRoot cfg dp) as [safe|?]; [|discriminate].
        rewrite Hadm. simpl negb. simpl andb.
        destruct (truthyS (templateId pr)).
        + destruct (CommandTemplates.getTemplate (templateId pr)) as [t0|] eqn:G;
            [|discriminate].
          simpl. destruct (EnvBuilder.buildEnvMaps _ _); [|discriminate].
          destruct (settlePort _ _ _ _ _) as [[pr1 env2] rp].
          intros [= <- _]. discriminate.
        + discriminate. }
    destruct (Q _ _ _ H) as (n1 & E1 & F1).
    exists (n0 ++ n1)%list. split; [now rewrite E1, E0, app_assoc|].
    apply Forall_app; auto.
  - intros [= _ <-].
    pose proof (prelude_host _ _ _ _ _ _ _ _ _ Hp) as [_ T0].
    rewrite T0. eapply (onlyAdds_mkdirp (templateSpawn cfg));
      [exact I|apply surjective_pairing].
Qed.

End S.
End SpawnFacts.

(* --------------------------------------------------------------------- *)
(** ** Host operations *)

Module HostFacts.
Import Engine Host.

(** *** [runCommand] *)

Lemma writeChunks_spec path keys cs e :
  exists e',
    writeChunks (Some path) keys cs e = (Ok tt, e')
    /\ fs e' = fs e /\ trace e' = trace e
    /\ logOf e' path
       = (logOf e path ++ map (fun c => Command.write c.2 keys) cs)%list.
Proof.
  revert e. induction cs as [|[b data] cs IH]; intros e; simpl.
  - eexists. split; [reflexivity|]. repeat split. now rewrite app_nil_r.
  - unfold mbind, se_bind, bind, logWrite, modify.
    match goal with
    | |- context [writeChunks _ _ _ ?e1] => destruct (IH e1) as (e' & -> & F & T & L)
    end.
    exists e'. split; [reflexivity|]. cbn in F, T. repeat split; try assumption.
    rewrite L. unfold logOf at 1. cbn. rewrite lookup_insert_eq. cbn.
    now rewrite <- app_assoc.
Qed.

(** [runCommand] returns only for exit code 0, and then with the
    output as the child printed it; the log has received the same
    chunks, in order, each one redacted. *)
Theorem runCommand_result spawn cmd args options path e res e' :
  runCommand spawn cmd args options (Some path) false e = (Ok res, e') ->
  procEnd (spawn (length (trace e)) cmd args options) = Exited 0
  /\ res = mkResult 0
             (collect false (chunks (spawn (length (trace e)) cmd args options)))
             (collect true (chunks (spawn (length (trace e)) cmd args options)))
  /\ logOf e' path
     = (logOf e path
        ++ map (fun c => Command.write c.2 (o_redactKeys options))
               (chunks (spawn (length (trace e)) cmd args options)))%list
  /\ trace e' = (trace e ++ [ESpawn cmd args])%list.
Proof.
  unfold runCommand, mbind, se_bind, bind, gets, setFs, modify.
  set (child := spawn (length (trace e)) cmd args options).
  match goal with
  | |- context [writeChunks _ _ _ ?e1] =>
      destruct (writeChunks_spec path (o_redactKeys options) (chunks child) e1)
        as (e2 & -> & F & T & L)
  end.
  destruct (procEnd child) as [code|message].
  - destruct (Z.eqb_spec code 0) as [->|Hne]; simpl; [|discriminate].
    intros [= <- <-]. repeat split; assumption.
  - unfold logWrite, modify, throw. discriminate.
Qed.

(** *** [removePath] *)

(** [removePath] always returns; afterwards the target is gone, and
    every path that is neither the target nor below it is as before. *)
Lemma removePath_removes target e :
  exists e',
    removePath target e = (Ok tt, e')
    /\ fs e' !! target = None
    /\ forall p, p <> target -> startsWith p (target ++ "/") = false ->
         fs e' !! p = fs e !! p.
Proof.
  unfold removePath, mbind, se_bind, bind, gets.
  destruct (fs e !! target) as [[|content|t]|] eqn:E.
  - unfold rmRecursive, setFs, modify. eexists. split; [reflexivity|]. cbn.
    split.
    + apply map_lookup_filter_None_2. right. intros x _.
      change (negb (String.eqb target target)
              && negb (startsWith target (target ++ "/")) <> true).
      rewrite String.eqb_refl. discriminate.
    + intros p Hne Hp. destruct (fs e !! p) as [x|] eqn:Ep.
      * apply map_lookup_filter_Some_2; [exact Ep|].
        change (negb (String.eqb p target)
                && negb (startsWith p (target ++ "/")) = true).
        rewrite Hp. apply String.eqb_neq in Hne. rewrite Hne. reflexivity.
      * apply map_lookup_filter_None_2. now left.
  - unfold unlink. rewrite E. unfold setFs, modify.
    eexists. split; [reflexivity|]. cbn. split; [apply lookup_delete_eq|].
    intros p Hne _. apply lookup_delete_ne. congruence.
  - unfold unlink. rewrite E. unfold setFs, modify.
    eexists. split; [reflexivity|]. cbn. split; [apply lookup_delete_eq|].
    intros p Hne _. apply lookup_delete_ne. congruence.
  - eexists. split; [reflexivity|]. split; [exact E|]. reflexivity.
Qed.


(** *** [nginxManager.writeConfig] *)

Import Frames QuietFacts.

Lemma quiet_writeChunks logStream keys cs : quiet (writeChunks logStream keys cs).
Proof.
  induction cs as [|[b data] cs IH]; simpl; [apply quiet_ret|].
  apply quiet_bind; [apply quiet_logWrite|]. intros _. exact IH.
Qed.

(** A command that leaves the file system alone: so does [runCommand]. *)
Lemma runCommand_readOnly spawn cmd args options logStream dry e r e' :
  readOnly spawn ->
  runCommand spawn cmd args options logStream dry e = (r, e') ->
  fs e' = fs e.
Proof.
  intros RO. destruct dry.
  - intros H. now apply quiet_runCommand_dry in H.
  - unfold runCommand. unfold mbind at 1, se_bind at 1, bind at 1, gets.
    unfold mbind at 1, se_bind at 1, bind at 1, setFs, modify.
    match goal with
    | |- ?m ?e1 = _ -> _ => assert (Q : quiet m)
    end.
    { apply quiet_bind; [apply quiet_writeChunks|]. intros _.
      destruct (procEnd _); quiet. }
    intros H. apply Q in H as [F _]. rewrite F. cbn. apply RO.
Qed.

(** The [symlink] of [writeConfig] with its [catch]: whatever was at
    [enabled], when the block returns it is a link to [available]. *)
Lemma enable_link available enabled content e e1 :
  available <> enabled ->
  fs e !! available = Some (File content) ->
  tryCatch (symlink available enabled)
    (fun _ =>
       target ← tryCatch (t ← readlink enabled; mret (Some t))
                         (fun _ => mret None);
       if bool_decide (target = Some available) then mret tt
       else unlink enabled;; symlink available enabled) e = (Ok tt, e1) ->
  fs e1 !! available = Some (File content)
  /\ fs e1 !! enabled = Some (Link available).
Proof.
  intros Hne Ha. destruct e as [m lg tr ck]. cbn in Ha.
  unfold tryCatch, symlink, mbind, se_bind, bind, readlink, unlink,
    setFs, modify, mret, se_ret, ret. cbn.
  destruct (m !! enabled) as [[|c0|t0]|] eqn:Ee; cbn; rewrite ?Ee; cbn.
  - rewrite bool_decide_eq_false_2 by discriminate. cbn.
    rewrite ?Ee. discriminate.
  - rewrite bool_decide_eq_false_2 by discriminate. cbn. rewrite ?Ee. cbn.
    rewrite lookup_delete_eq. intros [= <-]. cbn.
    rewrite lookup_insert_eq, lookup_insert_ne, lookup_delete_ne by congruence.
    auto.
  - destruct (bool_decide (Some t0 = Some available)) eqn:B; cbn.
    + apply bool_decide_eq_true_1 in B. injection B as ->.
      intros [= <-]. cbn. auto.
    + rewrite ?Ee. cbn. rewrite lookup_delete_eq. intros [= <-]. cbn.
      rewrite lookup_insert_eq, lookup_insert_ne, lookup_delete_ne by congruence.
      auto.
  - intros [= <-]. cbn. rewrite lookup_insert_eq, lookup_insert_ne by congruence.
    auto.
Qed.

Section N.
Variable cfg : Config.t.
Variable spawn : nat -> string -> list string -> SpawnOpts -> ProcOutcome.

(** When [writeConfig] returns, the site file holds the rendered
    configuration and the entry under sites-enabled is a link to it,
    whatever that entry was before.  The site file itself must not have
    been a link, which [writeFile] would follow. *)
Theorem writeConfig_enables_site projectId options logStream e e' :
  readOnly spawn ->
  Path.pjoin [Config.NGINX_SITES_AVAILABLE cfg;
              "deployer-" ++ projectId ++ ".conf"]
  <> Path.pjoin [Config.NGINX_SITES_ENABLED cfg;
                 "deployer-" ++ projectId ++ ".conf"] ->
  (forall target,
      fs e !! Path.pjoin [Config.NGINX_SITES_AVAILABLE cfg;
                          "deployer-" ++ projectId ++ ".conf"]
      <> Some (Link target)) ->
  NginxManager.writeConfig cfg spawn projectId options logStream false e
  = (Ok tt, e') ->
  fs e' !! Path.pjoin [Config.NGINX_SITES_AVAILABLE cfg;
                       "deployer-" ++ projectId ++ ".conf"]
  = Some (File (if String.eqb (NginxManager.n_runtime options) "node"
                then NginxManager.renderProxyConfig options
                else NginxManager.renderStaticConfig options))
  /\ fs e' !! Path.pjoin [Config.NGINX_SITES_ENABLED cfg;
                          "deployer-" ++ projectId ++ ".conf"]
     = Some (Link (Path.pjoin [Config.NGINX_SITES_AVAILABLE cfg;
                               "deployer-" ++ projectId ++ ".conf"])).
Proof.
  intros RO Hne _. unfold NginxManager.writeConfig.
  set (available := Path.pjoin [Config.NGINX_SITES_AVAILABLE cfg; _]) in *.
  set (enabled := Path.pjoin [Config.NGINX_SITES_ENABLED cfg; _]) in *.
  set (content := if String.eqb _ _ then _ else _).
  destruct (_ && _); [discriminate|].
  unfold mbind at 1, se_bind at 1, bind at 1.
  destruct (logWrite logStream _ e) as [[[]|?] e0] eqn:E0;
    [|discriminate].
  apply quiet_logWrite in E0 as [F0 _].
  unfold mbind at 1, se_bind at 1, bind at 1.
  match goal with
  | |- context [match ?m e0 with _ => _ end] =>
      destruct (m e0) as [[[]|?] e1] eqn:E1; [|discriminate]
  end.
  assert (Post : fs e1 !! available = Some (File content)
                 /\ fs e1 !! enabled = Some (Link available)).
  { revert E1. unfold mbind, se_bind, bind.
    destruct (mkdirp _ e0) as [[[]|?] ea]; [|discriminate].
    destruct (mkdirp _ ea) as [[[]|?] eb]; [|discriminate].
    destruct (writeFile available content eb) as [[[]|?] ec] eqn:Ec;
      [|discriminate].
    intros E1. apply (enable_link _ _ content) in E1; [exact E1|exact Hne|].
    revert Ec. unfold writeFile, setFs, modify.
    destruct (fs eb !! available) as [[| |]|]; try discriminate;
      intros [= <-]; cbn; apply lookup_insert_eq. }
  unfold mbind at 1, se_bind at 1, bind at 1.
  destruct (runCommand spawn "nginx" _ _ _ _ e1) as [[r1|?] e2] eqn:E2;
    [|discriminate].
  apply (runCommand_readOnly _ _ _ _ _ _ _ _ _ RO) in E2.
  unfold mbind at 1, se_bind at 1, bind at 1.
  destruct (runCommand spawn "systemctl" _ _ _ _ e2) as [[r2|?] e3] eqn:E3;
    [|discriminate].
  apply (runCommand_readOnly _ _ _ _ _ _ _ _ _ RO) in E3.
  intros [= <-]. rewrite E3, E2. exact Post.
Qed.

End N.
End HostFacts.

(* --------------------------------------------------------------------- *)
(** ** Generated project ids *)

Module SlugFacts.
Import Server Slugs Normal Redaction StrFacts PathFacts.

#[local] Arguments Js.startsWith : simpl never.

Lemma startsWith_dash s :
  Js.startsWith s "-" = match s with String c _ => isDash c | _ => false end.
Proof.
  destruct s as [|c s]; [reflexivity|]. unfold Js.startsWith, isDash.
  cbn [String.prefix].
  destruct (Ascii.ascii_dec "-" c) as [<-|N].
  - rewrite Ascii.eqb_refl. now destruct s.
  - symmetry. apply Ascii.eqb_neq. congruence.
Qed.

Lemma allOf_app f a b : allOf f (a ++ b) = allOf f a && allOf f b.
Proof.
  induction a as [|c a IH]; [reflexivity|].
  rewrite sapp_cons. simpl. now rewrite IH, andb_assoc.
Qed.

Lemma allOf_impl (f g : ascii -> bool) s :
  (forall c, f c = true -> g c = true) -> allOf f s = true -> allOf g s = true.
Proof.
  intros H. induction s as [|c s IH]; [reflexivity|]. simpl.
  intros [Hc Hs]%andb_true_iff. now rewrite (H _ Hc), IH.
Qed.

Lemma dashOthers_chars s : allOf slugChar (dashOthers s) = true.
Proof.
  induction s as [|c s IH]; [reflexivity|]. simpl.
  rewrite IH, andb_true_r. now destruct (slugChar c) eqn:E.
Qed.

Lemma squeeze_chars s :
  allOf slugChar s = true -> allOf slugChar (squeeze s) = true.
Proof.
  induction s as [|c s IH]; [reflexivity|]. simpl.
  intros [Hc Hs]%andb_true_iff.
  destruct (isDash c && Js.startsWith s "-"); [auto|].
  simpl. now rewrite Hc, IH.
Qed.

Lemma squeeze_head s :
  Js.startsWith (squeeze s) "-" = Js.startsWith s "-".
Proof.
  induction s as [|c s IH]; [reflexivity|]. simpl.
  destruct (isDash c && Js.startsWith s "-") eqn:E.
  - apply andb_true_iff in E as [E1 E2]. rewrite IH, E2.
    rewrite (startsWith_dash (String c s)). now rewrite E1.
  - now rewrite !startsWith_dash.
Qed.

Lemma squeeze_noDouble s : noDouble (squeeze s) = true.
Proof.
  induction s as [|c s IH]; [reflexivity|]. simpl.
  destruct (isDash c && Js.startsWith s "-") eqn:E; [exact IH|].
  simpl. now rewrite squeeze_head, E, IH.
Qed.

Lemma dropFirstDash_chars s :
  allOf slugChar s = true -> allOf slugChar (dropFirstDash s) = true.
Proof.
  destruct s as [|c s]; [reflexivity|]. simpl.
  intros [Hc Hs]%andb_true_iff.
  destruct (isDash c); [assumption|]. simpl. now rewrite Hc, Hs.
Qed.

Lemma dropFirstDash_spec s :
  noDouble s = true ->
  noDouble (dropFirstDash s) = true
  /\ Js.startsWith (dropFirstDash s) "-" = false.
Proof.
  destruct s as [|c s]; [now split|]. simpl.
  intros [H1 H2]%andb_true_iff.
  destruct (isDash c) eqn:E.
  - simpl in H1. apply negb_true_iff in H1. now split.
  - split; [simpl; now rewrite E, H2|].
    now rewrite startsWith_dash, E.
Qed.

Lemma dropLastDash_chars s :
  allOf slugChar s = true -> allOf slugChar (dropLastDash s) = true.
Proof.
  induction s as [|c s IH]; [reflexivity|].
  intros H. pose proof H as [Hc Hs]%andb_true_iff.
  destruct s as [|d s].
  - simpl. destruct (isDash c); [reflexivity|assumption].
  - change (dropLastDash (String c (String d s)))
      with (String c (dropLastDash (String d s))).
    simpl allOf. rewrite Hc. simpl. now apply IH.
Qed.

Lemma dropLastDash_head s :
  Js.startsWith s "-" = false -> Js.startsWith (dropLastDash s) "-" = false.
Proof.
  destruct s as [|c [|d s]]; try reflexivity.
  - simpl. intros H. rewrite startsWith_dash in H. now rewrite H, startsWith_dash.
  - change (dropLastDash (String c (String d s)))
      with (String c (dropLastDash (String d s))).
    now rewrite !startsWith_dash.
Qed.

Lemma dropLastDash_spec s :
  noDouble s = true ->
  noDouble (dropLastDash s) = true /\ endsInDash (dropLastDash s) = false.
Proof.
  induction s as [|c s IH]; [now split|].
  intros H. pose proof H as [H1 H2]%andb_true_iff.
  destruct s as [|d s].
  - simpl. destruct (isDash c) eqn:E; [now split|]. simpl. now rewrite E.
  - change (dropLastDash (String c (String d s)))
      with (String c (dropLastDash (String d s))).
    destruct (IH H2) as [I1 I2]. 
    destruct s as [|e s].
    + simpl in *. destruct (isDash d) eqn:Ed.
      * rewrite startsWith_dash, Ed, andb_true_r in H1.
        apply negb_true_iff in H1. simpl. rewrite H1. now split.
      * simpl. rewrite Ed. rewrite startsWith_dash in *. rewrite Ed in *.
        rewrite andb_false_r. now split.
    + change (dropLastDash (String d (String e s)))
        with (String d (dropLastDash (String e s))) in *.
      split.
      * simpl noDouble. rewrite startsWith_dash in H1 |- *.
        simpl in H1. apply andb_true_iff. split; [exact H1|exact I1].
      * simpl endsInDash in I2 |- *. exact I2.
Qed.

(** The digits of a number are slug characters. *)
Lemma pretty_N_char_digit x : isDigit (pretty_N_char x) = true.
Proof. unfold pretty_N_char. repeat case_match; reflexivity. Qed.

Lemma pretty_N_go_digits x : forall s,
  allOf isDigit s = true -> allOf isDigit (pretty_N_go x s) = true.
Proof.
  induction (N.lt_wf_0 x) as [x _ IH]. intros s Hs.
  destruct (decide (x = 0)%N) as [->|Hx]; [now rewrite pretty_N_go_0|].
  rewrite pretty_N_go_step by lia. apply IH.
  - apply N.div_lt; lia.
  - simpl. now rewrite pretty_N_char_digit, Hs.
Qed.

Lemma pretty_N_go_nonempty x : forall s, s <> "" -> pretty_N_go x s <> "".
Proof.
  induction (N.lt_wf_0 x) as [x _ IH]. intros s Hs.
  destruct (decide (x = 0)%N) as [->|Hx]; [now rewrite pretty_N_go_0|].
  rewrite pretty_N_go_step by lia. apply IH; [apply N.div_lt; lia|discriminate].
Qed.

Lemma pretty_nat_digits (n : nat) :
  allOf isDigit (pretty n) = true /\ pretty n <> "".
Proof.
  unfold pretty, pretty_nat, pretty, pretty_N.
  destruct (decide (N.of_nat n = 0)%N) as [E|E]; [now split|].
  split; [now apply pretty_N_go_digits|].
  rewrite pretty_N_go_step by lia. apply pretty_N_go_nonempty. discriminate.
Qed.

Lemma digit_slugChar c : isDigit c = true -> slugChar c = true.
Proof. unfold isDigit, slugChar. intros ->. now rewrite orb_true_r. Qed.

Lemma digit_not_dash c : isDigit c = true -> isDash c = false.
Proof.
  unfold isDigit, isDash. intros H. apply Ascii.eqb_neq. intros ->.
  discriminate.
Qed.

Lemma digits_noDouble s : allOf isDigit s = true -> noDouble s = true.
Proof.
  induction s as [|c s IH]; [reflexivity|]. simpl.
  intros [Hc Hs]%andb_true_iff. now rewrite (digit_not_dash _ Hc), IH.
Qed.

Lemma digits_end s : allOf isDigit s = true -> endsInDash s = false.
Proof.
  induction s as [|c s IH]; [reflexivity|]. simpl.
  intros [Hc Hs]%andb_true_iff.
  destruct s; [now apply digit_not_dash|now apply IH].
Qed.

Lemma fallback_slug (n : nat) : slug ("project-" ++ pretty n).
Proof.
  destruct (pretty_nat_digits n) as [D N].
  destruct (pretty n) as [|c s] eqn:E; [congruence|].
  pose proof D as [Dc Ds]%andb_true_iff.
  repeat split; try discriminate; try reflexivity.
  - apply (allOf_impl _ _ _ digit_slugChar) in D.
    change (allOf slugChar ("project-" ++ String c s))
      with (allOf slugChar (String c s)). exact D.
  - change (noDouble ("project-" ++ String c s))
      with (negb (true && Js.startsWith (String c s) "-")
            && noDouble (String c s)).
    rewrite startsWith_dash, (digit_not_dash _ Dc). simpl.
    rewrite (digit_not_dash _ Dc). simpl. now apply digits_noDouble.
  - change (endsInDash ("project-" ++ String c s))
      with (endsInDash (String c s)). now apply digits_end.
Qed.

Lemma trimmed_slug t :
  allOf slugChar t = true -> noDouble t = true ->
  dropLastDash (dropFirstDash t) <> "" ->
  slug (dropLastDash (dropFirstDash t)).
Proof.
  intros C D N.
  destruct (dropFirstDash_spec _ D) as [D1 H1].
  destruct (dropLastDash_spec _ D1) as [D2 E2].
  split; [exact N|]. split.
  - now apply dropLastDash_chars, dropFirstDash_chars.
  - split; [exact D2|]. split; [now apply dropLastDash_head|exact E2].
Qed.

Section S.
Variable toLowerCase : string -> string.

(** Whatever the owner and the repository are called, the project id
    made from them is a name of letters, digits and single dashes that
    begins and ends with a letter or digit. *)
Theorem slugifyProjectId_is_a_slug (owner repoName : string) (now : nat) :
  slug (slugifyProjectId toLowerCase owner repoName now).
Proof.
  unfold slugifyProjectId.
  set (t := squeeze (dashOthers (toLowerCase (owner ++ "-" ++ repoName)))).
  pose proof (trimmed_slug t) as P.
  destruct (dropLastDash (dropFirstDash t)) as [|c s];
    [apply fallback_slug|].
  apply P; [apply squeeze_chars, dashOthers_chars|apply squeeze_noDouble|].
  discriminate.
Qed.

End S.
End SlugFacts.

Module ProjectDirFacts.
Import Server Slugs Normal Redaction StrFacts PathFacts ResolveFacts SlugFacts.

Lemma slug_lacks_slash s : allOf slugChar s = true -> lacks "/" s = true.
Proof.
  induction s as [|c s IH]; [reflexivity|]. simpl.
  intros [Hc Hs]%andb_true_iff. rewrite (IH Hs), andb_true_r.
  apply negb_true_iff, Ascii.eqb_neq. intros ->. discriminate.
Qed.

(** A slug is fit to be one component of a path. *)
Lemma slug_component s : slug s -> component s.
Proof.
  intros (N & C & _ & _ & _). split; [exact N|].
  split; [intros ->; discriminate|]. split; [intros ->; discriminate|].
  now apply slug_lacks_slash.
Qed.

Lemma normalizeSegs_kept b l : forall acc,
  Forall component l -> Path.normalizeSegs b acc l = (rev acc ++ l)%list.
Proof.
  induction l as [|x l IH]; intros acc F; simpl.
  - now rewrite app_nil_r.
  - inversion F as [|? ? (N1 & N2 & N3 & _) F']; subst.
    destruct (String.eqb_spec x "") as [->|_]; [congruence|].
    destruct (String.eqb_spec x ".") as [->|_]; [congruence|].
    destruct (String.eqb_spec x "..") as [->|_]; [congruence|].
    simpl. rewrite IH by assumption. simpl. now rewrite <- app_assoc.
Qed.

Lemma normalizeSegs_skip b acc l :
  Path.normalizeSegs b acc ("" :: l) = Path.normalizeSegs b acc l.
Proof. reflexivity. Qed.

Lemma endsWith_slash_app a c s :
  lacks "/" (String c s) = true -> endsWith_slash (a ++ String c s) = false.
Proof.
  intros L. induction a as [|d a IH].
  - simpl. revert c L. induction s as [|e s IHs]; intros c L.
    + simpl in *. rewrite andb_true_r in L. now apply negb_true_iff in L.
    + apply andb_true_iff in L as [_ L]. now apply IHs.
  - rewrite sapp_cons. simpl.
    destruct (a ++ String c s) eqn:E; [now destruct a|exact IH].
Qed.

Lemma join_last_nonempty l x : x <> "" -> join "/" (l ++ [x]) <> "".
Proof.
  intros N. induction l as [|y l IH]; [exact N|].
  simpl. destruct (l ++ [x])%list eqn:E; [now destruct l|].
  destruct y; discriminate.
Qed.

Lemma split_root_join base :
  Forall component base ->
  Path.normalizeSegs false [] (Js.split "/" ("/" ++ join "/" base)) = base.
Proof.
  intros F.
  change ("/" ++ join "/" base) with ("" ++ String "/" (join "/" base)).
  rewrite split_app_sep. simpl Js.split. simpl app.
  rewrite normalizeSegs_skip.
  destruct base as [|x base]; [reflexivity|].
  rewrite split_join; [|discriminate|now apply component_lacks].
  now rewrite normalizeSegs_kept.
Qed.

Lemma isAbsolute_root x : Path.isAbsolute (String "/" x) = true.
Proof.
  unfold Path.isAbsolute, Js.startsWith. cbn [String.prefix].
  destruct (Ascii.ascii_dec "/" "/") as [_|N]; [now destruct x|congruence].
Qed.

(** [path.join] of a resolved directory and one component is that
    directory followed by the component. *)
Lemma pjoin_child root base x :
  root = "/" ++ join "/" base ->
  Forall component base -> component x ->
  Path.pjoin [root; x] = "/" ++ join "/" (base ++ [x]).
Proof.
  intros -> F C. pose proof C as (N & _ & _ & L).
  unfold Path.pjoin.
  destruct x as [|c s]; [congruence|].
  rewrite filter_cons_True by reflexivity.
  rewrite filter_cons_True by reflexivity.
  rewrite filter_nil. cbv iota.
  rewrite (join_cons ("/" ++ join "/" base) (String c s) []).
  cbn [join].
  assert (T : endsWith_slash (("/" ++ join "/" base) ++ "/" ++ String c s)
              = false).
  { rewrite <- (sapp_assoc ("/" ++ join "/" base) "/" (String c s)).
    apply endsWith_slash_app, L. }
  assert (B : Path.normalizeSegs false []
                (Js.split "/" (("/" ++ join "/" base) ++ "/" ++ String c s))
              = (base ++ [String c s])%list).
  { change (("/" ++ join "/" base) ++ "/" ++ String c s)
      with ("" ++ String "/" (join "/" base ++ String "/" (String c s))).
    rewrite !split_app_sep. simpl (Js.split "/" "").
    change (([""] ++ Js.split "/" (join "/" base)
             ++ Js.split "/" (String c s))%list)
      with ("" :: (Js.split "/" (join "/" base)
                   ++ Js.split "/" (String c s)))%list.
    rewrite normalizeSegs_skip, (split_lacks_id _ _ L).
    destruct base as [|y base].
    - simpl (Js.split "/" (join "/" [])). simpl app.
      rewrite normalizeSegs_skip. apply normalizeSegs_kept. now constructor.
    - rewrite split_join; [|discriminate|now apply component_lacks].
      apply normalizeSegs_kept. apply Forall_app. split; [exact F|].
      now constructor. }
  assert (A : Path.isAbsolute (("/" ++ join "/" base) ++ "/" ++ String c s)
              = true) by exact (isAbsolute_root _).
  unfold Path.normalize, Path.normalizeString. rewrite T, A. simpl negb.
  rewrite B.
  change (("/" ++ join "/" base) ++ "/" ++ String c s)
    with (String "/" (join "/" base ++ String "/" (String c s))).
  cbv iota.
  pose proof (join_last_nonempty base (String c s) N) as J.
  destruct (join "/" (base ++ [String c s])) eqn:E; [congruence|].
  reflexivity.
Qed.

Section S.
Variable cfg : Config.t.

(** The directory [projectRoot] gives for a name that is a path
    component lies directly in the projects directory. *)
Lemma projectRoot_child base projectId :
  Config.PROJECTS_DIR cfg = "/" ++ join "/" base ->
  Forall component base -> component projectId ->
  ProjectStore.projectRoot cfg projectId
  = "/" ++ join "/" (base ++ [projectId]).
Proof. unfold ProjectStore.projectRoot. apply pjoin_child. Qed.

Variable toLowerCase : string -> string.

(** [config.js] resolves [PROJECTS_DIR] when the process starts.  The
    directory the store uses for a generated project id is then the
    projects directory followed by that id, as one more component: the
    names of the owner and the repository cannot move it elsewhere. *)
Theorem generated_project_directory (raw owner repoName : string) (now : nat) :
  Path.isAbsolute (Config.cwd cfg) = true ->
  Config.PROJECTS_DIR cfg = Path.resolve (Config.cwd cfg) [raw] ->
  exists base,
    Config.PROJECTS_DIR cfg = "/" ++ join "/" base
    /\ ProjectStore.projectRoot cfg
         (slugifyProjectId toLowerCase owner repoName now)
       = "/" ++ join "/"
                  (base ++ [slugifyProjectId toLowerCase owner repoName now])
    /\ Forall component
         (base ++ [slugifyProjectId toLowerCase owner repoName now]).
Proof.
  intros Hc P.
  destruct (resolve_normal (Config.cwd cfg) [raw] Hc) as (base & E & F).
  rewrite E in P. exists base.
  assert (C : component (slugifyProjectId toLowerCase owner repoName now)).
  { apply slug_component. unfold slugifyProjectId.
    set (t := squeeze (dashOthers (toLowerCase (owner ++ "-" ++ repoName)))).
    pose proof (trimmed_slug t) as T.
    destruct (dropLastDash (dropFirstDash t)) as [|c s];
      [apply fallback_slug|].
    apply T; [apply squeeze_chars, dashOthers_chars|apply squeeze_noDouble|].
    discriminate. }
  split; [exact P|]. split; [now apply projectRoot_child|].
  apply Forall_app. split; [exact F|now constructor].
Qed.

End S.
End ProjectDirFacts.

Module DeployPathFacts.
Import Normal Redaction StrFacts PathFacts ResolveFacts ProjectDirFacts.

Lemma normalizeSegs_app b l : forall acc rest,
  Forall component l ->
  Path.normalizeSegs b acc (l ++ rest)
  = Path.normalizeSegs b (rev l ++ acc) rest.
Proof.
  induction l as [|x l IH]; intros acc rest F; [reflexivity|].
  inversion F as [|? ? (N1 & N2 & N3 & _) F']; subst.
  cbn [app Path.normalizeSegs].
  destruct (String.eqb_spec x "") as [->|_]; [congruence|].
  destruct (String.eqb_spec x ".") as [->|_]; [congruence|].
  destruct (String.eqb_spec x "..") as [->|_]; [congruence|].
  cbn [orb]. rewrite IH by assumption. cbn [rev]. now rewrite <- app_assoc.
Qed.

(** [path.resolve] leaves a resolved path as it is. *)
Lemma resolve_fixed cwd l :
  Forall component l ->
  Path.resolve cwd ["/" ++ join "/" l] = "/" ++ join "/" l.
Proof.
  intros F. unfold Path.resolve. cbn [rev app Path.resolveLoop].
  change ("/" ++ join "/" l) with (String "/" (join "/" l)) at 1 2.
  cbv iota. rewrite isAbsolute_root. cbn [negb].
  unfold Path.normalizeString.
  change (("/" ++ join "/" l) ++ "/" ++ "")
    with ("" ++ String "/" (join "/" l ++ String "/" "")).
  rewrite !split_app_sep. cbn [Js.split app].
  rewrite normalizeSegs_skip.
  destruct l as [|x l].
  - reflexivity.
  - rewrite split_join; [|discriminate|now apply component_lacks].
    rewrite normalizeSegs_app by assumption.
    rewrite normalizeSegs_skip. cbn [Path.normalizeSegs].
    now rewrite app_nil_r, rev_involutive.
Qed.

Lemma join_snoc l x :
  l <> [] -> join "/" (l ++ [x]) = join "/" l ++ "/" ++ x.
Proof.
  induction l as [|y l IH]; [congruence|]. intros _.
  destruct l as [|z l]; [reflexivity|].
  change (join "/" ((y :: z :: l) ++ [x]))
    with (y ++ "/" ++ join "/" ((z :: l) ++ [x])).
  rewrite IH by discriminate.
  change (join "/" (y :: z :: l)) with (y ++ "/" ++ join "/" (z :: l)).
  now rewrite !sapp_assoc.
Qed.

Lemma prefix_self_app (a b : string) : String.prefix a (a ++ b) = true.
Proof.
  induction a as [|c a IH]; [now destruct b|].
  rewrite sapp_cons. cbn [String.prefix].
  destruct (Ascii.ascii_dec c c); [exact IH|congruence].
Qed.

Lemma eqb_longer (a b : string) : b <> "" -> String.eqb (a ++ b) a = false.
Proof.
  intros N. apply String.eqb_neq. intros E.
  apply (f_equal String.length) in E. rewrite slength_app in E.
  destruct b; [congruence|]. simpl in E. lia.
Qed.

Section S.
Variable cfg : Config.t.

(** A project that sends no deploy path is served from the directory
    named after it in the nginx root: [resolveDeployPath] returns
    that directory, and [ensureDeployPathWithinRoot] lets it through
    unchanged when the deployment runs.  The root must not be [/]
    itself, where the guard accepts nothing but the root. *)
Theorem default_deploy_path_is_served (raw projectId : string) :
  Path.isAbsolute (Config.cwd cfg) = true ->
  Config.NGINX_ROOT cfg = Path.resolve (Config.cwd cfg) [raw] ->
  Config.NGINX_ROOT cfg <> "/" ->
  component projectId ->
  Validator.resolveDeployPath (Config.NGINX_ROOT cfg) (Config.cwd cfg)
    None (Some projectId)
  = Ok (Config.NGINX_ROOT cfg ++ "/" ++ projectId)
  /\ Engine.ensureDeployPathWithinRoot cfg
       (Config.NGINX_ROOT cfg ++ "/" ++ projectId)
     = Ok (Config.NGINX_ROOT cfg ++ "/" ++ projectId).
Proof.
  intros Hc R Nr C.
  destruct (resolve_normal (Config.cwd cfg) [raw] Hc) as (base & E & F).
  rewrite E in R.
  assert (Nb : base <> []) by (intros ->; now apply Nr).
  assert (Fx : Forall component (base ++ [projectId]))
    by (apply Forall_app; split; [exact F|now constructor]).
  assert (P : "/" ++ join "/" (base ++ [projectId])
              = Config.NGINX_ROOT cfg ++ "/" ++ projectId).
  { rewrite R, (join_snoc _ _ Nb). reflexivity. }
  pose proof C as (Nx & _).
  split.
  - unfold Validator.resolveDeployPath.
    destruct projectId as [|c s]; [congruence|]. cbn [truthy_str].
    rewrite (pjoin_child _ base _ R F C).
    change (startsWith ("/" ++ join "/" (base ++ [String c s])) "/")
      with (Path.isAbsolute (String "/" (join "/" (base ++ [String c s])))).
    rewrite isAbsolute_root, (resolve_fixed _ _ Fx), P.
    unfold startsWith. now rewrite prefix_self_app.
  - unfold Engine.ensureDeployPathWithinRoot, Guards.ensureDeployPathWithinRoot.
    rewrite <- P, (resolve_fixed _ _ Fx). rewrite R, (resolve_fixed _ _ F).
    assert (Q : "/" ++ join "/" (base ++ [projectId])
                = ("/" ++ join "/" base) ++ "/" ++ projectId)
      by (now rewrite (join_snoc _ _ Nb)).
    rewrite Q. rewrite eqb_longer by discriminate.
    rewrite <- (sapp_assoc ("/" ++ join "/" base) "/" projectId).
    unfold startsWith, Path.sep. now rewrite prefix_self_app.
Qed.


End S.
End DeployPathFacts.

(* --------------------------------------------------------------------- *)
(** ** What the store keeps of an environment *)

Module StorageFacts.
Import EnvBuilder Storage StoredEnv StoreFacts.

Section S.
Variable encryptSecret : nat -> field string -> result string.

Lemma truthy_key e :
  truthyS (e_key e) = true -> e_key e = Val (keyOf e) /\ keyOf e <> "".
Proof.
  unfold keyOf. destruct (e_key e) as [| |k]; try discriminate.
  destruct k; [discriminate|]. now split.
Qed.

Lemma truthy_val (f : field string) :
  truthyS f = true -> exists s, f = Val s /\ s <> "".
Proof.
  destruct f as [| |s]; try discriminate. destruct s; [discriminate|].
  intros _. eexists. now split.
Qed.

Lemma existingMap_from (l : list EnvEntry) :
  forall (m : gmap string EnvEntry) k p,
  fold_left (fun (m : gmap string EnvEntry) e => match e_key e with
                        | Val k => <[k := e]> m
                        | _ => m
                        end) l m !! k = Some p ->
  m !! k = Some p \/ (In p l /\ e_key p = Val k).
Proof.
  induction l as [|e l IH]; intros m k p H; simpl in H; [now left|].
  apply IH in H as [H|[H1 H2]]; [|right; split; [now right|exact H2]].
  destruct (e_key e) as [| |k'] eqn:E; try now left.
  destruct (decide (k' = k)) as [->|N].
  - rewrite lookup_insert_eq in H. injection H as <-.
    right. split; [now left|exact E].
  - rewrite lookup_insert_ne in H by exact N. now left.
Qed.

Lemma existingMap_In l k p :
  existingMap l !! k = Some p -> In p l /\ e_key p = Val k.
Proof.
  intros H. apply existingMap_from in H as [H|H]; [|exact H].
  rewrite lookup_empty in H. discriminate.
Qed.

Lemma formatLoop_sealed existingEnv us : forall m n next,
  (forall k p, m !! k = Some p -> In p existingEnv /\ e_key p = Val k) ->
  formatLoop encryptSecret us m n = Ok next ->
  Forall (sealed encryptSecret existingEnv) next.
Proof.
  induction us as [|[u|] us IH]; intros m n next Hm H; simpl in H.
  - injection H as <-. constructor.
  - destruct (truthyS (e_key u)) eqn:K; simpl in H; [|now apply (IH m n)].
    destruct (truthy_key _ K) as [Ek Nk].
    assert (Hd : forall k p, delete (keyOf u) m !! k = Some p ->
                             In p existingEnv /\ e_key p = Val k).
    { intros k p Hp. apply lookup_delete_Some in Hp as [_ Hp]. now apply Hm. }
    destruct (e_isSecret u) eqn:S.
    + match type of H with
      | match ?x with _ => _ end = _ => destruct x as [[enc n']|msg] eqn:X
      end; [|discriminate].
      destruct (truthyS enc) eqn:T; simpl in H; [|discriminate].
      destruct (formatLoop _ us _ n') as [rest|] eqn:R; [|discriminate].
      injection H as <-. constructor; [|now apply (IH _ _ _ Hd R)].
      split; [exact K|]. simpl. split; [reflexivity|].
      destruct (truthy_val _ T) as (blob & -> & Nb).
      exists blob. split; [reflexivity|]. split; [exact Nb|].
      destruct (e_value u) as [| |v] eqn:V.
      * injection X as X _. right.
        destruct (m !! keyOf u) as [p|] eqn:P; [|discriminate].
        destruct (Hm _ _ P) as [Hin Hk]. exists p.
        split; [exact Hin|]. split; [now rewrite Ek|].
        unfold orS in X. destruct (truthyS (e_encryptedValue p)); congruence.
      * left. exists n, Null. split; [discriminate|].
        destruct (encryptSecret n Null); [|discriminate]. now injection X as ->.
      * left. exists n, (Val v). split; [discriminate|].
        destruct (encryptSecret n (Val v)); [|discriminate].
        now injection X as ->.
    + destruct (formatLoop _ us _ n) as [rest|] eqn:R; [|discriminate].
      injection H as <-. constructor; [|now apply (IH _ _ _ Hd R)].
      split; [exact K|]. simpl. split; [reflexivity|].
      unfold valueOrEmpty. destruct (e_value u); eauto.
  - now apply (IH m n).
Qed.

Lemma formatLoop_members us : forall m n next u,
  formatLoop encryptSecret us m n = Ok next ->
  In (Some u) us -> truthyS (e_key u) = true ->
  exists e, In e next /\ e_key e = e_key u /\ e_isSecret e = e_isSecret u.
Proof.
  induction us as [|[x|] us IH]; intros m n next u H Hin K; simpl in H.
  - destruct Hin.
  - assert (Later : forall m' n' rest,
               formatLoop encryptSecret us m' n' = Ok rest ->
               In (Some u) us ->
               exists e, In e rest /\ e_key e = e_key u
                         /\ e_isSecret e = e_isSecret u)
      by (intros m' n' rest R I; exact (IH _ _ _ _ R I K)).
    destruct Hin as [[= ->]|Hin].
    + rewrite K in H. simpl in H. destruct (e_isSecret u) eqn:S.
      * match type of H with
        | match ?x with _ => _ end = _ => destruct x as [[enc n']|msg]
        end; [|discriminate].
        destruct (truthyS enc); simpl in H; [|discriminate].
        destruct (formatLoop _ us _ n') as [rest|]; [|discriminate].
        injection H as <-. eexists. split; [now left|]. now split.
      * destruct (formatLoop _ us _ n) as [rest|]; [|discriminate].
        injection H as <-. eexists. split; [now left|]. now split.
    + destruct (truthyS (e_key x)); simpl in H; [|now apply (Later m n)].
      destruct (e_isSecret x).
      * match type of H with
        | match ?x with _ => _ end = _ => destruct x as [[enc n']|msg]
        end; [|discriminate].
        destruct (truthyS enc); simpl in H; [|discriminate].
        destruct (formatLoop _ us _ n') as [rest|] eqn:R; [|discriminate].
        injection H as <-.
        destruct (Later _ _ _ R Hin) as (e & I & E). exists e.
        split; [now right|exact E].
      * destruct (formatLoop _ us _ n) as [rest|] eqn:R; [|discriminate].
        injection H as <-.
        destruct (Later _ _ _ R Hin) as (e & I & E). exists e.
        split; [now right|exact E].
  - destruct Hin as [[=]|Hin]. now apply (IH m n).
Qed.

(** What [formatEnvForStorage] returns for a list of updates holds
    sealed entries only: no secret is stored with a [value], every
    secret has a non-empty encrypted value, and that value was made by
    [encryptSecret] or was stored before under the same key.  Every
    update that has a name is among them, secret if it was sent as
    secret. *)
Theorem stored_entries_are_sealed existingEnv updates next :
  formatEnvForStorage encryptSecret existingEnv (Some updates) = Ok next ->
  Forall (sealed encryptSecret existingEnv) next
  /\ forall u, In (Some u) updates -> truthyS (e_key u) = true ->
       exists e, In e next /\ e_key e = e_key u
                 /\ e_isSecret e = e_isSecret u.
Proof.
  unfold formatEnvForStorage. intros H. split.
  - apply (formatLoop_sealed existingEnv _ _ _ _ (existingMap_In _) H).
  - intros u. apply (formatLoop_members _ _ _ _ _ H).
Qed.

(** [getProject] hands sealed entries to the engine as they are. *)
Lemma normalize_sealed existingEnv l :
  Forall (sealed encryptSecret existingEnv) l ->
  ProjectStore.normalizeStoredEnv (ProjectStore.asArray l) = l.
Proof.
  unfold ProjectStore.asArray, ProjectStore.normalizeStoredEnv.
  induction 1 as [|e l (K & Hs) _ IH]; [reflexivity|].
  cbn [map omap list_omap]. fold (omap (M:=list) ProjectStore.normalizeEntry).
  rewrite IH. unfold ProjectStore.normalizeEntry. rewrite K.
  destruct e as [k s v enc]. simpl in *. destruct s.
  - destruct Hs as (-> & blob & -> & Nb & _).
    unfold orS. simpl. now destruct blob.
  - destruct Hs as (-> & x & ->). reflexivity.
Qed.

Variable decryptSecret : string -> result string.

(** Whatever [encryptSecret] returns, [decryptSecret] accepts. *)
Hypothesis opens : forall n v blob,
  encryptSecret n v = Ok blob -> exists text, decryptSecret blob = Ok text.

Lemma below_trans a b c : below a b -> below b c -> below a c.
Proof. intros (A1 & A2 & A3) (B1 & B2 & B3). repeat split; auto. Qed.

Lemma assign_keeps bare (m : gmap string string) k v k' :
  is_Some (m !! k') -> is_Some (assign bare m k v !! k').
Proof.
  unfold assign. destruct (isProto k && negb bare); [auto|].
  destruct (decide (k = k')) as [->|N].
  - rewrite lookup_insert_eq. eauto.
  - now rewrite lookup_insert_ne.
Qed.

Lemma assign_stores (m : gmap string string) k v :
  k <> "__proto__" -> is_Some (assign false m k v !! k).
Proof.
  intros N. unfold assign, isProto.
  apply String.eqb_neq in N. rewrite N. cbn.
  rewrite lookup_insert_eq. eauto.
Qed.

Lemma assign_proto (m : gmap string string) k v :
  m !! "__proto__" = None -> assign false m k v !! "__proto__" = None.
Proof.
  intros H. unfold assign, isProto.
  destruct (String.eqb_spec k "__proto__") as [->|N]; [exact H|].
  cbn. now rewrite lookup_insert_ne.
Qed.

Lemma buildLoop_sealed l : forall acc,
  Forall (sealed encryptSecret []) l ->
  exists maps,
    buildLoop decryptSecret (map Some l) acc false = Ok maps
    /\ below acc maps
    /\ (forall e, In e l -> keyOf e <> "__proto__" -> loaded maps e)
    /\ (protoFree acc -> protoFree maps).
Proof.
  induction l as [|e l IH]; intros acc F.
  - exists acc. split; [reflexivity|]. split; [now repeat split|].
    split; [intros e []|auto].
  - inversion F as [|? ? (K & Hs) F']; subst.
    destruct (truthy_key _ K) as [Ek Nk].
    cbn [map buildLoop]. rewrite K. cbn [negb].
    destruct (e_isSecret e) eqn:S.
    + destruct Hs as (_ & blob & Eb & Nb & [(n & v & _ & Henc)|(p & [] & _)]).
      destruct (opens _ _ _ Henc) as [text Hd].
      rewrite Eb. simpl truthyS.
      destruct blob as [|c blob]; [congruence|]. cbv iota. rewrite Hd.
      destruct (IH (mkMaps (plainEnv acc)
                           (assign false (secretEnv acc) (keyOf e) text)
                           (secretKeys acc ++ [keyOf e])%list) F')
        as (maps & B & (L1 & L2 & L3) & Hl & Hp).
      exists maps. split; [exact B|]. split; [|split].
      * repeat split; intros k Hk.
        -- apply L1. simpl. apply in_app_iff. now left.
        -- apply L2. simpl. now apply assign_keeps.
        -- now apply L3.
      * intros x [<-|Hx] Nx; [|now apply Hl].
        unfold loaded. rewrite S. split.
        -- apply L1. simpl. apply in_app_iff. right. now left.
        -- apply L2. simpl. now apply assign_stores.
      * intros [P1 P2]. apply Hp. split; [exact P1|].
        simpl. now apply assign_proto.
    + destruct Hs as (_ & v & Ev). rewrite Ev.
      destruct (IH (mkMaps (assign false (plainEnv acc) (keyOf e) v)
                           (secretEnv acc) (secretKeys acc)) F')
        as (maps & B & (L1 & L2 & L3) & Hl & Hp).
      exists maps. split; [exact B|]. split; [|split].
      * repeat split; intros k Hk; [now apply L1|now apply L2|].
        apply L3. simpl. now apply assign_keeps.
      * intros x [<-|Hx] Nx; [|now apply Hl].
        unfold loaded. rewrite S. apply L3. simpl. now apply assign_stores.
      * intros [P1 P2]. apply Hp. split; [|exact P2].
        simpl. now apply assign_proto.
Qed.

(** A project that [saveProject] has stored can be deployed: as long
    as [decryptSecret] opens what [encryptSecret] sealed, [getProject]
    finds the project, [buildEnvMaps] accepts its environment, and
    every variable that was submitted with a name other than
    [__proto__] is in the maps, a secret one among the secrets and the
    keys to redact.  A variable named [__proto__] is lost: the
    assignment [plainEnv[key] = value] goes to the accessor of
    [Object.prototype], and neither map holds that name. *)
Theorem saved_environment_loads projectId data w w' :
  saveProject encryptSecret projectId data w = (Ok tt, w') ->
  exists pr maps,
    ProjectStore.getProject projectId w' = (Ok (Some pr), w')
    /\ buildEnvMaps decryptSecret (Engine.envEntriesOf pr) = Ok maps
    /\ (forall u, In (Some u) (envUpdatesOf data) ->
                  truthyS (e_key u) = true -> keyOf u <> "__proto__" ->
                  loaded maps u)
    /\ protoFree maps.
Proof.
  unfold saveProject, liftR, ProjectStore.writeProject, modify.
  unfold mbind, se_bind, bind.
  destruct (formatEnvForStorage encryptSecret [] (Some (envUpdatesOf data)))
    as [stored|msg] eqn:F; [|discriminate].
  intros [= <-]. rewrite getProject_spec. unfold found. cbn [projects].
  rewrite lookup_insert_eq.
  pose proof (formatLoop_sealed [] _ _ _ _ (existingMap_In _) F) as Sd.
  eexists.
  destruct (buildLoop_sealed stored (mkMaps ∅ ∅ []) Sd)
    as (maps & B & _ & Hl & Hp).
  exists maps. split; [reflexivity|].
  unfold Engine.envEntriesOf, ProjectStore.withDefaults. cbn [env].
  rewrite (normalize_sealed _ _ Sd). unfold ProjectStore.asArray.
  split; [exact B|]. split.
  - intros u Hu K Nu.
    destruct (formatLoop_members _ _ _ _ _ F Hu K) as (e & He & Ek & Es).
    assert (Ne : keyOf e <> "__proto__") by (unfold keyOf in *; now rewrite Ek).
    specialize (Hl e He Ne). unfold loaded, keyOf in *.
    now rewrite <- Ek, <- Es.
  - apply Hp. split; apply lookup_empty.
Qed.

End S.
End StorageFacts.

(* --------------------------------------------------------------------- *)
(** ** A rollback that succeeds *)

Module RestoreFacts.
Import Frames Kept Host Engine StoreFacts QuietFacts HostFacts.

Lemma keeps_quiet {A} p (m : ExtM A) : quiet m -> keeps p m.
Proof. intros Q e r e' H. apply Q in H as [-> _]. reflexivity. Qed.

Lemma keeps_bind {A B} p (m : ExtM A) (k : A -> ExtM B) :
  keeps p m -> (forall a, keeps p (k a)) -> keeps p (m ≫= k).
Proof.
  intros Hm Hk e r e' H. unfold mbind, se_bind, bind in H.
  destruct (m e) as [[a|msg] e1] eqn:E.
  - rewrite (Hk a _ _ _ H). exact (Hm _ _ _ E).
  - injection H as _ <-. exact (Hm _ _ _ E).
Qed.

Lemma keeps_tryCatch {A} p (m : ExtM A) (h : string -> ExtM A) :
  keeps p m -> (forall msg, keeps p (h msg)) -> keeps p (tryCatch m h).
Proof.
  intros Hm Hh e r e' H. unfold tryCatch in H.
  destruct (m e) as [[a|msg] e1] eqn:E.
  - injection H as _ <-. exact (Hm _ _ _ E).
  - rewrite (Hh msg _ _ _ H). exact (Hm _ _ _ E).
Qed.

Lemma keeps_mkdirp p dir : p <> dir -> keeps p (mkdirp dir).
Proof.
  intros N e r e'. unfold mkdirp, setFs, modify.
  destruct (fs e !! dir) as [[| |]|]; intros [= _ <-]; cbn; try reflexivity.
  now rewrite lookup_insert_ne.
Qed.

Lemma keeps_writeFile p file content : p <> file -> keeps p (writeFile file content).
Proof.
  intros N e r e'. unfold writeFile, setFs, modify.
  destruct (fs e !! file) as [[| |]|]; intros [= _ <-]; cbn;
    try reflexivity; now rewrite lookup_insert_ne.
Qed.

Lemma keeps_symlink p target link : p <> link -> keeps p (symlink target link).
Proof.
  intros N e r e'. unfold symlink, setFs, modify.
  destruct (fs e !! link); intros [= _ <-]; cbn; [reflexivity|].
  now rewrite lookup_insert_ne.
Qed.

Lemma keeps_unlink p file : p <> file -> keeps p (unlink file).
Proof.
  intros N e r e'. unfold unlink, setFs, modify.
  destruct (fs e !! file) as [[| |]|]; intros [= _ <-]; cbn;
    try reflexivity; now rewrite lookup_delete_ne.
Qed.

Lemma keeps_runCommand spawn p cmd args options logStream dry :
  readOnly spawn -> keeps p (runCommand spawn cmd args options logStream dry).
Proof.
  intros RO e r e' H. now rewrite (runCommand_readOnly _ _ _ _ _ _ _ _ _ RO H).
Qed.

Lemma keeps_removePath p target :
  p <> target -> startsWith p (target ++ "/") = false ->
  keeps p (removePath target).
Proof.
  intros N B e r e' H.
  destruct (removePath_removes target e) as (e1 & E & _ & F).
  rewrite E in H. injection H as _ <-. now apply F.
Qed.

Lemma keeps_writeConfig cfg spawn projectId options logStream dry p :
  readOnly spawn -> clearOf cfg projectId p ->
  keeps p (NginxManager.writeConfig cfg spawn projectId options logStream dry).
Proof.
  intros RO (N1 & N2 & N3 & N4). unfold NginxManager.writeConfig.
  destruct (_ && _); [apply keeps_quiet, quiet_throw|].
  apply keeps_bind; [apply keeps_quiet, quiet_logWrite|]. intros _.
  apply keeps_bind.
  - destruct dry; [apply keeps_quiet, quiet_ret|].
    apply keeps_bind; [now apply keeps_mkdirp|]. intros _.
    apply keeps_bind; [now apply keeps_mkdirp|]. intros _.
    apply keeps_bind; [now apply keeps_writeFile|]. intros _.
    apply keeps_tryCatch; [now apply keeps_symlink|]. intros _.
    apply keeps_bind.
    + apply keeps_quiet. quiet.
    + intros t. destruct (bool_decide _); [apply keeps_quiet, quiet_ret|].
      apply keeps_bind; [now apply keeps_unlink|]. intros _.
      now apply keeps_symlink.
  - intros _. apply keeps_bind; [now apply keeps_runCommand|]. intros _.
    apply keeps_bind; [now apply keeps_runCommand|]. intros _.
    apply keeps_quiet, quiet_ret.
Qed.

Lemma symlink_Ok target link e e' :
  symlink target link e = (Ok tt, e') -> fs e' !! link = Some (Link target).
Proof.
  unfold symlink, setFs, modify. destruct (fs e !! link); [discriminate|].
  intros [= <-]. cbn. apply lookup_insert_eq.
Qed.

Section S.
Variable cfg : Config.t.
Variable spawn : nat -> string -> list string -> SpawnOpts -> ProcOutcome.

(** When [rollbackProject] returns, the project had a [previous] link,
    and the deploy path is now a link to the release it named; so is
    [current], unless the deploy path lies at or above it.  Both hold
    for paths that are not the ones the web-server configuration is
    written to.  The stores are as before. *)
Theorem rollback_restores_previous projectId w w' :
  readOnly spawn ->
  rollbackProject cfg spawn projectId w = (Ok tt, w') ->
  exists target pr dp safe,
    fs (ext w) !! ProjectStore.previousSymlink cfg projectId
    = Some (Link target)
    /\ found projectId (projects w) = Some pr
    /\ deployPath pr = Val dp
    /\ ensureDeployPathWithinRoot cfg dp = Ok safe
    /\ projects w' = projects w /\ deployments w' = deployments w
    /\ (clearOf cfg projectId safe ->
        fs (ext w') !! safe = Some (Link target))
    /\ (clearOf cfg projectId (ProjectStore.currentSymlink cfg projectId) ->
        ProjectStore.currentSymlink cfg projectId <> safe ->
        startsWith (ProjectStore.currentSymlink cfg projectId) (safe ++ "/")
        = false ->
        fs (ext w') !! ProjectStore.currentSymlink cfg projectId
        = Some (Link target)).
Proof.
  intros RO. unfold rollbackProject.
  set (cur := ProjectStore.currentSymlink cfg projectId).
  set (prev := ProjectStore.previousSymlink cfg projectId).
  unfold mbind at 1, se_bind at 1, bind at 1.
  unfold tryCatch at 1, liftExt at 1, readlink.
  destruct (fs (ext w) !! prev) as [[| |target]|] eqn:P; try discriminate.
  destruct w as [ps ds e]. cbn [ext projects deployments] in *.
  unfold mbind at 1, se_bind at 1, bind at 1. unfold liftExt at 1.
  cbn [ext projects deployments].
  destruct ((swallow (rmForce cur);; symlink target cur) e)
    as [[[]|msg] e1] eqn:E1; [|discriminate].
  assert (C1 : fs e1 !! cur = Some (Link target)).
  { revert E1. unfold mbind, se_bind, bind.
    destruct (swallow (rmForce cur) e) as [[[]|?] e0]; [|discriminate].
    apply symlink_Ok. }
  unfold mbind at 1, se_bind at 1, bind at 1. rewrite getProject_spec.
  cbn [projects].
  destruct (found projectId ps) as [pr|] eqn:F; [|discriminate].
  destruct (deployPath pr) as [| |dp] eqn:D; try discriminate.
  destruct (negb (truthy_str dp)); [discriminate|].
  unfold mbind at 1, se_bind at 1, bind at 1, liftR at 1.
  destruct (ensureDeployPathWithinRoot cfg dp) as [safe|msg] eqn:G;
    [|discriminate].
  unfold liftExt. cbn [ext projects deployments].
  match goal with
  | |- (let '(_, _) := ?m e1 in _) = _ -> _ =>
      destruct (m e1) as [r2 e2] eqn:E2
  end.
  intros [= -> <-]. cbn [ext projects deployments].
  exists target, pr, dp, safe.
  split; [reflexivity|]. split; [reflexivity|]. split; [exact D|].
  split; [exact G|]. split; [reflexivity|]. split; [reflexivity|]. split.
  - intros Cl. revert E2. unfold mbind at 1, se_bind at 1, bind at 1.
    destruct (removePath safe e1) as [[[]|?] ea]; [|discriminate].
    unfold mbind at 1, se_bind at 1, bind at 1.
    destruct (symlink target safe ea) as [[[]|?] eb] eqn:Eb; [|discriminate].
    apply symlink_Ok in Eb. intros H. rewrite <- Eb.
    revert H. generalize eb (Ok tt : result unit) e2.
    apply keeps_bind; [now apply keeps_writeConfig|]. intros _.
    destruct (_ && _); [|apply keeps_quiet, quiet_ret].
    apply keeps_bind; [now apply keeps_runCommand|]. intros _.
    apply keeps_quiet, quiet_ret.
  - intros Cl N B. rewrite <- C1. revert E2.
    generalize e1 (Ok tt : result unit) e2.
    apply keeps_bind; [now apply keeps_removePath|]. intros _.
    apply keeps_bind; [now apply keeps_symlink|]. intros _.
    apply keeps_bind; [now apply keeps_writeConfig|]. intros _.
    destruct (_ && _); [|apply keeps_quiet, quiet_ret].
    apply keeps_bind; [now apply keeps_runCommand|]. intros _.
    apply keeps_quiet, quiet_ret.
Qed.

End S.
End RestoreFacts.

(* --------------------------------------------------------------------- *)
(** ** Admission and what follows it *)

Module AdmissionFacts.
Import Engine StoreFacts PreludeFacts StepFacts RunFacts.

Section S.
Variable cfg : Config.t.
Variable uuid : nat -> string.
Variable decryptSecret : string -> result string.
Variable spawn : nat -> string -> list string -> SpawnOpts -> ProcOutcome.
Variable processEnv : gmap string string.
Variable random1000 : Z.
Variable toNumber : string -> field Z.

(** What the admission check has looked at when it lets a project
    through. *)
Lemma admissionCheck_Ok pr queued active :
  admissionCheck cfg (Some pr) queued active = Ok tt ->
  exists dp safe,
    deployPath pr = Val dp /\ ensureDeployPathWithinRoot cfg dp = Ok safe
    /\ (ownerIsAdmin pr = false -> truthyS (templateId pr) = true)
    /\ (Z.of_nat queued + Z.of_nat active < MAX_QUEUE_SIZE cfg)%Z.
Proof.
  unfold admissionCheck.
  destruct (negb (truthyS (deployPath pr))); [discriminate|].
  destruct (_ || _); [discriminate|].
  destruct (ownerIsAdmin pr && _); [discriminate|].
  destruct (negb (ownerIsAdmin pr) && negb (truthyS (templateId pr))) eqn:T;
    [discriminate|].
  destruct (deployPath pr) as [| |dp]; try discriminate.
  destruct (ensureDeployPathWithinRoot cfg dp) as [safe|] eqn:S;
    [|discriminate].
  destruct (_ >=? _)%Z eqn:G; [discriminate|]. intros _.
  exists dp, safe. split; [reflexivity|]. split; [exact S|]. split.
  - intros A. rewrite A in T. simpl in T. now apply negb_false_iff in T.
  - rewrite Z.geb_leb in G. now apply Z.leb_gt in G.
Qed.

(** The admission check of [queueDeployment] asks for a [templateId]
    but does not look it up.  A project of another owner than the
    administrator whose template is not in the catalogue is admitted;
    its deployment then rejects before the [try] block of
    [runDeployment], and the record stays [running], without an error
    or a finish time. *)
Theorem unknown_template_is_admitted_and_never_finishes
        job w pr d queued active :
  found (j_projectId job) (projects w) = Some pr ->
  ownerIsAdmin pr = false ->
  CommandTemplates.getTemplate (templateId pr) = None ->
  admissionCheck cfg (Some pr) queued active = Ok tt ->
  deployments w !! j_deploymentId job = Some d ->
  (forall content,
      fs (ext w) !! Path.dirname (DeploymentStore.getLogPath cfg
                                    (j_projectId job) (j_deploymentId job))
      <> Some (File content)) ->
  exists w' d',
    runDeployment cfg decryptSecret spawn processEnv random1000 toNumber job w
    = (Throw "Command template missing or invalid for this project", w')
    /\ deployments w' !! j_deploymentId job = Some d'
    /\ status d' = Running
    /\ steps d' = steps d
    /\ finishedAt d' = finishedAt d
    /\ error d' = error d.
Proof.
  intros F A T Adm Hd Hlog.
  destruct (admissionCheck_Ok _ _ _ Adm) as (dp & safe & D & G & Tid & _).
  unfold runDeployment. unfold mbind at 1, se_bind at 1, bind at 1.
  unfold prelude. unfold mbind at 1, se_bind at 1, bind at 1.
  unfold liftExt at 1, writeLog, mbind, se_bind, bind, mkdirp.
  destruct (fs (ext w) !! Path.dirname _) as [[|content|]|] eqn:E;
    try (now destruct (Hlog content)); cbn.
  all: rewrite (updateDeployment_spec _ _ _ d) by exact Hd.
  all: rewrite getProject_spec; cbn [projects].
  all: rewrite F, D; unfold liftR; rewrite G, A, T, (Tid A); cbn.
  all: eexists _, _; split; [reflexivity|]; cbn; rewrite lookup_insert_eq.
  all: split; [reflexivity|]; cbn; auto.
Qed.

(** [queueDeployment] tests [project?.deployPath] before it tests
    [project]: a project that does not exist is reported as a project
    that misses its deploy path, and the error for a project that is
    not found is never thrown.  Nothing is written or queued. *)
Theorem missing_project_is_reported_as_missing_deployPath
        projectId isDryRun st r st' :
  enter cfg projectId isDryRun st = (r, st') ->
  r <> Throw "Project not found"
  /\ (found projectId (projects (world st)) = None ->
      r = Throw "Project missing deployPath" /\ st' = st).
Proof.
  unfold enter. rewrite getProject_spec.
  destruct (found projectId (projects (world st))) as [pr|] eqn:F.
  - destruct (admissionCheck cfg (Some pr) _ _) as [[]|msg] eqn:A;
      intros [= <- _]; (split; [|discriminate]); [discriminate|].
    intros [= ->]. revert A. unfold admissionCheck.
    destruct (negb (truthyS (deployPath pr))); [discriminate|].
    destruct (_ || _); [discriminate|].
    destruct (ownerIsAdmin pr && _); [discriminate|].
    destruct (negb (ownerIsAdmin pr) && _); [discriminate|].
    destruct (deployPath pr) as [| |dp]; try discriminate.
    unfold ensureDeployPathWithinRoot, Guards.ensureDeployPathWithinRoot.
    destruct (String.eqb _ _).
    + destruct (_ >=? _)%Z; discriminate.
    + destruct (negb _); [discriminate|]. destruct (_ >=? _)%Z; discriminate.
  - cbn. intros [= <- <-]. split; [discriminate|]. intros _.
    split; [reflexivity|]. now destruct st.
Qed.

End S.
End AdmissionFacts.

(* --------------------------------------------------------------------- *)
(** ** The statements on the sample installations *)

Import Samples.

Lemma ensureWithinBase_below_base_witness :
  exists base more,
    Path.resolve "/srv/api" ["/var/deploy/projects/p1/repo"]
    = "/" ++ join "/" base
    /\ "/var/deploy/projects/p1/repo/build" = "/" ++ join "/" (base ++ more)
    /\ Forall Normal.component (base ++ more).
Proof.
  apply (ResolveFacts.ensureWithinBase_below_base
           "/srv/api" "/var/deploy/projects/p1/repo" "./build/"
           "Build output path").
  - reflexivity.
  - vm_compute. reflexivity.
Defined.

Lemma ensureDeployPathWithinRoot_below_root_witness :
  exists base more,
    Path.resolve "/srv/api" ["/var/www"] = "/" ++ join "/" base
    /\ "/var/www/p1" = "/" ++ join "/" (base ++ more)
    /\ Forall Normal.component (base ++ more).
Proof.
  apply (ResolveFacts.ensureDeployPathWithinRoot_below_root
           "/var/www" "/srv/api" "/var/www/x/../p1").
  - reflexivity.
  - vm_compute. reflexivity.
Defined.

Lemma workers_stay_within_limit_witness :
  exists st,
    Examples.reachable st /\ Engine.active (Engine.q st) = 1
    /\ Workers.balanced Examples.cfg st.
Proof.
  eassert (R : Examples.reachable _).
  { eapply Engine.reach_step.
    - eapply Engine.reach_step; [apply Engine.reach_init|].
      eapply (Engine.step_enter _ _ _ _ _ _ _ "p1" false).
      vm_compute. reflexivity.
    - eapply (Engine.step_commit _ _ _ _ _ _ _ [] ("p1", false) []).
      + vm_compute. reflexivity.
      + vm_compute. reflexivity. }
  eexists. split; [exact R|]. split; [reflexivity|].
  exact (WorkerFacts.workers_stay_within_limit
           Examples.cfg Examples.uuid Examples.decryptSecret Examples.spawn
           ∅ 7%Z Examples.toNumber Examples.world0 _ R).
Defined.

Lemma text_without_equals_is_unchanged_witness :
  Command.write "npm warn deprecated API_TOKEN" ["API_TOKEN"]
  = "npm warn deprecated API_TOKEN".
Proof.
  apply (RedactMore.text_without_equals_is_unchanged
           "npm warn deprecated API_TOKEN" ["API_TOKEN"]).
  reflexivity.
Defined.

Lemma assignment_is_masked_witness :
  Command.write ("api_token" ++ "=" ++ "hunter2" ++ " npm start") ["API_TOKEN"]
  = "API_TOKEN" ++ "=[redacted]" ++ Command.write " npm start" ["API_TOKEN"].
Proof.
  apply (RedactMore.assignment_is_masked "API_TOKEN" "api_token" "hunter2"
           " npm start").
  - reflexivity.
  - reflexivity.
  - discriminate.
  - reflexivity.
  - reflexivity.
Defined.

Lemma redaction_is_idempotent_witness :
  Command.write (Command.write "export API_TOKEN=hunter2 ok" ["API_TOKEN"])
                ["API_TOKEN"]
  = Command.write "export API_TOKEN=hunter2 ok" ["API_TOKEN"].
Proof.
  apply (RedactMore.redaction_is_idempotent "export API_TOKEN=hunter2 ok"
           "API_TOKEN").
  reflexivity.
Defined.

Lemma secret_values_have_redact_keys_witness :
  In "API_TOKEN"
     (EnvBuilder.secretKeys
        (EnvBuilder.mkMaps ∅ {[ "API_TOKEN" := "hunter2" ]} ["API_TOKEN"])).
Proof.
  apply (EnvFacts.secret_values_have_redact_keys unseal
           [Some (mkEnv (Val "API_TOKEN") true Absent (Val "sealed:hunter2"))]
           _ "API_TOKEN" "hunter2").
  - vm_compute. reflexivity.
  - vm_compute. reflexivity.
Defined.

Lemma node_port_is_set_and_shared_witness :
  exists c w',
    Samples.prelude liveJob world3 = (Ok c, w')
    /\ Engine.c_runtimePort c = Val 4007%Z
    /\ truthyZ (Engine.c_runtimePort c) = true
    /\ Engine.c_env c !! "PORT"
       = Some (NginxManager.portText (Engine.c_runtimePort c)).
Proof.
  destruct (Samples.prelude liveJob world3) as [[c|msg] w'] eqn:E.
  - exists c, w'. split; [reflexivity|].
    assert (T : Engine.c_runtimeType c = "node"
                /\ Engine.c_runtimePort c = Val 4007%Z).
    { vm_compute in E. inversion E. split; reflexivity. }
    split; [apply T|].
    apply (RunFacts.node_port_is_set_and_shared
             Examples.cfg unseal ∅ 7%Z Examples.toNumber
             liveJob world3 c w'); [lia|exact E|apply T].
  - vm_compute in E. discriminate.
Defined.

Lemma run_ends_finished_witness :
  exists w' d' t,
    Engine.runDeployment Examples.cfg unseal Examples.spawn ∅ 7%Z
      Examples.toNumber liveJob world3 = (Ok tt, w')
    /\ deployments w' !! "d1" = Some d'
    /\ (status d' = Success \/ status d' = Failed)
    /\ finishedAt d' = Val t.
Proof.
  destruct (Samples.prelude liveJob world3) as [[c|msg] w0] eqn:E.
  - apply (RunFacts.run_ends_finished
             Examples.cfg unseal Examples.spawn ∅ 7%Z Examples.toNumber
             liveJob world3 queuedLive c w0); [vm_compute; reflexivity|exact E].
  - vm_compute in E. discriminate.
Defined.

Lemma rejected_run_stays_running_witness :
  exists msg w',
    Examples.runDeployment Examples.dryRunJob world4 = (Throw msg, w')
    /\ exists d', deployments w' !! "d0" = Some d'
    /\ status d' = Running
    /\ steps d' = steps Examples.queuedDryRun
    /\ finishedAt d' = finishedAt Examples.queuedDryRun
    /\ error d' = error Examples.queuedDryRun.
Proof.
  destruct (Examples.runDeployment Examples.dryRunJob world4)
    as [[[]|msg] w'] eqn:E.
  - vm_compute in E. discriminate E.
  - exists msg, w'. split; [reflexivity|].
    apply (RunFacts.rejected_run_stays_running
             Examples.cfg Examples.decryptSecret Examples.spawn ∅ 7%Z
             Examples.toNumber Examples.dryRunJob world4
             Examples.queuedDryRun msg w').
    + vm_compute. reflexivity.
    + intros content. vm_compute. discriminate.
    + exact E.
Defined.

Lemma dry_run_is_confined_witness :
  exists r w',
    Engine.runDeployment Examples.cfg Examples.decryptSecret Examples.spawn
      ∅ 7%Z Examples.toNumber Examples.dryRunJob Examples.world1 = (r, w')
    /\ fs (ext w') = {[ "/var/deploy/logs/p1" := Dir ]}
    /\ trace (ext w') = [EMkdir "/var/deploy/logs/p1"]
    /\ (forall p, p <> "/var/deploy/logs/p1/d0.log" ->
          logs (ext w') !! p = logs (ext Examples.world1) !! p)
    /\ (forall other, other <> "d0" ->
          deployments w' !! other = deployments Examples.world1 !! other)
    /\ (forall other, other <> "p1" ->
          projects w' !! other = projects Examples.world1 !! other)
    /\ is_Some (logs (ext w') !! "/var/deploy/logs/p1/d0.log")
    /\ deployments w' !! "d0" <> deployments Examples.world1 !! "d0"
    /\ projects w' !! "p1" <> projects Examples.world1 !! "p1".
Proof.
  destruct (Engine.runDeployment Examples.cfg Examples.decryptSecret
              Examples.spawn ∅ 7%Z Examples.toNumber Examples.dryRunJob
              Examples.world1) as [r w'] eqn:E.
  exists r, w'. split; [reflexivity|].
  pose proof (QuietFacts.dry_run_is_confined
              Examples.cfg Examples.decryptSecret Examples.spawn ∅ 7%Z
              Examples.toNumber Examples.dryRunJob Examples.world1 r w'
              eq_refl E) as (F & T & L & D & P).
  split; [rewrite F; vm_compute; reflexivity|].
  split; [rewrite T; vm_compute; reflexivity|].
  split; [intros p N; apply L; intros ->; apply N; vm_compute; reflexivity|].
  split; [exact D|]. split; [exact P|].
  vm_compute in E. injection E as _ <-.
  split; [eexists; vm_compute; reflexivity|].
  split; vm_compute; discriminate.
Defined.

Lemma template_project_runs_catalogue_scripts_witness :
  exists r w',
    Engine.runDeployment Examples.cfg unseal Examples.spawn ∅ 7%Z
      Examples.toNumber liveJob world3 = (r, w')
    /\ In (ESpawn "bash" ["-lc"; "npm ci"]) (trace (ext w'))
    /\ exists new,
         trace (ext w') = (trace (ext world3) ++ new)%list
         /\ Forall (Spawns.templateSpawn Examples.cfg) new.
Proof.
  destruct (Engine.runDeployment Examples.cfg unseal Examples.spawn ∅ 7%Z
              Examples.toNumber liveJob world3) as [r w'] eqn:E.
  exists r, w'. split; [reflexivity|]. split.
  - vm_compute in E. inversion E. vm_compute. tauto.
  - apply (SpawnFacts.template_project_runs_catalogue_scripts
             Examples.cfg unseal Examples.spawn ∅ 7%Z Examples.toNumber
             liveJob world3 (ProjectStore.withDefaults "p2" p2) r w').
    + vm_compute. reflexivity.
    + vm_compute. reflexivity.
    + exact E.
Defined.

Lemma runCommand_result_witness :
  exists res e',
    runCommand Examples.spawn "git" ["rev-parse"; "HEAD"] noOpts
               (Some "/var/deploy/logs/p1/d0.log") false Examples.host0
    = (Ok res, e')
    /\ r_stdout res = "0123456789abcdef0123456789abcdef01234567" ++ nl
    /\ Host.logOf e' "/var/deploy/logs/p1/d0.log"
       = ["0123456789abcdef0123456789abcdef01234567" ++ nl]
    /\ trace e' = [ESpawn "git" ["rev-parse"; "HEAD"]].
Proof.
  destruct (runCommand Examples.spawn "git" ["rev-parse"; "HEAD"] noOpts
              (Some "/var/deploy/logs/p1/d0.log") false Examples.host0)
    as [[res|msg] e'] eqn:E.
  - exists res, e'. split; [reflexivity|].
    destruct (HostFacts.runCommand_result _ _ _ _ _ _ _ _ E)
      as (_ & -> & L & T).
    rewrite L, T. repeat split; vm_compute; reflexivity.
  - vm_compute in E. discriminate E.
Defined.

Lemma writeConfig_enables_site_witness :
  exists e',
    NginxManager.writeConfig Examples.cfg Examples.printenv "p1" staticSite
                             None false Examples.host0 = (Ok tt, e')
    /\ fs e' !! "/etc/nginx/sites-available/deployer-p1.conf"
       = Some (File (NginxManager.renderStaticConfig staticSite))
    /\ fs e' !! "/etc/nginx/sites-enabled/deployer-p1.conf"
       = Some (Link "/etc/nginx/sites-available/deployer-p1.conf").
Proof.
  destruct (NginxManager.writeConfig Examples.cfg Examples.printenv "p1"
              staticSite None false Examples.host0) as [[[]|msg] e'] eqn:E.
  - exists e'. split; [reflexivity|].
    apply (HostFacts.writeConfig_enables_site Examples.cfg Examples.printenv
             "p1" staticSite None Examples.host0 e').
    + intros n cmd args o m. reflexivity.
    + vm_compute. discriminate.
    + intros target. vm_compute. discriminate.
    + exact E.
  - vm_compute in E. discriminate E.
Defined.

Lemma releaseStep_copies_within_repo_witness :
  (exists l' w',
      Engine.releaseStep Examples.cfg releaseCtx
        (Engine.mkLocals (Val "0123456789abcdef") None) built = (Ok l', w')
      /\ In (ECopy "/var/deploy/projects/p1/repo/build"
                   "/var/deploy/projects/p1/releases/3-0123456")
            (trace (ext w'))
      /\ exists new,
           trace (ext w') = (trace (ext built) ++ new)%list
           /\ Forall (copiesFrom "/var/deploy/projects/p1/repo") new)
  /\ Engine.releaseStep Examples.cfg escapeCtx
       (Engine.mkLocals (Val "0123456789abcdef") None) built
     = (Throw "Build output path must stay within the project repository",
        built).
Proof.
  split.
  - destruct (Engine.releaseStep Examples.cfg releaseCtx
                (Engine.mkLocals (Val "0123456789abcdef") None) built)
      as [[l'|msg] w'] eqn:E; [|vm_compute in E; discriminate E].
    exists l', w'. split; [reflexivity|]. split.
    + vm_compute in E. injection E as _ <-. vm_compute. tauto.
    + apply (ReleaseFacts.releaseStep_copies_within_repo _ _ _ _ _ _ E).
  - destruct (Engine.releaseStep Examples.cfg escapeCtx
                (Engine.mkLocals (Val "0123456789abcdef") None) built)
      as [r w'] eqn:E.
    destruct (ReleaseFacts.releaseStep_copies_within_repo _ _ _ _ _ _ E)
      as [Rej _].
    destruct (Rej "Build output path must stay within the project repository")
      as [-> ->]; [vm_compute; reflexivity|reflexivity].
Defined.

Lemma enter_full_witness :
  exists msg st',
    Engine.enter Examples.cfg "p1" false busy = (Throw msg, st')
    /\ Engine.world st' = Engine.world busy
    /\ Engine.q st' = Engine.q busy
    /\ msg = "Deployment queue is full. Try again later.".
Proof.
  destruct (QueueFacts.enter_full Examples.cfg "p1" false busy)
    as (msg & st' & E & W & Q & M).
  - vm_compute. discriminate.
  - exists msg, st'. repeat split; try assumption.
    apply M. vm_compute. reflexivity.
Defined.

Lemma sequential_call_keeps_bound_witness :
  exists r st',
    Engine.queueDeployment Examples.cfg Examples.uuid "p1" false
                           Examples.state0 = (r, st')
    /\ (Engine.load st' <= Engine.MAX_QUEUE_SIZE Examples.cfg)%Z
    /\ Engine.admitted st' = [].
Proof.
  destruct (Engine.queueDeployment Examples.cfg Examples.uuid "p1" false
              Examples.state0) as [r st'] eqn:E.
  exists r, st'. split; [reflexivity|].
  destruct (QueueFacts.sequential_call_keeps_bound
              Examples.cfg Examples.uuid "p1" false Examples.state0 r st')
    as (L & A & _).
  - reflexivity.
  - vm_compute. discriminate.
  - exact E.
  - split; assumption.
Defined.

Lemma fresh_iv_changes_blob_witness :
  exists x x',
    Examples.encryptSecret Examples.iv0 [0x68; 0x69]%Z = Ok x
    /\ Examples.encryptSecret Examples.iv1 [0x68; 0x69]%Z = Ok x'
    /\ x <> x'.
Proof.
  destruct (Examples.encryptSecret Examples.iv0 [0x68; 0x69]%Z)
    as [x|m] eqn:E0; [|vm_compute in E0; discriminate E0].
  destruct (Examples.encryptSecret Examples.iv1 [0x68; 0x69]%Z)
    as [x'|m] eqn:E1; [|vm_compute in E1; discriminate E1].
  exists x, x'. split; [reflexivity|]. split; [reflexivity|].
  apply (SecretsFacts.fresh_iv_changes_blob Examples.MASTER_KEY
           Examples.sha256 Examples.keystream Examples.mac
           ltac:(discriminate) Examples.iv0 Examples.iv1 [0x68; 0x69]%Z x x');
    [reflexivity|reflexivity|vm_compute; discriminate|exact E0|exact E1].
Defined.

Lemma seal_opens n v blob :
  seal n v = Ok blob -> exists text, unseal blob = Ok text.
Proof.
  destruct v as [| |text]; try discriminate. intros [= <-].
  eexists. reflexivity.
Qed.

Lemma stored_entries_are_sealed_witness :
  exists next,
    Storage.formatEnvForStorage seal [] (Some submitted) = Ok next
    /\ next = [mkEnv (Val "NODE_ENV") false (Val "production") Absent;
               mkEnv (Val "API_TOKEN") true Absent (Val "sealed:hunter2")]
    /\ Forall (StoredEnv.sealed seal []) next.
Proof.
  eexists. split; [reflexivity|]. split; [reflexivity|].
  apply (StorageFacts.stored_entries_are_sealed seal [] submitted).
  reflexivity.
Defined.

Lemma saved_environment_loads_witness :
  exists w' pr maps,
    Storage.saveProject seal "p3" newProject Examples.world0 = (Ok tt, w')
    /\ ProjectStore.getProject "p3" w' = (Ok (Some pr), w')
    /\ EnvBuilder.buildEnvMaps unseal (Engine.envEntriesOf pr) = Ok maps
    /\ In (Some (mkEnv (Val "__proto__") false (Val "x") Absent))
          (Engine.envEntriesOf pr)
    /\ EnvBuilder.secretEnv maps !! "API_TOKEN" = Some "hunter2"
    /\ EnvBuilder.plainEnv maps !! "NODE_ENV" = Some "production"
    /\ EnvBuilder.secretKeys maps = ["API_TOKEN"]
    /\ (forall u, In (Some u) (Storage.envUpdatesOf newProject) ->
                  truthyS (e_key u) = true ->
                  EnvBuilder.keyOf u <> "__proto__" ->
                  StoredEnv.loaded maps u)
    /\ StoredEnv.protoFree maps.
Proof.
  destruct (Storage.saveProject seal "p3" newProject Examples.world0)
    as [[[]|msg] w'] eqn:E; [|vm_compute in E; discriminate E].
  destruct (StorageFacts.saved_environment_loads seal unseal seal_opens
              "p3" newProject Examples.world0 w' E)
    as (pr & maps & G & B & L).
  exists w', pr, maps. split; [reflexivity|]. split; [exact G|].
  split; [exact B|].
  assert (M : In (Some (mkEnv (Val "__proto__") false (Val "x") Absent))
                 (Engine.envEntriesOf pr)
              /\ EnvBuilder.secretEnv maps !! "API_TOKEN" = Some "hunter2"
              /\ EnvBuilder.plainEnv maps !! "NODE_ENV" = Some "production"
              /\ EnvBuilder.secretKeys maps = ["API_TOKEN"]).
  { vm_compute in E. injection E as <-.
    vm_compute in G. injection G as <-.
    vm_compute in B. injection B as <-.
    split; [vm_compute; tauto|]. repeat split. }
  destruct M as (M0 & M1 & M2 & M3).
  split; [exact M0|].
  split; [exact M1|]. split; [exact M2|]. split; [exact M3|]. exact L.
Defined.

Lemma generated_project_directory_witness :
  exists base,
    Config.PROJECTS_DIR cfgRelative = "/" ++ join "/" base
    /\ Server.slugifyProjectId toLowerCase ".." "My_App.js" 17 = "my-app-js"
    /\ ProjectStore.projectRoot cfgRelative
         (Server.slugifyProjectId toLowerCase ".." "My_App.js" 17)
       = "/" ++ join "/"
           (base ++ [Server.slugifyProjectId toLowerCase ".." "My_App.js" 17])
    /\ Forall Normal.component
         (base ++ [Server.slugifyProjectId toLowerCase ".." "My_App.js" 17]).
Proof.
  destruct (ProjectDirFacts.generated_project_directory cfgRelative
              toLowerCase "../deploy/projects" ".." "My_App.js" 17)
    as (base & P & R & F).
  - reflexivity.
  - vm_compute. reflexivity.
  - exists base. split; [exact P|]. split; [vm_compute; reflexivity|].
    split; [exact R|exact F].
Defined.

Lemma rollback_restores_previous_witness :
  exists w',
    Engine.rollbackProject Examples.cfg Examples.printenv "p1" released
    = (Ok tt, w')
    /\ fs (ext w') !! "/var/www/p1"
       = Some (Link "/var/deploy/projects/p1/releases/1-0123456")
    /\ fs (ext w') !! "/var/deploy/projects/p1/current"
       = Some (Link "/var/deploy/projects/p1/releases/1-0123456").
Proof.
  destruct (Engine.rollbackProject Examples.cfg Examples.printenv "p1"
              released) as [[[]|msg] w'] eqn:E;
    [|vm_compute in E; discriminate E].
  exists w'. split; [reflexivity|].
  destruct (RestoreFacts.rollback_restores_previous Examples.cfg
              Examples.printenv "p1" released w')
    as (target & pr & dp & safe & P & F & D & G & _ & _ & S & C).
  - intros n cmd args o m. reflexivity.
  - exact E.
  - vm_compute in P. injection P as <-.
    vm_compute in F. injection F as <-.
    vm_compute in D. injection D as <-.
    vm_compute in G. injection G as <-.
    split.
    + apply S. repeat split; vm_compute; discriminate.
    + apply C; [repeat split; vm_compute; discriminate
               |vm_compute; discriminate|vm_compute; reflexivity].
Defined.

Lemma default_deploy_path_is_served_witness :
  Validator.resolveDeployPath "/var/www" "/srv/api" None (Some "my-app-js")
  = Ok "/var/www/my-app-js"
  /\ Engine.ensureDeployPathWithinRoot Examples.cfg "/var/www/my-app-js"
     = Ok "/var/www/my-app-js".
Proof.
  apply (DeployPathFacts.default_deploy_path_is_served Examples.cfg
           "/var/www/" "my-app-js").
  - reflexivity.
  - vm_compute. reflexivity.
  - discriminate.
  - repeat split; discriminate || reflexivity.
Defined.

Lemma unknown_template_is_admitted_and_never_finishes_witness :
  Engine.admissionCheck Examples.cfg
    (found "p4" (projects world5)) 0 0 = Ok tt
  /\ exists w' d',
       Examples.runDeployment (Engine.mkJob "d4" "p4" false) world5
       = (Throw "Command template missing or invalid for this project", w')
       /\ deployments w' !! "d4" = Some d'
       /\ status d' = Running
       /\ steps d' = ∅
       /\ finishedAt d' = Null
       /\ error d' = Absent.
Proof.
  split; [vm_compute; reflexivity|].
  apply (AdmissionFacts.unknown_template_is_admitted_and_never_finishes
           Examples.cfg Examples.decryptSecret Examples.spawn ∅ 7%Z
           Examples.toNumber (Engine.mkJob "d4" "p4" false) world5
           (ProjectStore.withDefaults "p4" p4)
           (mkDeployment "d4" "p4" Queued 1 Null Null ∅ Null
                         "/var/deploy/logs/p4/d4.log" false Absent) 0 0).
  - vm_compute. reflexivity.
  - vm_compute. reflexivity.
  - vm_compute. reflexivity.
  - vm_compute. reflexivity.
  - vm_compute. reflexivity.
  - intros content. vm_compute. discriminate.
Defined.

Lemma missing_project_is_reported_as_missing_deployPath_witness :
  exists r st',
    Engine.enter Examples.cfg "nobody" false Examples.state0 = (r, st')
    /\ r = Throw "Project missing deployPath" /\ st' = Examples.state0.
Proof.
  destruct (Engine.enter Examples.cfg "nobody" false Examples.state0)
    as [r st'] eqn:E.
  exists r, st'. split; [reflexivity|].
  apply (AdmissionFacts.missing_project_is_reported_as_missing_deployPath
           Examples.cfg "nobody" false Examples.state0 r st' E).
  vm_compute. reflexivity.
Defined.

Lemma getProject_total_and_admin_default_witness :
  exists pr c w1,
    ProjectStore.getProject "p5" world6 = (Ok (Some pr), world6)
    /\ ownerId pr = Val "admin"
    /\ templateId pr = Null
    /\ buildCommand pr = Val "make site"
    /\ testCommand pr = Val "make check"
    /\ Engine.admissionCheck Examples.cfg (Some pr) 0 0 = Ok tt
    /\ Engine.prelude Examples.cfg Examples.decryptSecret ∅ 7%Z
         Examples.toNumber ownerlessJob world6 = (Ok c, w1)
    /\ Engine.c_isAdminProject c = true
    /\ Engine.c_templateCommands c = None
    /\ (forall l w2 r w3,
          Engine.buildStep Examples.spawn c l w2 = (r, w3) ->
          trace (ext w3)
          = (trace (ext w2) ++ [ESpawn "bash" ["-lc"; "make site"]])%list)
    /\ (forall l w2 r w3,
          Engine.testStep Examples.spawn c l w2 = (r, w3) ->
          trace (ext w3)
          = (trace (ext w2) ++ [ESpawn "bash" ["-lc"; "make check"]])%list)
    /\ exists r w',
         Engine.runDeployment Examples.cfg Examples.decryptSecret
           Examples.spawn ∅ 7%Z Examples.toNumber ownerlessJob world6
         = (r, w')
         /\ In (ESpawn "bash" ["-lc"; "make check"]) (trace (ext w'))
         /\ In (ESpawn "bash" ["-lc"; "make site"]) (trace (ext w')).
Proof.
  destruct (ProjectFacts.getProject_total_and_admin_default "p5" world6)
    as (_ & _ & H).
  assert (Hd : projects world6 !! "p5" = Some (JsonObject p5))
    by (vm_compute; reflexivity).
  destruct (H p5 Hd)
    as (pr & G & O & T & _ & _ & _ & _ & _ & _ & Ct & Cb & _ & E).
  destruct (E eq_refl) as (_ & _ & Adm & _ & Run).
  destruct (Run Examples.cfg Examples.decryptSecret Examples.spawn ∅ 7%Z
              Examples.toNumber ownerlessJob world6 "/var/www/p5"
              "/var/www/p5" (EnvBuilder.mkMaps ∅ ∅ []))
    as (c & w1 & P & J & A & Tc & B & Te).
  { reflexivity. }
  { reflexivity. }
  { intros content. vm_compute. discriminate. }
  { reflexivity. }
  { vm_compute. reflexivity. }
  { vm_compute. reflexivity. }
  exists pr, c, w1.
  split; [exact G|]. split; [exact (O eq_refl)|]. split; [exact (T eq_refl)|].
  split; [exact Cb|]. split; [exact Ct|].
  split.
  { apply (Adm Examples.cfg 0%nat 0%nat "/var/www/p5" "/var/www/p5");
      vm_compute; reflexivity. }
  split; [exact P|]. split; [exact A|]. split; [exact Tc|].
  split; [exact (B eq_refl)|]. split; [exact (Te eq_refl eq_refl)|].
  destruct (Engine.runDeployment Examples.cfg Examples.decryptSecret
              Examples.spawn ∅ 7%Z Examples.toNumber ownerlessJob world6)
    as [r w'] eqn:R.
  exists r, w'. split; [reflexivity|].
  vm_compute in R. injection R as _ <-.
  split; vm_compute; tauto.
Defined.
